(** * Deduplicator: label algebra, blocking rules, splitter, engine and metrics

    A shallow embedding of the core of the [deduplicator] package and
    the proofs of its specification.  Part I gives the definitions, one
    module per Python source file; Part II gives the lemmas.

    Conventions.  Python lists are [list]; a mention id that comes from
    [enumerate] is a [nat]; a value that the caller supplies as a Python
    [int] and that is used as an index is a [Z], with negative indexing
    and [IndexError] written out.  Cluster labels are [Z] ([-1] is
    noise).  Dicts are [gmap]s, sets are [gset]s.  A float is the
    rational [Q] that it denotes; the pair counts of the metrics and
    the scores computed from them round after every operation
    ([binary64.round]), the other ratios are exact. *)

From Stdlib Require Import ZArith QArith Qround Qpower Lia Lqa.
From stdpp Require Import base option list sorting gmap strings relations.

#[local] Open Scope Z_scope.

(** ** Part I: definitions *)

(* ===================================================================== *)
(** *** deduplicator/utils/er_utils.py *)
(* ===================================================================== *)
Module er_utils.

Abbreviation ClusterId := Z (only parsing).
Abbreviation LinkedPair := (nat * nat)%type (only parsing).

(** [labels_to_pairs]: the loop over [enumerate(labels)].  [pairs] is
    the output list, [clusters_dict] maps a label to the nodes seen so
    far that carry it (in increasing order). *)
Fixpoint labels_to_pairs_loop (node : nat) (labels : list ClusterId)
    (pairs : list LinkedPair) (clusters_dict : gmap Z (list nat))
    : list LinkedPair :=
  match labels with
  | [] => pairs
  | label :: rest =>
      let linked := default [] (clusters_dict !! label) in
      labels_to_pairs_loop (S node) rest
        (pairs ++ ((λ linked_node, (node, linked_node)) <$> linked))
        (<[label := linked ++ [node]]> clusters_dict)
  end.

(** [None] is the failed assertion [-1 not in labels]. *)
Definition labels_to_pairs (labels : list ClusterId)
    : option (list LinkedPair) :=
  if decide ((-1) ∈ labels) then None
  else Some (labels_to_pairs_loop 0 labels [] ∅).

(** [pairs_to_labels].  [node_matches] is a list of Python sets; the
    assignment [node_matches[node_b] = node_matches[node_a]] makes two
    slots share one set object, and a later [update] through one slot
    is seen through the other.  The store below keeps the objects in
    [heap] (address = position; the list comprehension allocates
    object [i] as [{i}]) and the slots in [node_matches] (addresses). *)
Record store := Store {
  node_matches : list nat;
  heap : list (gset nat)
}.

Definition init_store (total_mentions : nat) : store :=
  Store (seq 0 total_mentions) ((λ i, {[ i ]}) <$> seq 0 total_mentions).

(** The set a slot refers to. *)
Definition deref (s : store) (node : nat) : option (gset nat) :=
  r ← node_matches s !! node; heap s !! r.

(** One iteration of [for pair in pairs]; [None] is [IndexError]. *)
Definition link_step (s : store) (lp : LinkedPair) : option store :=
  let '(node_a, node_b) := lp in
  ra ← node_matches s !! node_a;
  rb ← node_matches s !! node_b;
  sa ← heap s !! ra;
  sb ← heap s !! rb;
  let heap' := <[ra := sa ∪ sb]> (heap s) in
  Some (Store (<[node_b := ra]> (node_matches s)) heap').

Fixpoint link_all (s : store) (pairs : list LinkedPair) : option store :=
  match pairs with
  | [] => Some s
  | lp :: rest => s' ← link_step s lp; link_all s' rest
  end.

(** [l[i] = x] for an index in range; [None] is [IndexError]. *)
Definition set_item {A} (l : list A) (i : nat) (x : A) : option (list A) :=
  if decide (i < length l)%nat then Some (<[i := x]> l) else None.

(** [for l_node in linked_nodes: final_labels[l_node] = cluster_idx] *)
Fixpoint propagate (final_labels : list Z) (linked_nodes : list nat)
    (cluster_idx : Z) : option (list Z) :=
  match linked_nodes with
  | [] => Some final_labels
  | l_node :: rest =>
      fl ← set_item final_labels l_node cluster_idx;
      propagate fl rest cluster_idx
  end.

(** The labelling loop [for node, linked_nodes in enumerate(node_matches)];
    [slots] are the slots still to visit and [node] the index of the
    first of them. *)
Fixpoint assign_labels (h : list (gset nat)) (drop_singletons : bool)
    (slots : list nat) (node : nat) (final_labels : list Z)
    (cluster_idx : Z) : option (list Z) :=
  match slots with
  | [] => Some final_labels
  | r :: rest =>
      let linked_nodes := default ∅ (h !! r) in
      if decide (default (-1) (final_labels !! node) > -1) then
        assign_labels h drop_singletons rest (S node) final_labels cluster_idx
      else if drop_singletons && bool_decide (size linked_nodes = 1%nat) then
        assign_labels h drop_singletons rest (S node) final_labels cluster_idx
      else
        fl ← propagate final_labels (elements linked_nodes) cluster_idx;
        assign_labels h drop_singletons rest (S node) fl (cluster_idx + 1)
  end.

Definition pairs_to_labels (pairs : list LinkedPair) (total_mentions : nat)
    (drop_singletons : bool) : option (list ClusterId) :=
  s ← link_all (init_store total_mentions) pairs;
  assign_labels (heap s) drop_singletons (node_matches s) 0
    (replicate total_mentions (-1)) 0.

(** [clusters_to_labels].  A cluster is a dict; its keys are mention
    ids or the special key ["cluster_id"].  Keys are listed in the
    dict's iteration order. *)
Inductive key := CLUSTER_ID | Mention (m : Z).

Inductive outcome :=
| Labels (labels : list ClusterId)
| DuplicateMembership (node : Z)      (* ValueError *)
| IndexError.

(** Python's [labels[node]] for an [int] index. *)
Definition py_index (len : nat) (node : Z) : option nat :=
  if decide (0 ≤ node < Z.of_nat len) then Some (Z.to_nat node)
  else if decide (- Z.of_nat len ≤ node < 0) then
    Some (Z.to_nat (Z.of_nat len + node))
  else None.

Fixpoint assign_cluster (labels : list Z) (cluster_idx : Z)
    (mention_ids : list key) : outcome :=
  match mention_ids with
  | [] => Labels labels
  | CLUSTER_ID :: rest => assign_cluster labels cluster_idx rest
  | Mention node :: rest =>
      match py_index (length labels) node with
      | None => IndexError
      | Some i =>
          if decide (default (-1) (labels !! i) > -1) then
            DuplicateMembership node
          else assign_cluster (<[i := cluster_idx]> labels) cluster_idx rest
      end
  end.

Fixpoint assign_clusters (labels : list Z) (cluster_idx : Z)
    (clusters : list (list key)) : outcome :=
  match clusters with
  | [] => Labels labels
  | mention_ids :: rest =>
      match assign_cluster labels cluster_idx mention_ids with
      | Labels labels' => assign_clusters labels' (cluster_idx + 1) rest
      | err => err
      end
  end.

(** The loop that gives fresh labels to the mentions left at [-1]. *)
Fixpoint fill_singletons (labels : list Z) (cluster_idx : Z) : list Z :=
  match labels with
  | [] => []
  | node_label :: rest =>
      if decide (node_label = -1) then
        cluster_idx :: fill_singletons rest (cluster_idx + 1)
      else node_label :: fill_singletons rest cluster_idx
  end.

Definition clusters_to_labels (clusters : list (list key))
    (total_mentions : nat) (drop_singletons : bool) : outcome :=
  match assign_clusters (replicate total_mentions (-1)) 0 clusters with
  | Labels labels =>
      if drop_singletons then Labels labels
      else Labels (fill_singletons labels (Z.of_nat (length clusters)))
  | err => err
  end.

End er_utils.

(* ===================================================================== *)
(** *** deduplicator/utils/iter_utils.py *)
(* ===================================================================== *)
Module iter_utils.

(** [islice(seq, start, end)] on a list. *)
Definition islice {A} (seq : list A) (start end_ : nat) : list A :=
  take (end_ - start) (drop start seq).

(** [sliding_window]: the [while True] loop.  [None] stands for a loop
    that has not reached its [break] within [fuel] iterations. *)
Fixpoint sliding_window_loop {A} (fuel : nat) (seq : list A)
    (window_size step_size start end_ : nat) : option (list (list A)) :=
  match fuel with
  | O => None
  | S fuel' =>
      let window := islice seq start end_ in
      if decide (length window < window_size)%nat then Some [window]
      else
        ws ← sliding_window_loop fuel' seq window_size step_size
               (start + step_size) (end_ + step_size);
        Some (window :: ws)
  end.

Definition sliding_window {A} (fuel : nat) (seq : list A)
    (window_size step_size : nat) : option (list (list A)) :=
  sliding_window_loop fuel seq window_size step_size 0 window_size.

(** [iter_pairwise]: [zip(a, b)] with [b] one step ahead. *)
Definition iter_pairwise {A} (l : list A) : list (A * A) :=
  zip l (tail l).

(** [itertools.combinations(l, 2)]. *)
Fixpoint combinations2 {A} (l : list A) : list (A * A) :=
  match l with
  | [] => []
  | x :: rest => ((λ y, (x, y)) <$> rest) ++ combinations2 rest
  end.

(** [batched]: the iterator [it] is the list of the items not yet
    consumed; [islice(it, batch_size)] takes the first [batch_size] of
    them.  [None] stands for a loop that has not reached its [break]
    within [fuel] iterations. *)
Fixpoint batched_loop {A} (fuel : nat) (it : list A) (batch_size : nat)
    : option (list (list A)) :=
  match fuel with
  | O => None
  | S fuel' =>
      match take batch_size it with
      | [] => Some []
      | batch =>
          bs ← batched_loop fuel' (drop batch_size it) batch_size;
          Some (batch :: bs)
      end
  end.

Definition batched {A} (fuel : nat) (iterable : list A) (batch_size : nat)
    : option (list (list A)) :=
  batched_loop fuel iterable batch_size.

(** [all_pairs_for]; [verbose] only adds a progress bar. *)
Definition all_pairs_for {A} (seq : list A) (return_one_pair : bool)
    : list (A * A) :=
  match return_one_pair, seq with
  | true, [value] => [(value, value)]
  | _, _ => combinations2 seq
  end.

Definition all_pairs_for_range (k : nat) : list (nat * nat) :=
  combinations2 (seq 0 k).

(** [unique_everseen]: [seen] holds the keys met so far ([seenset], or
    [seenlist] for unhashable keys). *)
Fixpoint unique_everseen_loop {A K} `{!EqDecision K} (key : A → K)
    (seen : list K) (iterable : list A) : list A :=
  match iterable with
  | [] => []
  | element :: rest =>
      let k := key element in
      if decide (k ∈ seen) then unique_everseen_loop key seen rest
      else element :: unique_everseen_loop key (k :: seen) rest
  end.

Definition unique_everseen {A K} `{!EqDecision K} (key : A → K)
    (iterable : list A) : list A :=
  unique_everseen_loop key [] iterable.

(** [flatten]: [chain.from_iterable]. *)
Definition flatten {A} (iterable : list (list A)) : list A :=
  concat iterable.

(** [take_unique_everseen], for hashable keys. *)
Fixpoint take_unique_everseen_loop {A K} `{!EqDecision K} (key : A → K)
    (limit : Z) (seenset : list K) (iterable : list A) : list A :=
  match iterable with
  | [] => []
  | element :: rest =>
      let k := key element in
      let seenset' := if decide (k ∈ seenset) then seenset else k :: seenset in
      if decide (Z.of_nat (length seenset') ≤ limit) then
        element :: take_unique_everseen_loop key limit seenset' rest
      else take_unique_everseen_loop key limit seenset' rest
  end.

Definition take_unique_everseen {A K} `{!EqDecision K} (key : A → K)
    (iterable : list A) (limit : Z) : list A :=
  take_unique_everseen_loop key limit [] iterable.

End iter_utils.

(* ===================================================================== *)
(** *** deduplicator/blockings/pruners/sorted_neighbourhood_splitter.py *)
(* ===================================================================== *)
Module sorted_neighbourhood_splitter.

Section splitter.
Context {Record_ BlockId : Type}.
(** The sorting key and its order ([<] on Python tuples). *)
Context {K : Type} (key_lt : K → K → Prop) `{!RelDecision key_lt}.
Variable sorting_key_fn : Record_ → K.

(** [sorted(block, key=...)]: a stable sort, here by insertion. *)
Fixpoint insert_sorted (x : Record_) (l : list Record_) : list Record_ :=
  match l with
  | [] => [x]
  | y :: l' =>
      if decide (key_lt (sorting_key_fn x) (sorting_key_fn y))
      then x :: y :: l'
      else y :: insert_sorted x l'
  end.

Definition sorted (block : list Record_) : list Record_ :=
  foldl (λ acc x, insert_sorted x acc) [] block.

Record SortedNeighbourhoodBlockSplitter := {
  max_block_size : nat;
  window_size : nat;
  step_size : nat
}.

(** [__call__]: the list of the [(block_id, sub_block)] it yields. *)
Definition __call__ (self : SortedNeighbourhoodBlockSplitter) (fuel : nat)
    (block_id : BlockId) (block : list Record_)
    : option (list (BlockId * list Record_)) :=
  if decide (length block ≤ max_block_size self)%nat then
    Some [(block_id, block)]
  else
    match iter_utils.sliding_window fuel (sorted block)
            (window_size self) (step_size self) with
    | Some ws => Some ((λ window, (block_id, window)) <$> ws)
    | None => None
    end.
End splitter.

End sorted_neighbourhood_splitter.

(* ===================================================================== *)
(** *** Library functions the package calls (numpy, pandas, igraph)

    These libraries are outside the repository.  Each function below is
    a model of the documented behaviour of the library function that the
    package calls, written to be executable. *)
(* ===================================================================== *)

(** Ordinal encoding by order of first appearance, shared by
    [pd.factorize] and by the numbering of graph components. *)
Section ordinal.
Context {A : Type} `{!EqDecision A}.

Fixpoint index_of (x : A) (l : list A) : nat :=
  match l with
  | [] => 0
  | y :: l' => if decide (x = y) then 0%nat else S (index_of x l')
  end.

Fixpoint first_seen (seen l : list A) : list A :=
  match l with
  | [] => seen
  | x :: l' =>
      if decide (x ∈ seen) then first_seen seen l'
      else first_seen (seen ++ [x]) l'
  end.

Definition ordinal_codes (l : list A) : list Z :=
  (λ x, Z.of_nat (index_of x (first_seen [] l))) <$> l.
End ordinal.

(* ===================================================================== *)
(** *** IEEE 754 binary64, the [float] of Python and numpy's [float64] *)
(* ===================================================================== *)
Module binary64.

(** A finite float is the rational it denotes.  Every operation
    computes the exact result and rounds it to the nearest number with
    a significand of 53 bits, ties to the even significand.  The
    exponent is not bounded: overflow to [inf] (beyond [1.8e308]) and
    gradual underflow (below [2.3e-308]) are left out. *)

(** [floor(log2 q)] for [0 < q]. *)
Definition ilog2 (q : Q) : Z :=
  let d := Z.log2 (Qnum q) - Z.log2 (Zpos (Qden q)) in
  if Qle_bool (2 ^ d) q then d else d - 1.

(** The integer nearest to [x], the even one on a tie. *)
Definition rne (x : Q) : Z :=
  let f := Qfloor x in
  match (x - inject_Z f ?= 1 # 2)%Q with
  | Lt => f
  | Gt => f + 1
  | Eq => if Z.even f then f else f + 1
  end.

(** For [2^e ≤ q < 2^(e+1)] the floats around [q] are the multiples of
    [2^(e-52)]. *)
Definition round_pos (q : Q) : Q :=
  let e := ilog2 q in
  Qred (inject_Z (rne (q * 2 ^ (52 - e))) * 2 ^ (e - 52)).

Definition round (q : Q) : Q :=
  match (q ?= 0)%Q with
  | Eq => 0
  | Gt => round_pos q
  | Lt => - round_pos (- q)
  end.

Definition add (x y : Q) : Q := round (x + y).
Definition sub (x y : Q) : Q := round (x - y).
Definition mul (x y : Q) : Q := round (x * y).
Definition div (x y : Q) : Q := round (x / y).

(** Python's [int(x)] on a float: truncation towards zero. *)
Definition int (x : Q) : Z := Qnum x `quot` Zpos (Qden x).

End binary64.

Module numpy.

(** [np.unique(ar, return_counts=True)]: sort, then measure the runs of
equal elements.  [le] is the order numpy sorts by. *)
Section unique.
Context {A : Type} `{!EqDecision A} (le : relation A) `{!RelDecision le}.

Fixpoint run_lengths (l : list A) : list (A * Z) :=
  match l with
  | [] => []
  | x :: l' =>
      match run_lengths l' with
      | (y, n) :: r =>
          if decide (x = y) then (x, n + 1) :: r else (x, 1) :: (y, n) :: r
      | [] => [(x, 1)]
      end
  end.

Definition unique_counts (ar : list A) : list (A * Z) :=
  run_lengths (merge_sort le ar).
End unique.

(** The order of the columns of a 2-row array ([axis=1]). *)
Definition lex_le (x y : Z * Z) : Prop :=
  x.1 < y.1 ∨ (x.1 = y.1 ∧ x.2 ≤ y.2).

#[global] Instance lex_le_dec : RelDecision lex_le.
Proof. intros x y. unfold lex_le. apply _. Defined.

(** The order of the rows of a 2-dimensional array ([axis=0]). *)
Fixpoint row_le (x y : list Z) : Prop :=
  match x, y with
  | [], _ => True
  | _ :: _, [] => False
  | a :: x', b :: y' => a < b ∨ (a = b ∧ row_le x' y')
  end.

#[global] Instance row_le_dec : RelDecision row_le.
Proof.
  intros x. induction x as [|a x IH]; intros [|b y]; simpl; apply _.
Defined.

(** [np.unique(arr, axis=0, return_inverse=True)[1]]: for each row its
position among the sorted distinct rows. *)
Definition unique_inverse (rows : list (list Z)) : list Z :=
  let uniques := (unique_counts row_le rows).*1 in
  (λ row, Z.of_nat (index_of row uniques)) <$> rows.

(** [np.array(columns).T]: the rows of the transposed array. *)
Definition transpose (columns : list (list Z)) : list (list Z) :=
  match columns with
  | [] => []
  | c :: _ =>
      (λ i, (λ col : list Z, default 0 (col !! i)) <$> columns)
        <$> seq 0 (length c)
  end.

(** [np.sum] of a [float64] array: the reduction adds numpy's pairwise
    sum of the items to the identity [0].  Fewer than 8 items are added
    one after the other; up to 128 items are added in 8 interleaved
    partial sums, which are then combined, and the items after the last
    full group of 8 are added one after the other; a longer array is
    split in two (the first part of a multiple of 8 items) and the sums
    of the parts are added. *)
Fixpoint add_blocks (r a : list Q) (blocks : nat) : list Q * list Q :=
  match blocks with
  | O => (r, a)
  | S blocks =>
      add_blocks (zip_with binary64.add r (take 8 a)) (drop 8 a) blocks
  end.

Fixpoint pairwise_sum (fuel : nat) (a : list Q) : Q :=
  let n := length a in
  if decide (n < 8)%nat then foldl binary64.add 0%Q a
  else if decide (n ≤ 128)%nat then
    let '(r, rest) := add_blocks (take 8 a) (drop 8 a) (n / 8 - 1) in
    match r with
    | [r0; r1; r2; r3; r4; r5; r6; r7] =>
        let res :=
          binary64.add
            (binary64.add (binary64.add r0 r1) (binary64.add r2 r3))
            (binary64.add (binary64.add r4 r5) (binary64.add r6 r7)) in
        foldl binary64.add res rest
    | _ => 0%Q
    end
  else
    match fuel with
    | O => 0%Q
    | S fuel =>
        let n2 := (n / 2 - (n / 2) `mod` 8)%nat in
        binary64.add (pairwise_sum fuel (take n2 a))
                     (pairwise_sum fuel (drop n2 a))
    end.

Definition sum (a : list Q) : Q :=
  binary64.add 0 (pairwise_sum (length a) a).

End numpy.

Module scipy.

(** [scipy.special.comb(N, 2)] with the default [exact=False], on a
    count [N] (an integer below [2^53], which the conversion to
    [float64] keeps): [0] when [N < 2]; otherwise the multiplication
    loop of [binom], which multiplies [N - 1] by [N] and divides by 2,
    in floating point (for [N] of 2 or 3 [binom] first replaces [k] by
    [N - k]; the value, 1 or 3, is the same). *)
Definition comb (N : Z) : Q :=
  if decide (2 ≤ N)
  then binary64.div (binary64.mul (inject_Z (N - 1)) (inject_Z N)) 2
  else 0%Q.

End scipy.

Module pandas.

(** A data frame built from a list of records: row [i] is record [i],
and a column holds, for each row, the value of the attribute or a
missing value ([None], pandas' NaN). *)
Section frame.
Context {V : Type} `{!EqDecision V}.

Definition column (df : list (gmap string V)) (name : string)
    : option (list (option V)) :=
  if decide (Exists (λ r, is_Some (r !! name)) df)
  then Some ((λ r, r !! name) <$> df)
  else None.                                          (* KeyError *)

(** [pd.factorize(column)[0]]: codes by order of first appearance,
[-1] for a missing value. *)
Definition factorize (col : list (option V)) : list Z :=
  let uniques := first_seen [] (omap id col) in
  (λ c, match c with
        | Some v => Z.of_nat (index_of v uniques)
        | None => -1
        end) <$> col.
End frame.

(** [pd.DataFrame({"groups": groups}).groupby("groups").indices.values()]:
for each label, in increasing order, the positions that carry it. *)
Definition groupby_indices (groups : list Z) : list (list nat) :=
  (λ k, filter (λ i, groups !! i = Some k) (seq 0 (length groups)))
    <$> (numpy.unique_counts Z.le groups).*1.

End pandas.

Module igraph.

(** An undirected graph on the vertices [0 .. vcount - 1]; an edge is
listed once, in either orientation. *)
Record Graph := {
  vcount : nat;
  edges : list (nat * nat)
}.

(** [ig.Graph(n=...)] followed by [add_edges]. *)
Definition Graph_with_edges (n : nat) (es : list (nat * nat)) : Graph :=
  {| vcount := n; edges := es |}.

Definition has_edge (g : Graph) (u v : nat) : Prop :=
  (u, v) ∈ edges g ∨ (v, u) ∈ edges g.

#[global] Instance has_edge_dec g u v : Decision (has_edge g u v).
Proof. unfold has_edge. apply _. Defined.

(** The graph that [ig.union(graphs)] returns: the edges present in
any of the graphs. *)
Definition union_of (graphs : list Graph) : Graph :=
  {| vcount := foldr Nat.max 0%nat (vcount <$> graphs);
     edges := remove_dups (graphs ≫= edges) |}.

(** The graph that [ig.intersection(graphs)] returns: the edges present
in all of the graphs. *)
Definition intersection_of (graphs : list Graph) : Graph :=
  {| vcount := foldr Nat.max 0%nat (vcount <$> graphs);
     edges := match graphs with
              | [] => []
              | g :: rest =>
                  filter (λ e, Forall (λ g', has_edge g' e.1 e.2) rest)
                         (remove_dups (edges g))
              end |}.

(** [ig.union(graphs)] and [ig.intersection(graphs)]: igraph raises an
error on an empty list ([None]). *)
Definition union (graphs : list Graph) : option Graph :=
  match graphs with
  | [] => None
  | _ => Some (union_of graphs)
  end.

Definition intersection (graphs : list Graph) : option Graph :=
  match graphs with
  | [] => None
  | _ => Some (intersection_of graphs)
  end.

(** [graph.clusters().membership]: the connected components.  Every
vertex starts in a component of its own; an edge merges the components
of its ends; the components are then numbered in the order of their
first vertex. *)
Definition merge (labels : list nat) (e : nat * nat) : list nat :=
  match labels !! e.1, labels !! e.2 with
  | Some lu, Some lv => (λ l, if decide (l = lv) then lu else l) <$> labels
  | _, _ => labels
  end.

Definition components (g : Graph) : list nat :=
  foldl merge (seq 0 (vcount g)) (edges g).

Definition membership (g : Graph) : list Z :=
  ordinal_codes (components g).

End igraph.

(* ===================================================================== *)
(** *** deduplicator/blockings/rules: blocking_rule_base.py,
    group_by_exact_rules.py, group_by_logical_operations.py *)
(* ===================================================================== *)
Module blocking_rules.

(** The [level] of a rule: ["groups"] or ["graph"]. *)
Inductive level := groups_level | graph_level.

(** The fields of a rule object that [fit] sets. *)
Record state := {
  _graph : option igraph.Graph;
  _groups : option (list Z);
  _update_graph : bool;
  _update_groups : bool
}.

(** [graph_from_groups]: a clique per group. *)
Definition graph_from_groups (groups : list Z) : igraph.Graph :=
  let clust := pandas.groupby_indices groups in
  igraph.Graph_with_edges (length groups)
    (clust ≫= iter_utils.combinations2).

(** The body of [get_path_graph] once [groups] is known: a path per
group, over [n = df.shape[0]] vertices. *)
Definition path_graph (n : nat) (groups : list Z) : igraph.Graph :=
  let clust := pandas.groupby_indices groups in
  igraph.Graph_with_edges n (clust ≫= iter_utils.iter_pairwise).

(** The properties [graph] and [groups]. *)
Definition graph (self : state) : option igraph.Graph :=
  if _update_graph self then graph_from_groups <$> _groups self
  else _graph self.

Definition groups (self : state) : option (list Z) :=
  if _update_groups self then igraph.membership <$> _graph self
  else _groups self.

(** The replacement of the codes [-1] of missing values by the fresh
codes [len(codes), len(codes) + 1, ...]. *)
Fixpoint fill_nan (codes : list Z) (next : Z) : list Z :=
  match codes with
  | [] => []
  | c :: rest =>
      if decide (c = -1) then next :: fill_nan rest (next + 1)
      else c :: fill_nan rest next
  end.

Section rules.
Context {V : Type} `{!EqDecision V}.

(** A rule tree.  [Column] is a bare column name (a Python [str]);
[ExactGroupBy] stands for [BlockingRuleBase], [ExactGroupBy] and
[GroupByLogicalAND], whose [fit] is the conjunction of their rules, with
the optional encoder of [ExactGroupBy]; [GroupByLogicalOR] is the
disjunction. *)
#[local] Unset Elimination Schemes.
Inductive rule :=
| Column (name : string)
| ExactGroupBy (lvl : level) (encoder : option (option V → option V))
    (rules : list rule)
| GroupByLogicalOR (lvl : level) (rules : list rule).
#[local] Set Elimination Schemes.

(** [make_groups] on a column name, after the encoder (if any) has been
applied to the column. *)
Definition make_groups_str (df : list (gmap string V))
    (encoder : option (option V → option V)) (name : string)
    : option (list Z) :=
  col ← pandas.column df name;
  let col := match encoder with
             | Some e => e <$> col
             | None => col
             end in
  let codes := pandas.factorize col in
  Some (fill_nan codes (Z.of_nat (length codes))).

(** The methods that [fit] calls on the rules of the object being
fitted.  [fit_] stands for [rule.fit(df)] on those rules. *)
Section methods.
Variable fit_ : rule → option state.
Variable df : list (gmap string V).

(** [make_groups(rule, df)]: a column name is factorized (after the
encoder of [ExactGroupBy], which only applies to column names); a rule
object is fitted and gives its [groups]. *)
Definition make_groups (encoder : option (option V → option V))
    (r : rule) : option (list Z) :=
  match r with
  | Column name => make_groups_str df encoder name
  | _ =>
      match encoder with
      | Some _ => None
      | None => st ← fit_ r; groups st
      end
  end.

(** [groups_from_rules(rules, df)] *)
Definition groups_from_rules (encoder : option (option V → option V))
    (rules : list rule) : option (list Z) :=
  labels ← mapM (make_groups encoder) rules;
  let arr := numpy.transpose labels in
  Some (numpy.unique_inverse arr).

(** [rule.get_graph(df)] *)
Definition get_graph (r : rule) : option igraph.Graph :=
  st ← fit_ r; graph st.

(** [rule.get_path_graph(df)] *)
Definition get_path_graph (r : rule) : option igraph.Graph :=
  match r with
  | Column _ => None
  | _ =>
      groups ← make_groups None r;
      Some (path_graph (length df) groups)
  end.
End methods.

(** [fit]: the state of the rule object after [rule.fit(df)]; [None] is
an exception ([KeyError] for a missing column, [AttributeError] for a
column name where a rule object is needed, the error of igraph on an
empty list of graphs). *)
Fixpoint fit (r : rule) (df : list (gmap string V)) : option state :=
  match r with
  | Column _ => None
  | ExactGroupBy lvl encoder rules =>
      match lvl with
      | groups_level =>
          groups ← groups_from_rules (λ r', fit r' df) df encoder rules;
          Some {| _graph := None;
                  _groups := Some groups;
                  _update_graph := true;
                  _update_groups := false |}
      | graph_level =>
          graphs ← mapM (λ r',
                      match encoder with
                      | Some _ => None
                      | None => get_graph (λ r', fit r' df) r'
                      end) rules;
          graph ← igraph.intersection graphs;
          Some {| _graph := Some graph;
                  _groups := None;
                  _update_graph := false;
                  _update_groups := true |}
      end
  | GroupByLogicalOR lvl rules =>
      match lvl with
      | groups_level =>
          graphs_vect ← mapM (get_path_graph (λ r', fit r' df) df) rules;
          graph ← igraph.union graphs_vect;
          Some {| _graph := Some graph;
                  _groups := None;
                  _update_graph := false;
                  _update_groups := true |}
      | graph_level =>
          graphs ← mapM (get_graph (λ r', fit r' df)) rules;
          graph ← igraph.union graphs;
          Some {| _graph := Some graph;
                  _groups := None;
                  _update_graph := false;
                  _update_groups := true |}
      end
  end.

(** [rule.fit(df).groups], the label vector of a rule object. *)
Definition labels_of (r : rule) (df : list (gmap string V))
    : option (list Z) :=
  st ← fit r df; groups st.

(** Every rule object of the tree has at least one rule. *)
Fixpoint well_formed (r : rule) : Prop :=
  match r with
  | Column _ => True
  | ExactGroupBy _ _ rules | GroupByLogicalOR _ rules =>
      rules ≠ [] ∧ foldr (λ r' P, well_formed r' ∧ P) True rules
  end.
End rules.

End blocking_rules.

(* ===================================================================== *)
(** *** deduplicator/metrics/functional.py *)
(* ===================================================================== *)
Module functional.

(** A Python float: a number (here an exact rational) or [math.inf]. *)
Inductive pyfloat := Finite (q : Q) | Infinity.

(** [None] is a missing operation count. *)
Definition reduction_ratio (operations_before_blocking
    operations_after_blocking : option Z) : Q :=
  match operations_after_blocking, operations_before_blocking with
  | Some after, Some before =>
      if decide (before = 0) then 0%Q
      else ((1 - inject_Z after / inject_Z before) * 100)%Q
  | _, _ => 0%Q
  end.

Definition comparison_efficiency (operations_before_blocking
    operations_after_blocking : option Z) : pyfloat :=
  match operations_after_blocking, operations_before_blocking with
  | Some after, Some before =>
      if decide (after = 0) then Infinity
      else Finite (inject_Z before / inject_Z after)%Q
  | _, _ => Finite 1%Q
  end.

(** The number of pairs [C(n, 2)], as an integer.  It is the value of
[scipy.special.comb(n, 2)] (imported as [combinations]) while
[n (n - 1) ≤ 2^53]; beyond, scipy's floating-point product rounds
([scipy.comb]). *)
Definition combinations (n : Z) : Z := (n * (n - 1)) `div` 2.

(** The sum of [C(n, 2)] over cluster sizes, as an integer: the value of
[np.sum(combinations(sizes, 2))] while it is at most [2^53]. *)
Definition sum_combinations (sizes : list Z) : Z :=
  foldr Z.add 0 (combinations <$> sizes).

Record ConfusionMatrix := {
  TP : Z;
  FP : Z;
  FN : Z;
  TN : Z
}.

(** [confusion_matrix] over the integers: the four counts with every
operation exact.  They are the counts that the code returns on label
vectors of [N] labels with [N (N - 1) ≤ 2^53]; the code itself, which
computes in floating point, is [confusion_matrix_binary64] below.
[None] is numpy's error on label vectors of different lengths (the
2-row array cannot be built). *)
Definition confusion_matrix (true_labels pred_labels : list Z)
    : option ConfusionMatrix :=
  if decide (length pred_labels = length true_labels) then
    let tp_cluster_sizes :=
      (numpy.unique_counts numpy.lex_le (zip pred_labels true_labels)).*2 in
    let tp := sum_combinations tp_cluster_sizes in
    let p_cluster_sizes := (numpy.unique_counts Z.le pred_labels).*2 in
    let p := sum_combinations p_cluster_sizes in
    let t_cluster_sizes := (numpy.unique_counts Z.le true_labels).*2 in
    let t := sum_combinations t_cluster_sizes in
    let fp := p - tp in
    let fn := t - tp in
    let tn := combinations (Z.of_nat (length pred_labels)) - p - fn in
    Some {| TP := tp; FP := fp; FN := fn; TN := tn |}
  else None.

(** [confusion_matrix] as the code computes it: [combinations] is
scipy's [comb] with [exact=False], so the sizes become [float64] pair
counts, [np.sum] adds them in floating point, the differences are
floating-point subtractions and [int(...)] truncates the results.
[None] is numpy's error on label vectors of different lengths. *)
Definition confusion_matrix_binary64 (true_labels pred_labels : list Z)
    : option ConfusionMatrix :=
  if decide (length pred_labels = length true_labels) then
    let tp_cluster_sizes :=
      (numpy.unique_counts numpy.lex_le (zip pred_labels true_labels)).*2 in
    let tp := numpy.sum (scipy.comb <$> tp_cluster_sizes) in
    let p_cluster_sizes := (numpy.unique_counts Z.le pred_labels).*2 in
    let p := numpy.sum (scipy.comb <$> p_cluster_sizes) in
    let t_cluster_sizes := (numpy.unique_counts Z.le true_labels).*2 in
    let t := numpy.sum (scipy.comb <$> t_cluster_sizes) in
    let fp := binary64.sub p tp in
    let fn := binary64.sub t tp in
    let tn :=
      binary64.sub
        (binary64.sub (scipy.comb (Z.of_nat (length pred_labels))) p) fn in
    Some {| TP := binary64.int tp; FP := binary64.int fp;
            FN := binary64.int fn; TN := binary64.int tn |}
  else None.

(** [max_possible_comparison]: [/] is Python's true division. *)
Definition max_possible_comparison (n_records : Z) : Q :=
  (inject_Z (n_records * (n_records - 1)) / 2)%Q.

(** [precision]: [tp] and [p] are [float64] pair counts; [100 * tp / p]
    multiplies, then divides, in floating point.  [None] stands for the
    error of [np.unique] on label vectors of different lengths. *)
Definition precision (true_labels pred_labels : list Z) : option Q :=
  if decide (length pred_labels = length true_labels) then
    let tp_cluster_sizes :=
      (numpy.unique_counts numpy.lex_le (zip pred_labels true_labels)).*2 in
    let p_cluster_sizes := (numpy.unique_counts Z.le pred_labels).*2 in
    let tp := numpy.sum (scipy.comb <$> tp_cluster_sizes) in
    let p := numpy.sum (scipy.comb <$> p_cluster_sizes) in
    if Qeq_bool p 0 then Some 100%Q
    else Some (binary64.div (binary64.mul 100 tp) p)
  else None.

(** [recall]: [precision] with the two label vectors swapped. *)
Definition recall (true_labels pred_labels : list Z) : option Q :=
  precision pred_labels true_labels.

Definition pair_completeness (true_labels pred_labels : list Z) : option Q :=
  r ← recall true_labels pred_labels; Some (binary64.sub 100 r).

Definition pair_quality (true_labels pred_labels : list Z) : option Q :=
  precision true_labels pred_labels.

(** [f1_score]; [tol] is a float.  [None] is also the
    [ZeroDivisionError] of Python's float division when [p + r + tol]
    is [0.0]. *)
Definition f1_score (true_labels pred_labels : list Z) (tol : Q) : option Q :=
  p ← precision true_labels pred_labels;
  r ← recall true_labels pred_labels;
  let den := binary64.add (binary64.add p r) tol in
  if Qeq_bool den 0 then None
  else Some (binary64.div (binary64.mul (binary64.mul 2 p) r) den).

(** [precision_recall_f1_from_links]: [set(...)] of the two lists of
    links, [len(st & sp)] and the three ratios, in floating point
    ([tp / len(sp)] is the correctly rounded quotient of two Python
    [int]s).  [None] is the [ZeroDivisionError] of Python's float
    division when [precision + recall + etol] is [0.0]. *)
Definition precision_recall_f1_from_links
    (true_links pred_links : list (nat * nat)) (etol : Q)
    : option (Q * Q * Q) :=
  let st : gset (nat * nat) := list_to_set true_links in
  let sp : gset (nat * nat) := list_to_set pred_links in
  if decide (sp = ∅ ∨ st = ∅) then Some (0, 0, 0)%Q
  else
    let tp := Z.of_nat (size (st ∩ sp)) in
    let precision :=
      binary64.mul
        (binary64.div (inject_Z tp) (inject_Z (Z.of_nat (size sp)))) 100 in
    let recall :=
      binary64.mul
        (binary64.div (inject_Z tp) (inject_Z (Z.of_nat (size st)))) 100 in
    let den := binary64.add (binary64.add precision recall) etol in
    if Qeq_bool den 0 then None
    else
      let f1 :=
        binary64.div (binary64.mul (binary64.mul 2 precision) recall) den in
      Some (precision, recall, f1).

(** [Counter(labels)]: the number of occurrences of each label. *)
Definition Counter (labels : list Z) : gmap Z nat :=
  foldl (λ counter x, <[x := S (default 0%nat (counter !! x))]> counter)
        ∅ labels.

Definition calc_cluster_statistics (labels : list Z) : nat * nat :=
  let counter := Counter labels in
  let num_non_singleton_clusters :=
    length (filter (λ k, 1 < default 0 (counter !! k))%nat
                   (elements (dom counter))) in
  let num_clusters := size counter in
  (num_non_singleton_clusters, num_clusters).

End functional.

(* ===================================================================== *)
(** *** deduplicator/clusterings/dbscan_clusterer.py *)
(* ===================================================================== *)
Module dbscan_clusterer.

Section clusterer.
Context {Mention : Type}.
(** [sklearn.cluster.DBSCAN(eps, min_samples, metric="precomputed")
    .fit_predict], a library function outside the repository: it is
    a parameter of the development. *)
Variable DBSCAN : Q → Z → list (list Q) → list Z.

Record DBScanClusterer := {
  eps : Q;
  min_samples : Z
}.

Definition fit_predict (self : DBScanClusterer)
    (dist_matrix : list (list Q)) : list Z :=
  DBSCAN (eps self) (min_samples self) dist_matrix.

(** [__call__(mentions_list, similarity_matrix)] *)
Definition __call__ (self : DBScanClusterer) (mentions_list : list Mention)
    (similarity_matrix : list (list Q)) : list Z :=
  let dist_matrix :=
    (λ row : list Q, (λ x, 1 - x)%Q <$> row) <$> similarity_matrix in
  let indices := fit_predict self dist_matrix in
  indices.
End clusterer.

End dbscan_clusterer.

(* ===================================================================== *)
(** *** deduplicator/deduplicator.py *)
(* ===================================================================== *)
Module deduplicator.

(** The default of [num_threads] in [Deduplicator.__call__]:
    [min(min(os.cpu_count() // 2, 1), len(records))]. *)
Definition default_num_threads (cpu_count n_records : Z) : Z :=
  Z.min (Z.min (cpu_count `div` 2) 1) n_records.

(** [new_id()] draws a fresh identifier; the supply is a counter that
    is threaded through the calls. *)
Abbreviation ids := nat (only parsing).
Definition new_id (st : ids) : nat * ids := (st, S st).

Section engine.
(** Attribute values; a record maps attribute names to values. *)
Context {V : Type}.
Variable DBSCAN : Q → Z → list (list Q) → list Z.

Record Deduplicator := {
  comparators : list (string * (V → V → Q));
  aggregation_fn : list Q → Q;
  clusterer : dbscan_clusterer.DBScanClusterer
}.

(** [iter_over_candidates]; [None] is [IndexError]. *)
Definition iter_over_candidates (records : list (gmap string V))
    (candidate_links : list (nat * nat))
    : option (list (gmap string V * gmap string V)) :=
  mapM (λ '(ind_a, ind_b),
          a ← records !! ind_a; b ← records !! ind_b; Some (a, b))
       candidate_links.

(** [compute_pairwise]; [None] is the [KeyError] of a record without
    the attribute. *)
Definition compute_pairwise (self : Deduplicator)
    (it : list (gmap string V * gmap string V)) : option (list Q) :=
  mapM (λ '(a, b),
          scores ← mapM (λ '(attribute_name, comparator),
                           va ← a !! attribute_name;
                           vb ← b !! attribute_name;
                           Some (comparator va vb))
                        (comparators self);
          Some (aggregation_fn self scores))
       it.

(** The cluster dict [{'cluster_id': ..., 'mentions': [...]}]; the
    key ['mentions'] is absent until the first [setdefault]. *)
Definition add_mention (label : Z) (mention : gmap string V)
    (clusters : gmap Z (nat * option (list (gmap string V))))
    : gmap Z (nat * option (list (gmap string V))) :=
  alter (λ '(cluster_id, ms), (cluster_id, Some (default [] ms ++ [mention])))
        label clusters.

(** [to_iter].  The dict [clusters] is filled in the iteration order
    of the set [uniq_cluster_labels] (which Python leaves
    unspecified; here the order of [elements]) and [values()] is read
    back in that order.  [None] is the [KeyError] of a cluster
    without ['mentions']. *)
Definition to_iter (cluster_labels : list Z)
    (records : list (gmap string V)) (st : ids)
    : option (list (nat * list (gmap string V))) * ids :=
  let uniq_cluster_labels :=
    elements ((list_to_set cluster_labels : gset Z) ∖ {[ -1 ]}) in
  let '(clusters, st') :=
    foldl (λ '(d, st) cl,
             let '(cluster_id, st') := new_id st in
             (<[cl := (cluster_id, None)]> d, st'))
          (∅, st) uniq_cluster_labels in
  let clusters :=
    foldl (λ d '(label, mention),
             if decide (label ≠ -1) then add_mention label mention d
             else d)
          clusters (zip cluster_labels records) in
  (mapM (λ cl, '(cluster_id, ms) ← clusters !! cl;
               mentions ← ms; Some (cluster_id, mentions))
        uniq_cluster_labels,
   st').

(** The similarity matrix of [_block_process]: the identity, then the
    scores of the pairs [i < j] at [(i, j)] and [(j, i)], then the
    cut-off at [similarity_threshold]. *)
Definition sim_matrix (n_records : nat)
    (candidate_links : list (nat * nat)) (sim : list Q)
    (similarity_threshold : Q) : list (list Q) :=
  let scores : gmap (nat * nat) Q :=
    list_to_map (zip candidate_links sim) in
  (λ i, (λ j,
     let x := if decide (i = j) then 1%Q
              else default 0%Q (scores !! (Nat.min i j, Nat.max i j)) in
     if Qlt_le_dec x similarity_threshold then 0%Q else x)
     <$> seq 0 n_records) <$> seq 0 n_records.

(** [_block_process], the closure of [__call__]; [records] and
    [similarity_threshold] are the variables it captures. *)
Definition _block_process (self : Deduplicator)
    (records : list (gmap string V)) (similarity_threshold : Q)
    (group_id : Z) (group_records : list (gmap string V)) (st : ids)
    : option (list (nat * list (gmap string V))) * ids :=
  match group_records with
  | [] => (Some [], st)
  | _ =>
      let n_records := length group_records in
      let candidate_links := iter_utils.combinations2 (seq 0 n_records) in
      match it ← iter_over_candidates group_records candidate_links;
            compute_pairwise self it with
      | None => (None, st)
      | Some sim =>
          let m := sim_matrix n_records candidate_links sim
                     similarity_threshold in
          let labels :=
            if decide (1 < n_records)%nat then
              dbscan_clusterer.__call__ DBSCAN (clusterer self) records m
            else [0] in
          to_iter labels group_records st
      end
  end.
End engine.

End deduplicator.

(* ===================================================================== *)
(** *** Vocabulary of the specification and of the loop invariants *)
(* ===================================================================== *)

(** Two mentions carry the same label. *)
Definition same_label (L : list Z) (a b : nat) : Prop :=
  ∃ lab, L !! a = Some lab ∧ L !! b = Some lab.

(** A list of linked pairs read as a set of unordered pairs. *)
Definition linked (P : list er_utils.LinkedPair) (a b : nat) : Prop :=
  (a, b) ∈ P ∨ (b, a) ∈ P.

Definition transitively_closed (P : list er_utils.LinkedPair) : Prop :=
  ∀ a b c, linked P a b → linked P b c → a ≠ c → linked P a c.

(** Linked pairs over [0, N): two distinct mention ids below [N]. *)
Definition pairs_over (N : nat) (P : list er_utils.LinkedPair) : Prop :=
  ∀ a b, (a, b) ∈ P → (a < N)%nat ∧ (b < N)%nat ∧ a ≠ b.

(** The entity of a mention: itself and everything linked to it. *)
Definition entity (P : list er_utils.LinkedPair) (x y : nat) : Prop :=
  x = y ∨ linked P x y.

(** What [clusters_dict] holds once the prefix [pre] has been read. *)
Definition dict_of (pre : list Z) (d : gmap Z (list nat)) : Prop :=
  ∀ lab, default [] (d !! lab)
         = filter (λ i, pre !! i = Some lab) (seq 0 (length pre)).

(** Invariant of the store of [pairs_to_labels]: every slot refers to a
    set that holds the slot's own node, and a set never mixes entities. *)
Record store_ok (N : nat) (P : list er_utils.LinkedPair)
    (s : er_utils.store) : Prop := {
  ok_slots : length (er_utils.node_matches s) = N;
  ok_heap : length (er_utils.heap s) = N;
  ok_self : ∀ x, (x < N)%nat → ∃ r S,
      er_utils.node_matches s !! x = Some r ∧
      er_utils.heap s !! r = Some S ∧ x ∈ S;
  ok_entity : ∀ r S y z, er_utils.heap s !! r = Some S →
      y ∈ S → z ∈ S → entity P y z;
  ok_range : ∀ r S y, er_utils.heap s !! r = Some S → y ∈ S → (y < N)%nat
}.

(** The pairs read so far are recorded in both directions. *)
Definition recorded (s : er_utils.store) (pre : list er_utils.LinkedPair)
    : Prop :=
  ∀ a b, (a, b) ∈ pre → ∃ Sa Sb,
    er_utils.deref s a = Some Sa ∧ er_utils.deref s b = Some Sb ∧
    b ∈ Sa ∧ a ∈ Sb.

(** Invariant of the labelling loop of [pairs_to_labels] before it
    visits node [k], with [idx] the next fresh cluster index. *)
Record labelled (N : nat) (P : list er_utils.LinkedPair) (k : nat)
    (fl : list Z) (idx : Z) : Prop := {
  lab_len : length fl = N;
  lab_idx : 0 ≤ idx;
  lab_bound : ∀ x c, fl !! x = Some c → c = -1 ∨ 0 ≤ c < idx;
  lab_same : ∀ x y, entity P x y → (x < N)%nat → (y < N)%nat →
      fl !! x = fl !! y;
  lab_sep : ∀ x y c, fl !! x = Some c → fl !! y = Some c → c ≠ -1 →
      entity P x y;
  lab_done : ∀ x, (x < k)%nat → fl !! x ≠ Some (-1)
}.

(** The mention ids among the keys of a cluster dict. *)
Definition mentions (c : list er_utils.key) : list Z :=
  omap (λ k, match k with
             | er_utils.Mention m => Some m
             | er_utils.CLUSTER_ID => None
             end) c.

(** Some mention id appears in two of the clusters. *)
Definition duplicated (clusters : list (list er_utils.key)) : Prop :=
  ∃ m l1 c1 l2 c2 l3,
    clusters = l1 ++ c1 :: l2 ++ c2 :: l3 ∧
    m ∈ mentions c1 ∧ m ∈ mentions c2.

(** Clusters of mention ids of a data set of [N] records: every id is a
    position in [0, N), and a dict holds a key once. *)
Definition clusters_over (N : nat) (clusters : list (list er_utils.key))
    : Prop :=
  ∀ c, c ∈ clusters →
    NoDup (mentions c) ∧ ∀ m, m ∈ mentions c → 0 ≤ m < Z.of_nat N.

(** Position [i] of the label vector is already assigned. *)
Definition taken (labels : list Z) (i : nat) : Prop :=
  ∃ v, labels !! i = Some v ∧ v > -1.

(** The worker count the specification prescribes. *)
Definition prescribed_num_threads (cores n_records : Z) : Z :=
  Z.max 1 (Z.min (cores `div` 2) n_records).

(** [x ≥ 1] on Python floats. *)
Definition at_least_one (x : functional.pyfloat) : Prop :=
  match x with
  | functional.Finite q => (1 <= q)%Q
  | functional.Infinity => True
  end.

(** The members of the cluster of label [c]: the records zipped with
    that label, in input order. *)
Definition members_of {R} (c : Z) (L : list Z) (rs : list R) : list R :=
  snd <$> filter (λ p, p.1 = c) (zip L rs).

(** What ['mentions'] holds after [l] has been appended to it. *)
Definition grow {R} (ms : option (list R)) (l : list R) : option (list R) :=
  match l with
  | [] => ms
  | _ => Some (default [] ms ++ l)
  end.

(** The number of occurrences of [x] in [l]. *)
Definition count_of {A} `{!EqDecision A} (x : A) (l : list A) : Z :=
  Z.of_nat (length (filter (λ y, y = x) l)).

(** The sum over the cells [ks] of [C(n, 2)], with [n] the number of
    records of [l] in the cell. *)
Definition cell_pairs {A} `{!EqDecision A} (ks l : list A) : Z :=
  foldr Z.add 0 ((λ k, functional.combinations (count_of k l)) <$> ks).

(** The number of pairs of positions [i < j] of [l] with equal entries:
    the pairs of records in the same cluster. *)
Definition same_pairs {A} `{!EqDecision A} (l : list A) : Z :=
  Z.of_nat (length (filter (λ p, p.1 = p.2) (iter_utils.combinations2 l))).

(** Two vertices of a graph are connected. *)
Definition connected (g : igraph.Graph) (x y : nat) : Prop :=
  (x < igraph.vcount g)%nat ∧ (y < igraph.vcount g)%nat ∧
  rtsc (igraph.has_edge g) x y.

(** The ends of every edge are vertices of the graph. *)
Definition in_range (g : igraph.Graph) : Prop :=
  ∀ u v, (u, v) ∈ igraph.edges g →
         (u < igraph.vcount g)%nat ∧ (v < igraph.vcount g)%nat.

(** A graph and a label vector over [N] records that denote the same
    equivalence relation (the invariant of BlockGraph). *)
Definition denotes (N : nat) (g : igraph.Graph) (L : list Z) : Prop :=
  igraph.vcount g = N ∧ length L = N ∧ in_range g ∧
  ∀ x y, same_label L x y ↔ connected g x y.

(** The join of the equivalence relations of the label vectors [Ls]:
    the least equivalence relation above all of them. *)
Definition join (Ls : list (list Z)) : relation nat :=
  tc (λ a b, ∃ L, L ∈ Ls ∧ same_label L a b).

(** The edges of a list, in either orientation. *)
Definition in_edges (es : list (nat * nat)) (a b : nat) : Prop :=
  (a, b) ∈ es ∨ (b, a) ∈ es.

(** What a fitted rule object holds: a label vector and a graph over
    the records of the data frame that denote the same relation. *)
Definition fitted_ok {V} (df : list (gmap string V))
    (st : blocking_rules.state) : Prop :=
  ∃ L g, blocking_rules.groups st = Some L ∧
         blocking_rules.graph st = Some g ∧ denotes (length df) g L.

(** The graph that [GroupByLogicalOR.fit] asks of one of its rules:
    [rule.get_path_graph(df)] or [rule.get_graph(df)]. *)
Definition or_graph_of {V} `{!EqDecision V} (df : list (gmap string V))
    (lvl : blocking_rules.level) (r : blocking_rules.rule (V := V))
    : option igraph.Graph :=
  match lvl with
  | blocking_rules.groups_level =>
      blocking_rules.get_path_graph (λ r', blocking_rules.fit r' df) df r
  | blocking_rules.graph_level =>
      blocking_rules.get_graph (λ r', blocking_rules.fit r' df) r
  end.

(** Invariant of the store of [pairs_to_labels] on arbitrary pairs:
    every slot refers to a set that holds the slot's own node, and the
    members of a set are connected by the pairs. *)
Record store_sound (N : nat) (P : list er_utils.LinkedPair)
    (s : er_utils.store) : Prop := {
  snd_slots : length (er_utils.node_matches s) = N;
  snd_self : ∀ x, (x < N)%nat → ∃ r S,
      er_utils.node_matches s !! x = Some r ∧
      er_utils.heap s !! r = Some S ∧ x ∈ S;
  snd_conn : ∀ r S y z, er_utils.heap s !! r = Some S →
      y ∈ S → z ∈ S → rtsc (linked P) y z;
  snd_range : ∀ r S y, er_utils.heap s !! r = Some S → y ∈ S → (y < N)%nat
}.

(** Invariant of the labelling loop of [pairs_to_labels] on arbitrary
    pairs, before it visits node [k]. *)
Record labelled_sound (N : nat) (P : list er_utils.LinkedPair)
    (drop_singletons : bool) (k : nat) (fl : list Z) (idx : Z) : Prop := {
  lsd_len : length fl = N;
  lsd_idx : 0 ≤ idx ≤ Z.of_nat k;
  lsd_bound : ∀ x c, fl !! x = Some c → c = -1 ∨ 0 ≤ c < idx;
  lsd_conn : ∀ x y c, fl !! x = Some c → fl !! y = Some c → c ≠ -1 →
      rtsc (linked P) x y;
  lsd_done : drop_singletons = false →
      ∀ x, (x < k)%nat → fl !! x ≠ Some (-1)
}.

(** Invariant of the labelling loop of [pairs_to_labels] with
    [drop_singletons] on, before it visits node [k]. *)
Record labelled_drop (N : nat) (P : list er_utils.LinkedPair) (k : nat)
    (fl : list Z) (idx : Z) : Prop := {
  ld_len : length fl = N;
  ld_idx : 0 ≤ idx;
  ld_bound : ∀ x c, fl !! x = Some c → c = -1 ∨ 0 ≤ c < idx;
  ld_same : ∀ x y, entity P x y → (x < N)%nat → (y < N)%nat →
      fl !! x = fl !! y;
  ld_sep : ∀ x y c, fl !! x = Some c → fl !! y = Some c → c ≠ -1 →
      entity P x y;
  ld_done : ∀ x, (x < k)%nat → fl !! x = Some (-1) → ∀ y, ¬ linked P x y;
  ld_linked : ∀ x c, fl !! x = Some c → c ≠ -1 → ∃ y, linked P x y
}.


(* ===================================================================== *)
(** *** deduplicator/blockings/pruners/cardinality_filtering.py *)
(* ===================================================================== *)
Module cardinality_filtering.

(** [max_block_size] defaults to [np.inf], here [None]. *)
Record CardinalityBlockingFilter := {
  min_block_size : Z;
  max_block_size : option Z
}.

(** [__call__]: [True] when the block is to be dropped. *)
Definition __call__ {R} (self : CardinalityBlockingFilter) (block : list R)
    : bool :=
  let block_size := Z.of_nat (length block) in
  match max_block_size self with
  | Some m => bool_decide (block_size > m)
  | None => false
  end || bool_decide (block_size < min_block_size self).

End cardinality_filtering.

(* ===================================================================== *)
(** *** deduplicator/blockings/rule_based_blocking.py *)
(* ===================================================================== *)
Module rule_based_blocking.

Section blocking.
(** A row of the fitted data frame [_data], as [to_dict(orient="records")]
    gives it. *)
Context {Row : Type}.

(** The Python object that stands for a sub-block: [iter_blocks] tests
    its type.  A group of the data frame is a [pd.DataFrame]; a
    splitter is given the [list] of its records and yields objects of
    its own choice. *)
Inductive sub_block :=
| PyList (rows : list Row)
| PyTuple (rows : list Row)
| DataFrame (rows : list Row).

Definition rows_of (block : sub_block) : list Row :=
  match block with
  | PyList rows | PyTuple rows | DataFrame rows => rows
  end.

(** The fitted object: the rows of [_data] with their column
    ["blocking_id"], the filters and the splitter ([None] when absent).
    A filter reads the rows of a sub-block, whatever its Python type.
    A splitter returns the sub-blocks it yields, or [None] when it
    does not return. *)
Record RuleBasedBlocking := {
  _data : list Row;
  blocking_id : list Z;
  blocking_filters : option (list (list Row → bool));
  blocking_splitter : option (Z → list Row → option (list (Z * sub_block)))
}.

(** [_data.groupby("blocking_id")]: the groups in increasing order of
    their key, the rows of a group in the order of the frame. *)
Definition groupby (ids : list Z) (data : list Row) : list (Z * list Row) :=
  (λ k, (k, snd <$> filter (λ p, p.1 = k) (zip ids data)))
    <$> (numpy.unique_counts Z.le ids).*1.

Definition _filter_block (self : RuleBasedBlocking) (block : list Row)
    : bool :=
  match blocking_filters self with
  | None => false
  | Some fs => existsb (λ f, f block) fs
  end.

(** [_split_block] on a group of the data frame: the group itself
    without a splitter, else what the splitter yields on
    [block.to_dict(orient="records")]. *)
Definition _split_block (self : RuleBasedBlocking) (block_id : Z)
    (block : list Row) : option (list (Z * sub_block)) :=
  match blocking_splitter self with
  | None => Some [(block_id, DataFrame block)]
  | Some splitter => splitter block_id block
  end.

(** [iter_blocks]: the list of the [(sub_group_id, sub_group)] that it
    yields.  A sub-block that a filter rejects is skipped; of the
    others, a [list] is yielded as it is, a data frame as the list of
    its records, and anything else is passed over in silence. *)
Definition iter_blocks (self : RuleBasedBlocking)
    : option (list (Z * list Row)) :=
  let groups := groupby (blocking_id self) (_data self) in
  subs ← mapM (λ '(group_id, group), _split_block self group_id group) groups;
  Some (omap (λ '(sub_group_id, sub_group),
                if _filter_block self (rows_of sub_group) then None
                else match sub_group with
                     | PyList rows | DataFrame rows =>
                         Some (sub_group_id, rows)
                     | PyTuple _ => None
                     end)
             (concat subs)).

(** [SortedNeighbourhoodBlockSplitter.__call__] as a splitter of
    [RuleBasedBlocking]: for a block within [max_block_size] it yields
    the [list] it was given; the sub-blocks of a larger block are the
    [tuple]s that [sliding_window] yields. *)
Definition sorted_neighbourhood {K : Type} (key_lt : K → K → Prop)
    `{!RelDecision key_lt} (sorting_key_fn : Row → K)
    (splitter : sorted_neighbourhood_splitter.SortedNeighbourhoodBlockSplitter)
    (fuel : nat) (block_id : Z) (block : list Row)
    : option (list (Z * sub_block)) :=
  match sorted_neighbourhood_splitter.__call__ key_lt sorting_key_fn
          splitter fuel block_id block with
  | Some subs =>
      Some ((λ sub : Z * list Row,
               (sub.1,
                if decide (length block
                           ≤ sorted_neighbourhood_splitter.max_block_size
                               splitter)%nat
                then PyList sub.2 else PyTuple sub.2)) <$> subs)
  | None => None
  end.

(** [_num_blocks], as [fit] sets it:
    [len(data["blocking_id"].unique())]. *)
Definition num_blocks (self : RuleBasedBlocking) : nat :=
  length (first_seen [] (blocking_id self)).

End blocking.

End rule_based_blocking.

(** ** Part II: lemmas *)

Example labels_to_pairs_doc :
  er_utils.labels_to_pairs [0; 0; 1; 0] = Some [(1, 0); (3, 0); (3, 1)]%nat.
Proof. vm_compute. reflexivity. Qed.

Example pairs_to_labels_doc :
  er_utils.pairs_to_labels [(1, 0); (3, 0); (3, 1)]%nat 4 false = Some [0; 0; 1; 0].
Proof. vm_compute. reflexivity. Qed.

(* ===================================================================== *)
(** *** labels_to_pairs *)
(* ===================================================================== *)
Lemma filter_ext_elem {A} (P Q : A → Prop)
    `{!∀ x, Decision (P x)} `{!∀ x, Decision (Q x)} (l : list A) :
  (∀ x, x ∈ l → P x ↔ Q x) → filter P l = filter Q l.
Proof.
  induction l as [|x l IH]; intros Hext; [done|].
  rewrite !filter_cons, IH by (intros y Hy; apply Hext; by right).
  assert (P x ↔ Q x) as Hx by (apply Hext; by left).
  destruct (decide (P x)), (decide (Q x)); tauto.
Qed.

Section labels_to_pairs_facts.
Import er_utils.

Lemma dict_of_empty : dict_of [] ∅.
Proof. intros lab. by rewrite lookup_empty. Qed.

Lemma filter_seq_prefix (pre : list Z) (x lab : Z) n :
  (n ≤ length pre)%nat →
  filter (λ i, (pre ++ [x]) !! i = Some lab) (seq 0 n)
  = filter (λ i, pre !! i = Some lab) (seq 0 n).
Proof.
  intros Hn. apply filter_ext_elem.
  intros i Hi%elem_of_seq. rewrite lookup_app_l; [done | lia].
Qed.

Lemma dict_of_snoc pre d label :
  dict_of pre d →
  dict_of (pre ++ [label])
    (<[label := default [] (d !! label) ++ [length pre]]> d).
Proof.
  intros Hd lab. rewrite length_app, Nat.add_1_r, seq_S, filter_app. simpl.
  rewrite filter_seq_prefix by done.
  rewrite filter_cons, filter_nil, list_lookup_middle by done.
  destruct (decide (label = lab)) as [->|Hne].
  - rewrite lookup_insert_eq. simpl. rewrite Hd.
    by rewrite decide_True.
  - rewrite lookup_insert_ne by done. rewrite Hd.
    rewrite decide_False by congruence. by rewrite app_nil_r.
Qed.

Lemma dict_of_elem pre d lab b :
  dict_of pre d →
  b ∈ default [] (d !! lab) ↔ pre !! b = Some lab.
Proof.
  intros Hd. rewrite Hd, list_elem_of_filter, elem_of_seq. split.
  - tauto.
  - intros H. split; [done|]. apply lookup_lt_Some in H. lia.
Qed.

(** Membership in the output of the loop. *)
Lemma labels_to_pairs_loop_elem rest : ∀ pre pairs d a b,
  dict_of pre d →
  (a, b) ∈ labels_to_pairs_loop (length pre) rest pairs d ↔
    (a, b) ∈ pairs ∨
    ((length pre ≤ a)%nat ∧ (b < a)%nat ∧
     ∃ lab, (pre ++ rest) !! a = Some lab ∧ (pre ++ rest) !! b = Some lab).
Proof.
  induction rest as [|label rest IH]; intros pre pairs d a b Hd; simpl.
  - rewrite app_nil_r. split; [tauto|]. intros [?|(Ha & Hb & lab & Hl & _)]; [done|].
    apply lookup_lt_Some in Hl. lia.
  - specialize (IH (pre ++ [label]) (pairs ++ ((λ l, (length pre, l)) <$> default [] (d !! label)))
                   (<[label := default [] (d !! label) ++ [length pre]]> d) a b
                   (dict_of_snoc _ _ _ Hd)).
    rewrite length_app, Nat.add_1_r in IH. rewrite IH. clear IH.
    rewrite <- app_assoc. simpl.
    rewrite elem_of_app, list_elem_of_fmap.
    split.
    + intros [[?|(l & [= -> ->] & Hl)]|(Ha & Hb & lab & H1 & H2)].
      * by left.
      * right. apply (dict_of_elem _ _ _ _ Hd) in Hl.
        split; [lia|]. split; [by apply lookup_lt_Some in Hl|].
        exists label. split; [by apply list_lookup_middle|].
        rewrite lookup_app_l; [done | by apply lookup_lt_Some in Hl].
      * right. split; [lia|]. split; [done|]. by exists lab.
    + intros [?|(Ha & Hb & lab & H1 & H2)]; [by left; left|].
      destruct (decide (a = length pre)) as [->|Hne].
      * left. right. exists b. split; [done|].
        rewrite list_lookup_middle in H1 by done. injection H1 as ->.
        apply (dict_of_elem _ _ _ _ Hd).
        by rewrite lookup_app_l in H2 by lia.
      * right. split; [lia|]. split; [done|]. by exists lab.
Qed.

Lemma labels_to_pairs_loop_NoDup rest : ∀ pre pairs d,
  dict_of pre d →
  NoDup pairs →
  (∀ a b, (a, b) ∈ pairs → (a < length pre)%nat) →
  NoDup (labels_to_pairs_loop (length pre) rest pairs d).
Proof.
  induction rest as [|label rest IH]; intros pre pairs d Hd Hnd Hlt; simpl; [done|].
  specialize (IH (pre ++ [label])). rewrite length_app, Nat.add_1_r in IH.
  apply IH.
  - by apply dict_of_snoc.
  - apply NoDup_app. split; [done|]. split.
    + intros [a b] Hin (l & [= -> ->] & _)%list_elem_of_fmap.
      apply Hlt in Hin. lia.
    + apply NoDup_fmap_2; [intros x y; congruence|].
      rewrite Hd. apply NoDup_filter, NoDup_seq.
  - intros a b [Hin|(l & [= -> ->] & _)%list_elem_of_fmap]%elem_of_app.
    + apply Hlt in Hin. lia.
    + lia.
Qed.

Lemma labels_to_pairs_spec (L : list Z) :
  (-1) ∉ L →
  ∃ pairs, labels_to_pairs L = Some pairs ∧ NoDup pairs ∧
    ∀ a b, (a, b) ∈ pairs ↔ (b < a)%nat ∧ same_label L a b.
Proof.
  intros Hno. unfold labels_to_pairs. rewrite decide_False by done.
  eexists. split; [done|]. split.
  - apply (labels_to_pairs_loop_NoDup L [] [] ∅ dict_of_empty); [constructor|].
    intros a b Hin. by apply elem_of_nil in Hin.
  - intros a b.
    rewrite (labels_to_pairs_loop_elem L [] [] ∅ a b dict_of_empty). simpl.
    rewrite elem_of_nil. unfold same_label. split.
    + intros [[]|(_ & ? & ?)]. done.
    + intros [? ?]. right. split; [lia|done].
Qed.

End labels_to_pairs_facts.

(* ===================================================================== *)
(** *** pairs_to_labels *)
(* ===================================================================== *)
Section pairs_to_labels_facts.
Import er_utils.
Context (N : nat) (P : list LinkedPair).
Hypothesis Hover : pairs_over N P.
Hypothesis Hclosed : transitively_closed P.

Lemma linked_sym a b : linked P a b → linked P b a.
Proof. unfold linked. tauto. Qed.

Lemma entity_refl x : entity P x x.
Proof. by left. Qed.

Lemma entity_sym x y : entity P x y → entity P y x.
Proof. intros [->|H]; [by left | right; by apply linked_sym]. Qed.

Lemma entity_trans x y z : entity P x y → entity P y z → entity P x z.
Proof using Hclosed.
  intros [->|Hxy] [->|Hyz]; try (by left); try (by right).
  destruct (decide (x = z)) as [->|Hne]; [by left|].
  right. by apply (Hclosed x y z).
Qed.

(** The store of the list comprehension [[{i} for i in range(N)]]. *)
Lemma init_store_ok : store_ok N P (init_store N).
Proof.
  split; simpl.
  - by rewrite length_seq.
  - by rewrite length_fmap, length_seq.
  - intros x Hx. exists x, {[ x ]}.
    rewrite list_lookup_fmap, !lookup_seq_lt by done. simpl.
    split; [done|]. split; [done|]. set_solver.
  - intros r S y z HS Hy Hz.
    rewrite list_lookup_fmap in HS.
    destruct (seq 0 N !! r) as [i|] eqn:Hi; [|done].
    injection HS as <-. left. set_solver.
  - intros r S y HS Hy.
    rewrite list_lookup_fmap in HS.
    destruct (seq 0 N !! r) as [i|] eqn:Hi; [|done].
    injection HS as <-. apply lookup_seq in Hi as [-> ?]. set_solver.
Qed.

(** One pair: the step succeeds and gives the sets it builds. *)
Lemma link_step_ok s a b :
  store_ok N P s → (a, b) ∈ P →
  ∃ ra rb sa sb,
    node_matches s !! a = Some ra ∧ node_matches s !! b = Some rb ∧
    heap s !! ra = Some sa ∧ heap s !! rb = Some sb ∧
    a ∈ sa ∧ b ∈ sb ∧
    link_step s (a, b)
    = Some (Store (<[b := ra]> (node_matches s)) (<[ra := sa ∪ sb]> (heap s))).
Proof.
  intros Hok Hin. destruct (Hover a b Hin) as (Ha & Hb & _).
  destruct (ok_self _ _ _ Hok a Ha) as (ra & sa & Hra & Hsa & Haa).
  destruct (ok_self _ _ _ Hok b Hb) as (rb & sb & Hrb & Hsb & Hbb).
  exists ra, rb, sa, sb. repeat (split; [done|]).
  unfold link_step. rewrite Hra, Hrb. simpl. rewrite Hsa, Hsb. done.
Qed.

Lemma deref_after s a b ra sa sb x :
  node_matches s !! a = Some ra →
  heap s !! ra = Some sa →
  (b < length (node_matches s))%nat →
  deref (Store (<[b := ra]> (node_matches s)) (<[ra := sa ∪ sb]> (heap s))) x
  = if decide (x = b) then Some (sa ∪ sb)
    else r ← node_matches s !! x;
         if decide (r = ra) then Some (sa ∪ sb) else heap s !! r.
Proof.
  intros Hra Hsa Hb. unfold deref. simpl.
  assert (ra < length (heap s))%nat as Hlt by by apply lookup_lt_Some in Hsa.
  destruct (decide (x = b)) as [->|Hne].
  - rewrite list_lookup_insert_eq by done. simpl.
    by rewrite list_lookup_insert_eq.
  - rewrite list_lookup_insert_ne by done.
    destruct (node_matches s !! x) as [r|]; [|done]. simpl.
    destruct (decide (r = ra)) as [->|Hr].
    + by rewrite list_lookup_insert_eq.
    + by rewrite list_lookup_insert_ne.
Qed.

(** A step only makes the set behind a slot grow. *)
Lemma link_step_grows s s' a b x S :
  store_ok N P s → (a, b) ∈ P → link_step s (a, b) = Some s' →
  deref s x = Some S → ∃ S', deref s' x = Some S' ∧ S ⊆ S'.
Proof.
  intros Hok Hin Hstep Hx.
  destruct (link_step_ok s a b Hok Hin)
    as (ra & rb & sa & sb & Hra & Hrb & Hsa & Hsb & _ & _ & Heq).
  rewrite Heq in Hstep. injection Hstep as <-.
  rewrite (deref_after s a b ra sa sb x Hra Hsa)
    by by apply lookup_lt_Some in Hrb.
  unfold deref in Hx.
  destruct (decide (x = b)) as [->|Hne].
  - rewrite Hrb in Hx. simpl in Hx. rewrite Hsb in Hx. injection Hx as <-.
    eexists. split; [done|]. set_solver.
  - destruct (node_matches s !! x) as [r|]; [|done]. simpl in *.
    destruct (decide (r = ra)) as [->|Hr].
    + rewrite Hsa in Hx. injection Hx as <-.
      eexists. split; [done|]. set_solver.
    + by exists S.
Qed.

Lemma link_step_store_ok s s' a b :
  store_ok N P s → (a, b) ∈ P → link_step s (a, b) = Some s' →
  store_ok N P s'.
Proof using Hover Hclosed.
  intros Hok Hin Hstep.
  destruct (link_step_ok s a b Hok Hin)
    as (ra & rb & sa & sb & Hra & Hrb & Hsa & Hsb & Haa & Hbb & Heq).
  rewrite Heq in Hstep. injection Hstep as <-.
  assert (ra < length (heap s))%nat as Hlt by by apply lookup_lt_Some in Hsa.
  assert (b < length (node_matches s))%nat as Hb by by apply lookup_lt_Some in Hrb.
  assert (∀ y, y ∈ sa ∪ sb → entity P a y) as Hall.
  { intros y [Hy|Hy]%elem_of_union.
    - by apply (ok_entity _ _ _ Hok ra sa).
    - apply entity_trans with b; [by right; left|].
      by apply (ok_entity _ _ _ Hok rb sb). }
  split; simpl.
  - rewrite length_insert. apply Hok.
  - rewrite length_insert. apply Hok.
  - intros x Hx.
    destruct (ok_self _ _ _ Hok x Hx) as (r & S & Hr & HS & HxS).
    destruct (decide (x = b)) as [->|Hne].
    + exists ra, (sa ∪ sb). rewrite !list_lookup_insert_eq by done.
      split; [done|]. split; [done|]. set_solver.
    + rewrite list_lookup_insert_ne by done.
      destruct (decide (r = ra)) as [->|Hrne].
      * exists ra, (sa ∪ sb). rewrite list_lookup_insert_eq by done.
        split; [done|]. split; [done|]. set_solver.
      * exists r, S. by rewrite list_lookup_insert_ne.
  - intros r S y z HS Hy Hz.
    destruct (decide (r = ra)) as [->|Hrne].
    + rewrite list_lookup_insert_eq in HS by done. injection HS as <-.
      apply entity_trans with a; [apply entity_sym|]; by apply Hall.
    + rewrite list_lookup_insert_ne in HS by done.
      by apply (ok_entity _ _ _ Hok r S).
  - intros r S y HS Hy.
    destruct (decide (r = ra)) as [->|Hrne].
    + rewrite list_lookup_insert_eq in HS by done. injection HS as <-.
      apply elem_of_union in Hy as [Hy|Hy].
      * by apply (ok_range _ _ _ Hok ra sa).
      * by apply (ok_range _ _ _ Hok rb sb).
    + rewrite list_lookup_insert_ne in HS by done.
      by apply (ok_range _ _ _ Hok r S).
Qed.

Lemma link_step_recorded s s' a b pre :
  store_ok N P s → (a, b) ∈ P → link_step s (a, b) = Some s' →
  recorded s pre → recorded s' (pre ++ [(a, b)]).
Proof.
  intros Hok Hin Hstep Hrec a' b' [Hpre|Hnew%list_elem_of_singleton]%elem_of_app.
  - destruct (Hrec a' b' Hpre) as (Sa & Sb & Ha & Hb & Hba & Hab).
    destruct (link_step_grows s s' a b a' Sa Hok Hin Hstep Ha) as (Sa' & -> & ?).
    destruct (link_step_grows s s' a b b' Sb Hok Hin Hstep Hb) as (Sb' & -> & ?).
    exists Sa', Sb'. set_solver.
  - injection Hnew as -> ->.
    destruct (link_step_ok s a b Hok Hin)
      as (ra & rb & sa & sb & Hra & Hrb & Hsa & Hsb & Haa & Hbb & Heq).
    rewrite Heq in Hstep. injection Hstep as <-.
    assert (b < length (node_matches s))%nat as Hb by by apply lookup_lt_Some in Hrb.
    exists (sa ∪ sb), (sa ∪ sb).
    rewrite !(deref_after s a b ra sa sb) by done.
    rewrite Hra. simpl. rewrite (decide_True (P:=ra = ra)) by done.
    rewrite (decide_True (P:=b = b)) by done.
    split; [by destruct (decide (a = b))|]. split; [done|]. set_solver.
Qed.

(** The first loop never fails and keeps both invariants. *)
Lemma link_all_ok pairs : ∀ s pre,
  store_ok N P s → recorded s pre → (∀ p, p ∈ pairs → p ∈ P) →
  ∃ s', link_all s pairs = Some s' ∧ store_ok N P s' ∧
        recorded s' (pre ++ pairs).
Proof using Hover Hclosed.
  induction pairs as [|[a b] pairs IH]; intros s pre Hok Hrec Hsub.
  - exists s. by rewrite app_nil_r.
  - assert ((a, b) ∈ P) as Hin by (apply Hsub; by left).
    destruct (link_step_ok s a b Hok Hin) as (ra & rb & sa & sb & Hstep).
    destruct Hstep as (_ & _ & _ & _ & _ & _ & Hstep).
    cbn [link_all]. rewrite Hstep. cbn [mbind option_bind].
    destruct (IH _ (pre ++ [(a, b)])
                (link_step_store_ok _ _ a b Hok Hin Hstep)
                (link_step_recorded _ _ a b pre Hok Hin Hstep Hrec))
      as (s' & Hs' & Hok' & Hrec').
    { intros p Hp. apply Hsub. by right. }
    exists s'. by rewrite <- app_assoc in Hrec'.
Qed.

(** After the first loop the set behind a slot is the node's entity. *)
Lemma link_all_entity s x :
  (x < N)%nat → store_ok N P s → recorded s P →
  ∃ r S, node_matches s !! x = Some r ∧ heap s !! r = Some S ∧
         ∀ y, y ∈ S ↔ entity P x y.
Proof using Hover Hclosed.
  intros Hx Hok Hrec.
  destruct (ok_self _ _ _ Hok x Hx) as (r & S & Hr & HS & HxS).
  exists r, S. split; [done|]. split; [done|]. intros y. split.
  - intros Hy. by apply (ok_entity _ _ _ Hok r S).
  - intros [<-|[Hxy|Hyx]]; [done| |].
    + destruct (Hrec x y Hxy) as (Sa & Sb & Ha & _ & Hin & _).
      unfold deref in Ha. rewrite Hr in Ha. simpl in Ha. congruence.
    + destruct (Hrec y x Hyx) as (Sa & Sb & _ & Hb & _ & Hin).
      unfold deref in Hb. rewrite Hr in Hb. simpl in Hb. congruence.
Qed.

Lemma propagate_spec els : ∀ (fl : list Z) c,
  (∀ y, y ∈ els → (y < length fl)%nat) →
  ∃ fl', propagate fl els c = Some fl' ∧ length fl' = length fl ∧
         ∀ x, fl' !! x = if decide (x ∈ els) then Some c else fl !! x.
Proof.
  induction els as [|l els IH]; intros fl c Hlt.
  - exists fl. split; [done|]. split; [done|]. intros x.
    rewrite decide_False; [done | apply not_elem_of_nil].
  - assert (l < length fl)%nat as Hl by (apply Hlt; by left).
    cbn [propagate]. unfold set_item. rewrite decide_True by done.
    cbn [mbind option_bind].
    destruct (IH (<[l := c]> fl) c) as (fl' & Hp & Hlen & Hlook).
    { intros y Hy. rewrite length_insert. apply Hlt. by right. }
    exists fl'. split; [done|]. rewrite length_insert in Hlen.
    split; [done|]. intros x. rewrite Hlook.
    destruct (decide (x = l)) as [->|Hne].
    + rewrite (decide_True (P := l ∈ l :: els)) by by left.
      rewrite list_lookup_insert_eq by done. by destruct (decide (l ∈ els)).
    + rewrite list_lookup_insert_ne by done.
      destruct (decide (x ∈ els)) as [Hin|Hin].
      * rewrite decide_True; [done | by right].
      * rewrite decide_False; [done|].
        intros [?|?]%elem_of_cons; done.
Qed.

Lemma labelled_init : labelled N P 0 (replicate N (-1)) 0.
Proof.
  split.
  - apply length_replicate.
  - done.
  - intros x c [-> _]%lookup_replicate. by left.
  - intros x y _ Hx Hy. by rewrite !lookup_replicate_2.
  - intros x y c [-> _]%lookup_replicate _ Hc. done.
  - intros x Hx. lia.
Qed.

(** The second loop, once the sets are the entities. *)
Lemma assign_labels_ok s :
  store_ok N P s →
  (∀ x, (x < N)%nat → ∃ r S,
      node_matches s !! x = Some r ∧ heap s !! r = Some S ∧
      ∀ y, y ∈ S ↔ entity P x y) →
  ∀ slots k fl idx,
    drop k (node_matches s) = slots → labelled N P k fl idx →
    ∃ L idx', assign_labels (heap s) false slots k fl idx = Some L ∧
              labelled N P N L idx'.
Proof using Hover Hclosed.
  intros Hok Hent. induction slots as [|r rest IH]; intros k fl idx Hdrop Hlab.
  - exists fl, idx. split; [done|].
    apply drop_nil_inv in Hdrop. rewrite (ok_slots _ _ _ Hok) in Hdrop.
    destruct Hlab. split; try done.
    intros x Hx. apply lab_done0. lia.
  - assert (node_matches s !! k = Some r) as Hk.
    { pose proof (lookup_drop (node_matches s) k 0) as Hd.
      rewrite Hdrop, Nat.add_0_r in Hd. done. }
    assert (k < N)%nat as HkN.
    { apply lookup_lt_Some in Hk. by rewrite (ok_slots _ _ _ Hok) in Hk. }
    assert (drop (S k) (node_matches s) = rest) as Hdrop'.
    { rewrite (drop_S _ _ _ Hk) in Hdrop. congruence. }
    cbn [assign_labels andb].
    destruct (decide (default (-1) (fl !! k) > -1)) as [Hgt|Hle].
    + apply IH; [done|]. destruct Hlab. split; try done.
      intros x Hx. destruct (decide (x = k)) as [->|Hne].
      * intros Heq. rewrite Heq in Hgt. simpl in Hgt. lia.
      * apply lab_done0. lia.
    + destruct (Hent k HkN) as (r' & S & Hr' & HS & HSent).
      assert (r' = r) as -> by congruence. rewrite HS. cbn [from_option id].
      assert (fl !! k = Some (-1)) as Hkl.
      { destruct (lookup_lt_is_Some_2 fl k) as [c Hc];
          [by rewrite (lab_len _ _ _ _ _ Hlab)|].
        rewrite Hc in Hle. simpl in Hle.
        destruct (lab_bound _ _ _ _ _ Hlab k c Hc) as [->|?]; [done | lia]. }
      destruct (propagate_spec (elements S) fl idx) as (fl' & Hp & Hlen & Hlook).
      { intros y Hy%elem_of_elements. rewrite (lab_len _ _ _ _ _ Hlab).
        by apply (ok_range _ _ _ Hok r S). }
      rewrite Hp. cbn [mbind option_bind].
      assert (∀ x, fl' !! x = if decide (entity P k x) then Some idx else fl !! x)
        as Hlook'.
      { intros x. rewrite Hlook.
        destruct (decide (x ∈ elements S)) as [Hin|Hin];
          rewrite elem_of_elements, HSent in Hin.
        - by rewrite decide_True.
        - by rewrite decide_False. }
      clear Hlook Hp.
      apply IH; [done|]. pose proof (lab_idx _ _ _ _ _ Hlab) as Hidx.
      split.
      * rewrite Hlen. apply Hlab.
      * lia.
      * intros x c. rewrite Hlook'.
        destruct (decide (entity P k x)); [intros [= <-]; right; lia|].
        intros Hc. destruct (lab_bound _ _ _ _ _ Hlab x c Hc); [by left | right; lia].
      * intros x y Hxy Hx Hy. rewrite !Hlook'.
        destruct (decide (entity P k x)) as [Hkx|Hkx],
                 (decide (entity P k y)) as [Hky|Hky]; try done.
        -- exfalso. apply Hky. by apply entity_trans with x.
        -- exfalso. apply Hkx. apply entity_trans with y; [done|].
           by apply entity_sym.
        -- by apply (lab_same _ _ _ _ _ Hlab).
      * intros x y c. rewrite !Hlook'.
        destruct (decide (entity P k x)) as [Hkx|Hkx],
                 (decide (entity P k y)) as [Hky|Hky].
        -- intros _ _ _. apply entity_trans with k; [by apply entity_sym | done].
        -- intros [= <-] Hy. apply (lab_bound _ _ _ _ _ Hlab) in Hy. lia.
        -- intros Hx [= <-]. apply (lab_bound _ _ _ _ _ Hlab) in Hx. lia.
        -- apply (lab_sep _ _ _ _ _ Hlab).
      * intros x Hx. rewrite Hlook'.
        destruct (decide (entity P k x)) as [Hkx|Hkx].
        -- intros [= ?]. lia.
        -- destruct (decide (x = k)) as [->|Hne].
           ++ exfalso. apply Hkx. apply entity_refl.
           ++ apply (lab_done _ _ _ _ _ Hlab). lia.
Qed.

(** [pairs_to_labels] on a transitively closed list of pairs: it
    returns, leaves no [-1], and two mentions share a label exactly
    when they belong to one entity. *)
Lemma pairs_to_labels_spec :
  ∃ L, pairs_to_labels P N false = Some L ∧ length L = N ∧ ((-1) ∉ L) ∧
       (∀ x y, (x < N)%nat → (y < N)%nat →
               (same_label L x y ↔ entity P x y)).
Proof using Hover Hclosed.
  destruct (link_all_ok P (init_store N) [] init_store_ok) as (s & Hs & Hok & Hrec).
  { intros a b Hin. by apply elem_of_nil in Hin. }
  { done. }
  simpl in Hrec.
  destruct (assign_labels_ok s Hok (λ x Hx, link_all_entity s x Hx Hok Hrec)
              (node_matches s) 0%nat (replicate N (-1)) 0 eq_refl labelled_init)
    as (L & idx & HL & Hlab).
  exists L. unfold pairs_to_labels. rewrite Hs. cbn [mbind option_bind].
  split; [done|]. split; [apply Hlab|]. split.
  - intros (i & Hi)%list_elem_of_lookup.
    apply (lab_done _ _ _ _ _ Hlab i); [|done].
    apply lookup_lt_Some in Hi. by rewrite (lab_len _ _ _ _ _ Hlab) in Hi.
  - intros x y Hx Hy. split.
    + intros (c & Hcx & Hcy). apply (lab_sep _ _ _ _ _ Hlab x y c); [done..|].
      intros ->. by apply (lab_done _ _ _ _ _ Hlab x).
    + intros Hent. pose proof (lab_same _ _ _ _ _ Hlab x y Hent Hx Hy) as Heq.
      destruct (lookup_lt_is_Some_2 L x) as [c Hc];
        [by rewrite (lab_len _ _ _ _ _ Hlab)|].
      exists c. split; [done | congruence].
Qed.

End pairs_to_labels_facts.

(* ===================================================================== *)
(** *** The label algebra: statements of the specification *)
(* ===================================================================== *)

(** C1.  Round trip of the label algebra: for every number of mentions
    [N] and every transitively closed list [P] of linked pairs over
    [0, N), [pairs_to_labels P N] returns a label vector on which
    [labels_to_pairs] returns, and the pairs it returns are [P] as a set
    of unordered pairs. *)
Theorem labels_to_pairs_pairs_to_labels (N : nat) (P : list (nat * nat)) :
  pairs_over N P →
  transitively_closed P →
  ∃ L Q, er_utils.pairs_to_labels P N false = Some L ∧
         er_utils.labels_to_pairs L = Some Q ∧
         ∀ a b, linked Q a b ↔ linked P a b.
Proof.
  intros Hover Hclosed.
  destruct (pairs_to_labels_spec N P Hover Hclosed)
    as (L & HL & Hlen & Hno & Hsame).
  destruct (labels_to_pairs_spec L Hno) as (Q & HQ & _ & Hin).
  exists L, Q. split; [done|]. split; [done|].
  assert (∀ a b, same_label L a b → (a < N)%nat ∧ (b < N)%nat) as Hlt.
  { intros a b (c & Ha & Hb).
    apply lookup_lt_Some in Ha. apply lookup_lt_Some in Hb. lia. }
  assert (∀ a b, same_label L a b → same_label L b a) as Hsym.
  { intros a b (c & Ha & Hb). by exists c. }
  assert (∀ a b, linked P a b → (a < N)%nat ∧ (b < N)%nat ∧ a ≠ b) as Hrange.
  { intros a b [H|H]; apply Hover in H; destruct H as (? & ? & ?); auto. }
  intros a b. unfold linked at 1. rewrite !Hin. split.
  - intros [[Hab Hs]|[Hab Hs]].
    + destruct (Hlt _ _ Hs). apply Hsame in Hs as [->|?]; [lia|done|done..].
    + destruct (Hlt _ _ Hs). apply Hsame in Hs as [->|?]; [lia| |done..].
      by apply linked_sym.
  - intros Hl. destruct (Hrange a b Hl) as (Ha & Hb & Hne).
    assert (same_label L a b) as Hs by (apply Hsame; [done..|by right]).
    destruct (decide (b < a)%nat); [by left|].
    right. split; [lia | by apply Hsym].
Qed.

Lemma labels_to_pairs_pairs_to_labels_witness :
  ∃ L Q, er_utils.pairs_to_labels [(1, 0); (3, 0); (3, 1)]%nat 4 false = Some L ∧
         er_utils.labels_to_pairs L = Some Q ∧
         ∀ a b, linked Q a b ↔ linked [(1, 0); (3, 0); (3, 1)]%nat a b.
Proof.
  apply (labels_to_pairs_pairs_to_labels 4 [(1, 0); (3, 0); (3, 1)]%nat).
  - intros a b Hin. repeat (apply elem_of_cons in Hin as [[= -> ->]|Hin]; [lia|]).
    by apply elem_of_nil in Hin.
  - intros a b c [H1|H1] [H2|H2] Hne; unfold linked;
      repeat (apply elem_of_cons in H1 as [[= ? ?]|H1]; [|]);
      try (by apply elem_of_nil in H1);
      repeat (apply elem_of_cons in H2 as [[= ? ?]|H2]; [|]);
      try (by apply elem_of_nil in H2);
      subst; try done; try lia; vm_compute; set_solver.
Defined.

(** C6 (as the code has it).  For every label vector without [-1],
    [labels_to_pairs] returns exactly one pair for each unordered pair
    of distinct indices sharing a label, and every returned pair
    [(a, b)] has the later mention first: [a] is the larger and [b] the
    smaller of the two mention ids. *)
Theorem labels_to_pairs_one_per_pair (L : list Z) :
  (-1) ∉ L →
  ∃ pairs, er_utils.labels_to_pairs L = Some pairs ∧ NoDup pairs ∧
    (∀ a b, (a, b) ∈ pairs ↔ (b < a)%nat ∧ same_label L a b) ∧
    (∀ a b, (a, b) ∈ pairs → a = Nat.max a b ∧ b = Nat.min a b).
Proof.
  intros Hno. destruct (labels_to_pairs_spec L Hno) as (pairs & Hp & Hnd & Hin).
  exists pairs. repeat (split; [done|]).
  intros a b [Hlt _]%Hin. lia.
Qed.

Lemma labels_to_pairs_one_per_pair_witness :
  ∃ pairs, er_utils.labels_to_pairs [0; 0; 1; 0] = Some pairs ∧ NoDup pairs ∧
    (∀ a b, (a, b) ∈ pairs ↔ (b < a)%nat ∧ same_label [0; 0; 1; 0] a b) ∧
    (∀ a b, (a, b) ∈ pairs → a = Nat.max a b ∧ b = Nat.min a b).
Proof.
  apply (labels_to_pairs_one_per_pair [0; 0; 1; 0]).
  intros Hin. repeat (apply elem_of_cons in Hin as [?|Hin]; [lia|]).
  by apply elem_of_nil in Hin.
Defined.

(** C6 as stated fails: on the labels [[0; 0]] the only pair returned is
    [(1, 0)], whose first component is not the minimum. *)
Lemma labels_to_pairs_not_min_max :
  er_utils.labels_to_pairs [0; 0] = Some [(1, 0)%nat] ∧
  ¬ (∀ L pairs a b, (-1) ∉ L → er_utils.labels_to_pairs L = Some pairs →
       (a, b) ∈ pairs → a = Nat.min a b ∧ b = Nat.max a b).
Proof.
  split; [by vm_compute|].
  intros H. destruct (H [0; 0] [(1, 0)%nat] 1%nat 0%nat) as [Hmin _].
  - intros Hin. repeat (apply elem_of_cons in Hin as [?|Hin]; [lia|]).
    by apply elem_of_nil in Hin.
  - by vm_compute.
  - by left.
  - simpl in Hmin. lia.
Qed.

(* ===================================================================== *)
(** *** clusters_to_labels *)
(* ===================================================================== *)
Section clusters_to_labels_facts.
Import er_utils.

Lemma mentions_cons_mention m c : mentions (Mention m :: c) = m :: mentions c.
Proof. done. Qed.

Lemma mentions_cons_id c : mentions (CLUSTER_ID :: c) = mentions c.
Proof. done. Qed.

Lemma py_index_in_range len m :
  0 ≤ m < Z.of_nat len → py_index len m = Some (Z.to_nat m).
Proof. intros H. unfold py_index. by rewrite decide_True. Qed.

Lemma taken_insert labels i idx j :
  0 ≤ idx → (i < length labels)%nat → ¬ taken labels i →
  taken (<[i := idx]> labels) j ↔ taken labels j ∨ j = i.
Proof.
  intros Hidx Hi Hfree. unfold taken. destruct (decide (j = i)) as [->|Hne].
  - rewrite list_lookup_insert_eq by done. split; [by right|].
    intros _. exists idx. split; [done | lia].
  - rewrite list_lookup_insert_ne by done. split; [by left | by intros [?|?]].
Qed.

Lemma duplicated_cons c rest :
  duplicated (c :: rest) ↔
    (∃ m c', m ∈ mentions c ∧ c' ∈ rest ∧ m ∈ mentions c') ∨ duplicated rest.
Proof.
  split.
  - intros (m & l1 & c1 & l2 & c2 & l3 & Heq & H1 & H2).
    destruct l1 as [|c0 l1]; simpl in Heq; injection Heq as -> ->.
    + left. exists m, c2. split; [done|]. split; [|done].
      apply elem_of_app. right. by left.
    + right. by exists m, l1, c1, l2, c2, l3.
  - intros [(m & c' & H1 & Hin & H2)|(m & l1 & c1 & l2 & c2 & l3 & -> & H1 & H2)].
    + apply list_elem_of_split in Hin as (l2 & l3 & ->).
      by exists m, [], c, l2, c', l3.
    + by exists m, (c :: l1), c1, l2, c2, l3.
Qed.

(** One cluster dict. *)
Lemma assign_cluster_spec c : ∀ labels idx,
  0 ≤ idx → NoDup (mentions c) →
  (∀ m, m ∈ mentions c → 0 ≤ m < Z.of_nat (length labels)) →
  match assign_cluster labels idx c with
  | Labels l' =>
      length l' = length labels ∧
      (∀ m, m ∈ mentions c → ¬ taken labels (Z.to_nat m)) ∧
      (∀ i, taken l' i ↔ taken labels i ∨ Z.of_nat i ∈ mentions c)
  | DuplicateMembership m => m ∈ mentions c ∧ taken labels (Z.to_nat m)
  | IndexError => False
  end.
Proof.
  induction c as [|[|node] c IH]; intros labels idx Hidx Hnd Hrange.
  - simpl. split; [done|]. split.
    + intros m Hm. by apply elem_of_nil in Hm.
    + intros i. split; [by left|]. intros [?|Hm]; [done|].
      by apply elem_of_nil in Hm.
  - cbn [assign_cluster]. rewrite mentions_cons_id in *. by apply IH.
  - cbn [assign_cluster]. rewrite mentions_cons_mention in *.
    apply NoDup_cons in Hnd as [Hnotin Hnd].
    assert (0 ≤ node < Z.of_nat (length labels)) as Hnode
      by (apply Hrange; by left).
    rewrite py_index_in_range by done.
    destruct (lookup_lt_is_Some_2 labels (Z.to_nat node)) as [v Hv]; [lia|].
    rewrite Hv. cbn [from_option id].
    destruct (decide (v > -1)) as [Hgt|Hle].
    + split; [by left|]. by exists v.
    + assert (¬ taken labels (Z.to_nat node)) as Hfree.
      { intros (v' & Hv' & ?). congruence. }
      specialize (IH (<[Z.to_nat node := idx]> labels) idx Hidx Hnd).
      rewrite length_insert in IH.
      destruct (assign_cluster _ idx c) as [l'|m|].
      * destruct IH as (Hlen & Hfree' & Htaken).
        { intros m Hm. apply Hrange. by right. }
        split; [done|]. split.
        -- intros m [->|Hm]%elem_of_cons; [done|].
           intros Ht. apply (Hfree' m Hm).
           apply taken_insert; [done | lia | done | by left].
        -- intros i. rewrite Htaken, taken_insert by (done || lia).
           rewrite elem_of_cons. split.
           ++ intros [[?| ->]|?]; [by left | right; left; lia | by right; right].
           ++ intros [?|[Heq|?]]; [by left; left | left; right; lia | by right].
      * destruct IH as (Hm & Ht).
        { intros m' Hm'. apply Hrange. by right. }
        split; [by right|].
        apply taken_insert in Ht as [?|Heq]; [done | | done | lia | done].
        exfalso. apply Hnotin.
        assert (0 ≤ m) by (apply (Hrange m); by right).
        by replace node with m by lia.
      * apply IH. intros m Hm. apply Hrange. by right.
Qed.

(** The loop over [enumerate(clusters)]. *)
Lemma assign_clusters_spec clusters : ∀ labels idx,
  0 ≤ idx → clusters_over (length labels) clusters →
  match assign_clusters labels idx clusters with
  | Labels l' =>
      length l' = length labels ∧ ¬ duplicated clusters ∧
      (∀ c m, c ∈ clusters → m ∈ mentions c → ¬ taken labels (Z.to_nat m))
  | DuplicateMembership m =>
      duplicated clusters ∨
      ∃ c, c ∈ clusters ∧ m ∈ mentions c ∧ taken labels (Z.to_nat m)
  | IndexError => False
  end.
Proof.
  induction clusters as [|c rest IH]; intros labels idx Hidx Hover.
  - simpl. split; [done|]. split.
    + intros (m & l1 & c1 & l2 & c2 & l3 & Heq & _). by destruct l1.
    + intros c m Hc. by apply elem_of_nil in Hc.
  - cbn [assign_clusters].
    destruct (Hover c) as [Hnd Hrange]; [by left|].
    pose proof (assign_cluster_spec c labels idx Hidx Hnd Hrange) as Hc.
    destruct (assign_cluster labels idx c) as [l1|m|];
      [|right; exists c; split; [by left | done]|done].
    destruct Hc as (Hlen & Hfree & Htaken).
    specialize (IH l1 (idx + 1)). rewrite Hlen in IH.
    assert (clusters_over (length labels) rest) as Hover'.
    { intros c' Hc'. apply Hover. by right. }
    destruct (assign_clusters l1 (idx + 1) rest) as [l'|m|].
    + destruct IH as (Hlen' & Hnodup & Hfree'); [lia | done |].
      split; [done|]. split.
      * rewrite duplicated_cons. intros [(m & c' & Hm & Hc' & Hm')|?]; [|done].
        apply (Hfree' c' m Hc' Hm'). apply Htaken. right.
        destruct (Hrange m Hm). by rewrite Z2Nat.id.
      * intros c' m [->|Hc']%elem_of_cons Hm; [by apply Hfree|].
        intros Ht. apply (Hfree' c' m Hc' Hm). apply Htaken. by left.
    + rewrite duplicated_cons.
      destruct IH as [?|(c' & Hc' & Hm & Ht)]; [lia | done | by left; right |].
      apply Htaken in Ht as [Ht|Hin].
      * right. exists c'. split; [by right | done].
      * left. left. exists m, c'.
        destruct (Hover' c' Hc') as [_ Hr]. destruct (Hr m Hm).
        by rewrite Z2Nat.id in Hin.
    + apply IH; [lia | done].
Qed.

Lemma length_fill_singletons labels : ∀ idx,
  length (fill_singletons labels idx) = length labels.
Proof.
  induction labels as [|l labels IH]; intros idx; simpl; [done|].
  destruct (decide (l = -1)); simpl; by rewrite IH.
Qed.

Lemma not_taken_replicate n i : ¬ taken (replicate n (-1)) i.
Proof. intros (v & [-> _]%lookup_replicate & ?). lia. Qed.

Lemma clusters_to_labels_spec clusters N ds :
  clusters_over N clusters →
  match clusters_to_labels clusters N ds with
  | Labels L => length L = N ∧ ¬ duplicated clusters
  | DuplicateMembership m => duplicated clusters
  | IndexError => False
  end.
Proof.
  intros Hover. unfold clusters_to_labels.
  pose proof (assign_clusters_spec clusters (replicate N (-1)) 0) as H.
  rewrite length_replicate in H. specialize (H ltac:(done) Hover).
  destruct (assign_clusters _ 0 clusters) as [l'|m|]; [| |done].
  - destruct H as (Hlen & Hnd & _).
    destruct ds; [done|]. by rewrite length_fill_singletons.
  - destruct H as [?|(c & _ & _ & Ht)]; [done|].
    by apply not_taken_replicate in Ht.
Qed.

End clusters_to_labels_facts.

(** C7.  On clusters of mention ids of a data set of [N] records,
    [clusters_to_labels] fails with the duplicate-membership error if
    and only if some mention id appears in two of the clusters; when no
    id is duplicated it returns a label vector of length [N]. *)
Theorem clusters_to_labels_duplicate_membership
    (clusters : list (list er_utils.key)) (N : nat) (drop_singletons : bool) :
  clusters_over N clusters →
  ((∃ m, er_utils.clusters_to_labels clusters N drop_singletons
         = er_utils.DuplicateMembership m) ↔ duplicated clusters) ∧
  (¬ duplicated clusters →
   ∃ L, er_utils.clusters_to_labels clusters N drop_singletons
        = er_utils.Labels L ∧ length L = N).
Proof.
  intros Hover.
  pose proof (clusters_to_labels_spec clusters N drop_singletons Hover) as H.
  destruct (er_utils.clusters_to_labels clusters N drop_singletons) as [L|m|];
    [| |done].
  - destruct H as [Hlen Hnd]. split.
    + split; [by intros [m ?] | done].
    + intros _. by exists L.
  - split; [|done]. split; [done|]. intros _. by exists m.
Qed.

Lemma clusters_to_labels_duplicate_membership_witness :
  ((∃ m, er_utils.clusters_to_labels
           [[er_utils.Mention 0; er_utils.Mention 1; er_utils.CLUSTER_ID];
            [er_utils.Mention 1; er_utils.Mention 2]] 4 false
         = er_utils.DuplicateMembership m) ↔
   duplicated [[er_utils.Mention 0; er_utils.Mention 1; er_utils.CLUSTER_ID];
               [er_utils.Mention 1; er_utils.Mention 2]]) ∧
  (¬ duplicated [[er_utils.Mention 0; er_utils.Mention 1; er_utils.CLUSTER_ID];
                 [er_utils.Mention 1; er_utils.Mention 2]] →
   ∃ L, er_utils.clusters_to_labels
          [[er_utils.Mention 0; er_utils.Mention 1; er_utils.CLUSTER_ID];
           [er_utils.Mention 1; er_utils.Mention 2]] 4 false
        = er_utils.Labels L ∧ length L = 4%nat).
Proof.
  apply clusters_to_labels_duplicate_membership.
  intros c Hc.
  repeat (apply elem_of_cons in Hc as [->|Hc];
          [split; [apply (bool_decide_unpack _); by vm_compute
                  | intros m Hm; vm_compute in Hm;
                    repeat (apply elem_of_cons in Hm as [->|Hm]; [lia|]);
                    by apply elem_of_nil in Hm]|]).
  by apply elem_of_nil in Hc.
Defined.

Example clusters_to_labels_doc :
  er_utils.clusters_to_labels
    [[er_utils.Mention 0; er_utils.Mention 1; er_utils.Mention 4;
      er_utils.CLUSTER_ID]] 5 false
  = er_utils.Labels [0; 0; 1; 2; 0].
Proof. by vm_compute. Qed.

Example clusters_to_labels_dup :
  er_utils.clusters_to_labels
    [[er_utils.Mention 0; er_utils.Mention 1; er_utils.CLUSTER_ID];
     [er_utils.Mention 1; er_utils.Mention 2]] 4 false
  = er_utils.DuplicateMembership 1.
Proof. by vm_compute. Qed.

(* ===================================================================== *)
(** *** Sorted-neighbourhood splitter *)
(* ===================================================================== *)
Section splitter_facts.
Import iter_utils sorted_neighbourhood_splitter.

(** Whenever the loop of [sliding_window] reaches its [break], the
    window it yielded last is shorter than [window_size]; the windows
    before it are full. *)
Lemma sliding_window_loop_last_short {A} fuel : ∀ (seq : list A) W S start ws,
  sliding_window_loop fuel seq W S start (start + W) = Some ws →
  ∃ front w, ws = front ++ [w] ∧ (length w < W)%nat ∧
             Forall (λ v, length v = W) front.
Proof.
  induction fuel as [|fuel IH]; intros seq W S start ws; [done|].
  cbn [sliding_window_loop].
  destruct (decide (length (islice seq start (start + W)) < W)%nat) as [Hlt|Hge].
  - intros [= <-]. by exists [], (islice seq start (start + W)).
  - replace (start + W + S)%nat with ((start + S) + W)%nat by lia.
    destruct (sliding_window_loop fuel seq W S (start + S) (start + S + W))
      as [ws'|] eqn:Hrec; [|done].
    cbn [mbind option_bind]. intros [= <-].
    destruct (IH _ _ _ _ _ Hrec) as (front & w & -> & Hw & Hfront).
    exists (islice seq start (start + W) :: front), w.
    split; [done|]. split; [done|]. constructor; [|done].
    unfold islice in *. rewrite length_take in *. lia.
Qed.

Lemma sliding_window_last_short {A} fuel (seq : list A) W S ws :
  sliding_window fuel seq W S = Some ws →
  ∃ front w, ws = front ++ [w] ∧ (length w < W)%nat ∧
             Forall (λ v, length v = W) front.
Proof. apply (sliding_window_loop_last_short fuel seq W S 0). Qed.

(** A block within [max_block_size] is yielded as it is. *)
Lemma splitter_small_block {R B K} (key_lt : K → K → Prop)
    `{!RelDecision key_lt} (key : R → K)
    (self : SortedNeighbourhoodBlockSplitter) fuel (block_id : B) block :
  (length block ≤ max_block_size self)%nat →
  __call__ key_lt key self fuel block_id block = Some [(block_id, block)].
Proof. intros H. unfold __call__. by rewrite decide_True. Qed.

End splitter_facts.

(** The docstring examples of [sliding_window], as the code runs them:
    the docstring promises [(0,1,2,3), (1,2,3,4), (2,3,4,5)] and [[]]. *)
Example sliding_window_doc_1 :
  iter_utils.sliding_window 10 (seq 0 6) 4 1
  = Some [[0; 1; 2; 3]; [1; 2; 3; 4]; [2; 3; 4; 5]; [3; 4; 5]]%nat.
Proof. by vm_compute. Qed.

Example sliding_window_doc_2 :
  iter_utils.sliding_window 10 (seq 0 3) 4 1 = Some [[0; 1; 2]]%nat.
Proof. by vm_compute. Qed.

(** C5 (the code at the input of scenario S5).  A block of 10 records,
    larger than [max_block_size], with [window_size = 3] and
    [step_size = 1]: the splitter sorts it and yields 9 sub-blocks, the
    8 full windows and then a short one of size 2. *)
Theorem splitter_ten_records_nine_windows :
  sorted_neighbourhood_splitter.__call__ lt id
    {| sorted_neighbourhood_splitter.max_block_size := 5;
       sorted_neighbourhood_splitter.window_size := 3;
       sorted_neighbourhood_splitter.step_size := 1 |}
    20 7%nat [3; 1; 4; 0; 5; 9; 2; 6; 8; 7]%nat
  = Some [(7, [0; 1; 2]); (7, [1; 2; 3]); (7, [2; 3; 4]); (7, [3; 4; 5]);
          (7, [4; 5; 6]); (7, [5; 6; 7]); (7, [6; 7; 8]); (7, [7; 8; 9]);
          (7, [8; 9])]%nat.
Proof. by vm_compute. Qed.

(* ===================================================================== *)
(** *** Blocking efficiency *)
(* ===================================================================== *)
Section efficiency_facts.
Import functional.

Lemma ratio_bounds (before after : Z) :
  0 ≤ after ≤ before → before ≠ 0 →
  (0 <= inject_Z after / inject_Z before)%Q ∧
  (inject_Z after / inject_Z before <= 1)%Q.
Proof.
  intros Hle Hne.
  assert (0 < inject_Z before)%Q as Hpos.
  { change 0%Q with (inject_Z 0). rewrite <- Zlt_Qlt. lia. }
  split.
  - apply Qle_shift_div_l; [done|]. rewrite Qmult_0_l.
    change 0%Q with (inject_Z 0). rewrite <- Zle_Qle. lia.
  - apply Qle_shift_div_r; [done|]. rewrite Qmult_1_l.
    rewrite <- Zle_Qle. lia.
Qed.

Lemma reduction_ratio_bounds (before after : Z) :
  0 ≤ after ≤ before →
  (0 <= reduction_ratio (Some before) (Some after))%Q ∧
  (reduction_ratio (Some before) (Some after) <= 100)%Q.
Proof.
  intros Hle. unfold reduction_ratio.
  destruct (decide (before = 0)) as [_|Hne]; [done|].
  destruct (ratio_bounds before after Hle Hne) as [H0 H1].
  set (r := (inject_Z after / inject_Z before)%Q) in *.
  split; lra.
Qed.

Lemma comparison_efficiency_at_least_one (before after : Z) :
  0 ≤ after ≤ before →
  at_least_one (comparison_efficiency (Some before) (Some after)).
Proof.
  intros Hle. unfold comparison_efficiency.
  destruct (decide (after = 0)) as [_|Hne]; [done|]. simpl.
  assert (0 < inject_Z after)%Q as Hpos.
  { change 0%Q with (inject_Z 0). rewrite <- Zlt_Qlt. lia. }
  apply Qle_shift_div_l; [done|]. rewrite Qmult_1_l.
  rewrite <- Zle_Qle. lia.
Qed.

End efficiency_facts.

(** C8 (as the code has it).  For all operation counts with
    [0 ≤ after ≤ before]: [reduction_ratio] is [(1 − after/before)·100]
    (and [0] when [before = 0]) and lies in [0, 100];
    [comparison_efficiency] is [before/after] ([∞] when [after = 0])
    and is at least 1.  When either count is missing the first is [0]
    and the second is [1]. *)
Theorem blocking_efficiency (before after : Z) :
  0 ≤ after ≤ before →
  functional.reduction_ratio (Some before) (Some after)
    = (if decide (before = 0) then 0%Q
       else ((1 - inject_Z after / inject_Z before) * 100)%Q) ∧
  (0 <= functional.reduction_ratio (Some before) (Some after))%Q ∧
  (functional.reduction_ratio (Some before) (Some after) <= 100)%Q ∧
  (∀ o, functional.reduction_ratio None o = 0%Q ∧
        functional.reduction_ratio o None = 0%Q) ∧
  functional.comparison_efficiency (Some before) (Some after)
    = (if decide (after = 0) then functional.Infinity
       else functional.Finite (inject_Z before / inject_Z after)%Q) ∧
  at_least_one (functional.comparison_efficiency (Some before) (Some after)) ∧
  (∀ o, functional.comparison_efficiency None o = functional.Finite 1 ∧
        functional.comparison_efficiency o None = functional.Finite 1).
Proof.
  intros Hle.
  destruct (reduction_ratio_bounds before after Hle) as [H0 H100].
  split; [done|]. split; [done|]. split; [done|]. split.
  { intros [?|]; done. }
  split; [done|]. split; [by apply comparison_efficiency_at_least_one|].
  intros [?|]; done.
Qed.

Lemma blocking_efficiency_witness :
  functional.reduction_ratio (Some 6%Z) (Some 3%Z)
    = (if decide (6 = 0)%Z then 0%Q
       else ((1 - inject_Z 3%Z / inject_Z 6%Z) * 100)%Q) ∧
  (0 <= functional.reduction_ratio (Some 6%Z) (Some 3%Z))%Q ∧
  (functional.reduction_ratio (Some 6%Z) (Some 3%Z) <= 100)%Q ∧
  (∀ o, functional.reduction_ratio None o = 0%Q ∧
        functional.reduction_ratio o None = 0%Q) ∧
  functional.comparison_efficiency (Some 6%Z) (Some 3%Z)
    = (if decide (3 = 0)%Z then functional.Infinity
       else functional.Finite (inject_Z 6%Z / inject_Z 3%Z)%Q) ∧
  at_least_one (functional.comparison_efficiency (Some 6%Z) (Some 3%Z)) ∧
  (∀ o, functional.comparison_efficiency None o = functional.Finite 1 ∧
        functional.comparison_efficiency o None = functional.Finite 1).
Proof. apply (blocking_efficiency 6 3). lia. Defined.

(** C8 as stated fails: with more comparisons after blocking than
    before, [reduction_ratio] is negative. *)
Lemma reduction_ratio_negative :
  (functional.reduction_ratio (Some 1%Z) (Some 2%Z) < 0)%Q.
Proof. by vm_compute. Qed.

(* ===================================================================== *)
(** *** Default number of worker threads *)
(* ===================================================================== *)

(** The default never exceeds one thread, whatever the machine. *)
Lemma default_num_threads_le_1 (cores N : Z) :
  deduplicator.default_num_threads cores N ≤ 1.
Proof. unfold deduplicator.default_num_threads. lia. Qed.

(** C9 (the code at 8 cores and 10 records).  The default is 1 worker
    thread where the prescribed count is 4; on a single-core machine it
    is 0, which the thread pool rejects. *)
Theorem default_num_threads_at_8_cores :
  deduplicator.default_num_threads 8 10 = 1 ∧
  prescribed_num_threads 8 10 = 4 ∧
  deduplicator.default_num_threads 1 10 = 0 ∧
  prescribed_num_threads 1 10 = 1.
Proof. by vm_compute. Qed.

(* ===================================================================== *)
(** *** The engine: clusterer and block processing *)
(* ===================================================================== *)
Section engine_facts.
Import deduplicator.
Context {V : Type}.
Variable DBSCAN : Q → Z → list (list Q) → list Z.
Implicit Types (d : gmap Z (nat * option (list (gmap string V)))).

Lemma grow_snoc (ms : option (list (gmap string V))) m l :
  grow (Some (default [] ms ++ [m])) l = grow ms (m :: l).
Proof. destruct l; simpl; [done|]. by rewrite <- app_assoc. Qed.

(** The dict comprehension leaves every cluster without ['mentions']. *)
Lemma fresh_clusters_no_mentions uniq : ∀ d (st : nat) d' st',
  foldl (λ '(d, st) cl,
           let '(cluster_id, st') := new_id st in
           (<[cl := (cluster_id, None)]> d, st'))
        (d, st) uniq = (d', st') →
  (∀ c i ms, d !! c = Some (i, ms) → ms = None) →
  ∀ c i ms, d' !! c = Some (i, ms) → ms = None.
Proof.
  induction uniq as [|cl uniq IH]; intros d st d' st' Hfold Hd.
  - simpl in Hfold. injection Hfold as <- <-. done.
  - simpl in Hfold. apply (IH _ _ _ _ Hfold).
    intros c i ms. destruct (decide (cl = c)) as [->|Hne].
    + rewrite lookup_insert_eq. by intros [= _ <-].
    + rewrite lookup_insert_ne by done. apply Hd.
Qed.

(** The loop over [zip(cluster_labels, records)]. *)
Lemma add_mentions_lookup zs : ∀ d c i ms,
  c ≠ -1 →
  foldl (λ d '(label, mention),
           if decide (label ≠ -1) then add_mention label mention d else d)
        d zs !! c = Some (i, ms) →
  ∃ ms0, d !! c = Some (i, ms0) ∧
         ms = grow ms0 (snd <$> filter (λ p, p.1 = c) zs).
Proof.
  induction zs as [|[label mention] zs IH]; intros d c i ms Hc Hlook.
  - exists ms. done.
  - cbn [foldl] in Hlook. apply IH in Hlook as (ms1 & Hd1 & ->); [|done].
    rewrite filter_cons. cbn [fst].
    destruct (decide (label ≠ -1)) as [Hl|Hl].
    + unfold add_mention in Hd1. rewrite lookup_alter in Hd1.
      destruct (decide (label = c)) as [->|Hne].
      * destruct (d !! c) as [[i0 ms0]|] eqn:Hd; [|done].
        simpl in Hd1. injection Hd1 as -> <-.
        exists ms0. split; [done|]. apply grow_snoc.
      * exists ms1. done.
    + exists ms1. split; [done|]. rewrite decide_False; [done|].
      intros ->. by apply Hl.
Qed.

(** Every cluster that [to_iter] yields is the non-empty list of the
    records of one label other than [-1]. *)
Lemma to_iter_spec L (rs : list (gmap string V)) (st : nat) out st' :
  to_iter L rs st = (Some out, st') →
  ∀ i ms, (i, ms) ∈ out →
    ∃ c, c ≠ -1 ∧ c ∈ L ∧ ms = members_of c L rs ∧ ms ≠ [].
Proof.
  unfold to_iter.
  destruct (foldl _ (∅, st) _) as [d0 st0] eqn:Hinit.
  intros [= Hout <-] i ms Hin.
  apply mapM_Some in Hout.
  apply list_elem_of_lookup in Hin as [k Hk].
  destruct (Forall2_lookup_r _ _ _ _ _ Hout Hk) as (cl & Hcl & Hf).
  apply list_elem_of_lookup_2 in Hcl.
  apply elem_of_elements, elem_of_difference in Hcl as [HclL Hne].
  apply elem_of_list_to_set in HclL.
  assert (cl ≠ -1) as Hne' by set_solver.
  exists cl. split; [done|]. split; [done|].
  destruct (foldl _ d0 (zip L rs) !! cl) as [[i' ms']|] eqn:Hlook; [|done].
  simpl in Hf. destruct ms' as [ms'|]; [|done]. simpl in Hf.
  injection Hf as -> ->.
  apply add_mentions_lookup in Hlook as (ms0 & Hd0 & Hgrow); [|done].
  assert (ms0 = None) as ->.
  { eapply (fresh_clusters_no_mentions _ ∅ st d0 st0 Hinit); [|done].
    intros c i0 ms1. by rewrite lookup_empty. }
  unfold members_of. unfold grow in Hgrow.
  destruct (snd <$> filter _ (zip L rs)) as [|m l]; [done|].
  simpl in Hgrow. by injection Hgrow as ->.
Qed.

(** A block of one record: the label vector is [[0]] and the record
    comes out as a cluster of its own. *)
Lemma block_of_one (self : Deduplicator) records threshold group_id
    (r : gmap string V) (st : nat) :
  _block_process DBSCAN self records threshold group_id [r] st
  = (Some [(st, [r])], S st).
Proof.
  unfold _block_process. cbn [length iter_utils.combinations2 seq fmap
    list_fmap app iter_over_candidates compute_pairwise mapM mbind
    option_bind mret option_ret].
  rewrite decide_False by lia.
  unfold to_iter.
  replace (elements ((list_to_set [0] : gset Z) ∖ {[ -1 ]})) with [0]
    by by vm_compute.
  cbn [foldl new_id zip zip_with].
  rewrite decide_True by done.
  unfold add_mention. cbn [mapM].
  rewrite lookup_alter, decide_True, lookup_insert_eq by done.
  done.
Qed.

End engine_facts.

(** C10.  The labels of [DBScanClusterer] depend only on the similarity
    matrix and on the configured [eps] and [min_samples]: two calls with
    any two mention lists and the same matrix return the same labels;
    and the output of [_block_process] does not depend on the full
    record list that the call site passes instead of the block. *)
Theorem clusterer_ignores_mentions {A B V : Type}
    (DBSCAN : Q → Z → list (list Q) → list Z)
    (self : dbscan_clusterer.DBScanClusterer)
    (mentions1 : list A) (mentions2 : list B)
    (similarity_matrix : list (list Q)) :
  dbscan_clusterer.__call__ DBSCAN self mentions1 similarity_matrix
  = dbscan_clusterer.__call__ DBSCAN self mentions2 similarity_matrix ∧
  ∀ (engine : deduplicator.Deduplicator (V := V))
    (records records' : list (gmap string V)) threshold group_id group st,
    deduplicator._block_process DBSCAN engine records threshold group_id group st
    = deduplicator._block_process DBSCAN engine records' threshold group_id group st.
Proof.
  split; [done|]. intros engine records records' threshold group_id group st.
  unfold deduplicator._block_process. by destruct group.
Qed.

(** C4 (as the code has it).  Every cluster emitted for a block is the
    list of the block's records that carry one label other than [-1] in
    the block's label vector (the clusterer's labels, or [[0]] for a
    block of one record): it is never empty, noise is omitted, and it
    has at least 2 members whenever every label other than [-1] is given
    to at least two records.  A block of exactly one record contributes
    exactly one cluster, whose only member is that record. *)
Theorem block_clusters {V : Type}
    (DBSCAN : Q → Z → list (list Q) → list Z)
    (self : deduplicator.Deduplicator (V := V))
    (records : list (gmap string V)) (threshold : Q) (group_id : Z)
    (group : list (gmap string V)) (st : nat) out st' :
  deduplicator._block_process DBSCAN self records threshold group_id group st
  = (Some out, st') →
  (∃ L,
     (length group = 1%nat → L = [0]) ∧
     ((1 < length group)%nat →
      ∃ m, L = dbscan_clusterer.__call__ DBSCAN (deduplicator.clusterer self)
                 records m) ∧
     (∀ i ms, (i, ms) ∈ out →
        ∃ c, c ≠ -1 ∧ c ∈ L ∧ ms = members_of c L group ∧ ms ≠ []) ∧
     ((∀ c, c ≠ -1 → c ∈ L → (2 ≤ length (members_of c L group))%nat) →
      ∀ i ms, (i, ms) ∈ out → (2 ≤ length ms)%nat)) ∧
  (∀ r, group = [r] → out = [(st, [r])]).
Proof.
  intros H. split.
  - unfold deduplicator._block_process in H. destruct group as [|r0 g].
    + injection H as <- <-. exists []. split; [done|]. split; [simpl; lia|].
      split; intros; by match goal with Hin : _ ∈ [] |- _ =>
                                          apply elem_of_nil in Hin end.
    + destruct (mbind _ _) as [sim|]; [|done]. cbv zeta in H.
      match type of H with
      | deduplicator.to_iter ?labels _ _ = _ => exists labels
      end.
      split.
      { intros Hlen. rewrite decide_False; [done | lia]. }
      split.
      { intros Hlen. rewrite decide_True by done. by eexists. }
      split.
      { intros i ms Hin. by eapply to_iter_spec. }
      intros Hmult i ms Hin.
      destruct (to_iter_spec _ _ _ _ _ H i ms Hin) as (c & Hc & HcL & -> & _).
      by apply Hmult.
  - intros r ->. rewrite block_of_one in H. by injection H as <- _.
Qed.

Lemma block_clusters_witness :
  (∃ L,
     (length [(∅ : gmap string Z); ∅] = 1%nat → L = [0]) ∧
     ((1 < length [(∅ : gmap string Z); ∅])%nat →
      ∃ m, L = dbscan_clusterer.__call__ (λ _ _ m, replicate (length m) 0)
                 {| dbscan_clusterer.eps := 1 # 2;
                    dbscan_clusterer.min_samples := 2 |}
                 [(∅ : gmap string Z); ∅; ∅] m) ∧
     (∀ i ms, (i, ms) ∈ [(0%nat, [(∅ : gmap string Z); ∅])] →
        ∃ c, c ≠ -1 ∧ c ∈ L ∧ ms = members_of c L [∅; ∅] ∧ ms ≠ []) ∧
     ((∀ c, c ≠ -1 → c ∈ L →
            (2 ≤ length (members_of c L [(∅ : gmap string Z); ∅]))%nat) →
      ∀ i ms, (i, ms) ∈ [(0%nat, [(∅ : gmap string Z); ∅])] →
              (2 ≤ length ms)%nat)) ∧
  (∀ r, [(∅ : gmap string Z); ∅] = [r] →
        [(0%nat, [(∅ : gmap string Z); ∅])] = [(0%nat, [r])]).
Proof.
  apply (block_clusters (λ _ _ m, replicate (length m) 0)
           {| deduplicator.comparators := [];
              deduplicator.aggregation_fn := λ _, 1%Q;
              deduplicator.clusterer :=
                {| dbscan_clusterer.eps := 1 # 2;
                   dbscan_clusterer.min_samples := 2 |} |}
           [∅; ∅; ∅] (8 # 10) 0 [∅; ∅] 0 [(0%nat, [∅; ∅])] 1).
  by vm_compute.
Defined.

(** C4 as stated fails: a block of exactly one record comes out as a
    cluster with one member. *)
Lemma single_record_block_emits_singleton :
  ∃ out st',
    deduplicator._block_process (λ _ _ m, replicate (length m) 0)
      {| deduplicator.comparators := [];
         deduplicator.aggregation_fn := λ _, 1%Q;
         deduplicator.clusterer :=
           {| dbscan_clusterer.eps := 1 # 2;
              dbscan_clusterer.min_samples := 2 |} |}
      [(∅ : gmap string Z); ∅; ∅] (8 # 10) 0 [∅] 0 = (Some out, st') ∧
    ∃ i ms, (i, ms) ∈ out ∧ (length ms < 2)%nat.
Proof.
  exists [(0%nat, [∅])], 1%nat. split; [by vm_compute|].
  exists 0%nat, [∅]. split; [by left | simpl; lia].
Qed.

Example confusion_matrix_S6 :
  functional.confusion_matrix_binary64 [0; 0; 1; 2] [0; 0; 1; 1]
  = Some {| functional.TP := 1; functional.FP := 1;
            functional.FN := 0; functional.TN := 4 |}.
Proof. by vm_compute. Qed.

(* ===================================================================== *)
(** *** Pair counting *)
(* ===================================================================== *)
Section pair_counting.
Import numpy functional.
Context {A : Type} `{!EqDecision A}.
Implicit Types (l ks : list A) (x k : A).

Lemma combinations_succ n : combinations (n + 1) = n + combinations n.
Proof.
  unfold combinations.
  replace ((n + 1) * (n + 1 - 1)) with (n * 2 + n * (n - 1)) by lia.
  by rewrite Z.div_add_l.
Qed.

Lemma count_of_cons_eq x l : count_of x (x :: l) = count_of x l + 1.
Proof. unfold count_of. rewrite filter_cons, decide_True by done. simpl. lia. Qed.

Lemma count_of_cons_ne x y l : y ≠ x → count_of x (y :: l) = count_of x l.
Proof. intros H. unfold count_of. by rewrite filter_cons, decide_False. Qed.

Lemma count_of_not_elem x l : x ∉ l → count_of x l = 0.
Proof.
  intros H. unfold count_of.
  destruct (filter _ l) as [|y l'] eqn:Hf; [done|].
  assert (y ∈ filter (λ y, y = x) l) as Hy by (rewrite Hf; by left).
  apply list_elem_of_filter in Hy as [-> Hy]. done.
Qed.

Lemma count_of_Permutation x l1 l2 : l1 ≡ₚ l2 → count_of x l1 = count_of x l2.
Proof. intros H. unfold count_of. by rewrite H. Qed.

Lemma cell_pairs_cons k ks l :
  cell_pairs (k :: ks) l = combinations (count_of k l) + cell_pairs ks l.
Proof. done. Qed.

Lemma cell_pairs_Permutation ks l1 l2 :
  l1 ≡ₚ l2 → cell_pairs ks l1 = cell_pairs ks l2.
Proof.
  intros H. induction ks as [|k ks IH]; [done|].
  by rewrite !cell_pairs_cons, IH, (count_of_Permutation k l1 l2).
Qed.

(** A record outside the cells [ks] changes none of their counts. *)
Lemma cell_pairs_skip x ks l : x ∉ ks → cell_pairs ks (x :: l) = cell_pairs ks l.
Proof.
  induction ks as [|k ks IH]; intros Hx; [done|].
  apply not_elem_of_cons in Hx as [Hne Hx].
  by rewrite !cell_pairs_cons, IH, count_of_cons_ne.
Qed.

(** A record of the cell [x] forms a pair with each record already there. *)
Lemma cell_pairs_step x ks l :
  NoDup ks → x ∈ ks →
  cell_pairs ks (x :: l) = count_of x l + cell_pairs ks l.
Proof.
  induction ks as [|k ks IH]; intros Hnd Hx; [by apply elem_of_nil in Hx|].
  apply NoDup_cons in Hnd as [Hk Hnd]. rewrite !cell_pairs_cons.
  destruct (decide (k = x)) as [->|Hne].
  - rewrite count_of_cons_eq, combinations_succ, cell_pairs_skip by done. lia.
  - apply elem_of_cons in Hx as [?|Hx]; [done|].
    rewrite count_of_cons_ne, IH by done. lia.
Qed.

Lemma same_pairs_cons x l : same_pairs (x :: l) = count_of x l + same_pairs l.
Proof.
  unfold same_pairs, count_of. cbn [iter_utils.combinations2].
  rewrite filter_app, length_app, Nat2Z.inj_add. f_equal. f_equal.
  induction l as [|y l IH]; [done|].
  rewrite fmap_cons, !filter_cons. cbn [fst snd].
  destruct (decide (x = y)) as [->|Hne].
  - rewrite decide_True by done. simpl. by rewrite IH.
  - rewrite decide_False by done. done.
Qed.

(** The sum of [C(n, 2)] over cells that cover [l] counts the pairs of
    equal entries of [l]. *)
Lemma cell_pairs_same_pairs l : ∀ ks,
  NoDup ks → (∀ x, x ∈ l → x ∈ ks) → cell_pairs ks l = same_pairs l.
Proof.
  induction l as [|x l IH]; intros ks Hnd Hcover.
  - unfold same_pairs. simpl. clear Hnd Hcover.
    induction ks as [|k ks IHk]; [done|].
    by rewrite cell_pairs_cons, IHk.
  - rewrite cell_pairs_step, same_pairs_cons by (done || apply Hcover; by left).
    rewrite IH; [done | done |]. intros y Hy. apply Hcover. by right.
Qed.

(** The runs of a sorted list: one per distinct element, with its count. *)
Section runs.
Context (le : relation A) `{!RelDecision le} `{!AntiSymm (=) le}.

Lemma run_lengths_nil_inv l : run_lengths l = [] → l = [].
Proof.
  destruct l as [|x l]; [done|]. simpl.
  destruct (run_lengths l) as [|[y n] r]; [done|]. by destruct (decide (x = y)).
Qed.

Lemma run_lengths_head l : head (run_lengths l).*1 = head l.
Proof.
  destruct l as [|x l]; [done|]. simpl.
  destruct (run_lengths l) as [|[y n] r]; [done|]. by destruct (decide (x = y)).
Qed.

Lemma run_lengths_spec l :
  StronglySorted le l →
  NoDup (run_lengths l).*1 ∧
  (∀ x, x ∈ (run_lengths l).*1 ↔ x ∈ l) ∧
  (run_lengths l).*2 = (λ k, count_of k l) <$> (run_lengths l).*1.
Proof.
  induction l as [|x l IH]; intros Hs.
  - split; [constructor|]. split; [done|done].
  - apply StronglySorted_inv in Hs as [Hs Hx].
    destruct (IH Hs) as (Hnd & Hin & Hcnt). clear IH.
    pose proof (run_lengths_head l) as Hhead.
    pose proof (run_lengths_nil_inv l) as Hnil.
    cbn [run_lengths].
    destruct (run_lengths l) as [|[y n] r] eqn:HR.
    + rewrite (Hnil eq_refl). split; [apply NoDup_singleton|].
      split; [done|]. simpl. by rewrite count_of_cons_eq, count_of_not_elem
        by apply not_elem_of_nil.
    + cbn [fmap list_fmap fst snd] in *.
      apply NoDup_cons in Hnd as [Hy Hnd].
      injection Hcnt as Hn Hcnt.
      destruct (decide (x = y)) as [<-|Hne]; cbn [fmap list_fmap fst snd].
      * split; [by apply NoDup_cons|]. split.
        { intros z. pose proof (Hin z) as Hz. rewrite !elem_of_cons in *.
          tauto. }
        rewrite count_of_cons_eq, <- Hn. f_equal.
        rewrite Hcnt. apply list_fmap_ext. intros i z Hz%list_elem_of_lookup_2.
        rewrite count_of_cons_ne; [done|]. by intros <-.
      * assert (x ∉ l) as Hxl.
        { intros Hxin. destruct l as [|y' l']; [by apply elem_of_nil in Hxin|].
          simpl in Hhead. injection Hhead as ->.
          apply Forall_cons in Hx as [Hxy _].
          apply StronglySorted_inv in Hs as [_ Hy'].
          apply elem_of_cons in Hxin as [?|Hxin]; [done|].
          apply Hne, (anti_symm le); [done|].
          rewrite Forall_forall in Hy'. by apply Hy'. }
        assert (x ∉ y :: r.*1) as Hxr by by rewrite Hin.
        split; [apply NoDup_cons; split; [done | by apply NoDup_cons]|].
        split.
        { intros z. pose proof (Hin z) as Hz.
          rewrite (elem_of_cons (_ :: _)), (elem_of_cons l). tauto. }
        rewrite count_of_cons_eq, count_of_not_elem by done.
        f_equal. rewrite (count_of_cons_ne y) by done. rewrite Hn. f_equal.
        rewrite Hcnt. apply list_fmap_ext. intros i z Hz%list_elem_of_lookup_2.
        rewrite count_of_cons_ne; [done|]. intros <-.
        apply Hxr. by right.
Qed.

(** [np.sum(combinations(sizes, 2))] over the counts of [np.unique]
    is the number of pairs of equal entries. *)
Lemma sum_combinations_unique_counts `{!Total le} `{!Transitive le} l :
  sum_combinations (unique_counts le l).*2 = same_pairs l.
Proof.
  unfold unique_counts.
  destruct (run_lengths_spec (merge_sort le l)) as (Hnd & Hin & Hcnt);
    [by apply StronglySorted_merge_sort|].
  rewrite Hcnt. unfold sum_combinations. rewrite <- list_fmap_compose.
  change (foldr Z.add 0 _) with
    (cell_pairs (run_lengths (merge_sort le l)).*1 (merge_sort le l)).
  rewrite (cell_pairs_Permutation _ _ l) by apply merge_sort_Permutation.
  apply cell_pairs_same_pairs; [done|].
  intros x Hx. apply Hin. by rewrite merge_sort_Permutation.
Qed.
End runs.

End pair_counting.

#[local] Instance lex_le_total : Total numpy.lex_le.
Proof. intros [a b] [c d]. unfold numpy.lex_le. simpl. lia. Qed.

#[local] Instance lex_le_trans : Transitive numpy.lex_le.
Proof. intros [a b] [c d] [e f]. unfold numpy.lex_le. simpl. lia. Qed.

#[local] Instance lex_le_antisymm : AntiSymm (=) numpy.lex_le.
Proof.
  intros [a b] [c d]. unfold numpy.lex_le. simpl. intros H1 H2.
  f_equal; lia.
Qed.

(** The counts over the integers.  For label vectors of the same length
    [N], [TP] is the sum over the joint (predicted, true) cells of
    [C(n, 2)], [FP = P − TP], [FN = T − TP] and [TN = C(N,2) − P − FN],
    with [P] the number of same-predicted pairs and [T] the number of
    same-true pairs; hence [TP + FP + FN + TN = C(N,2)]. *)
Lemma confusion_matrix_pair_counts (true_labels pred_labels : list Z) :
  length true_labels = length pred_labels →
  ∃ cm, functional.confusion_matrix true_labels pred_labels = Some cm ∧
    let cells := remove_dups (zip pred_labels true_labels) in
    let P := same_pairs pred_labels in
    let T := same_pairs true_labels in
    let Total := functional.combinations (Z.of_nat (length pred_labels)) in
    functional.TP cm = cell_pairs cells (zip pred_labels true_labels) ∧
    functional.FP cm = P - functional.TP cm ∧
    functional.FN cm = T - functional.TP cm ∧
    functional.TN cm = Total - P - functional.FN cm ∧
    functional.TP cm + functional.FP cm + functional.FN cm + functional.TN cm
    = Total.
Proof.
  intros Hlen. unfold functional.confusion_matrix.
  rewrite decide_True by done. eexists. split; [done|].
  cbn [functional.TP functional.FP functional.FN functional.TN].
  rewrite !(sum_combinations_unique_counts Z.le).
  rewrite (sum_combinations_unique_counts numpy.lex_le).
  assert (cell_pairs (remove_dups (zip pred_labels true_labels))
            (zip pred_labels true_labels)
          = same_pairs (zip pred_labels true_labels)) as ->.
  { apply cell_pairs_same_pairs; [apply NoDup_remove_dups|].
    intros x Hx. by apply elem_of_remove_dups. }
  repeat split; lia.
Qed.

Example or_of_two_columns :
  let df : list (gmap string string) :=
    [ {[ "first" := "a"; "last" := "x" ]};
      {[ "first" := "b"; "last" := "x" ]};
      {[ "first" := "a"; "last" := "y" ]};
      {[ "first" := "c"; "last" := "z" ]} ]%string in
  let by_first := blocking_rules.ExactGroupBy blocking_rules.groups_level None
                    [blocking_rules.Column "first"] in
  let by_last := blocking_rules.ExactGroupBy blocking_rules.groups_level None
                   [blocking_rules.Column "last"] in
  blocking_rules.labels_of
    (blocking_rules.GroupByLogicalOR blocking_rules.groups_level
       [by_first; by_last]) df = Some [0; 0; 0; 1] ∧
  blocking_rules.labels_of
    (blocking_rules.GroupByLogicalOR blocking_rules.graph_level
       [by_first; by_last]) df = Some [0; 0; 0; 1] ∧
  blocking_rules.labels_of
    (blocking_rules.ExactGroupBy blocking_rules.groups_level None
       [by_first; by_last]) df = Some [0; 2; 1; 3].
Proof. by vm_compute. Qed.

(* ===================================================================== *)
(** *** Graphs, components and label vectors *)
(* ===================================================================== *)
Lemma rtsc_mono {A} (R R' : relation A) x y :
  (∀ a b, R a b → R' a b) → rtsc R x y → rtsc R' x y.
Proof. intros H. apply (rtsc_congruence id R'). exact H. Qed.

Section ordinal_facts.
Context {A : Type} `{!EqDecision A}.
Implicit Types (l u : list A).

Lemma index_of_inj x y u : x ∈ u → index_of x u = index_of y u → x = y.
Proof.
  induction u as [|z u IH]; intros Hx Heq; [by apply elem_of_nil in Hx|].
  simpl in Heq.
  destruct (decide (x = z)) as [->|Hxz], (decide (y = z)) as [->|Hyz];
    try done.
  apply elem_of_cons in Hx as [?|Hx]; [done|].
  injection Heq as Heq. by apply IH.
Qed.

Lemma elem_of_first_seen l : ∀ seen x,
  x ∈ first_seen seen l ↔ x ∈ seen ∨ x ∈ l.
Proof.
  induction l as [|z l IH]; intros seen x; simpl.
  - rewrite elem_of_nil. tauto.
  - destruct (decide (z ∈ seen)) as [Hz|Hz]; rewrite IH, ?elem_of_app,
      ?list_elem_of_singleton, elem_of_cons; [|tauto].
    split; [tauto|]. intros [?|[->|?]]; tauto.
Qed.

Lemma length_ordinal_codes l : length (ordinal_codes l) = length l.
Proof. unfold ordinal_codes. by rewrite length_fmap. Qed.

(** The codes are equal exactly where the entries are. *)
Lemma same_label_ordinal_codes l x y :
  same_label (ordinal_codes l) x y ↔
  ∃ v, l !! x = Some v ∧ l !! y = Some v.
Proof.
  unfold same_label, ordinal_codes. split.
  - intros (c & Hx & Hy). rewrite list_lookup_fmap in Hx, Hy.
    destruct (l !! x) as [vx|] eqn:Hvx; [|done].
    destruct (l !! y) as [vy|] eqn:Hvy; [|done].
    simpl in Hx, Hy. injection Hx as <-. injection Hy as Hy.
    exists vx. split; [done|]. f_equal. symmetry.
    apply (index_of_inj vx vy (first_seen [] l)); [|lia].
    apply elem_of_first_seen. right. by eapply list_elem_of_lookup_2.
  - intros (v & Hx & Hy). eexists. rewrite !list_lookup_fmap, Hx, Hy. done.
Qed.
End ordinal_facts.

Section components_facts.
Import igraph.

Lemma in_edges_snoc es e a b :
  in_edges (es ++ [e]) a b ↔ in_edges es a b ∨ e = (a, b) ∨ e = (b, a).
Proof.
  unfold in_edges. rewrite !elem_of_app, !list_elem_of_singleton.
  split; [intros [[?|?]|[?|?]]|intros [[?|?]|[?|?]]]; auto.
Qed.

(** Connectivity after one more edge [(u, v)]. *)
Lemma rtsc_snoc es u v x y :
  rtsc (in_edges (es ++ [(u, v)])) x y ↔
  rtsc (in_edges es) x y ∨
  (rtsc (in_edges es) x u ∧ rtsc (in_edges es) v y) ∨
  (rtsc (in_edges es) x v ∧ rtsc (in_edges es) u y).
Proof.
  assert (∀ a b, rtsc (in_edges es) a b → rtsc (in_edges (es ++ [(u, v)])) a b)
    as Hmono.
  { intros a b. apply rtsc_mono. intros a' b' H.
    apply in_edges_snoc. by left. }
  assert (rtsc (in_edges (es ++ [(u, v)])) u v) as Huv.
  { apply rtsc_lr, in_edges_snoc. right. by left. }
  split.
  - intros H. induction H as [x|x z y Hstep _ IH]; [by left|].
    assert (rtsc (in_edges es) x z ∨ (x = u ∧ z = v) ∨ (x = v ∧ z = u)) as Hxz.
    { destruct Hstep as [Hs|Hs]; apply in_edges_snoc in Hs as [Hs|[Hs|Hs]].
      - left. by apply rtsc_lr.
      - injection Hs as -> ->. right. by left.
      - injection Hs as -> ->. right. by right.
      - left. by apply rtsc_rl.
      - injection Hs as -> ->. right. by right.
      - injection Hs as -> ->. right. by left. }
    destruct Hxz as [Hxz|[[-> ->]|[-> ->]]].
    + destruct IH as [IH|[[IH1 IH2]|[IH1 IH2]]].
      * left. by etrans.
      * right. left. split; [by etrans | done].
      * right. right. split; [by etrans | done].
    + destruct IH as [IH|[[IH1 IH2]|[IH1 IH2]]].
      * right. left. done.
      * left. etrans; [|exact IH2]. by symmetry.
      * left. done.
    + destruct IH as [IH|[[IH1 IH2]|[IH1 IH2]]].
      * right. right. done.
      * left. done.
      * left. etrans; [|exact IH2]. by symmetry.
  - intros [H|[[H1 H2]|[H1 H2]]].
    + by apply Hmono.
    + etrans; [by apply Hmono|]. etrans; [exact Huv|]. by apply Hmono.
    + etrans; [by apply Hmono|]. etrans; [symmetry; exact Huv|]. by apply Hmono.
Qed.

(** Invariant of the merging loop of [components]. *)
Lemma components_loop n es : ∀ pre labels,
  length labels = n →
  (∀ u v, (u, v) ∈ es → (u < n)%nat ∧ (v < n)%nat) →
  (∀ x y, (x < n)%nat → (y < n)%nat →
          labels !! x = labels !! y ↔ rtsc (in_edges pre) x y) →
  length (foldl merge labels es) = n ∧
  ∀ x y, (x < n)%nat → (y < n)%nat →
         foldl merge labels es !! x = foldl merge labels es !! y ↔
         rtsc (in_edges (pre ++ es)) x y.
Proof.
  induction es as [|[u v] es IH]; intros pre labels Hlen Hrange Hinv.
  - simpl. by rewrite app_nil_r.
  - cbn [foldl]. destruct (Hrange u v) as [Hu Hv]; [by left|].
    replace (pre ++ (u, v) :: es) with ((pre ++ [(u, v)]) ++ es)
      by by rewrite <- app_assoc.
    destruct (lookup_lt_is_Some_2 labels u) as [lu Hlu]; [lia|].
    destruct (lookup_lt_is_Some_2 labels v) as [lv Hlv]; [lia|].
    apply IH.
    + unfold merge. cbn [fst snd]. rewrite Hlu, Hlv. by rewrite length_fmap.
    + intros u' v' H. apply Hrange. by right.
    + intros x y Hx Hy. unfold merge. cbn [fst snd]. rewrite Hlu, Hlv.
      rewrite !list_lookup_fmap, rtsc_snoc.
      destruct (lookup_lt_is_Some_2 labels x) as [lx Hlx]; [lia|].
      destruct (lookup_lt_is_Some_2 labels y) as [ly Hly]; [lia|].
      rewrite Hlx, Hly. cbn [fmap option_fmap option_map].
      rewrite <- !Hinv by done. rewrite Hlx, Hly, Hlu, Hlv.
      rewrite !(inj_iff Some). repeat case_decide; lia.
Qed.

Lemma has_edge_in_edges g : igraph.has_edge g = in_edges (igraph.edges g).
Proof. done. Qed.

Lemma length_foldl_merge es : ∀ labels,
  length (foldl merge labels es) = length labels.
Proof.
  induction es as [|e es IH]; intros labels; [done|]. cbn [foldl].
  rewrite IH. unfold merge.
  destruct (labels !! e.1), (labels !! e.2); try done.
  by rewrite length_fmap.
Qed.

Lemma length_membership g : length (membership g) = vcount g.
Proof.
  unfold membership, components.
  by rewrite length_ordinal_codes, length_foldl_merge, length_seq.
Qed.

(** [membership] gives two vertices the same label exactly when they
    are connected. *)
Lemma membership_connected g :
  in_range g → ∀ x y, same_label (membership g) x y ↔ connected g x y.
Proof.
  intros Hrange x y. unfold membership.
  rewrite same_label_ordinal_codes. unfold components, connected.
  destruct (components_loop (vcount g) (edges g) [] (seq 0 (vcount g)))
    as [Hlen Hinv].
  - by rewrite length_seq.
  - done.
  - intros a b Ha Hb. rewrite !lookup_seq_lt by done. simpl. split.
    + by intros [= ->].
    + intros H. f_equal. induction H as [a|a c b [[H|H]|[H|H]] _ _];
        [done|by apply elem_of_nil in H..].
  - simpl in Hinv. split.
    + intros (l & Hx & Hy).
      assert (x < vcount g)%nat by (apply lookup_lt_Some in Hx; lia).
      assert (y < vcount g)%nat by (apply lookup_lt_Some in Hy; lia).
      split; [done|]. split; [done|]. apply Hinv; [done..|congruence].
    + intros (Hx & Hy & H). apply Hinv in H; [|done..].
      destruct (lookup_lt_is_Some_2 (foldl merge (seq 0 (vcount g)) (edges g)) x)
        as [l Hl]; [lia|].
      exists l. split; [done | congruence].
Qed.
End components_facts.

Section grouped_graphs.
Import igraph pandas blocking_rules.

Lemma elem_of_groupby_keys (L : list Z) k :
  k ∈ (numpy.unique_counts Z.le L).*1 ↔ k ∈ L.
Proof.
  unfold numpy.unique_counts.
  destruct (run_lengths_spec Z.le (merge_sort Z.le L)) as (_ & Hin & _).
  { apply StronglySorted_merge_sort; apply _. }
  by rewrite Hin, merge_sort_Permutation.
Qed.

Lemma elem_of_positions (L : list Z) k x :
  x ∈ filter (λ i, L !! i = Some k) (seq 0 (length L)) ↔ L !! x = Some k.
Proof.
  rewrite list_elem_of_filter, elem_of_seq. split; [tauto|].
  intros H. split; [done|]. apply lookup_lt_Some in H. lia.
Qed.

(** A graph that links the members of each group among themselves, and
    links enough of them, denotes the label vector. *)
Section generic.
Variable f : list nat → list (nat * nat).
Hypothesis f_sound : ∀ c a b, (a, b) ∈ f c → a ∈ c ∧ b ∈ c.
Hypothesis f_connects : ∀ c a b, a ∈ c → b ∈ c → rtsc (in_edges (f c)) a b.

Lemma grouped_edge (L : list Z) a b :
  (a, b) ∈ groupby_indices L ≫= f → same_label L a b.
Proof using f_sound.
  intros (c & Hab & Hc)%list_elem_of_bind.
  unfold groupby_indices in Hc.
  apply list_elem_of_fmap in Hc as (k & -> & _).
  apply f_sound in Hab as [Ha Hb].
  apply elem_of_positions in Ha, Hb. by exists k.
Qed.

Lemma grouped_graph_denotes N (L : list Z) :
  length L = N →
  denotes N (Graph_with_edges N (groupby_indices L ≫= f)) L.
Proof using f_sound f_connects.
  intros Hlen.
  assert (∀ a b, same_label L a b → (a < N)%nat ∧ (b < N)%nat) as Hlt.
  { intros a b (k & Ha & Hb).
    apply lookup_lt_Some in Ha. apply lookup_lt_Some in Hb. lia. }
  assert (∀ a b, has_edge (Graph_with_edges N (groupby_indices L ≫= f)) a b →
                 same_label L a b) as Hedge.
  { intros a b [H|H]; apply grouped_edge in H; [done|].
    destruct H as (k & ? & ?). by exists k. }
  split; [done|]. split; [done|]. split.
  { intros u v Huv. simpl in *. by apply Hlt, grouped_edge. }
  intros x y. split.
  - intros Hxy. destruct (Hlt x y Hxy) as [Hx Hy].
    split; [done|]. split; [done|].
    destruct Hxy as (k & Hxk & Hyk).
    apply (rtsc_mono (in_edges
             (f (filter (λ i, L !! i = Some k) (seq 0 (length L)))))).
    + intros a b [H|H]; [left|right]; simpl; apply list_elem_of_bind;
        eexists; (split; [exact H|]); unfold groupby_indices;
        apply list_elem_of_fmap; exists k; (split; [done|]);
        apply elem_of_groupby_keys; by eapply list_elem_of_lookup_2.
    + apply f_connects; by apply elem_of_positions.
  - intros (Hx & Hy & H). simpl in Hx, Hy.
    induction H as [x|x z y Hstep _ IH].
    + destruct (lookup_lt_is_Some_2 L x) as [k Hk]; [lia|]. by exists k.
    + assert (same_label L x z) as Hxz.
      { destruct Hstep as [H|H]; apply Hedge in H; [done|].
        destruct H as (k & ? & ?). by exists k. }
      destruct (Hlt x z Hxz) as [_ Hz].
      destruct Hxz as (k & Hxk & Hzk), (IH Hz Hy) as (k' & Hzk' & Hyk').
      exists k. split; [done | congruence].
Qed.
End generic.

Lemma combinations2_sound (c : list nat) a b :
  (a, b) ∈ iter_utils.combinations2 c → a ∈ c ∧ b ∈ c.
Proof.
  induction c as [|z c IH]; simpl; [by intros H%elem_of_nil|].
  intros [(y & [= -> ->] & Hy)%list_elem_of_fmap|H]%elem_of_app.
  - split; [by left | by right].
  - destruct (IH H). split; by right.
Qed.

Lemma combinations2_connects (c : list nat) a b :
  a ∈ c → b ∈ c → rtsc (in_edges (iter_utils.combinations2 c)) a b.
Proof.
  induction c as [|z c IH]; intros Ha Hb; [by apply elem_of_nil in Ha|].
  assert (∀ y, y ∈ c → rtsc (in_edges (iter_utils.combinations2 (z :: c))) z y)
    as Hz.
  { intros y Hy. apply rtsc_lr. left. simpl. apply elem_of_app. left.
    apply list_elem_of_fmap. by exists y. }
  apply elem_of_cons in Ha as [->|Ha], Hb as [->|Hb].
  - done.
  - by apply Hz.
  - symmetry. by apply Hz.
  - etrans; [symmetry; by apply Hz | by apply Hz].
Qed.

Lemma iter_pairwise_sound (c : list nat) a b :
  (a, b) ∈ iter_utils.iter_pairwise c → a ∈ c ∧ b ∈ c.
Proof.
  unfold iter_utils.iter_pairwise. intros H.
  split.
  - by apply (elem_of_zip_l _ _ _ _ H).
  - apply (elem_of_zip_r _ _ _ _) in H. destruct c; [done | by right].
Qed.

Lemma iter_pairwise_from_head (c : list nat) : ∀ z a,
  a ∈ z :: c → rtsc (in_edges (iter_utils.iter_pairwise (z :: c))) z a.
Proof.
  induction c as [|z' c IH]; intros z a Ha.
  - apply elem_of_cons in Ha as [->|Ha]; [done | by apply elem_of_nil in Ha].
  - apply elem_of_cons in Ha as [->|Ha]; [done|].
    etrans; [apply rtsc_lr; left; by left|].
    apply (rtsc_mono (in_edges (iter_utils.iter_pairwise (z' :: c))));
      [|by apply IH].
    intros x y [H|H]; [left | right]; by right.
Qed.

Lemma iter_pairwise_connects (c : list nat) a b :
  a ∈ c → b ∈ c → rtsc (in_edges (iter_utils.iter_pairwise c)) a b.
Proof.
  destruct c as [|z c]; [by intros H%elem_of_nil|]. intros Ha Hb.
  etrans; [symmetry|]; by apply iter_pairwise_from_head.
Qed.

Lemma graph_from_groups_denotes (L : list Z) :
  denotes (length L) (graph_from_groups L) L.
Proof.
  apply (grouped_graph_denotes iter_utils.combinations2); [| |done].
  - apply combinations2_sound.
  - apply combinations2_connects.
Qed.

Lemma path_graph_denotes N (L : list Z) :
  length L = N → denotes N (path_graph N L) L.
Proof.
  apply (grouped_graph_denotes iter_utils.iter_pairwise).
  - apply iter_pairwise_sound.
  - apply iter_pairwise_connects.
Qed.

(** Union and intersection of graphs over the same [N] vertices. *)
Lemma vcount_max N (gs : list Graph) :
  gs ≠ [] → Forall (λ g, vcount g = N) gs →
  foldr Nat.max 0%nat (vcount <$> gs) = N.
Proof.
  intros Hne H.
  assert (foldr Nat.max 0%nat (vcount <$> gs)
          = match gs with [] => 0%nat | _ => N end) as ->.
  { clear Hne. induction H as [|g gs Hg H IH]; [done|].
    rewrite fmap_cons. cbn [foldr]. rewrite IH, Hg. destruct gs; lia. }
  by destruct gs.
Qed.

Lemma has_edge_union gs a b :
  has_edge (union_of gs) a b ↔ ∃ g, g ∈ gs ∧ has_edge g a b.
Proof.
  unfold has_edge, union_of. simpl.
  rewrite !elem_of_remove_dups, !list_elem_of_bind. split.
  - intros [(g & ? & ?)|(g & ? & ?)]; exists g; auto.
  - intros (g & ? & [?|?]); [left | right]; by exists g.
Qed.

Lemma union_in_range N gs :
  gs ≠ [] → Forall (λ g, vcount g = N ∧ in_range g) gs →
  vcount (union_of gs) = N ∧ in_range (union_of gs).
Proof.
  intros Hne H.
  assert (vcount (union_of gs) = N) as Hv.
  { apply vcount_max; [done|]. eapply Forall_impl; [exact H|]. by intros g []. }
  split; [done|]. intros u v Huv. rewrite Hv.
  simpl in Huv. rewrite elem_of_remove_dups, list_elem_of_bind in Huv.
  destruct Huv as (g & Huv & Hg).
  rewrite Forall_forall in H. destruct (H g Hg) as [<- Hr]. by apply Hr.
Qed.

Lemma intersection_in_range N gs :
  gs ≠ [] → Forall (λ g, vcount g = N ∧ in_range g) gs →
  vcount (intersection_of gs) = N ∧ in_range (intersection_of gs).
Proof.
  intros Hne H.
  assert (vcount (intersection_of gs) = N) as Hv.
  { apply vcount_max; [done|]. eapply Forall_impl; [exact H|]. by intros g []. }
  split; [done|]. intros u v Huv. rewrite Hv.
  destruct gs as [|g gs]; [done|]. simpl in Huv.
  rewrite list_elem_of_filter, elem_of_remove_dups in Huv.
  destruct Huv as [_ Huv].
  apply Forall_cons in H as [[<- Hr] _]. by apply Hr.
Qed.

(** The components of a union of graphs are the classes of the join. *)
Lemma union_join N gs Ls :
  gs ≠ [] → Forall2 (denotes N) gs Ls →
  denotes N (union_of gs) (membership (union_of gs)) ∧
  ∀ x y, connected (union_of gs) x y ↔ join Ls x y.
Proof.
  intros Hne HF.
  destruct (union_in_range N gs Hne) as [Hv Hr].
  { eapply Forall2_Forall_l; [exact HF|]. apply Forall_true.
    by intros g L (? & _ & ? & _). }
  split.
  { split; [done|]. split; [by rewrite length_membership|]. split; [done|].
    by apply membership_connected. }
  assert (∀ g a b, g ∈ gs → has_edge g a b →
            (a < N)%nat ∧ (b < N)%nat ∧ ∃ L, L ∈ Ls ∧ same_label L a b) as Hstep.
  { intros g a b Hg Hab. apply list_elem_of_lookup in Hg as [i Hi].
    destruct (Forall2_lookup_l _ _ _ _ _ HF Hi) as (L & HL & Hv' & _ & Hr' & Hd).
    assert ((a < N)%nat ∧ (b < N)%nat) as [Ha Hb].
    { rewrite <- Hv'. destruct Hab as [H|H]; apply Hr' in H; tauto. }
    split; [done|]. split; [done|]. exists L.
    split; [by eapply list_elem_of_lookup_2|].
    apply Hd. unfold connected. rewrite Hv'.
    split; [done|]. split; [done|]. by apply rtsc_lr. }
  intros x y. unfold connected. rewrite Hv. split.
  - intros (Hx & Hy & H). induction H as [x|x z y Hxz _ IH].
    + destruct gs as [|g gs]; [done|].
      apply Forall2_cons_inv_l in HF as (L & Ls' & (_ & Hlen & _) & _ & ->).
      apply tc_once. exists L. split; [by left|].
      destruct (lookup_lt_is_Some_2 L x) as [k Hk]; [lia|]. by exists k.
    + assert (has_edge (union_of gs) x z) as Hedge.
      { destruct Hxz as [?|[?|?]]; [done | by right | by left]. }
      apply has_edge_union in Hedge as (g & Hg & Hedge).
      destruct (Hstep g x z Hg Hedge) as (_ & Hz & HL).
      eapply tc_l; [exact HL | by apply IH].
  - intros H. induction H as [x y (L & HL & Hxy)|x z y (L & HL & Hxz) _ IH].
    + apply list_elem_of_lookup in HL as [i Hi].
      destruct (Forall2_lookup_r _ _ _ _ _ HF Hi) as (g & Hg & Hv' & _ & _ & Hd).
      destruct (proj1 (Hd x y) Hxy) as (Hx & Hy & Hc). rewrite Hv' in Hx, Hy.
      split; [done|]. split; [done|].
      apply (rtsc_mono (has_edge g)); [|done].
      intros a b Hab. apply has_edge_union. exists g.
      split; [by eapply list_elem_of_lookup_2 | done].
    + destruct IH as (Hz & Hy & IH).
      apply list_elem_of_lookup in HL as [i Hi].
      destruct (Forall2_lookup_r _ _ _ _ _ HF Hi) as (g & Hg & Hv' & _ & _ & Hd).
      destruct (proj1 (Hd x z) Hxz) as (Hx & _ & Hc). rewrite Hv' in Hx.
      split; [done|]. split; [done|]. etrans; [|exact IH].
      apply (rtsc_mono (has_edge g)); [|done].
      intros a b Hab. apply has_edge_union. exists g.
      split; [by eapply list_elem_of_lookup_2 | done].
Qed.

End grouped_graphs.

(* ===================================================================== *)
(** *** Blocking rules *)
(* ===================================================================== *)
Section rule_facts.
Import igraph pandas blocking_rules.
Context {V : Type} `{!EqDecision V}.
Implicit Types (r : rule (V := V)) (df : list (gmap string V)).

(** Induction over rule trees. *)
Lemma rule_ind' (P : rule (V := V) → Prop) :
  (∀ name, P (Column name)) →
  (∀ lvl encoder rules, Forall P rules → P (ExactGroupBy lvl encoder rules)) →
  (∀ lvl rules, Forall P rules → P (GroupByLogicalOR lvl rules)) →
  ∀ r, P r.
Proof.
  intros HC HE HO. fix IH 1. intros [name|lvl encoder rules|lvl rules].
  - apply HC.
  - apply HE. induction rules as [|r rules IHr]; constructor;
      [apply IH | apply IHr].
  - apply HO. induction rules as [|r rules IHr]; constructor;
      [apply IH | apply IHr].
Qed.

Lemma well_formed_rules (rules : list (rule (V := V))) :
  foldr (λ r' P, well_formed r' ∧ P) True rules ↔ Forall well_formed rules.
Proof.
  induction rules as [|r rules IH]; simpl; [by split|].
  rewrite IH, Forall_cons. done.
Qed.

Lemma membership_denotes N g :
  vcount g = N → in_range g → denotes N g (membership g).
Proof.
  intros Hv Hr. split; [done|]. split; [by rewrite length_membership|].
  split; [done|]. by apply membership_connected.
Qed.

Lemma length_fill_nan codes : ∀ next, length (fill_nan codes next) = length codes.
Proof.
  induction codes as [|c codes IH]; intros next; simpl; [done|].
  destruct (decide (c = -1)); simpl; by rewrite IH.
Qed.

Lemma length_make_groups_str df encoder name L :
  make_groups_str df encoder name = Some L → length L = length df.
Proof.
  unfold make_groups_str, column.
  destruct (decide _) as [_|_]; [|done]. simpl. intros [= <-].
  rewrite length_fill_nan. unfold factorize. rewrite length_fmap.
  destruct encoder; by rewrite ?length_fmap.
Qed.

Lemma length_unique_inverse_transpose (L : list Z) labels :
  length (numpy.unique_inverse (numpy.transpose (L :: labels))) = length L.
Proof.
  unfold numpy.unique_inverse, numpy.transpose.
  by rewrite !length_fmap, length_seq.
Qed.

(** One rule of a disjunction, given what is known of its own [fit]. *)
Lemma or_graph_of_fitted df lvl r g :
  (∀ st, fit r df = Some st → fitted_ok df st) →
  or_graph_of df lvl r = Some g →
  ∃ L, labels_of r df = Some L ∧ denotes (length df) g L.
Proof.
  intros Hok Hg. unfold or_graph_of, get_path_graph, get_graph, make_groups,
    labels_of in *.
  assert (∃ st, fit r df = Some st) as [st Hst].
  { destruct (fit r df) as [st|]; [by eexists|].
    destruct lvl; [by destruct r | done]. }
  destruct (Hok st Hst) as (L & g' & HL & Hg' & Hd).
  exists L. rewrite Hst in *. split; [done|]. destruct lvl.
  - assert (path_graph (length df) L = g) as <-.
    { destruct r; [done|..]; simpl in Hg; rewrite HL in Hg;
        by injection Hg. }
    apply path_graph_denotes. apply Hd.
  - simpl in Hg. by assert (g' = g) as <- by congruence.
Qed.

Lemma mapM_nonempty {A B} (f : A → option B) l k :
  l ≠ [] → mapM f l = Some k → k ≠ [].
Proof.
  intros Hne HM%mapM_Some_1. destruct HM; [done|done].
Qed.

Lemma union_nonempty gs : gs ≠ [] → union gs = Some (union_of gs).
Proof. by destruct gs. Qed.

Lemma intersection_nonempty gs :
  gs ≠ [] → intersection gs = Some (intersection_of gs).
Proof. by destruct gs. Qed.

Lemma fit_or_unfold df lvl rules :
  rules ≠ [] →
  fit (GroupByLogicalOR lvl rules) df
  = graphs ← mapM (or_graph_of df lvl) rules;
    Some {| _graph := Some (union_of graphs); _groups := None;
            _update_graph := false; _update_groups := true |}.
Proof.
  intros Hne. destruct lvl; cbn [fit or_graph_of].
  - destruct (mapM _ rules) as [graphs|] eqn:HM; [|done].
    cbn [mbind option_bind].
    by rewrite (union_nonempty graphs (mapM_nonempty _ _ _ Hne HM)).
  - destruct (mapM _ rules) as [graphs|] eqn:HM; [|done].
    cbn [mbind option_bind].
    by rewrite (union_nonempty graphs (mapM_nonempty _ _ _ Hne HM)).
Qed.

Lemma fit_denotes df r :
  well_formed r → ∀ st, fit r df = Some st → fitted_ok df st.
Proof.
  induction r as [name|lvl encoder rules IH|lvl rules IH] using rule_ind';
    intros Hwf st Hfit; [done| |].
  - destruct Hwf as [Hne Hwf%well_formed_rules].
    cbn [fit] in Hfit. destruct lvl.
    + unfold groups_from_rules in Hfit.
      destruct (mapM _ rules) as [labels|] eqn:HM; [|done].
      injection Hfit as <-. apply mapM_Some_1 in HM.
      eexists _, _. split; [done|]. split; [done|].
      assert (length (numpy.unique_inverse (numpy.transpose labels))
              = length df) as <-; [|apply graph_from_groups_denotes].
      destruct HM as [|r L rules labels Hr _]; [done|].
      rewrite length_unique_inverse_transpose.
      apply Forall_cons in IH as [IHr _], Hwf as [Hwfr _].
      unfold make_groups in Hr. destruct r as [name| |].
      * by eapply length_make_groups_str.
      * destruct encoder; [done|].
        destruct (fit _ df) as [st|] eqn:Hst; [|done].
        destruct (IHr Hwfr st eq_refl) as (L' & g' & HL' & _ & _ & Hlen & _).
        simpl in Hr. congruence.
      * destruct encoder; [done|].
        destruct (fit _ df) as [st|] eqn:Hst; [|done].
        destruct (IHr Hwfr st eq_refl) as (L' & g' & HL' & _ & _ & Hlen & _).
        simpl in Hr. congruence.
    + destruct (mapM _ rules) as [graphs|] eqn:HM; [|done].
      cbn [mbind option_bind] in Hfit.
      rewrite (intersection_nonempty graphs (mapM_nonempty _ _ _ Hne HM))
        in Hfit.
      injection Hfit as <-. apply mapM_Some_1 in HM.
      destruct (intersection_in_range (length df) graphs) as [Hv Hr].
      { destruct HM; [done|done]. }
      { clear Hne. induction HM as [|r g rules graphs Hr _ IHM]; [done|].
        apply Forall_cons in IH as [IHr IH], Hwf as [Hwfr Hwf].
        constructor; [|by apply IHM].
        destruct encoder; [done|]. unfold get_graph in Hr.
        destruct (fit r df) as [st|] eqn:Hst; [|done].
        destruct (IHr Hwfr st eq_refl) as (L' & g' & _ & Hg' & Hv & _ & Hr' & _).
        simpl in Hr. by assert (g' = g) as <- by congruence. }
      exists (membership (intersection_of graphs)), (intersection_of graphs).
      split; [done|]. split; [done|]. by apply membership_denotes.
  - destruct Hwf as [Hne Hwf%well_formed_rules].
    rewrite fit_or_unfold in Hfit by done.
    destruct (mapM _ rules) as [graphs|] eqn:HM; [|done].
    injection Hfit as <-. apply mapM_Some_1 in HM.
    destruct (union_in_range (length df) graphs) as [Hv Hr].
    { destruct HM; [done|done]. }
    { clear Hne. induction HM as [|r g rules graphs Hr _ IHM]; [done|].
      apply Forall_cons in IH as [IHr IH], Hwf as [Hwfr Hwf].
      constructor; [|by apply IHM].
      destruct (or_graph_of_fitted df lvl r g (IHr Hwfr) Hr)
        as (L & _ & Hv & _ & Hr' & _).
      done. }
    exists (membership (union_of graphs)), (union_of graphs).
    split; [done|]. split; [done|]. by apply membership_denotes.
Qed.

Lemma or_graph_of_denotes df lvl r g :
  well_formed r → or_graph_of df lvl r = Some g →
  ∃ L, labels_of r df = Some L ∧ denotes (length df) g L.
Proof.
  intros Hwf. apply or_graph_of_fitted. by apply fit_denotes.
Qed.

Lemma or_graph_of_is_Some df lvl r :
  well_formed r → is_Some (or_graph_of df lvl r) ↔ is_Some (fit r df).
Proof.
  intros Hwf. split.
  - intros [g Hg].
    destruct (or_graph_of_denotes df lvl r g Hwf Hg) as (L & HL & _).
    unfold labels_of in HL. destruct (fit r df); [by eexists | done].
  - intros [st Hst].
    destruct (fit_denotes df r Hwf st Hst) as (L & g' & HL & Hg' & _).
    unfold or_graph_of, get_path_graph, get_graph, make_groups.
    destruct lvl.
    + destruct r; [done|..]; rewrite Hst; simpl; rewrite HL; by eexists.
    + rewrite Hst. simpl. rewrite Hg'. by eexists.
Qed.

Lemma labels_of_or df lvl rules :
  rules ≠ [] →
  labels_of (GroupByLogicalOR lvl rules) df
  = graphs ← mapM (or_graph_of df lvl) rules;
    Some (membership (union_of graphs)).
Proof.
  intros Hne. unfold labels_of. rewrite fit_or_unfold by done.
  by destruct (mapM _ rules).
Qed.

(** The label vector of a disjunction denotes the join of the relations
    of its rules, at either level. *)
Lemma labels_of_or_join df lvl rules graphs :
  rules ≠ [] → Forall well_formed rules →
  mapM (or_graph_of df lvl) rules = Some graphs →
  ∃ Ls, mapM (λ r, labels_of r df) rules = Some Ls ∧
        ∀ x y, same_label (membership (union_of graphs)) x y ↔ join Ls x y.
Proof.
  intros Hne Hwf HM%mapM_Some_1.
  assert (∃ Ls, Forall2 (λ r L, labels_of r df = Some L) rules Ls ∧
                Forall2 (denotes (length df)) graphs Ls) as (Ls & HLs & Hd).
  { clear Hne. induction HM as [|r g rules graphs Hr _ IH].
    - exists []. by split.
    - apply Forall_cons in Hwf as [Hwfr Hwf].
      destruct (IH Hwf) as (Ls & HLs & Hd).
      destruct (or_graph_of_denotes df lvl r g Hwfr Hr) as (L & HL & HdL).
      exists (L :: Ls). split; by constructor. }
  exists Ls. split; [by apply mapM_Some_2|].
  destruct (union_join (length df) graphs Ls) as [Hden Hjoin];
    [by destruct HM | done |].
  intros x y. rewrite <- Hjoin. apply Hden.
Qed.

End rule_facts.

(** C3, as the specification words it, fails on a rule object without
    rules.  [ExactGroupBy()] fitted at [level=groups] has the empty
    label vector, whatever the data set (numpy on an empty array); the
    OR over it at [level=groups] builds the path graph over the
    [df.shape[0]] records and labels every record, the OR at
    [level=graph] builds the graph of the empty label vector, which has
    no vertex, and labels none: record 0 is in relation with itself at
    one level and not at the other. *)
Lemma or_levels_differ_on_empty_rule :
  blocking_rules.labels_of
    (blocking_rules.GroupByLogicalOR blocking_rules.groups_level
       [blocking_rules.ExactGroupBy blocking_rules.groups_level None []])
    [ {[ "first" := "a" ]}; {[ "first" := "b" ]};
      {[ "first" := "a" ]}; {[ "first" := "c" ]} ]%string
  = Some [0; 1; 2; 3] ∧
  blocking_rules.labels_of
    (blocking_rules.GroupByLogicalOR blocking_rules.graph_level
       [blocking_rules.ExactGroupBy blocking_rules.groups_level None []])
    [ {[ "first" := "a" ]}; {[ "first" := "b" ]};
      {[ "first" := "a" ]}; {[ "first" := "c" ]} ]%string
  = Some [] ∧
  same_label [0; 1; 2; 3] 0 0 ∧ ¬ same_label [] 0 0.
Proof.
  split; [by vm_compute|]. split; [by vm_compute|].
  split; [by exists 0 | by intros (l & Hl & _)].
Qed.

(** C3.  For every non-empty list of rule trees in which every rule
    object has at least one rule, and every data set: when every child
    fits, the OR combinator at [level=groups] (union of the path graphs
    of the children, then connected components) and at [level=graph]
    (union of the graphs of the children, then connected components)
    both return a label vector, and the two vectors denote the same
    equivalence relation on the records, the join of the equivalence
    relations of the children; when a child fails to fit, the OR fails
    at both levels. *)
Theorem or_levels_agree {V : Type} `{!EqDecision V}
    (rules : list (blocking_rules.rule (V := V)))
    (df : list (gmap string V)) :
  rules ≠ [] →
  Forall blocking_rules.well_formed rules →
  match mapM (λ r, blocking_rules.labels_of r df) rules,
        blocking_rules.labels_of
          (blocking_rules.GroupByLogicalOR blocking_rules.groups_level rules) df,
        blocking_rules.labels_of
          (blocking_rules.GroupByLogicalOR blocking_rules.graph_level rules) df
  with
  | Some Ls, Some L1, Some L2 =>
      (∀ x y, same_label L1 x y ↔ join Ls x y) ∧
      (∀ x y, same_label L2 x y ↔ join Ls x y)
  | None, None, None => True
  | _, _, _ => False
  end.
Proof.
  intros Hne Hwf. rewrite !labels_of_or by done.
  assert (∀ lvl, is_Some (mapM (or_graph_of df lvl) rules) ↔
                 is_Some (mapM (λ r, blocking_rules.labels_of r df) rules))
    as Hboth.
  { intros lvl. rewrite !mapM_is_Some. clear Hne.
    induction Hwf as [|r rules Hr _ IH]; [done|].
    rewrite !Forall_cons, IH. unfold compose.
    rewrite (or_graph_of_is_Some _ _ _ Hr).
    enough (is_Some (blocking_rules.fit r df)
            ↔ is_Some (blocking_rules.labels_of r df)) as -> by done.
    split.
    - intros [st Hst].
      destruct (fit_denotes df r Hr st Hst) as (L & g & HL & _).
      unfold blocking_rules.labels_of. rewrite Hst. simpl. by eexists.
    - unfold blocking_rules.labels_of.
      destruct (blocking_rules.fit r df); [by eexists | by intros [? ?]]. }
  destruct (mapM (λ r, blocking_rules.labels_of r df) rules)
    as [Ls|] eqn:HLs.
  - destruct (proj2 (Hboth blocking_rules.groups_level)) as [graphs1 H1];
      [by eexists|].
    destruct (proj2 (Hboth blocking_rules.graph_level)) as [graphs2 H2];
      [by eexists|].
    rewrite H1, H2. simpl.
    destruct (labels_of_or_join df _ rules graphs1 Hne Hwf H1)
      as (Ls1 & HLs1 & HJ1).
    destruct (labels_of_or_join df _ rules graphs2 Hne Hwf H2)
      as (Ls2 & HLs2 & HJ2).
    assert (Ls1 = Ls) as -> by congruence.
    assert (Ls2 = Ls) as -> by congruence.
    split; [exact HJ1 | exact HJ2].
  - destruct (mapM (or_graph_of df blocking_rules.groups_level) rules)
      as [graphs1|] eqn:H1.
    { destruct (proj1 (Hboth blocking_rules.groups_level)) as [? ?];
        [by eexists | done]. }
    destruct (mapM (or_graph_of df blocking_rules.graph_level) rules)
      as [graphs2|] eqn:H2; [|done].
    destruct (proj1 (Hboth blocking_rules.graph_level)) as [? ?];
      [by eexists | done].
Qed.

Lemma or_levels_agree_witness :
  match mapM (λ r, blocking_rules.labels_of r
                     [ {[ "first" := "a"; "last" := "x" ]};
            {[ "first" := "b"; "last" := "x" ]};
            {[ "first" := "a"; "last" := "y" ]};
            {[ "first" := "c"; "last" := "z" ]} ]%string)
          [blocking_rules.ExactGroupBy blocking_rules.groups_level None
              [blocking_rules.Column "first"];
            blocking_rules.ExactGroupBy blocking_rules.graph_level None
              [blocking_rules.ExactGroupBy blocking_rules.groups_level None
                 [blocking_rules.Column "last"]]],
        blocking_rules.labels_of
          (blocking_rules.GroupByLogicalOR blocking_rules.groups_level
             [blocking_rules.ExactGroupBy blocking_rules.groups_level None
              [blocking_rules.Column "first"];
            blocking_rules.ExactGroupBy blocking_rules.graph_level None
              [blocking_rules.ExactGroupBy blocking_rules.groups_level None
                 [blocking_rules.Column "last"]]])
          [ {[ "first" := "a"; "last" := "x" ]};
            {[ "first" := "b"; "last" := "x" ]};
            {[ "first" := "a"; "last" := "y" ]};
            {[ "first" := "c"; "last" := "z" ]} ]%string,
        blocking_rules.labels_of
          (blocking_rules.GroupByLogicalOR blocking_rules.graph_level
             [blocking_rules.ExactGroupBy blocking_rules.groups_level None
              [blocking_rules.Column "first"];
            blocking_rules.ExactGroupBy blocking_rules.graph_level None
              [blocking_rules.ExactGroupBy blocking_rules.groups_level None
                 [blocking_rules.Column "last"]]])
          [ {[ "first" := "a"; "last" := "x" ]};
            {[ "first" := "b"; "last" := "x" ]};
            {[ "first" := "a"; "last" := "y" ]};
            {[ "first" := "c"; "last" := "z" ]} ]%string
  with
  | Some Ls, Some L1, Some L2 =>
      (∀ x y, same_label L1 x y ↔ join Ls x y) ∧
      (∀ x y, same_label L2 x y ↔ join Ls x y)
  | None, None, None => True
  | _, _, _ => False
  end.
Proof.
  apply (or_levels_agree
           [blocking_rules.ExactGroupBy blocking_rules.groups_level None
              [blocking_rules.Column "first"];
            blocking_rules.ExactGroupBy blocking_rules.graph_level None
              [blocking_rules.ExactGroupBy blocking_rules.groups_level None
                 [blocking_rules.Column "last"]]]).
  - done.
  - repeat constructor; done.
Defined.

Example or_example_labels :
  blocking_rules.labels_of
    (blocking_rules.GroupByLogicalOR blocking_rules.groups_level
       [blocking_rules.ExactGroupBy blocking_rules.groups_level None
          [blocking_rules.Column "first"];
        blocking_rules.ExactGroupBy blocking_rules.graph_level None
          [blocking_rules.ExactGroupBy blocking_rules.groups_level None
             [blocking_rules.Column "last"]]])
    [ {[ "first" := "a"; "last" := "x" ]};
      {[ "first" := "b"; "last" := "x" ]};
      {[ "first" := "a"; "last" := "y" ]};
      {[ "first" := "c"; "last" := "z" ]} ]%string
  = Some [0; 0; 0; 1].
Proof. by vm_compute. Qed.

(* ===================================================================== *)
(** *** More on the label algebra *)
(* ===================================================================== *)
Section label_algebra_more.
Import er_utils.

Lemma count_of_app {A} `{!EqDecision A} (x : A) l1 l2 :
  count_of x (l1 ++ l2) = count_of x l1 + count_of x l2.
Proof. unfold count_of. rewrite filter_app, length_app. lia. Qed.

Lemma count_of_singleton_sym {A} `{!EqDecision A} (x y : A) :
  count_of x [y] = count_of y [x].
Proof.
  unfold count_of. rewrite !filter_cons, !filter_nil.
  destruct (decide (y = x)), (decide (x = y)); congruence.
Qed.

Lemma same_pairs_snoc {A} `{!EqDecision A} (l : list A) x :
  same_pairs (l ++ [x]) = same_pairs l + count_of x l.
Proof.
  induction l as [|a l IH].
  - by vm_compute.
  - rewrite <- app_comm_cons, !same_pairs_cons, IH, count_of_app.
    change (a :: l) with ([a] ++ l). rewrite (count_of_app x [a] l).
    rewrite (count_of_singleton_sym a x). lia.
Qed.

(** The positions that carry a label are as many as its occurrences. *)
Lemma length_positions {A} `{!EqDecision A} (l : list A) x :
  Z.of_nat (length (filter (λ i, l !! i = Some x) (seq 0 (length l))))
  = count_of x l.
Proof.
  induction l as [|y l IH] using rev_ind; [done|].
  rewrite length_app, Nat.add_1_r, seq_S, filter_app, length_app, count_of_app.
  rewrite Nat2Z.inj_add, <- IH. f_equal.
  - f_equal. f_equal. apply filter_ext_elem. intros i Hi%elem_of_seq.
    rewrite lookup_app_l; [done | lia].
  - simpl. unfold count_of. rewrite !filter_cons, !filter_nil.
    rewrite list_lookup_middle by done.
    destruct (decide (Some y = Some x)) as [[= ->]|Hne].
    + by rewrite decide_True.
    + rewrite decide_False; [done | congruence].
Qed.

Lemma labels_to_pairs_loop_length rest : ∀ pre pairs d,
  dict_of pre d →
  Z.of_nat (length (labels_to_pairs_loop (length pre) rest pairs d))
  = Z.of_nat (length pairs) + same_pairs (pre ++ rest) - same_pairs pre.
Proof.
  induction rest as [|label rest IH]; intros pre pairs d Hd.
  - rewrite app_nil_r. simpl. lia.
  - cbn [labels_to_pairs_loop].
    specialize (IH (pre ++ [label])). rewrite length_app, Nat.add_1_r in IH.
    rewrite IH by by apply dict_of_snoc.
    rewrite length_app, length_fmap, Hd, Nat2Z.inj_add, length_positions.
    rewrite <- app_assoc, same_pairs_snoc. simpl. lia.
Qed.

End label_algebra_more.

(** X1.  On a label vector without [-1], [labels_to_pairs] returns as
    many pairs as there are pairs of mentions with the same label: the
    sum over the labels of [C(n, 2)], [n] the size of the cluster. *)
Theorem labels_to_pairs_count (L : list Z) :
  (-1) ∉ L →
  ∃ pairs, er_utils.labels_to_pairs L = Some pairs ∧
    Z.of_nat (length pairs) = same_pairs L ∧
    Z.of_nat (length pairs) = cell_pairs (remove_dups L) L.
Proof.
  intros Hno. unfold er_utils.labels_to_pairs. rewrite decide_False by done.
  eexists. split; [done|].
  pose proof (labels_to_pairs_loop_length L [] [] ∅ dict_of_empty) as Hlen.
  simpl in Hlen. split.
  - rewrite Hlen. unfold same_pairs at 2. simpl. lia.
  - rewrite Hlen. unfold same_pairs at 2. simpl.
    rewrite (cell_pairs_same_pairs L (remove_dups L)); [lia| |].
    + apply NoDup_remove_dups.
    + intros x Hx. by apply elem_of_remove_dups.
Qed.

Lemma labels_to_pairs_count_witness :
  ∃ pairs, er_utils.labels_to_pairs [0; 0; 1; 0] = Some pairs ∧
    Z.of_nat (length pairs) = same_pairs [0; 0; 1; 0] ∧
    Z.of_nat (length pairs) = cell_pairs (remove_dups [0; 0; 1; 0]) [0; 0; 1; 0].
Proof.
  apply (labels_to_pairs_count [0; 0; 1; 0]).
  intros Hin. repeat (apply elem_of_cons in Hin as [?|Hin]; [lia|]).
  by apply elem_of_nil in Hin.
Defined.

(** X2.  The other round trip: on a label vector [L] without [-1],
    [pairs_to_labels(labels_to_pairs(L), len(L))] returns a label vector
    of the same length that puts two mentions in one cluster exactly
    when [L] does. *)
Theorem pairs_to_labels_labels_to_pairs (L : list Z) :
  (-1) ∉ L →
  ∃ Q L', er_utils.labels_to_pairs L = Some Q ∧
          er_utils.pairs_to_labels Q (length L) false = Some L' ∧
          length L' = length L ∧ ((-1) ∉ L') ∧
          ∀ x y, same_label L' x y ↔ same_label L x y.
Proof.
  intros Hno. destruct (labels_to_pairs_spec L Hno) as (Q & HQ & _ & Hin).
  assert (∀ a b, same_label L a b → (a < length L)%nat ∧ (b < length L)%nat)
    as Hlt.
  { intros a b (c & Ha & Hb).
    apply lookup_lt_Some in Ha. apply lookup_lt_Some in Hb. lia. }
  assert (∀ a b, linked Q a b ↔ a ≠ b ∧ same_label L a b) as Hlink.
  { intros a b. unfold linked. rewrite !Hin. split.
    - intros [[? ?]|[? (c & ? & ?)]]; (split; [lia|]); [done | by exists c].
    - intros [Hne (c & Ha & Hb)].
      destruct (decide (b < a)%nat); [left | right]; (split; [lia|]);
        by exists c. }
  destruct (pairs_to_labels_spec (length L) Q) as (L' & HL' & Hlen & Hno' & Hsame).
  { intros a b Hab. assert (linked Q a b) as [Hne Hs]%Hlink by by left.
    destruct (Hlt a b Hs). done. }
  { intros a b c [Hab (k & Ha & Hb)]%Hlink [Hbc (k' & Hb' & Hc)]%Hlink Hac.
    apply Hlink. split; [done|]. exists k. split; [done | congruence]. }
  exists Q, L'. repeat (split; [done|]). intros x y. split.
  - intros Hs.
    assert ((x < length L)%nat ∧ (y < length L)%nat) as [Hx Hy].
    { destruct Hs as (c & Hx & Hy).
      apply lookup_lt_Some in Hx. apply lookup_lt_Some in Hy. lia. }
    apply Hsame in Hs as [->|[_ Hs]%Hlink]; [|done..].
    destruct (lookup_lt_is_Some_2 L y Hy) as [c Hc]. by exists c.
  - intros Hs. destruct (Hlt x y Hs) as [Hx Hy]. apply Hsame; [done..|].
    destruct (decide (x = y)) as [->|Hne]; [by left|].
    right. by apply Hlink.
Qed.

Lemma pairs_to_labels_labels_to_pairs_witness :
  ∃ Q L', er_utils.labels_to_pairs [5; 7; 5; 5] = Some Q ∧
          er_utils.pairs_to_labels Q (length [5; 7; 5; 5]) false = Some L' ∧
          length L' = length [5; 7; 5; 5] ∧ ((-1) ∉ L') ∧
          ∀ x y, same_label L' x y ↔ same_label [5; 7; 5; 5] x y.
Proof.
  apply (pairs_to_labels_labels_to_pairs [5; 7; 5; 5]).
  intros Hin. repeat (apply elem_of_cons in Hin as [?|Hin]; [lia|]).
  by apply elem_of_nil in Hin.
Defined.



(* ===================================================================== *)
(** *** [pairs_to_labels] on pairs that are not transitively closed *)
(* ===================================================================== *)
Section pairs_to_labels_any.
Import er_utils.
Context (N : nat) (P : list LinkedPair).

Lemma init_store_sound : store_sound N P (init_store N).
Proof.
  split; simpl.
  - by rewrite length_seq.
  - intros x Hx. exists x, {[ x ]}.
    rewrite list_lookup_fmap, !lookup_seq_lt by done. simpl.
    split; [done|]. split; [done|]. by apply elem_of_singleton.
  - intros r S y z. rewrite list_lookup_fmap.
    destruct (seq 0 N !! r) as [i|] eqn:Hi; [|done]. simpl.
    intros [= <-] ->%elem_of_singleton ->%elem_of_singleton. done.
  - intros r S y. rewrite list_lookup_fmap.
    destruct (seq 0 N !! r) as [i|] eqn:Hi; [|done]. simpl.
    intros [= <-] ->%elem_of_singleton.
    apply lookup_seq in Hi as [-> ?]. done.
Qed.

Lemma link_step_sound s a b :
  store_sound N P s → (a < N)%nat → (b < N)%nat → linked P a b →
  ∃ s', link_step s (a, b) = Some s' ∧ store_sound N P s'.
Proof.
  intros Hok Ha Hb Hab.
  destruct (snd_self _ _ _ Hok a Ha) as (ra & sa & Hra & Hsa & Haa).
  destruct (snd_self _ _ _ Hok b Hb) as (rb & sb & Hrb & Hsb & Hbb).
  unfold link_step. rewrite Hra, Hrb. cbn [mbind option_bind].
  rewrite Hsa, Hsb. cbn [mbind option_bind].
  eexists. split; [done|].
  assert (ra < length (heap s))%nat as Hlt by by apply lookup_lt_Some in Hsa.
  assert (∀ r S, <[ra := sa ∪ sb]> (heap s) !! r = Some S →
            (r = ra ∧ S = sa ∪ sb) ∨ (r ≠ ra ∧ heap s !! r = Some S)) as Hcases.
  { intros r S. destruct (decide (r = ra)) as [->|Hne].
    - rewrite list_lookup_insert_eq by done. intros [= <-]. by left.
    - rewrite list_lookup_insert_ne by done. by right. }
  split; cbn [node_matches heap].
  - rewrite length_insert. apply Hok.
  - intros x Hx. destruct (decide (x = b)) as [->|Hne].
    + exists ra, (sa ∪ sb).
      rewrite !list_lookup_insert_eq; [|done|by rewrite (snd_slots _ _ _ Hok)].
      split; [done|]. split; [done|]. apply elem_of_union. by right.
    + destruct (snd_self _ _ _ Hok x Hx) as (r & S & Hr & HS & HxS).
      rewrite list_lookup_insert_ne by done.
      destruct (decide (r = ra)) as [->|Hr'].
      * exists ra, (sa ∪ sb). rewrite list_lookup_insert_eq by done.
        split; [done|]. split; [done|].
        apply elem_of_union. left. congruence.
      * exists r, S. by rewrite list_lookup_insert_ne.
  - intros r S y z [[-> ->]|[_ HS]]%Hcases; [|by apply (snd_conn _ _ _ Hok r)].
    assert (rtsc (linked P) a b) as Hc by by apply rtsc_lr.
    intros [Hy|Hy]%elem_of_union [Hz|Hz]%elem_of_union.
    + by apply (snd_conn _ _ _ Hok ra sa).
    + etrans; [apply (snd_conn _ _ _ Hok ra sa y a); done|].
      etrans; [done|]. by apply (snd_conn _ _ _ Hok rb sb).
    + etrans; [apply (snd_conn _ _ _ Hok rb sb y b); done|].
      etrans; [by symmetry|]. by apply (snd_conn _ _ _ Hok ra sa).
    + by apply (snd_conn _ _ _ Hok rb sb).
  - intros r S y [[-> ->]|[_ HS]]%Hcases; [|by apply (snd_range _ _ _ Hok r S)].
    intros [Hy|Hy]%elem_of_union.
    + by apply (snd_range _ _ _ Hok ra sa).
    + by apply (snd_range _ _ _ Hok rb sb).
Qed.

Lemma link_all_sound pairs : ∀ s,
  store_sound N P s →
  (∀ a b, (a, b) ∈ pairs → (a < N)%nat ∧ (b < N)%nat ∧ linked P a b) →
  ∃ s', link_all s pairs = Some s' ∧ store_sound N P s'.
Proof.
  induction pairs as [|[a b] rest IH]; intros s Hok Hin.
  - by exists s.
  - destruct (Hin a b) as (Ha & Hb & Hab); [by left|].
    destruct (link_step_sound s a b Hok Ha Hb Hab) as (s1 & Hs1 & Hok1).
    cbn [link_all]. rewrite Hs1. cbn [mbind option_bind].
    apply IH; [done|]. intros ???. apply Hin. by right.
Qed.

Lemma link_step_slots s lp s' :
  link_step s lp = Some s' →
  length (node_matches s') = length (node_matches s).
Proof.
  destruct lp as [a b]. unfold link_step. intros Hs.
  destruct (node_matches s !! a) as [ra|]; [|done].
  destruct (node_matches s !! b) as [rb|]; [|done].
  cbn [mbind option_bind] in Hs.
  destruct (heap s !! ra) as [sa|]; [|done]. cbn [mbind option_bind] in Hs.
  destruct (heap s !! rb) as [sb|]; [|done]. cbn [mbind option_bind] in Hs.
  injection Hs as <-. simpl.
  by rewrite length_insert.
Qed.

Lemma link_all_out_of_range pairs : ∀ s,
  (∃ a b, (a, b) ∈ pairs ∧
     ((length (node_matches s) ≤ a)%nat ∨ (length (node_matches s) ≤ b)%nat)) →
  link_all s pairs = None.
Proof.
  induction pairs as [|[a b] rest IH]; intros s (x & y & Hin & Hout).
  - by apply elem_of_nil in Hin.
  - cbn [link_all]. destruct (link_step s (a, b)) as [s1|] eqn:Hs1; [|done].
    cbn [mbind option_bind].
    apply elem_of_cons in Hin as [[= -> ->]|Hin].
    + exfalso. unfold link_step in Hs1.
      destruct Hout as [Hout|Hout].
      * by rewrite (lookup_ge_None_2 _ a) in Hs1.
      * rewrite (lookup_ge_None_2 _ b) in Hs1 by done.
        by destruct (node_matches s !! a).
    + apply IH. exists x, y. split; [done|].
      by rewrite (link_step_slots _ _ _ Hs1).
Qed.

End pairs_to_labels_any.

Section assign_labels_any.
Import er_utils.
Context (N : nat) (P : list LinkedPair) (ds : bool).

Lemma labelled_sound_init : labelled_sound N P ds 0 (replicate N (-1)) 0.
Proof.
  split.
  - apply length_replicate.
  - done.
  - intros x c [-> _]%lookup_replicate. by left.
  - intros x y c [-> _]%lookup_replicate. done.
  - intros _ x Hx. lia.
Qed.

Lemma assign_labels_sound s :
  store_sound N P s →
  ∀ slots k fl idx,
    (k ≤ N)%nat →
    drop k (node_matches s) = slots → labelled_sound N P ds k fl idx →
    ∃ L idx', assign_labels (heap s) ds slots k fl idx = Some L ∧
              labelled_sound N P ds N L idx'.
Proof.
  intros Hok. induction slots as [|r rest IH]; intros k fl idx HkN' Hdrop Hlab.
  - exists fl, idx. split; [done|].
    apply drop_nil_inv in Hdrop. rewrite (snd_slots _ _ _ Hok) in Hdrop.
    destruct Hlab. split; try done; [lia|].
    intros Hds x Hx. apply lsd_done0; [done | lia].
  - assert (node_matches s !! k = Some r) as Hk.
    { pose proof (lookup_drop (node_matches s) k 0) as Hd.
      rewrite Hdrop, Nat.add_0_r in Hd. done. }
    assert (k < N)%nat as HkN.
    { apply lookup_lt_Some in Hk. by rewrite (snd_slots _ _ _ Hok) in Hk. }
    assert (drop (S k) (node_matches s) = rest) as Hdrop'.
    { rewrite (drop_S _ _ _ Hk) in Hdrop. congruence. }
    pose proof (lsd_idx _ _ _ _ _ _ Hlab) as Hidx.
    cbn [assign_labels].
    destruct (decide (default (-1) (fl !! k) > -1)) as [Hgt|Hle].
    { apply IH; [lia | done |]. destruct Hlab. split; try done; [lia|].
      intros Hds x Hx. destruct (decide (x = k)) as [->|Hne].
      - intros Heq. rewrite Heq in Hgt. simpl in Hgt. lia.
      - apply lsd_done0; [done | lia]. }
    destruct (ds && bool_decide (size (default ∅ (heap s !! r)) = 1%nat))
      eqn:Hskip.
    { apply andb_prop in Hskip as [-> _].
      apply IH; [lia | done |]. destruct Hlab. split; try done; lia. }
    destruct (snd_self _ _ _ Hok k HkN) as (r' & S & Hr' & HS & HkS).
    assert (r' = r) as -> by congruence. rewrite HS. cbn [from_option id].
    destruct (propagate_spec (elements S) fl idx) as (fl' & Hp & Hlen & Hlook).
    { intros y Hy%elem_of_elements. rewrite (lsd_len _ _ _ _ _ _ Hlab).
      by apply (snd_range _ _ _ Hok r S). }
    rewrite Hp. cbn [mbind option_bind].
    assert (∀ x, fl' !! x = if decide (x ∈ S) then Some idx else fl !! x)
      as Hlook'.
    { intros x. rewrite Hlook.
      destruct (decide (x ∈ elements S)) as [Hin|Hin];
        rewrite elem_of_elements in Hin.
      - by rewrite decide_True.
      - by rewrite decide_False. }
    clear Hlook Hp.
    apply IH; [lia | done |]. split.
    + rewrite Hlen. apply Hlab.
    + lia.
    + intros x c. rewrite Hlook'.
      destruct (decide (x ∈ S)); [intros [= <-]; right; lia|].
      intros Hc.
      destruct (lsd_bound _ _ _ _ _ _ Hlab x c Hc); [by left | right; lia].
    + intros x y c. rewrite !Hlook'.
      destruct (decide (x ∈ S)) as [Hx|Hx], (decide (y ∈ S)) as [Hy|Hy].
      * intros _ _ _. by apply (snd_conn _ _ _ Hok r S).
      * intros [= <-] Hc. apply (lsd_bound _ _ _ _ _ _ Hlab) in Hc. lia.
      * intros Hc [= <-]. apply (lsd_bound _ _ _ _ _ _ Hlab) in Hc. lia.
      * apply (lsd_conn _ _ _ _ _ _ Hlab).
    + intros Hds x Hx. rewrite Hlook'.
      destruct (decide (x ∈ S)) as [HxS|HxS].
      * intros [= ?]. lia.
      * destruct (decide (x = k)) as [->|Hne]; [done|].
        apply (lsd_done _ _ _ _ _ _ Hlab); [done | lia].
Qed.

End assign_labels_any.

(** X4.  [pairs_to_labels] on arbitrary pairs of mention ids below
    [total_mentions], transitively closed or not: it returns a label
    vector of length [total_mentions] with labels in
    [-1, total_mentions), without [-1] when [drop_singletons] is off,
    and two mentions that share a label (other than [-1]) are always
    connected by a chain of the pairs: it never merges mentions that
    the pairs do not connect. *)
Theorem pairs_to_labels_never_merges_unconnected
    (pairs : list er_utils.LinkedPair) (total_mentions : nat)
    (drop_singletons : bool) :
  (∀ a b, (a, b) ∈ pairs → (a < total_mentions)%nat ∧ (b < total_mentions)%nat) →
  ∃ L, er_utils.pairs_to_labels pairs total_mentions drop_singletons = Some L ∧
       length L = total_mentions ∧
       (∀ x c, L !! x = Some c → -1 ≤ c < Z.of_nat total_mentions) ∧
       (drop_singletons = false → (-1) ∉ L) ∧
       (∀ x y c, L !! x = Some c → L !! y = Some c → c ≠ -1 →
          rtsc (linked pairs) x y).
Proof.
  intros Hin. unfold er_utils.pairs_to_labels.
  destruct (link_all_sound total_mentions pairs pairs
              (er_utils.init_store total_mentions)) as (s & Hs & Hok).
  { apply init_store_sound. }
  { intros a b Hab. destruct (Hin a b Hab). repeat split; try done. by left. }
  rewrite Hs. cbn [mbind option_bind].
  destruct (assign_labels_sound total_mentions pairs drop_singletons s Hok
              (er_utils.node_matches s) 0 (replicate total_mentions (-1)) 0)
    as (L & idx & HL & Hlab); [lia | done | apply labelled_sound_init |].
  exists L. split; [done|]. destruct Hlab. split; [done|]. split; [|split].
  - intros x c Hc. destruct (lsd_bound0 x c Hc); lia.
  - intros Hds [x Hx]%list_elem_of_lookup_1.
    apply (lsd_done0 Hds x); [|done].
    apply lookup_lt_Some in Hx. lia.
  - done.
Qed.

Lemma pairs_to_labels_never_merges_unconnected_witness :
  ∃ L, er_utils.pairs_to_labels [(0, 1); (2, 1); (3, 0)]%nat 4 false = Some L ∧
       length L = 4%nat ∧
       (∀ x c, L !! x = Some c → -1 ≤ c < Z.of_nat 4) ∧
       (false = false → (-1) ∉ L) ∧
       (∀ x y c, L !! x = Some c → L !! y = Some c → c ≠ -1 →
          rtsc (linked [(0, 1); (2, 1); (3, 0)]%nat) x y).
Proof.
  apply (pairs_to_labels_never_merges_unconnected
           [(0, 1); (2, 1); (3, 0)]%nat 4 false).
  intros a b Hab.
  repeat (apply elem_of_cons in Hab as [[= -> ->]|Hab]; [lia|]).
  by apply elem_of_nil in Hab.
Defined.

(** The chain [0 – 1 – 2], [0 – 3] connects the four mentions, yet
    mention [3] ends in a cluster of its own: on pairs that are not
    transitively closed the labelling may split a connected group. *)
Example pairs_to_labels_splits_chain :
  er_utils.pairs_to_labels [(0, 1); (2, 1); (3, 0)]%nat 4 false
  = Some [1; 1; 1; 0].
Proof. by vm_compute. Qed.

(** X5.  A pair that names a mention id [≥ total_mentions] makes
    [pairs_to_labels] fail (IndexError), whatever the other pairs. *)
Theorem pairs_to_labels_index_error
    (pairs : list er_utils.LinkedPair) (total_mentions : nat)
    (drop_singletons : bool) (a b : nat) :
  (a, b) ∈ pairs → (total_mentions ≤ a)%nat ∨ (total_mentions ≤ b)%nat →
  er_utils.pairs_to_labels pairs total_mentions drop_singletons = None.
Proof.
  intros Hin Hout. unfold er_utils.pairs_to_labels.
  rewrite link_all_out_of_range; [done|].
  exists a, b. split; [done|]. simpl. by rewrite length_seq.
Qed.

Lemma pairs_to_labels_index_error_witness :
  er_utils.pairs_to_labels [(1, 0); (4, 1)]%nat 4 false = None.
Proof.
  apply (pairs_to_labels_index_error [(1, 0); (4, 1)]%nat 4 false 4 1).
  - apply elem_of_cons. right. by left.
  - left. lia.
Defined.

Section pairs_to_labels_drop.
Import er_utils.
Context (N : nat) (P : list LinkedPair).
Hypothesis Hover : pairs_over N P.
Hypothesis Hclosed : transitively_closed P.

Lemma linked_irrefl x : ¬ linked P x x.
Proof using Hover. intros [H|H]; apply Hover in H; lia. Qed.

Lemma labelled_drop_init : labelled_drop N P 0 (replicate N (-1)) 0.
Proof.
  split.
  - apply length_replicate.
  - done.
  - intros x c [-> _]%lookup_replicate. by left.
  - intros x y _ Hx Hy. by rewrite !lookup_replicate_2.
  - intros x y c [-> _]%lookup_replicate. done.
  - intros x Hx. lia.
  - intros x c [-> _]%lookup_replicate. done.
Qed.

Lemma assign_labels_drop s :
  store_ok N P s →
  (∀ x, (x < N)%nat → ∃ r S,
      node_matches s !! x = Some r ∧ heap s !! r = Some S ∧
      ∀ y, y ∈ S ↔ entity P x y) →
  ∀ slots k fl idx,
    drop k (node_matches s) = slots → labelled_drop N P k fl idx →
    ∃ L idx', assign_labels (heap s) true slots k fl idx = Some L ∧
              labelled_drop N P N L idx'.
Proof using Hover Hclosed.
  intros Hok Hent. induction slots as [|r rest IH]; intros k fl idx Hdrop Hlab.
  - exists fl, idx. split; [done|].
    apply drop_nil_inv in Hdrop. rewrite (ok_slots _ _ _ Hok) in Hdrop.
    destruct Hlab. split; try done.
    intros x Hx. apply ld_done0. lia.
  - assert (node_matches s !! k = Some r) as Hk.
    { pose proof (lookup_drop (node_matches s) k 0) as Hd.
      rewrite Hdrop, Nat.add_0_r in Hd. done. }
    assert (k < N)%nat as HkN.
    { apply lookup_lt_Some in Hk. by rewrite (ok_slots _ _ _ Hok) in Hk. }
    assert (drop (S k) (node_matches s) = rest) as Hdrop'.
    { rewrite (drop_S _ _ _ Hk) in Hdrop. congruence. }
    cbn [assign_labels andb].
    destruct (decide (default (-1) (fl !! k) > -1)) as [Hgt|Hle].
    { apply IH; [done|]. destruct Hlab. split; try done.
      intros x Hx. destruct (decide (x = k)) as [->|Hne].
      - intros Heq. rewrite Heq in Hgt. simpl in Hgt. lia.
      - apply ld_done0. lia. }
    destruct (Hent k HkN) as (r' & S & Hr' & HS & HSent).
    assert (r' = r) as -> by congruence. rewrite HS. cbn [from_option id].
    assert (k ∈ S) as HkS by (apply HSent, entity_refl).
    destruct (decide (size S = 1%nat)) as [Hone|Hmany].
    { rewrite bool_decide_eq_true_2 by done.
      apply IH; [done|]. destruct Hlab. split; try done.
      intros x Hx. destruct (decide (x = k)) as [->|Hne]; [|apply ld_done0; lia].
      intros _ y Hky.
      apply size_1_elem_of in Hone as [z Hz].
      assert (y ∈ S) as HyS by (apply HSent; by right).
      rewrite Hz in HkS, HyS.
      apply elem_of_singleton in HkS. apply elem_of_singleton in HyS.
      rewrite HyS, <- HkS in Hky. by apply linked_irrefl in Hky. }
    rewrite bool_decide_eq_false_2 by done.
    assert (∃ y, linked P k y) as [y0 Hy0].
    { destruct (set_choose_or_empty (S ∖ {[k]})) as [[y Hy]|Hempty].
      - apply elem_of_difference in Hy as [Hy Hne].
        apply HSent in Hy as [->|Hy]; [|by exists y].
        exfalso. apply Hne. by apply elem_of_singleton.
      - exfalso. apply Hmany.
        assert (S ≡ {[k]}) as ->; [|apply size_singleton].
        intros y. rewrite elem_of_singleton. split; [|by intros ->].
        intros Hy. destruct (decide (y = k)) as [|Hne]; [done|].
        exfalso. apply (not_elem_of_empty (C := gset nat) y).
        rewrite <- Hempty. apply elem_of_difference. split; [done|].
        by rewrite elem_of_singleton. }
    destruct (propagate_spec (elements S) fl idx) as (fl' & Hp & Hlen & Hlook).
    { intros y Hy%elem_of_elements. rewrite (ld_len _ _ _ _ _ Hlab).
      by apply (ok_range _ _ _ Hok r S). }
    rewrite Hp. cbn [mbind option_bind].
    assert (∀ x, fl' !! x = if decide (entity P k x) then Some idx else fl !! x)
      as Hlook'.
    { intros x. rewrite Hlook.
      destruct (decide (x ∈ elements S)) as [Hin|Hin];
        rewrite elem_of_elements, HSent in Hin.
      - by rewrite decide_True.
      - by rewrite decide_False. }
    clear Hlook Hp.
    apply IH; [done|]. pose proof (ld_idx _ _ _ _ _ Hlab) as Hidx.
    split.
    + rewrite Hlen. apply Hlab.
    + lia.
    + intros x c. rewrite Hlook'.
      destruct (decide (entity P k x)); [intros [= <-]; right; lia|].
      intros Hc. destruct (ld_bound _ _ _ _ _ Hlab x c Hc); [by left | right; lia].
    + intros x y Hxy Hx Hy. rewrite !Hlook'.
      destruct (decide (entity P k x)) as [Hkx|Hkx],
               (decide (entity P k y)) as [Hky|Hky]; try done.
      * exfalso. apply Hky. by apply (entity_trans P Hclosed) with x.
      * exfalso. apply Hkx. apply (entity_trans P Hclosed) with y; [done|].
        by apply entity_sym.
      * by apply (ld_same _ _ _ _ _ Hlab).
    + intros x y c. rewrite !Hlook'.
      destruct (decide (entity P k x)) as [Hkx|Hkx],
               (decide (entity P k y)) as [Hky|Hky].
      * intros _ _ _.
        apply (entity_trans P Hclosed) with k; [by apply entity_sym | done].
      * intros [= <-] Hy. apply (ld_bound _ _ _ _ _ Hlab) in Hy. lia.
      * intros Hx [= <-]. apply (ld_bound _ _ _ _ _ Hlab) in Hx. lia.
      * apply (ld_sep _ _ _ _ _ Hlab).
    + intros x Hx. rewrite Hlook'.
      destruct (decide (entity P k x)) as [Hkx|Hkx].
      * intros [= ?]. lia.
      * destruct (decide (x = k)) as [->|Hne].
        -- exfalso. apply Hkx. apply entity_refl.
        -- apply (ld_done _ _ _ _ _ Hlab). lia.
    + intros x c. rewrite Hlook'.
      destruct (decide (entity P k x)) as [[<-|Hkx]|Hkx].
      * intros _ _. by exists y0.
      * intros _ _. exists k. by apply linked_sym.
      * apply (ld_linked _ _ _ _ _ Hlab).
Qed.

End pairs_to_labels_drop.

(** X6.  [drop_singletons=True]: on a transitively closed list of
    pairs over [0, N), [pairs_to_labels] leaves at [-1] exactly the
    mentions that occur in no pair, and gives every other mention the
    label of the mentions of its entity and of no other mention. *)
Theorem pairs_to_labels_drop_singletons (N : nat) (P : list (nat * nat)) :
  pairs_over N P →
  transitively_closed P →
  ∃ L, er_utils.pairs_to_labels P N true = Some L ∧ length L = N ∧
       (∀ x, (x < N)%nat → (L !! x = Some (-1) ↔ ∀ y, ¬ linked P x y)) ∧
       (∀ x y, (x < N)%nat → (y < N)%nat → L !! x ≠ Some (-1) →
               (same_label L x y ↔ entity P x y)).
Proof.
  intros Hover Hclosed.
  destruct (link_all_ok N P Hover Hclosed P (er_utils.init_store N) []
              (init_store_ok N P Hover Hclosed))
    as (s & Hs & Hok & Hrec).
  { intros a b Hin. by apply elem_of_nil in Hin. }
  { done. }
  simpl in Hrec.
  destruct (assign_labels_drop N P Hover Hclosed s Hok
              (λ x Hx, link_all_entity N P Hover Hclosed s x Hx Hok Hrec)
              (er_utils.node_matches s) 0%nat (replicate N (-1)) 0 eq_refl
              (labelled_drop_init N P))
    as (L & idx & HL & Hlab).
  exists L. unfold er_utils.pairs_to_labels. rewrite Hs.
  cbn [mbind option_bind]. split; [done|]. split; [apply Hlab|].
  assert (∀ x, (x < N)%nat → ∃ c, L !! x = Some c) as Hsome.
  { intros x Hx. apply lookup_lt_is_Some_2.
    by rewrite (ld_len _ _ _ _ _ Hlab). }
  split.
  - intros x Hx. split.
    + by apply (ld_done _ _ _ _ _ Hlab).
    + intros Hnone. destruct (Hsome x Hx) as [c Hc]. rewrite Hc. f_equal.
      destruct (decide (c = -1)) as [|Hne]; [done|].
      destruct (ld_linked _ _ _ _ _ Hlab x c Hc Hne) as [y Hy].
      by apply Hnone in Hy.
  - intros x y Hx Hy Hlx. split.
    + intros (c & Hcx & Hcy). apply (ld_sep _ _ _ _ _ Hlab x y c); [done..|].
      intros ->. done.
    + intros Hent. pose proof (ld_same _ _ _ _ _ Hlab x y Hent Hx Hy) as Heq.
      destruct (Hsome x Hx) as [c Hc]. exists c. split; [done | congruence].
Qed.

Lemma pairs_to_labels_drop_singletons_witness :
  ∃ L, er_utils.pairs_to_labels [(1, 0); (3, 0); (3, 1)]%nat 5 true = Some L ∧
       length L = 5%nat ∧
       (∀ x, (x < 5)%nat →
          (L !! x = Some (-1) ↔
           ∀ y, ¬ linked [(1, 0); (3, 0); (3, 1)]%nat x y)) ∧
       (∀ x y, (x < 5)%nat → (y < 5)%nat → L !! x ≠ Some (-1) →
          (same_label L x y ↔ entity [(1, 0); (3, 0); (3, 1)]%nat x y)).
Proof.
  apply (pairs_to_labels_drop_singletons 5 [(1, 0); (3, 0); (3, 1)]%nat).
  - intros a b Hab.
    repeat (apply elem_of_cons in Hab as [[= -> ->]|Hab]; [lia|]).
    by apply elem_of_nil in Hab.
  - intros a b c [H1|H1] [H2|H2] Hne; unfold linked;
      repeat (apply elem_of_cons in H1 as [[= ? ?]|H1]; [|]);
      try (by apply elem_of_nil in H1);
      repeat (apply elem_of_cons in H2 as [[= ? ?]|H2]; [|]);
      try (by apply elem_of_nil in H2);
      subst; try done; try lia; vm_compute; set_solver.
Defined.

(* ===================================================================== *)
(** *** What [clusters_to_labels] writes *)
(* ===================================================================== *)
Section clusters_to_labels_content.
Import er_utils.

Lemma assign_cluster_content c : ∀ labels idx l',
  assign_cluster labels idx c = Labels l' →
  (∀ m, m ∈ mentions c → 0 ≤ m < Z.of_nat (length labels)) →
  ∀ p, (p < length labels)%nat →
    l' !! p = if decide (Z.of_nat p ∈ mentions c) then Some idx
              else labels !! p.
Proof.
  induction c as [|[|node] c IH]; intros labels idx l' Hrun Hrange p Hp.
  - injection Hrun as <-. rewrite decide_False; [done | apply not_elem_of_nil].
  - cbn [assign_cluster] in Hrun. rewrite mentions_cons_id.
    by apply IH.
  - cbn [assign_cluster] in Hrun. rewrite mentions_cons_mention in *.
    rewrite py_index_in_range in Hrun by (apply Hrange; by left).
    destruct (decide (default (-1) (labels !! Z.to_nat node) > -1)); [done|].
    assert (0 ≤ node < Z.of_nat (length labels)) as Hnode
      by (apply Hrange; by left).
    rewrite (IH _ _ _ Hrun); [| |by rewrite length_insert].
    2:{ intros m Hm. rewrite length_insert. apply Hrange. by right. }
    destruct (decide (Z.of_nat p = node)) as [Heq|Hne].
    + rewrite (decide_True (P := Z.of_nat p ∈ node :: mentions c))
        by (rewrite Heq; by left).
      replace (Z.to_nat node) with p by lia.
      rewrite list_lookup_insert_eq by done.
      by destruct (decide (Z.of_nat p ∈ mentions c)).
    + rewrite list_lookup_insert_ne by lia.
      destruct (decide (Z.of_nat p ∈ mentions c)) as [Hin|Hin].
      * rewrite decide_True; [done | by right].
      * rewrite decide_False; [done|].
        intros [?|?]%elem_of_cons; done.
Qed.

Lemma assign_cluster_length c : ∀ labels idx l',
  assign_cluster labels idx c = Labels l' → length l' = length labels.
Proof.
  induction c as [|[|node] c IH]; intros labels idx l' Hrun.
  - by injection Hrun as <-.
  - by apply (IH _ idx).
  - cbn [assign_cluster] in Hrun.
    destruct (py_index (length labels) node) as [i|]; [|done].
    destruct (decide (default (-1) (labels !! i) > -1)); [done|].
    apply IH in Hrun. by rewrite length_insert in Hrun.
Qed.

(** After the clusters are written, a position holds the index of a
    cluster that has it, or what it held before when no cluster has it. *)
Lemma assign_clusters_content clusters : ∀ labels idx l',
  assign_clusters labels idx clusters = Labels l' →
  clusters_over (length labels) clusters →
  ∀ p, (p < length labels)%nat →
    (∃ k c, clusters !! k = Some c ∧ Z.of_nat p ∈ mentions c ∧
            l' !! p = Some (idx + Z.of_nat k)) ∨
    ((∀ c, c ∈ clusters → Z.of_nat p ∉ mentions c) ∧ l' !! p = labels !! p).
Proof.
  induction clusters as [|c rest IH]; intros labels idx l' Hrun Hover p Hp.
  - injection Hrun as <-. right. split; [|done].
    intros c Hc. by apply elem_of_nil in Hc.
  - cbn [assign_clusters] in Hrun.
    destruct (assign_cluster labels idx c) as [l1| |] eqn:H1; [|done..].
    pose proof (assign_cluster_length _ _ _ _ H1) as Hlen1.
    destruct (IH l1 (idx + 1) l' Hrun) with (p := p)
      as [(k & c' & Hk & Hin & Hl)|[Hnone Hl]].
    { rewrite Hlen1. intros c' Hc'. apply Hover. by right. }
    { by rewrite Hlen1. }
    + left. exists (S k), c'. split; [done|]. split; [done|].
      rewrite Hl. f_equal. lia.
    + rewrite (assign_cluster_content _ _ _ _ H1) in Hl; [| |done].
      2:{ apply Hover. by left. }
      destruct (decide (Z.of_nat p ∈ mentions c)) as [Hin|Hin].
      * left. exists 0%nat, c. split; [done|]. split; [done|].
        rewrite Hl. f_equal. lia.
      * right. split; [|done].
        intros c' [->|Hc']%elem_of_cons; [done | by apply Hnone].
Qed.

Lemma not_duplicated_unique clusters : ∀ k1 k2 c1 c2 m,
  ¬ duplicated clusters →
  clusters !! k1 = Some c1 → clusters !! k2 = Some c2 →
  m ∈ mentions c1 → m ∈ mentions c2 → k1 = k2.
Proof.
  induction clusters as [|c rest IH]; intros k1 k2 c1 c2 m Hnd H1 H2 Hm1 Hm2.
  - done.
  - rewrite duplicated_cons in Hnd.
    destruct k1 as [|k1], k2 as [|k2]; simpl in H1, H2.
    + done.
    + injection H1 as ->. exfalso. apply Hnd. left. exists m, c2.
      split; [done|]. split; [|done]. by apply list_elem_of_lookup_2 in H2.
    + injection H2 as ->. exfalso. apply Hnd. left. exists m, c1.
      split; [done|]. split; [|done]. by apply list_elem_of_lookup_2 in H1.
    + f_equal. apply (IH k1 k2 c1 c2 m); try done.
      intros Hd. apply Hnd. by right.
Qed.

Lemma fill_singletons_keeps labels : ∀ idx p v,
  labels !! p = Some v → v ≠ -1 → fill_singletons labels idx !! p = Some v.
Proof.
  induction labels as [|l labels IH]; intros idx p v Hp Hv; [done|].
  cbn [fill_singletons]. destruct p as [|p]; simpl in Hp.
  - injection Hp as ->. by rewrite decide_False.
  - destruct (decide (l = -1)); simpl; by apply IH.
Qed.

Lemma fill_singletons_fresh labels : ∀ idx p,
  labels !! p = Some (-1) →
  ∃ v, fill_singletons labels idx !! p = Some v ∧ idx ≤ v.
Proof.
  induction labels as [|l labels IH]; intros idx p Hp; [done|].
  cbn [fill_singletons]. destruct p as [|p]; simpl in Hp.
  - injection Hp as ->. rewrite decide_True by done. exists idx.
    split; [done | lia].
  - destruct (decide (l = -1)); simpl.
    + destruct (IH (idx + 1) p Hp) as (v & Hv & Hle). exists v.
      split; [done | lia].
    + by apply IH.
Qed.

Lemma fill_singletons_distinct labels : ∀ idx p q v,
  (p < q)%nat → labels !! p = Some (-1) → labels !! q = Some (-1) →
  fill_singletons labels idx !! p = Some v →
  fill_singletons labels idx !! q = Some v → False.
Proof.
  induction labels as [|l labels IH]; intros idx p q v Hpq Hp Hq Hvp Hvq;
    [done|].
  cbn [fill_singletons] in Hvp, Hvq.
  destruct q as [|q]; [lia|]. destruct p as [|p]; simpl in Hp, Hq.
  - injection Hp as ->. rewrite decide_True in Hvp, Hvq by done.
    simpl in Hvp, Hvq. injection Hvp as <-.
    destruct (fill_singletons_fresh labels (idx + 1) q Hq) as (v & Hv & Hle).
    rewrite Hv in Hvq. injection Hvq as ->. lia.
  - destruct (decide (l = -1)); simpl in Hvp, Hvq;
      eapply (IH _ p q v); (done || lia).
Qed.

End clusters_to_labels_content.

Section clusters_to_labels_written.
Import er_utils.

Lemma assign_clusters_written clusters N :
  clusters_over N clusters → ¬ duplicated clusters →
  ∃ L0, assign_clusters (replicate N (-1)) 0 clusters = Labels L0 ∧
    length L0 = N ∧
    (∀ k c m, clusters !! k = Some c → m ∈ mentions c →
       L0 !! Z.to_nat m = Some (Z.of_nat k)) ∧
    (∀ p, (p < N)%nat → (∀ c, c ∈ clusters → Z.of_nat p ∉ mentions c) →
       L0 !! p = Some (-1)) ∧
    (∀ p, (p < N)%nat →
       (∃ k c, clusters !! k = Some c ∧ Z.of_nat p ∈ mentions c ∧
               L0 !! p = Some (Z.of_nat k)) ∨
       ((∀ c, c ∈ clusters → Z.of_nat p ∉ mentions c) ∧
        L0 !! p = Some (-1))).
Proof.
  intros Hover Hnd.
  pose proof (assign_clusters_spec clusters (replicate N (-1)) 0) as Hspec.
  rewrite length_replicate in Hspec. specialize (Hspec ltac:(done) Hover).
  destruct (assign_clusters _ 0 clusters) as [L0|m|] eqn:Hrun; [| |done].
  2:{ destruct Hspec as [?|(c & _ & _ & Ht)]; [done|].
      by apply not_taken_replicate in Ht. }
  destruct Hspec as (Hlen & _ & _).
  pose proof (assign_clusters_content clusters _ 0 L0 Hrun) as Hcont.
  rewrite length_replicate in Hcont. specialize (Hcont Hover).
  exists L0. split; [done|]. split; [done|]. split; [|split].
  - intros k c m Hk Hm.
    assert (c ∈ clusters) as Hc by by apply list_elem_of_lookup_2 in Hk.
    destruct (Hover c Hc) as [_ Hrange]. specialize (Hrange m Hm).
    destruct (Hcont (Z.to_nat m)) as [(k' & c' & Hk' & Hm' & Hl)|[Hnone _]];
      [lia| |].
    + rewrite Z2Nat.id in Hm' by lia.
      assert (k = k') as ->
        by by apply (not_duplicated_unique clusters k k' c c' m).
      rewrite Hl. f_equal.
    + exfalso. apply (Hnone c Hc). by rewrite Z2Nat.id by lia.
  - intros p Hp Hnone.
    destruct (Hcont p Hp) as [(k' & c' & Hk' & Hm' & _)|[_ Hl]].
    + exfalso. apply (Hnone c'); [|done].
      by apply list_elem_of_lookup_2 in Hk'.
    + rewrite Hl. by apply lookup_replicate_2.
  - intros p Hp.
    destruct (Hcont p Hp) as [(k' & c' & Hk' & Hm' & Hl)|[Hnone Hl]].
    + left. exists k', c'. by rewrite Hl.
    + right. split; [done|]. rewrite Hl. by apply lookup_replicate_2.
Qed.

End clusters_to_labels_written.

(** X7.  On clusters of mention ids of a data set of [N] records with
    no id in two clusters, [clusters_to_labels] labels every mention of
    a cluster with the position of the cluster in the list; a record in
    no cluster gets [-1] when [drop_singletons] is on and a label
    not below [len(clusters)] when it is off. *)
Theorem clusters_to_labels_cluster_positions
    (clusters : list (list er_utils.key)) (N : nat) (drop_singletons : bool) :
  clusters_over N clusters → ¬ duplicated clusters →
  ∃ L, er_utils.clusters_to_labels clusters N drop_singletons
       = er_utils.Labels L ∧
    (∀ k c m, clusters !! k = Some c → m ∈ mentions c →
       L !! Z.to_nat m = Some (Z.of_nat k)) ∧
    (∀ p, (p < N)%nat → (∀ c, c ∈ clusters → Z.of_nat p ∉ mentions c) →
       ∃ v, L !! p = Some v ∧
            if drop_singletons then v = -1
            else Z.of_nat (length clusters) ≤ v).
Proof.
  intros Hover Hnd.
  destruct (assign_clusters_written clusters N Hover Hnd)
    as (L0 & Hrun & Hlen & Hin & Hout & _).
  unfold er_utils.clusters_to_labels. rewrite Hrun.
  destruct drop_singletons.
  - exists L0. split; [done|]. split; [done|].
    intros p Hp Hnone. exists (-1). split; [by apply Hout | done].
  - eexists. split; [done|]. split.
    + intros k c m Hk Hm. apply fill_singletons_keeps; [by apply (Hin k c)|].
      lia.
    + intros p Hp Hnone. apply fill_singletons_fresh. by apply Hout.
Qed.

Lemma clusters_to_labels_cluster_positions_witness :
  ∃ L, er_utils.clusters_to_labels
         [[er_utils.Mention 0; er_utils.Mention 1; er_utils.Mention 3;
           er_utils.CLUSTER_ID]; [er_utils.Mention 4; er_utils.CLUSTER_ID]]
         6 false
       = er_utils.Labels L ∧
    (∀ k c m,
       [[er_utils.Mention 0; er_utils.Mention 1; er_utils.Mention 3;
         er_utils.CLUSTER_ID]; [er_utils.Mention 4; er_utils.CLUSTER_ID]]
         !! k = Some c →
       m ∈ mentions c → L !! Z.to_nat m = Some (Z.of_nat k)) ∧
    (∀ p, (p < 6)%nat →
       (∀ c, c ∈ [[er_utils.Mention 0; er_utils.Mention 1; er_utils.Mention 3;
                   er_utils.CLUSTER_ID];
                  [er_utils.Mention 4; er_utils.CLUSTER_ID]] →
             Z.of_nat p ∉ mentions c) →
       ∃ v, L !! p = Some v ∧
            Z.of_nat (length
              [[er_utils.Mention 0; er_utils.Mention 1; er_utils.Mention 3;
                er_utils.CLUSTER_ID];
               [er_utils.Mention 4; er_utils.CLUSTER_ID]]) ≤ v).
Proof.
  apply (clusters_to_labels_cluster_positions
           [[er_utils.Mention 0; er_utils.Mention 1; er_utils.Mention 3;
             er_utils.CLUSTER_ID]; [er_utils.Mention 4; er_utils.CLUSTER_ID]]
           6 false).
  - intros c Hc.
    repeat (apply elem_of_cons in Hc as [->|Hc];
            [split; [apply (bool_decide_unpack _); by vm_compute|];
             intros m Hm; simpl in Hm;
             repeat (apply elem_of_cons in Hm as [->|Hm]; [lia|]);
             by apply elem_of_nil in Hm|]).
    by apply elem_of_nil in Hc.
  - intros (m & l1 & c1 & l2 & c2 & l3 & Heq & H1 & H2).
    destruct l1 as [|? [|? [|? ?]]]; simpl in Heq; try done;
      destruct l2 as [|? [|? ?]]; simpl in Heq; try done;
      injection Heq as <- <- <-; simpl in H1, H2;
      repeat (apply elem_of_cons in H1 as [->|H1];
              [repeat (apply elem_of_cons in H2 as [?|H2]; [lia|]);
               by apply elem_of_nil in H2|]);
      by apply elem_of_nil in H1.
Defined.

(** X8.  With [drop_singletons] off, on clusters of mention ids of a
    data set of [N] records with no id in two clusters, the labels that
    [clusters_to_labels] returns have no [-1] and put two records in
    one cluster exactly when they are the same record or some input
    cluster holds both: the input clusters plus singletons. *)
Theorem clusters_to_labels_partition
    (clusters : list (list er_utils.key)) (N : nat) :
  clusters_over N clusters → ¬ duplicated clusters →
  ∃ L, er_utils.clusters_to_labels clusters N false = er_utils.Labels L ∧
    length L = N ∧ ((-1) ∉ L) ∧
    (∀ x y, (x < N)%nat → (y < N)%nat →
       (same_label L x y ↔
        x = y ∨ ∃ c, c ∈ clusters ∧ Z.of_nat x ∈ mentions c ∧
                     Z.of_nat y ∈ mentions c)).
Proof.
  intros Hover Hnd.
  destruct (assign_clusters_written clusters N Hover Hnd)
    as (L0 & Hrun & Hlen & Hin & _ & Hcases).
  unfold er_utils.clusters_to_labels. rewrite Hrun.
  set (n := Z.of_nat (length clusters)).
  set (L := er_utils.fill_singletons L0 n).
  assert (length L = N) as HlenL by (unfold L; by rewrite length_fill_singletons).
  assert (∀ p, (p < N)%nat →
            (∃ k c, clusters !! k = Some c ∧ Z.of_nat p ∈ mentions c ∧
                    L0 !! p = Some (Z.of_nat k) ∧ L !! p = Some (Z.of_nat k) ∧
                    Z.of_nat k < n) ∨
            (L0 !! p = Some (-1) ∧ ∃ v, L !! p = Some v ∧ n ≤ v)) as HL.
  { intros p Hp. destruct (Hcases p Hp) as [(k & c & Hk & Hm & Hl)|[_ Hl]].
    - left. exists k, c. repeat (split; [done|]). split.
      + apply fill_singletons_keeps; [done | lia].
      + apply lookup_lt_Some in Hk. unfold n. lia.
    - right. split; [done|]. by apply fill_singletons_fresh. }
  exists L. split; [done|]. split; [done|]. split.
  - intros [p Hp]%list_elem_of_lookup_1.
    assert (p < N)%nat as HpN by (apply lookup_lt_Some in Hp; lia).
    destruct (HL p HpN) as [(k & c & _ & _ & _ & Hk & _)|(_ & v & Hv & Hle)].
    + rewrite Hp in Hk. injection Hk as Hk. lia.
    + rewrite Hp in Hv. injection Hv as <-. unfold n in Hle. lia.
  - intros x y Hx Hy. split.
    + intros (v & Hvx & Hvy).
      destruct (HL x Hx) as [(k & c & Hk & Hm & _ & Hlx & Hkn)|(H0x & w & Hw & Hle)],
               (HL y Hy) as [(k' & c' & Hk' & Hm' & _ & Hly & Hkn')|(H0y & w' & Hw' & Hle')].
      * right. assert (k = k') as <- by (rewrite Hvx in Hlx; rewrite Hvy in Hly;
                                         simplify_eq; lia).
        assert (c = c') as <- by congruence.
        exists c. split; [by apply list_elem_of_lookup_2 in Hk | done].
      * rewrite Hvx in Hlx. rewrite Hvy in Hw'. simplify_eq. lia.
      * rewrite Hvx in Hw. rewrite Hvy in Hly. simplify_eq. lia.
      * left. destruct (decide (x = y)) as [|Hne]; [done|]. exfalso.
        destruct (decide (x < y)%nat).
        -- by apply (fill_singletons_distinct L0 n x y v).
        -- apply (fill_singletons_distinct L0 n y x v); (done || lia).
    + intros [<-|(c & Hc & Hmx & Hmy)].
      * destruct (lookup_lt_is_Some_2 L x) as [v Hv]; [lia|]. by exists v.
      * apply list_elem_of_lookup_1 in Hc as [k Hk].
        pose proof (Hin k c _ Hk Hmx) as Hlx. pose proof (Hin k c _ Hk Hmy) as Hly.
        rewrite Nat2Z.id in Hlx, Hly. exists (Z.of_nat k).
        split; (apply fill_singletons_keeps; [done | lia]).
Qed.

Lemma clusters_to_labels_partition_witness :
  ∃ L, er_utils.clusters_to_labels
         [[er_utils.Mention 0; er_utils.Mention 1; er_utils.Mention 3;
           er_utils.CLUSTER_ID]; [er_utils.Mention 4; er_utils.Mention 2]]
         6 false
       = er_utils.Labels L ∧
    length L = 6%nat ∧ ((-1) ∉ L) ∧
    (∀ x y, (x < 6)%nat → (y < 6)%nat →
       (same_label L x y ↔
        x = y ∨
        ∃ c, c ∈ [[er_utils.Mention 0; er_utils.Mention 1; er_utils.Mention 3;
                   er_utils.CLUSTER_ID];
                  [er_utils.Mention 4; er_utils.Mention 2]] ∧
             Z.of_nat x ∈ mentions c ∧ Z.of_nat y ∈ mentions c)).
Proof.
  apply (clusters_to_labels_partition
           [[er_utils.Mention 0; er_utils.Mention 1; er_utils.Mention 3;
             er_utils.CLUSTER_ID]; [er_utils.Mention 4; er_utils.Mention 2]]
           6).
  - intros c Hc.
    repeat (apply elem_of_cons in Hc as [->|Hc];
            [split; [apply (bool_decide_unpack _); by vm_compute|];
             intros m Hm; simpl in Hm;
             repeat (apply elem_of_cons in Hm as [->|Hm]; [lia|]);
             by apply elem_of_nil in Hm|]).
    by apply elem_of_nil in Hc.
  - intros (m & l1 & c1 & l2 & c2 & l3 & Heq & H1 & H2).
    destruct l1 as [|? [|? [|? ?]]]; simpl in Heq; try done;
      destruct l2 as [|? [|? ?]]; simpl in Heq; try done;
      injection Heq as <- <- <-; simpl in H1, H2;
      repeat (apply elem_of_cons in H1 as [->|H1];
              [repeat (apply elem_of_cons in H2 as [?|H2]; [lia|]);
               by apply elem_of_nil in H2|]);
      by apply elem_of_nil in H1.
Defined.

Section clusters_to_labels_bounds.
Import er_utils.

Lemma assign_cluster_out_of_range c : ∀ labels idx m,
  m ∈ mentions c →
  ¬ (- Z.of_nat (length labels) ≤ m < Z.of_nat (length labels)) →
  ∀ l', assign_cluster labels idx c ≠ Labels l'.
Proof.
  induction c as [|[|node] c IH]; intros labels idx m Hm Hout l'.
  - by apply elem_of_nil in Hm.
  - cbn [assign_cluster]. by apply (IH _ _ m).
  - cbn [assign_cluster]. rewrite mentions_cons_mention in Hm.
    destruct (py_index (length labels) node) as [i|] eqn:Hi; [|done].
    destruct (decide (default (-1) (labels !! i) > -1)); [done|].
    apply elem_of_cons in Hm as [->|Hm].
    + exfalso. unfold py_index in Hi.
      repeat case_decide; try done; lia.
    + apply (IH _ _ m); [done|]. by rewrite length_insert.
Qed.

Lemma assign_clusters_out_of_range clusters : ∀ labels idx c m,
  c ∈ clusters → m ∈ mentions c →
  ¬ (- Z.of_nat (length labels) ≤ m < Z.of_nat (length labels)) →
  ∀ l', assign_clusters labels idx clusters ≠ Labels l'.
Proof.
  induction clusters as [|c0 rest IH]; intros labels idx c m Hc Hm Hout l'.
  - by apply elem_of_nil in Hc.
  - cbn [assign_clusters].
    destruct (assign_cluster labels idx c0) as [l1| |] eqn:H1; [|done..].
    apply elem_of_cons in Hc as [->|Hc].
    + by apply (assign_cluster_out_of_range c0 labels idx m) in H1.
    + apply (IH _ _ c m); [done..|].
      by rewrite (assign_cluster_length _ _ _ _ H1).
Qed.

End clusters_to_labels_bounds.

(** X9.  A mention id outside [-total_mentions, total_mentions) in any
    cluster makes [clusters_to_labels] fail: it raises IndexError, or
    the ValueError of a duplicate met before, and returns no label
    vector, whatever the other clusters hold. *)
Theorem clusters_to_labels_out_of_range
    (clusters : list (list er_utils.key)) (total_mentions : nat)
    (drop_singletons : bool) (c : list er_utils.key) (m : Z) :
  c ∈ clusters → m ∈ mentions c →
  ¬ (- Z.of_nat total_mentions ≤ m < Z.of_nat total_mentions) →
  er_utils.clusters_to_labels clusters total_mentions drop_singletons
    = er_utils.IndexError ∨
  ∃ node, er_utils.clusters_to_labels clusters total_mentions drop_singletons
          = er_utils.DuplicateMembership node.
Proof.
  intros Hc Hm Hout. unfold er_utils.clusters_to_labels.
  pose proof (assign_clusters_out_of_range clusters
                (replicate total_mentions (-1)) 0 c m Hc Hm) as Hno.
  rewrite length_replicate in Hno. specialize (Hno Hout).
  destruct (er_utils.assign_clusters _ 0 clusters) as [l'|node|].
  - by destruct (Hno l').
  - right. by exists node.
  - by left.
Qed.

Lemma clusters_to_labels_out_of_range_witness :
  er_utils.clusters_to_labels
    [[er_utils.Mention 0; er_utils.Mention 1]; [er_utils.Mention 4]] 4 false
    = er_utils.IndexError ∨
  ∃ node, er_utils.clusters_to_labels
            [[er_utils.Mention 0; er_utils.Mention 1]; [er_utils.Mention 4]]
            4 false
          = er_utils.DuplicateMembership node.
Proof.
  apply (clusters_to_labels_out_of_range
           [[er_utils.Mention 0; er_utils.Mention 1]; [er_utils.Mention 4]]
           4 false [er_utils.Mention 4] 4).
  - apply elem_of_cons. right. by left.
  - simpl. by left.
  - lia.
Defined.

(* ===================================================================== *)
(** *** Pair counts of two labellings of the same records *)
(* ===================================================================== *)
Section zip_counting.
Context {A B : Type} `{!EqDecision A, !EqDecision B}.
Implicit Types (p : list A) (t : list B).

Lemma count_of_nonneg {C} `{!EqDecision C} (x : C) l : 0 ≤ count_of x l.
Proof. unfold count_of. lia. Qed.

Lemma same_pairs_nonneg {C} `{!EqDecision C} (l : list C) : 0 ≤ same_pairs l.
Proof. unfold same_pairs. lia. Qed.

Local Ltac count_cons :=
  repeat first [ rewrite count_of_cons_eq
               | rewrite count_of_cons_ne by congruence ].

Lemma count_zip_le_l p : ∀ t a b, count_of (a, b) (zip p t) ≤ count_of a p.
Proof.
  induction p as [|a0 p IH]; intros [|b0 t] a b; simpl;
    try apply count_of_nonneg; try done.
  specialize (IH t a b).
  destruct (decide (a0 = a)) as [->|], (decide (b0 = b)) as [->|];
    count_cons; lia.
Qed.

Lemma count_zip_le_r p : ∀ t a b, count_of (a, b) (zip p t) ≤ count_of b t.
Proof.
  induction p as [|a0 p IH]; intros [|b0 t] a b; simpl;
    try apply count_of_nonneg; try done.
  specialize (IH t a b).
  destruct (decide (a0 = a)) as [->|], (decide (b0 = b)) as [->|];
    count_cons; lia.
Qed.

Lemma count_zip_eq_iff p : ∀ t a b,
  length p = length t →
  count_of (a, b) (zip p t) = count_of a p ↔
  ∀ i, p !! i = Some a → t !! i = Some b.
Proof.
  induction p as [|a0 p IH]; intros [|b0 t] a b Hlen; simpl in Hlen;
    try done.
  injection Hlen as Hlen. specialize (IH t a b Hlen).
  pose proof (count_zip_le_l p t a b) as Hle. simpl.
  destruct (decide (a0 = a)) as [->|Ha], (decide (b0 = b)) as [->|Hb];
    count_cons.
  - split.
    + intros Heq [|i]; simpl; [done|]. apply IH. lia.
    + intros Hall. f_equal. apply IH. intros i. apply (Hall (S i)).
  - split.
    + intros Heq. lia.
    + intros Hall. specialize (Hall 0%nat eq_refl). simpl in Hall. congruence.
  - split.
    + intros Heq [|i]; simpl; [congruence|]. by apply IH.
    + intros Hall. apply IH. intros i. apply (Hall (S i)).
  - split.
    + intros Heq [|i]; simpl; [congruence|]. by apply IH.
    + intros Hall. apply IH. intros i. apply (Hall (S i)).
Qed.

Lemma count_union_le p : ∀ t a b,
  length p = length t →
  count_of a p + count_of b t - count_of (a, b) (zip p t)
  ≤ Z.of_nat (length p).
Proof.
  induction p as [|a0 p IH]; intros [|b0 t] a b Hlen; simpl in Hlen;
    try done.
  injection Hlen as Hlen. specialize (IH t a b Hlen). simpl.
  destruct (decide (a0 = a)) as [->|Ha], (decide (b0 = b)) as [->|Hb];
    count_cons; lia.
Qed.

Lemma same_pairs_zip_le_l p : ∀ t, same_pairs (zip p t) ≤ same_pairs p.
Proof.
  induction p as [|a0 p IH]; intros [|b0 t]; simpl;
    try apply same_pairs_nonneg; try done.
  rewrite !same_pairs_cons.
  pose proof (count_zip_le_l p t a0 b0). specialize (IH t). lia.
Qed.

Lemma same_pairs_zip_le_r p : ∀ t, same_pairs (zip p t) ≤ same_pairs t.
Proof.
  induction p as [|a0 p IH]; intros [|b0 t]; simpl;
    try apply same_pairs_nonneg; try done.
  rewrite !same_pairs_cons.
  pose proof (count_zip_le_r p t a0 b0). specialize (IH t). lia.
Qed.

(** Inclusion and exclusion: the pairs alike in one labelling or the
    other are not more than all pairs. *)
Lemma same_pairs_union_le p : ∀ t,
  length p = length t →
  same_pairs p + same_pairs t - same_pairs (zip p t)
  ≤ functional.combinations (Z.of_nat (length p)).
Proof.
  induction p as [|a0 p IH]; intros [|b0 t] Hlen; simpl in Hlen; try done.
  injection Hlen as Hlen. specialize (IH t Hlen).
  cbn [zip zip_with length]. rewrite !same_pairs_cons.
  rewrite Nat2Z.inj_succ, <- Z.add_1_r, combinations_succ.
  pose proof (count_union_le p t a0 b0 Hlen). lia.
Qed.

(** The pairs alike in [p] are all alike in [t] exactly when no pair
    is lost in the count of the pairs alike in both. *)
Lemma same_pairs_zip_eq_iff p : ∀ t,
  length p = length t →
  same_pairs (zip p t) = same_pairs p ↔
  ∀ i j a, (i < j)%nat → p !! i = Some a → p !! j = Some a →
           t !! i = t !! j.
Proof.
  induction p as [|a0 p IH]; intros [|b0 t] Hlen; simpl in Hlen; try done.
  injection Hlen as Hlen. specialize (IH t Hlen).
  cbn [zip zip_with]. rewrite !same_pairs_cons.
  pose proof (count_zip_le_l p t a0 b0) as Hc.
  pose proof (same_pairs_zip_le_l p t) as Hs.
  pose proof (count_zip_eq_iff p t a0 b0 Hlen) as Hceq.
  split.
  - intros Heq.
    assert (count_of (a0, b0) (zip p t) = count_of a0 p) as H1 by lia.
    assert (same_pairs (zip p t) = same_pairs p) as H2 by lia.
    intros [|i] [|j] a Hij Hi Hj; simpl in *; try lia.
    + injection Hi as ->. symmetry. by apply Hceq.
    + by apply (proj1 IH H2 i j a); [lia|..].
  - intros Hall.
    assert (count_of (a0, b0) (zip p t) = count_of a0 p) as ->.
    { apply Hceq. intros i Hi. symmetry.
      apply (Hall 0%nat (S i) a0); [lia|done..]. }
    f_equal. apply IH. intros i j a Hij Hi Hj.
    apply (Hall (S i) (S j) a); [lia|done..].
Qed.

End zip_counting.

(* ===================================================================== *)
(** *** binary64: rounding to nearest *)
(* ===================================================================== *)
Section binary64_facts.
Import binary64.
#[local] Open Scope Q_scope.

Lemma pow2_pos k : 0 < 2 ^ k.
Proof. by apply Qpower_0_lt. Qed.

Lemma pow2_add a b : 2 ^ (a + b) == 2 ^ a * 2 ^ b.
Proof. by apply Qpower_plus. Qed.

Lemma pow2_succ a : 2 ^ (a + 1) == 2 * 2 ^ a.
Proof. rewrite pow2_add. change (2 ^ 1) with 2. ring. Qed.

Lemma pow2_le a b : (a ≤ b)%Z → 2 ^ a <= 2 ^ b.
Proof. intros H. by apply Qpower_le_compat_l. Qed.

Lemma pow2_inject n : (0 ≤ n)%Z → inject_Z (2 ^ n) == 2 ^ n.
Proof. intros H. by rewrite Zpower_Qpower. Qed.

Lemma ilog2_spec q :
  0 < q → 2 ^ ilog2 q <= q ∧ q < 2 ^ (ilog2 q + 1).
Proof.
  intros Hq. unfold ilog2.
  destruct q as [a b]. simpl Qnum. simpl Qden.
  assert (0 < a)%Z as Ha.
  { unfold Qlt in Hq. simpl in Hq. lia. }
  set (la := Z.log2 a). set (lb := Z.log2 (Z.pos b)).
  pose proof (Z.log2_spec a Ha) as [Ha1 Ha2]. fold la in Ha1, Ha2.
  pose proof (Z.log2_spec (Z.pos b) eq_refl) as [Hb1 Hb2]. fold lb in Hb1, Hb2.
  assert (0 ≤ la)%Z as Hla by apply Z.log2_nonneg.
  assert (0 ≤ lb)%Z as Hlb by apply Z.log2_nonneg.
  set (x := a # b) in *. set (t := 2 ^ (la - lb)).
  assert (0 < t) as Ht by apply pow2_pos.
  assert (t * 2 ^ lb == 2 ^ la) as Ht2.
  { unfold t. rewrite <- pow2_add. by replace (la - lb + lb)%Z with la by lia. }
  assert (x * inject_Z (Z.pos b) == inject_Z a) as Hx.
  { unfold x. rewrite (Qmake_Qdiv a b). field. done. }
  rewrite Zle_Qle in Ha1, Hb1. rewrite Zlt_Qlt in Ha2, Hb2.
  unfold Z.succ in Ha2, Hb2.
  rewrite pow2_inject in Ha1, Hb1, Ha2, Hb2 by lia.
  rewrite pow2_succ in Ha2, Hb2.
  pose proof (pow2_pos la). pose proof (pow2_pos lb).
  set (A := inject_Z a) in *. set (B := inject_Z (Z.pos b)) in *.
  set (PA := 2 ^ la) in *. set (PB := 2 ^ lb) in *.
  assert (x < 2 * t) as Hup.
  { apply Qnot_le_lt. intros Hc.
    assert (2 * t * PB <= x * B); [|lra].
    apply Qle_trans with (x * PB).
    - apply Qmult_le_compat_r; lra.
    - rewrite !(Qmult_comm x). apply Qmult_le_compat_r; lra. }
  assert (t <= 2 * x) as Hlo.
  { apply Qnot_lt_le. intros Hc.
    assert (2 * x * B < t * (2 * PB)); [|lra].
    apply Qle_lt_trans with (2 * x * (2 * PB)).
    - rewrite !(Qmult_comm (2 * x)). apply Qmult_le_compat_r; lra.
    - apply Qmult_lt_compat_r; lra. }
  destruct (Qle_bool t x) eqn:Hb.
  - apply Qle_bool_iff in Hb. split; [done|]. fold t. by rewrite pow2_succ.
  - assert (x < t) as Hlt.
    { apply Qnot_le_lt. intros Hc. apply Qle_bool_iff in Hc. congruence. }
    replace (la - lb - 1 + 1)%Z with (la - lb)%Z by lia. fold t.
    split; [|done].
    assert (2 * 2 ^ (la - lb - 1) == t) as Hh.
    { rewrite <- pow2_succ. unfold t. by replace (la - lb - 1 + 1)%Z with (la - lb)%Z by lia. }
    lra.
Qed.

Lemma inject_Z_lt_succ a b : inject_Z a < inject_Z b + 1 → (a ≤ b)%Z.
Proof.
  intros H. assert (inject_Z a < inject_Z (b + 1)) as H'.
  { by rewrite inject_Z_plus. }
  rewrite <- Zlt_Qlt in H'. lia.
Qed.

Lemma rne_spec x :
  (x - inject_Z (Qfloor x) < 1 # 2 ∧ rne x = Qfloor x) ∨
  ((1 # 2) <= x - inject_Z (Qfloor x) ∧ rne x = (Qfloor x + 1)%Z) ∨
  (x - inject_Z (Qfloor x) == 1 # 2 ∧ rne x = Qfloor x).
Proof.
  unfold rne. destruct (Qcompare_spec (x - inject_Z (Qfloor x)) (1 # 2)) as [H|H|H].
  - destruct (Z.even (Qfloor x)); [by right; right|].
    right; left. split; [|done]. rewrite H. apply Qle_refl.
  - by left.
  - right; left. split; [|done]. by apply Qlt_le_weak.
Qed.

Lemma rne_le x T : x < inject_Z T + (1 # 2) → (rne x ≤ T)%Z.
Proof.
  intros H. pose proof (Qfloor_le x) as Hf.
  destruct (rne_spec x) as [[H1 ->]|[[H1 ->]|[H1 ->]]].
  - apply inject_Z_lt_succ. lra.
  - assert (inject_Z (Qfloor x) < inject_Z T) as H' by lra.
    rewrite <- Zlt_Qlt in H'. lia.
  - apply inject_Z_lt_succ. lra.
Qed.

Lemma rne_ge x T : inject_Z T - (1 # 2) < x → (T ≤ rne x)%Z.
Proof.
  intros H. pose proof (Qlt_floor x) as Hf.
  rewrite inject_Z_plus in Hf. change (inject_Z 1) with 1 in Hf.
  destruct (rne_spec x) as [[H1 ->]|[[H1 ->]|[H1 ->]]].
  - apply inject_Z_lt_succ. lra.
  - apply inject_Z_lt_succ. rewrite inject_Z_plus. change (inject_Z 1) with 1. lra.
  - apply inject_Z_lt_succ. lra.
Qed.

Lemma round_pos_eq q :
  round_pos q ==
  inject_Z (rne (q * 2 ^ (52 - ilog2 q))) * 2 ^ (ilog2 q - 52).
Proof. unfold round_pos. apply Qred_correct. Qed.

Lemma scaled_range q :
  0 < q →
  2 ^ 52 <= q * 2 ^ (52 - ilog2 q) ∧ q * 2 ^ (52 - ilog2 q) < 2 ^ 53.
Proof.
  intros Hq. destruct (ilog2_spec q Hq) as [H1 H2].
  pose proof (pow2_pos (52 - ilog2 q)) as HP.
  split.
  - assert (2 ^ 52 == 2 ^ ilog2 q * 2 ^ (52 - ilog2 q)) as ->.
    { rewrite <- pow2_add. by replace (ilog2 q + (52 - ilog2 q))%Z with 52%Z by lia. }
    apply Qmult_le_compat_r; lra.
  - assert (2 ^ 53 == 2 ^ (ilog2 q + 1) * 2 ^ (52 - ilog2 q)) as ->.
    { rewrite <- pow2_add. by replace (ilog2 q + 1 + (52 - ilog2 q))%Z with 53%Z by lia. }
    apply Qmult_lt_compat_r; lra.
Qed.

Lemma pow2_inv a : 2 ^ a * 2 ^ (- a) == 1.
Proof.
  rewrite <- pow2_add. by replace (a + - a)%Z with 0%Z by lia.
Qed.

Lemma le_scaled (m B : Q) k : m <= B * 2 ^ k → m * 2 ^ (- k) <= B.
Proof.
  intros H. pose proof (pow2_pos (- k)) as HP.
  apply (Qmult_le_compat_r _ _ (2 ^ (- k))) in H; [|lra].
  assert (B * 2 ^ k * 2 ^ (- k) == B) as HB.
  { rewrite <- Qmult_assoc, pow2_inv. ring. }
  lra.
Qed.

Lemma ge_scaled (m B : Q) k : B * 2 ^ k <= m → B <= m * 2 ^ (- k).
Proof.
  intros H. pose proof (pow2_pos (- k)) as HP.
  apply (Qmult_le_compat_r _ _ (2 ^ (- k))) in H; [|lra].
  assert (B * 2 ^ k * 2 ^ (- k) == B) as HB.
  { rewrite <- Qmult_assoc, pow2_inv. ring. }
  lra.
Qed.

Lemma inject_Z_scaled M j k :
  (0 ≤ j + k)%Z → inject_Z (M * 2 ^ (j + k)) == inject_Z M * 2 ^ j * 2 ^ k.
Proof.
  intros H. rewrite inject_Z_mult, pow2_inject, pow2_add by done. ring.
Qed.

Lemma inject_Z_lt_pow2 M n : (0 ≤ n)%Z → (M < 2 ^ n)%Z → inject_Z M < 2 ^ n.
Proof. intros Hn H. rewrite <- pow2_inject by done. by rewrite <- Zlt_Qlt. Qed.

Lemma inject_Z_le_pow2 M n : (0 ≤ n)%Z → (M ≤ 2 ^ n)%Z → inject_Z M <= 2 ^ n.
Proof. intros Hn H. rewrite <- pow2_inject by done. by rewrite <- Zle_Qle. Qed.

Lemma pow2_le_inject M n : (0 ≤ n)%Z → (2 ^ n ≤ M)%Z → 2 ^ n <= inject_Z M.
Proof. intros Hn H. rewrite <- pow2_inject by done. by rewrite <- Zle_Qle. Qed.

Lemma round_pos_le q M j :
  0 < q → (M < 2 ^ 53)%Z → q <= inject_Z M * 2 ^ j →
  round_pos q <= inject_Z M * 2 ^ j.
Proof.
  intros Hq HM Hle. rewrite round_pos_eq.
  destruct (scaled_range q Hq) as [Hs1 Hs2].
  destruct (ilog2_spec q Hq) as [He1 He2].
  set (e := ilog2 q) in *. set (s := q * 2 ^ (52 - e)) in *.
  pose proof (pow2_pos (52 - e)) as HP.
  replace (e - 52)%Z with (- (52 - e))%Z by lia. apply le_scaled.
  assert (s <= inject_Z M * 2 ^ j * 2 ^ (52 - e)) as Hs.
  { unfold s. apply Qmult_le_compat_r; lra. }
  destruct (decide (0 ≤ j + (52 - e))%Z) as [Hjk|Hjk].
  - rewrite <- inject_Z_scaled by done. rewrite <- Zle_Qle. apply rne_le.
    rewrite inject_Z_scaled by done. lra.
  - exfalso. assert (inject_Z M * 2 ^ j < 2 ^ e); [|lra].
    apply Qlt_le_trans with (2 ^ 53 * 2 ^ j).
    + apply Qmult_lt_compat_r; [apply pow2_pos|]. by apply inject_Z_lt_pow2.
    + rewrite <- pow2_add. apply pow2_le. lia.
Qed.

Lemma round_pos_ge q M j :
  0 < q → (M ≤ 2 ^ 53)%Z → inject_Z M * 2 ^ j <= q →
  inject_Z M * 2 ^ j <= round_pos q.
Proof.
  intros Hq HM Hle. rewrite round_pos_eq.
  destruct (scaled_range q Hq) as [Hs1 Hs2].
  set (e := ilog2 q) in *. set (s := q * 2 ^ (52 - e)) in *.
  pose proof (pow2_pos (52 - e)) as HP.
  replace (e - 52)%Z with (- (52 - e))%Z by lia. apply ge_scaled.
  assert (inject_Z M * 2 ^ j * 2 ^ (52 - e) <= s) as Hs.
  { unfold s. apply Qmult_le_compat_r; lra. }
  destruct (decide (0 ≤ j + (52 - e))%Z) as [Hjk|Hjk].
  - rewrite <- inject_Z_scaled by done. rewrite <- Zle_Qle. apply rne_ge.
    rewrite inject_Z_scaled by done. lra.
  - apply Qle_trans with (2 ^ 52).
    + rewrite <- Qmult_assoc, <- pow2_add.
      apply Qle_trans with (2 ^ 53 * 2 ^ (j + (52 - e))).
      * apply Qmult_le_compat_r; [|apply Qlt_le_weak, pow2_pos].
        by apply inject_Z_le_pow2.
      * rewrite <- pow2_add. apply pow2_le. lia.
    + apply pow2_le_inject; [done|]. apply rne_ge.
      rewrite (pow2_inject 52) by done. lra.
Qed.

Lemma round_pos_le_half q M j :
  0 < q → (2 ^ 52 ≤ M < 2 ^ 53)%Z → q < (inject_Z M + (1 # 2)) * 2 ^ j →
  round_pos q <= inject_Z M * 2 ^ j.
Proof.
  intros Hq [HM1 HM2] Hlt. rewrite round_pos_eq.
  destruct (scaled_range q Hq) as [Hs1 Hs2].
  destruct (ilog2_spec q Hq) as [He1 He2].
  set (e := ilog2 q) in *. set (s := q * 2 ^ (52 - e)) in *.
  pose proof (pow2_pos (52 - e)) as HP.
  replace (e - 52)%Z with (- (52 - e))%Z by lia. apply le_scaled.
  assert (s < (inject_Z M + (1 # 2)) * 2 ^ j * 2 ^ (52 - e)) as Hs.
  { unfold s. apply Qmult_lt_compat_r; lra. }
  rewrite <- Qmult_assoc, <- pow2_add in Hs. rewrite <- Qmult_assoc, <- pow2_add.
  pose proof (pow2_le_inject M 52 ltac:(done) HM1) as HM1'.
  pose proof (inject_Z_lt_pow2 M 53 ltac:(done) HM2) as HM2'.
  destruct (Z.lt_trichotomy (j + (52 - e)) 0) as [Hjk|[Hjk|Hjk]].
  - exfalso.
    assert ((inject_Z M + (1 # 2)) * 2 ^ (j + (52 - e)) <= 2 ^ 52); [|lra].
    apply Qle_trans with (2 ^ 53 * 2 ^ (j + (52 - e))).
    + apply Qmult_le_compat_r; [|apply Qlt_le_weak, pow2_pos].
      assert (inject_Z (M + 1) <= 2 ^ 53) as HM3.
      { apply inject_Z_le_pow2; [done | lia]. }
      rewrite inject_Z_plus in HM3. change (inject_Z 1) with 1 in HM3. lra.
    + rewrite <- pow2_add. apply pow2_le. lia.
  - rewrite Hjk in Hs |- *. change (2 ^ 0) with 1 in Hs |- *.
    rewrite Qmult_1_r in Hs |- *. rewrite <- Zle_Qle. apply rne_le. lra.
  - apply Qle_trans with (2 ^ 53).
    + apply inject_Z_le_pow2; [done|]. apply rne_le.
      rewrite (pow2_inject 53) by done. lra.
    + apply Qle_trans with (2 ^ 52 * 2 ^ (j + (52 - e))).
      * rewrite <- pow2_add. apply pow2_le. lia.
      * apply Qmult_le_compat_r; [lra | apply Qlt_le_weak, pow2_pos].
Qed.

Lemma ilog2_unique q e :
  2 ^ e <= q → q < 2 ^ (e + 1) → ilog2 q = e.
Proof.
  intros H1 H2.
  assert (0 < q) as Hq by (pose proof (pow2_pos e); lra).
  destruct (ilog2_spec q Hq) as [H3 H4].
  assert (e < ilog2 q + 1)%Z.
  { apply (Qpower_lt_compat_l_inv 2); [lra | done]. }
  assert (ilog2 q < e + 1)%Z.
  { apply (Qpower_lt_compat_l_inv 2); [lra | done]. }
  lia.
Qed.

#[global] Instance rne_proper : Proper (Qeq ==> eq) rne.
Proof.
  intros x y H. unfold rne. rewrite <- (Qfloor_comp x y H).
  assert ((y - inject_Z (Qfloor x) ?= 1 # 2) = (x - inject_Z (Qfloor x) ?= 1 # 2))
    as ->; [|done].
  apply Qcompare_comp; [lra | done].
Qed.

Lemma round_pos_proper q q' : 0 < q → q == q' → round_pos q = round_pos q'.
Proof.
  intros Hq Heq. unfold round_pos.
  assert (ilog2 q' = ilog2 q) as ->.
  { destruct (ilog2_spec q Hq) as [H1 H2]. apply ilog2_unique; by rewrite <- Heq. }
  apply Qred_complete.
  assert (rne (q' * 2 ^ (52 - ilog2 q)) = rne (q * 2 ^ (52 - ilog2 q))) as ->;
    [|done].
  apply rne_proper, Qmult_comp; [by symmetry | done].
Qed.

#[global] Instance round_proper : Proper (Qeq ==> eq) round.
Proof.
  intros q q' Heq. unfold round. rewrite <- Heq.
  destruct (Qcompare_spec q 0) as [H|H|H]; [done|..].
  - f_equal. apply round_pos_proper; [lra | by rewrite Heq].
  - by apply round_pos_proper.
Qed.

Lemma round_0 : round 0 = 0.
Proof. done. Qed.

Lemma round_pos_gt q : 0 < q → 0 < round_pos q.
Proof.
  intros Hq. destruct (ilog2_spec q Hq) as [H1 _].
  pose proof (round_pos_ge q 1 (ilog2 q) Hq ltac:(done)) as H.
  rewrite Qmult_1_l in H. pose proof (pow2_pos (ilog2 q)). lra.
Qed.

Lemma round_gt q : 0 < q → 0 < round q.
Proof.
  intros Hq. unfold round.
  destruct (Qcompare_spec q 0) as [H|H|H]; [lra | lra |].
  by apply round_pos_gt.
Qed.

Lemma round_nonneg q : 0 <= q → 0 <= round q.
Proof.
  intros Hq. unfold round.
  destruct (Qcompare_spec q 0) as [H|H|H]; [lra | lra |].
  apply Qlt_le_weak. by apply round_pos_gt.
Qed.

Lemma round_nonpos q : q <= 0 → round q <= 0.
Proof.
  intros Hq. unfold round.
  destruct (Qcompare_spec q 0) as [H|H|H]; [lra | | lra].
  assert (0 < round_pos (- q)); [apply round_pos_gt|]; lra.
Qed.

(** Rounding never crosses a floating-point number [M * 2^j] with
    [0 ≤ M < 2^53]. *)
Lemma round_le q M j :
  (0 ≤ M < 2 ^ 53)%Z → q <= inject_Z M * 2 ^ j →
  round q <= inject_Z M * 2 ^ j.
Proof.
  intros [HM1 HM2] Hle.
  assert (0 <= inject_Z M * 2 ^ j) as HB.
  { apply Qmult_le_0_compat; [|apply Qlt_le_weak, pow2_pos].
    change 0 with (inject_Z 0). by rewrite <- Zle_Qle. }
  destruct (Qlt_le_dec 0 q) as [Hq|Hq].
  - unfold round. destruct (Qcompare_spec q 0) as [H|H|H]; [lra | lra |].
    by apply round_pos_le.
  - pose proof (round_nonpos q Hq). lra.
Qed.

Lemma round_ge q M j :
  (0 ≤ M ≤ 2 ^ 53)%Z → inject_Z M * 2 ^ j <= q →
  inject_Z M * 2 ^ j <= round q.
Proof.
  intros [HM1 HM2] Hle.
  assert (0 <= inject_Z M * 2 ^ j) as HB.
  { apply Qmult_le_0_compat; [|apply Qlt_le_weak, pow2_pos].
    change 0 with (inject_Z 0). by rewrite <- Zle_Qle. }
  unfold round. destruct (Qcompare_spec q 0) as [H|H|H]; [lra | lra |].
  by apply round_pos_ge.
Qed.

Lemma round_exact q M j :
  (0 ≤ M < 2 ^ 53)%Z → q == inject_Z M * 2 ^ j → round q == q.
Proof.
  intros HM Heq. apply Qle_antisym.
  - rewrite Heq at 2. apply round_le; [done | lra].
  - rewrite Heq at 1. apply round_ge; [lia | lra].
Qed.

Lemma round_int q n :
  (0 ≤ n ≤ 2 ^ 53)%Z → q == inject_Z n → round q == inject_Z n.
Proof.
  intros Hn Heq. rewrite Heq.
  destruct (decide (n = 2 ^ 53)%Z) as [->|Hne]; [done|].
  apply (round_exact _ n 0); [lia|]. change (2 ^ 0) with 1. ring.
Qed.

Lemma round_le_int q n :
  (0 ≤ n < 2 ^ 53)%Z → q <= inject_Z n → round q <= inject_Z n.
Proof.
  intros Hn Hle. pose proof (round_le q n 0 Hn) as H.
  change (2 ^ 0) with 1 in H. rewrite Qmult_1_r in H. by apply H.
Qed.

Lemma round_le_half q M j :
  (2 ^ 52 ≤ M < 2 ^ 53)%Z → q < (inject_Z M + (1 # 2)) * 2 ^ j →
  round q <= inject_Z M * 2 ^ j.
Proof.
  intros HM Hlt.
  destruct (Qlt_le_dec 0 q) as [Hq|Hq].
  - unfold round. destruct (Qcompare_spec q 0) as [H|H|H]; [lra | lra |].
    by apply round_pos_le_half.
  - apply round_le; [lia|]. apply Qle_trans with 0; [done|].
    apply Qmult_le_0_compat; [|apply Qlt_le_weak, pow2_pos].
    change 0 with (inject_Z 0). rewrite <- Zle_Qle. lia.
Qed.

Lemma Qred_inject_Z n : Qred (inject_Z n) = inject_Z n.
Proof.
  unfold Qred, inject_Z.
  pose proof (Z.ggcd_gcd n 1) as Hg.
  pose proof (Z.ggcd_correct_divisors n 1) as Hd.
  destruct (Z.ggcd n 1) as [g [aa bb]]. simpl in Hg, Hd.
  rewrite Z.gcd_1_r in Hg. subst g. destruct Hd as [-> Hb].
  assert (bb = 1)%Z as -> by lia. f_equal. lia.
Qed.

Lemma round_canon q : Qred (round q) = round q.
Proof.
  unfold round. destruct (q ?= 0); [done|..].
  - rewrite Qred_opp. f_equal. unfold round_pos.
    apply Qred_complete, Qred_correct.
  - unfold round_pos. apply Qred_complete, Qred_correct.
Qed.

(** An integer of at most [2^53] is a float. *)
Lemma round_int_eq q n :
  (0 ≤ n ≤ 2 ^ 53)%Z → q == inject_Z n → round q = inject_Z n.
Proof.
  intros Hn Heq. rewrite <- round_canon, <- Qred_inject_Z.
  apply Qred_complete. by apply round_int.
Qed.

Lemma add_int a b :
  (0 ≤ a)%Z → (0 ≤ b)%Z → (a + b ≤ 2 ^ 53)%Z →
  add (inject_Z a) (inject_Z b) = inject_Z (a + b).
Proof.
  intros Ha Hb Hab. apply round_int_eq; [lia|]. by rewrite inject_Z_plus.
Qed.

Lemma sub_int a b :
  (0 ≤ a - b ≤ 2 ^ 53)%Z →
  sub (inject_Z a) (inject_Z b) = inject_Z (a - b).
Proof.
  intros Hab. apply round_int_eq; [lia|].
  unfold Z.sub. rewrite inject_Z_plus, inject_Z_opp. ring.
Qed.

Lemma mul_int a b :
  (0 ≤ a * b ≤ 2 ^ 53)%Z →
  mul (inject_Z a) (inject_Z b) = inject_Z (a * b).
Proof.
  intros Hab. apply round_int_eq; [lia|]. by rewrite inject_Z_mult.
Qed.

Lemma div_int a b :
  (0 ≤ a ≤ 2 ^ 53)%Z → (0 < b)%Z →
  div (inject_Z (a * b)) (inject_Z b) = inject_Z a.
Proof.
  intros Ha Hb. apply round_int_eq; [lia|].
  rewrite inject_Z_mult. field.
  change 0 with (inject_Z 0). rewrite inject_Z_injective. lia.
Qed.

Lemma int_inject_Z n : int (inject_Z n) = n.
Proof. unfold int. simpl. apply Z.quot_1_r. Qed.

End binary64_facts.

(* ===================================================================== *)
(** *** numpy and scipy in binary64: sums and pair counts below [2^53] *)
(* ===================================================================== *)
Section float_counts.
Import binary64.

Lemma Zsum_nonneg ns : Forall (λ n, 0 ≤ n) ns → 0 ≤ foldr Z.add 0 ns.
Proof. induction 1; simpl; lia. Qed.

Lemma Zsum_take_drop k ns :
  foldr Z.add 0 (take k ns) + foldr Z.add 0 (drop k ns) = foldr Z.add 0 ns.
Proof.
  revert k. induction ns as [|n ns IH]; intros [|k]; simpl; try done.
  specialize (IH k). lia.
Qed.

Lemma Zsum_zip_with rs : ∀ bs,
  length rs = length bs →
  foldr Z.add 0 (zip_with Z.add rs bs) = foldr Z.add 0 rs + foldr Z.add 0 bs.
Proof.
  induction rs as [|r rs IH]; intros [|b bs] Hlen; simpl in *; try done.
  rewrite IH by lia. lia.
Qed.

Lemma zip_with_add_nonneg rs : ∀ bs,
  Forall (λ n, 0 ≤ n) rs → Forall (λ n, 0 ≤ n) bs →
  Forall (λ n, 0 ≤ n) (zip_with Z.add rs bs).
Proof.
  induction rs as [|r rs IH]; intros [|b bs] Hr Hb; simpl; try done.
  apply Forall_cons in Hr as [? ?], Hb as [? ?].
  constructor; [lia | by apply IH].
Qed.

Lemma foldl_add_int ns : ∀ acc,
  0 ≤ acc → Forall (λ n, 0 ≤ n) ns → acc + foldr Z.add 0 ns ≤ 2 ^ 53 →
  foldl add (inject_Z acc) (inject_Z <$> ns)
  = inject_Z (acc + foldr Z.add 0 ns).
Proof.
  induction ns as [|n ns IH]; intros acc Hacc Hns Hle; simpl in *.
  - by rewrite Z.add_0_r.
  - apply Forall_cons in Hns as [Hn Hns].
    pose proof (Zsum_nonneg ns Hns).
    rewrite add_int by lia. rewrite IH by (done || lia). f_equal. lia.
Qed.

Lemma zip_with_add_int rs : ∀ bs,
  Forall (λ n, 0 ≤ n) rs → Forall (λ n, 0 ≤ n) bs →
  foldr Z.add 0 rs + foldr Z.add 0 bs ≤ 2 ^ 53 →
  zip_with add (inject_Z <$> rs) (inject_Z <$> bs)
  = inject_Z <$> zip_with Z.add rs bs.
Proof.
  induction rs as [|r rs IH]; intros [|b bs] Hr Hb Hle; simpl in *; try done.
  apply Forall_cons in Hr as [? Hr], Hb as [? Hb].
  pose proof (Zsum_nonneg rs Hr). pose proof (Zsum_nonneg bs Hb).
  rewrite add_int by lia. f_equal. apply IH; (done || lia).
Qed.

Lemma add_blocks_int blocks : ∀ rs ns,
  length rs = 8%nat → (8 * blocks ≤ length ns)%nat →
  Forall (λ n, 0 ≤ n) rs → Forall (λ n, 0 ≤ n) ns →
  foldr Z.add 0 rs + foldr Z.add 0 ns ≤ 2 ^ 53 →
  ∃ rs' ns',
    numpy.add_blocks (inject_Z <$> rs) (inject_Z <$> ns) blocks
    = (inject_Z <$> rs', inject_Z <$> ns') ∧
    length rs' = 8%nat ∧
    Forall (λ n, 0 ≤ n) rs' ∧ Forall (λ n, 0 ≤ n) ns' ∧
    foldr Z.add 0 rs' + foldr Z.add 0 ns'
    = foldr Z.add 0 rs + foldr Z.add 0 ns.
Proof.
  induction blocks as [|blocks IH]; intros rs ns Hlen Hblocks Hr Hn Hle.
  - exists rs, ns. by cbn [numpy.add_blocks].
  - cbn [numpy.add_blocks]. rewrite <- fmap_take, <- fmap_drop.
    pose proof (Zsum_take_drop 8 ns) as Hsplit.
    assert (Forall (λ n, 0 ≤ n) (take 8 ns)) as Ht by by apply Forall_take.
    assert (Forall (λ n, 0 ≤ n) (drop 8 ns)) as Hd by by apply Forall_drop.
    pose proof (Zsum_nonneg _ Hd).
    assert (length (take 8 ns) = 8%nat) as Hlt by (rewrite length_take; lia).
    rewrite zip_with_add_int by (done || lia).
    destruct (IH (zip_with Z.add rs (take 8 ns)) (drop 8 ns))
      as (rs' & ns' & Heq & Hlen' & Hr' & Hn' & Hsum).
    + rewrite length_zip_with. lia.
    + rewrite length_drop. lia.
    + by apply zip_with_add_nonneg.
    + done.
    + rewrite Zsum_zip_with by lia. lia.
    + exists rs', ns'. split; [done|]. split; [done|]. split; [done|].
      split; [done|]. rewrite Hsum, Zsum_zip_with by lia. lia.
Qed.

Lemma pairwise_sum_int fuel : ∀ ns,
  (length ns ≤ fuel)%nat → Forall (λ n, 0 ≤ n) ns →
  foldr Z.add 0 ns ≤ 2 ^ 53 →
  numpy.pairwise_sum fuel (inject_Z <$> ns) = inject_Z (foldr Z.add 0 ns).
Proof.
  induction fuel as [|fuel IH]; intros ns Hfuel Hns Hle.
  - destruct ns; [done | simpl in Hfuel; lia].
  - cbn [numpy.pairwise_sum]. rewrite length_fmap.
    destruct (decide (length ns < 8)%nat) as [Hn8|Hn8].
    { change 0%Q with (inject_Z 0). by rewrite foldl_add_int. }
    destruct (decide (length ns ≤ 128)%nat) as [Hn128|Hn128].
    + rewrite <- fmap_take, <- fmap_drop.
      pose proof (Zsum_take_drop 8 ns) as Hsplit.
      destruct (add_blocks_int (length ns / 8 - 1) (take 8 ns) (drop 8 ns))
        as (rs & rest & -> & Hlen & Hr & Hrest & Hsum).
      * rewrite length_take. lia.
      * rewrite length_drop.
        pose proof (Nat.div_mod_eq (length ns) 8). lia.
      * by apply Forall_take.
      * by apply Forall_drop.
      * lia.
      * pose proof (Zsum_nonneg rest Hrest) as Hrest0.
        destruct rs as [|r0 [|r1 [|r2 [|r3 [|r4 [|r5 [|r6 [|r7 [|]]]]]]]]];
          try discriminate Hlen.
        repeat (apply Forall_cons in Hr as [? Hr]).
        cbn [foldr] in Hsum. cbn [fmap list_fmap].
        rewrite !add_int by lia. rewrite foldl_add_int by (done || lia).
        f_equal. lia.
    + assert (64 ≤ length ns / 2)%nat as Hhalf.
      { pose proof (Nat.div_mod_eq (length ns) 2).
        pose proof (Nat.mod_upper_bound (length ns) 2). lia. }
      pose proof (Nat.mod_upper_bound (length ns / 2) 8 ltac:(done)) as Hmod.
      pose proof (Nat.div_mod_eq (length ns) 2) as Hdm.
      set (n2 := (length ns / 2 - (length ns / 2) `mod` 8)%nat) in *.
      rewrite <- fmap_take, <- fmap_drop.
      pose proof (Zsum_take_drop n2 ns) as Hsplit.
      assert (Forall (λ n, 0 ≤ n) (take n2 ns)) as Ht by by apply Forall_take.
      assert (Forall (λ n, 0 ≤ n) (drop n2 ns)) as Hd by by apply Forall_drop.
      pose proof (Zsum_nonneg _ Ht). pose proof (Zsum_nonneg _ Hd).
      rewrite !IH; try done; try lia.
      * rewrite add_int by lia. f_equal. lia.
      * rewrite length_drop. lia.
      * rewrite length_take. lia.
Qed.

(** [np.sum] is exact on integers that add up to at most [2^53]. *)
Lemma sum_int ns :
  Forall (λ n, 0 ≤ n) ns → foldr Z.add 0 ns ≤ 2 ^ 53 →
  numpy.sum (inject_Z <$> ns) = inject_Z (foldr Z.add 0 ns).
Proof.
  intros Hns Hle. unfold numpy.sum.
  rewrite pairwise_sum_int; [|by rewrite length_fmap|done|done].
  pose proof (Zsum_nonneg ns Hns).
  change 0%Q with (inject_Z 0). by rewrite add_int.
Qed.

(** [scipy.special.comb(n, 2)] is [C(n, 2)] while [n (n - 1) ≤ 2^53]. *)
Lemma comb_int n :
  0 ≤ n → n * (n - 1) ≤ 2 ^ 53 →
  scipy.comb n = inject_Z (functional.combinations n).
Proof.
  intros Hn Hle. unfold scipy.comb, functional.combinations.
  destruct (decide (2 ≤ n)) as [H2|H2].
  - rewrite mul_int by nia.
    assert (∃ c, (n - 1) * n = c * 2) as [c Hc].
    { destruct (Z.Even_or_Odd n) as [[m Hm]|[m Hm]].
      - exists ((n - 1) * m). rewrite Hm. ring.
      - exists (m * n). rewrite Hm. ring. }
    replace (n * (n - 1)) with (c * 2) by lia. rewrite Hc.
    rewrite Z.div_mul by done.
    apply (div_int c 2); nia.
  - assert (n = 0 ∨ n = 1) as [->| ->] by lia; done.
Qed.

End float_counts.

(* ===================================================================== *)
(** *** binary64: percentages of counts *)
(* ===================================================================== *)
Section float_percent.
Import binary64.
#[local] Open Scope Q_scope.

Lemma inject_Z_nonneg n : (0 ≤ n)%Z → 0 <= inject_Z n.
Proof. intros H. change 0 with (inject_Z 0). by rewrite <- Zle_Qle. Qed.

Lemma inject_Z_pos n : (0 < n)%Z → 0 < inject_Z n.
Proof. intros H. change 0 with (inject_Z 0). by rewrite <- Zlt_Qlt. Qed.

(** [100 * a / b] on counts [a ≤ b], as [precision] computes it: the
    product is exact while [100 * b ≤ 2^53], the quotient is rounded. *)
Lemma percent_round (a b : Z) :
  (0 ≤ a ≤ b)%Z → (0 < b)%Z → (100 * b ≤ 2 ^ 53)%Z →
  ∃ q, div (mul 100 (inject_Z a)) (inject_Z b) = q ∧
       0 <= q ∧ q <= 100 ∧ (q == 100 ↔ a = b) ∧ (q == 0 ↔ a = 0%Z).
Proof.
  intros Hab Hb Hbound. eexists. split; [done|].
  assert (mul 100 (inject_Z a) = inject_Z (100 * a)) as ->.
  { apply (mul_int 100 a). lia. }
  unfold div. set (x := inject_Z (100 * a) / inject_Z b).
  pose proof (inject_Z_pos b Hb) as Hb'.
  assert (x * inject_Z b == inject_Z (100 * a)) as Hx.
  { unfold x. field. lra. }
  assert (inject_Z (100 * a) == 100 * inject_Z a) as H100.
  { by rewrite inject_Z_mult. }
  assert (0 <= inject_Z a) as Ha by (apply inject_Z_nonneg; lia).
  assert (inject_Z a <= inject_Z b) as Hab' by (rewrite <- Zle_Qle; lia).
  assert (0 <= x) as Hx0.
  { unfold x. apply Qle_shift_div_l; [done|]. lra. }
  assert (x <= 100) as Hx1.
  { unfold x. apply Qle_shift_div_r; [done|]. lra. }
  split; [by apply round_nonneg|].
  split; [by apply (round_le_int x 100)|].
  split; [split|split].
  - intros Hq. destruct (decide (a = b)) as [|Hne]; [done|]. exfalso.
    assert (inject_Z a + 1 <= inject_Z b) as Hlt.
    { change 1 with (inject_Z 1). rewrite <- inject_Z_plus, <- Zle_Qle. lia. }
    assert (inject_Z b <= inject_Z 3518437208883200) as Hb2.
    { rewrite <- Zle_Qle. lia. }
    assert (inject_Z 3518437208883199 * 2 ^ (-45)
            == 100 - (1 # 35184372088832)) as HB by done.
    assert (x <= inject_Z 3518437208883199 * 2 ^ (-45)) as Hle.
    { unfold x. apply Qle_shift_div_r; [done|]. rewrite HB.
      change (inject_Z 3518437208883200) with 3518437208883200 in Hb2. lra. }
    apply round_le in Hle; [|done]. lra.
  - intros ->. apply round_int; [done|]. unfold x. rewrite H100. field. lra.
  - intros Hq. destruct (decide (a = 0%Z)) as [|Hne]; [done|]. exfalso.
    assert (0 < inject_Z a) as Hpos by (apply inject_Z_pos; lia).
    assert (0 < x) as Hxpos.
    { unfold x. apply Qlt_shift_div_l; [done|]. lra. }
    pose proof (round_gt x Hxpos). lra.
  - intros ->. assert (x == 0) as ->; [|done].
    unfold x. change (inject_Z (100 * 0)) with 0. field. lra.
Qed.

(** [a / b * 100] on sizes [a ≤ b], as [precision_recall_f1_from_links]
    computes it: the quotient is rounded, then the product. *)
Lemma ratio_round (a b : Z) :
  (0 ≤ a ≤ b)%Z → (0 < b ≤ 2 ^ 53)%Z →
  ∃ q, mul (div (inject_Z a) (inject_Z b)) 100 = q ∧
       0 <= q ∧ q <= 100 ∧ (q == 100 ↔ a = b) ∧ (q == 0 ↔ a = 0%Z).
Proof.
  intros Hab Hb. eexists. split; [done|].
  unfold div, mul. set (x := inject_Z a / inject_Z b).
  pose proof (inject_Z_pos b (proj1 Hb)) as Hb'.
  assert (0 <= inject_Z a) as Ha by (apply inject_Z_nonneg; lia).
  assert (inject_Z a <= inject_Z b) as Hab' by (rewrite <- Zle_Qle; lia).
  assert (0 <= x) as Hx0.
  { unfold x. apply Qle_shift_div_l; [done|]. lra. }
  assert (x <= 1) as Hx1.
  { unfold x. apply Qle_shift_div_r; [done|]. lra. }
  pose proof (round_nonneg x Hx0) as Hr0.
  pose proof (round_le_int x 1 ltac:(done) Hx1) as Hr1.
  change (inject_Z 1) with 1 in Hr1.
  split; [apply round_nonneg; lra|].
  split; [apply (round_le_int _ 100); [done|]; change (inject_Z 100) with 100; lra|].
  split; [split|split].
  - intros Hq. destruct (decide (a = b)) as [|Hne]; [done|]. exfalso.
    assert (inject_Z a + 1 <= inject_Z b) as Hlt.
    { change 1 with (inject_Z 1). rewrite <- inject_Z_plus, <- Zle_Qle. lia. }
    assert (inject_Z b <= inject_Z 9007199254740992) as Hb2.
    { rewrite <- Zle_Qle. lia. }
    change (inject_Z 9007199254740992) with 9007199254740992 in Hb2.
    assert (inject_Z 9007199254740991 * 2 ^ (-53)
            == 1 - (1 # 9007199254740992)) as HB by done.
    assert (x <= inject_Z 9007199254740991 * 2 ^ (-53)) as Hle.
    { unfold x. apply Qle_shift_div_r; [done|]. rewrite HB. lra. }
    apply round_le in Hle; [|done]. rewrite HB in Hle.
    assert ((inject_Z 7036874417766399 + (1 # 2)) * 2 ^ (-46)
            == 100 - (1 # 140737488355328)) as HB2 by done.
    assert (inject_Z 7036874417766399 * 2 ^ (-46)
            == 100 - (1 # 70368744177664)) as HB3 by done.
    assert (round (round x * 100) <= inject_Z 7036874417766399 * 2 ^ (-46))
      as Hle2.
    { apply round_le_half; [done|]. rewrite HB2. lra. }
    lra.
  - intros ->. assert (x == 1) as -> by (unfold x; field; lra).
    by apply (round_int _ 100).
  - intros Hq. destruct (decide (a = 0%Z)) as [|Hne]; [done|]. exfalso.
    assert (0 < inject_Z a) as Hpos by (apply inject_Z_pos; lia).
    assert (0 < x) as Hxpos.
    { unfold x. apply Qlt_shift_div_l; [done|]. lra. }
    pose proof (round_gt x Hxpos) as Hr.
    assert (0 < round (round x * 100)); [apply round_gt|]; lra.
  - intros ->. assert (x == 0) as ->; [|done].
    unfold x. change (inject_Z 0) with 0. field. lra.
Qed.

(** The denominator [p + r + tol] of the F1 scores is zero only when
    its three terms are. *)
Lemma f1_denominator (p r tol : Q) :
  0 <= p → 0 <= r → 0 <= tol →
  add (add p r) tol == 0 ↔ p == 0 ∧ r == 0 ∧ tol == 0.
Proof.
  intros Hp Hr Htol. unfold add. split.
  - intros Hz.
    destruct (Qlt_le_dec 0 (p + r)) as [Hpos|Hnp].
    + pose proof (round_gt _ Hpos) as H1.
      assert (0 < round (round (p + r) + tol)); [apply round_gt|]; lra.
    + destruct (Qlt_le_dec 0 tol) as [Htpos|Htnp].
      * pose proof (round_nonneg (p + r) ltac:(lra)) as H1.
        assert (0 < round (round (p + r) + tol)); [apply round_gt|]; lra.
      * repeat split; lra.
  - intros (Hp0 & Hr0 & Ht0).
    assert (p + r == 0) as -> by lra. rewrite round_0.
    assert (0 + tol == 0) as -> by lra. done.
Qed.

(** The quotient [2 * p * r / den] of the F1 scores is not negative. *)
Lemma f1_nonneg (p r den : Q) :
  0 <= p → 0 <= r → 0 <= den → ¬ den == 0 →
  0 <= div (mul (mul 2 p) r) den.
Proof.
  intros Hp Hr Hden Hnz. unfold div, mul.
  apply round_nonneg. apply Qle_shift_div_l; [lra|]. rewrite Qmult_0_l.
  apply round_nonneg, Qmult_le_0_compat; [|done].
  apply round_nonneg. lra.
Qed.

End float_percent.

(* ===================================================================== *)
(** *** deduplicator/metrics/functional.py: the counts in floating point *)
(* ===================================================================== *)
Section float_confusion_matrix.
Import functional.

Lemma count_of_le_length {C} `{!EqDecision C} (x : C) l :
  count_of x l ≤ Z.of_nat (length l).
Proof. unfold count_of. pose proof (length_filter (λ y, y = x) l). lia. Qed.

Lemma same_pairs_le_combinations {C} `{!EqDecision C} (l : list C) :
  same_pairs l ≤ combinations (Z.of_nat (length l)).
Proof.
  induction l as [|x l IH]; [done|].
  rewrite same_pairs_cons. cbn [length].
  rewrite Nat2Z.inj_succ, <- Z.add_1_r, combinations_succ.
  pose proof (count_of_le_length x l). lia.
Qed.

Lemma combinations_nonneg n : 0 ≤ n → 0 ≤ combinations n.
Proof. intros Hn. unfold combinations. apply Z.div_pos; nia. Qed.

Lemma combinations_bound n : 0 ≤ n → 2 * combinations n ≤ n * (n - 1).
Proof.
  intros Hn. unfold combinations.
  pose proof (Z.mul_div_le (n * (n - 1)) 2 ltac:(done)). lia.
Qed.

(** The pair count of [np.unique]'s cluster sizes, computed in floating
    point, is the number of pairs of equal labels, as long as the
    number of all pairs is a float. *)
Lemma float_pair_count {C} `{!EqDecision C} (le : relation C)
    `{!RelDecision le, !AntiSymm (=) le, !Total le, !Transitive le}
    (l : list C) :
  Z.of_nat (length l) * (Z.of_nat (length l) - 1) ≤ 2 ^ 53 →
  numpy.sum (scipy.comb <$> (numpy.unique_counts le l).*2)
  = inject_Z (same_pairs l).
Proof.
  intros Hbound.
  pose proof (sum_combinations_unique_counts le l) as Hsum.
  unfold numpy.unique_counts, sum_combinations in *.
  destruct (run_lengths_spec le (merge_sort le l)) as (_ & _ & Hcnt);
    [by apply StronglySorted_merge_sort|].
  rewrite Hcnt in *. rewrite <- Hsum.
  set (keys := (numpy.run_lengths (merge_sort le l)).*1) in *.
  assert (∀ k, 0 ≤ count_of k (merge_sort le l) ∧
               count_of k (merge_sort le l)
               * (count_of k (merge_sort le l) - 1) ≤ 2 ^ 53) as Hsize.
  { intros k. pose proof (count_of_nonneg k (merge_sort le l)).
    pose proof (count_of_le_length k (merge_sort le l)) as Hle.
    rewrite (Permutation_length (merge_sort_Permutation le l)) in Hle.
    split; [done|]. set (c := count_of k (merge_sort le l)) in *.
    destruct (decide (c = 0)) as [->|Hc]; [done|].
    etrans; [|exact Hbound]. apply Z.mul_le_mono_nonneg; lia. }
  assert (scipy.comb <$> ((λ k, count_of k (merge_sort le l)) <$> keys)
          = inject_Z <$> (combinations
                            <$> ((λ k, count_of k (merge_sort le l)) <$> keys)))
    as ->.
  { rewrite <- !list_fmap_compose. apply list_fmap_ext. intros i k _.
    simpl. apply comb_int; apply Hsize. }
  apply sum_int.
  - rewrite <- list_fmap_compose. apply Forall_fmap, Forall_forall.
    intros k _. simpl. apply combinations_nonneg, Hsize.
  - rewrite Hsum. pose proof (same_pairs_le_combinations l).
    pose proof (combinations_bound (Z.of_nat (length l))). lia.
Qed.

(** On at most 94906266 labels the code returns the counts over the
    integers. *)
Lemma confusion_matrix_binary64_exact (true_labels pred_labels : list Z) :
  Z.of_nat (length pred_labels) * (Z.of_nat (length pred_labels) - 1)
  ≤ 2 ^ 53 →
  confusion_matrix_binary64 true_labels pred_labels
  = confusion_matrix true_labels pred_labels.
Proof.
  intros Hbound. unfold confusion_matrix_binary64, confusion_matrix.
  destruct (decide (length pred_labels = length true_labels)) as [Hlen|];
    [|done].
  rewrite !(float_pair_count Z.le), (float_pair_count numpy.lex_le);
    [| rewrite length_zip; rewrite <- Hlen, Nat.min_id; done
     | by rewrite <- Hlen | done].
  rewrite comb_int by (done || lia).
  rewrite !(sum_combinations_unique_counts Z.le).
  rewrite (sum_combinations_unique_counts numpy.lex_le).
  pose proof (same_pairs_zip_le_l pred_labels true_labels).
  pose proof (same_pairs_zip_le_r pred_labels true_labels).
  pose proof (same_pairs_union_le pred_labels true_labels Hlen).
  pose proof (same_pairs_nonneg (zip pred_labels true_labels)).
  pose proof (same_pairs_le_combinations pred_labels).
  pose proof (same_pairs_le_combinations true_labels) as Ht.
  rewrite <- Hlen in Ht.
  pose proof (combinations_bound (Z.of_nat (length pred_labels))).
  rewrite !sub_int by lia. by rewrite !int_inject_Z.
Qed.

End float_confusion_matrix.

Lemma run_lengths_replicate {C} `{!EqDecision C} n (x : C) :
  numpy.run_lengths (replicate (S n) x) = [(x, Z.of_nat (S n))].
Proof.
  induction n as [|n IH]; [done|].
  change (replicate (S (S n)) x) with (x :: replicate (S n) x).
  cbn [numpy.run_lengths]. rewrite IH, decide_True by done.
  do 2 f_equal. lia.
Qed.

Lemma unique_counts_replicate {C} `{!EqDecision C} (le : relation C)
    `{!RelDecision le} n (x : C) :
  (0 < n)%nat → numpy.unique_counts le (replicate n x) = [(x, Z.of_nat n)].
Proof.
  intros Hn. unfold numpy.unique_counts.
  rewrite <- (replicate_Permutation n x (merge_sort le (replicate n x)))
    by (symmetry; apply merge_sort_Permutation).
  destruct n as [|n]; [lia|]. apply run_lengths_replicate.
Qed.

(** C2.  On large inputs [confusion_matrix] does not return the pair
    counts.  On 134217730 records in one cluster, in the truth and in
    the prediction, the one joint cell has
    [C(134217730, 2) = 9007199456067585] pairs, a number above [2^53]:
    scipy's floating-point [comb] rounds the product
    [134217729 * 134217730], and the code returns
    [TP = 9007199456067584] with [FP = FN = TN = 0].  So [TP] is not
    the sum of [C(n, 2)] over the joint cells and
    [TP + FP + FN + TN] is not [C(N, 2)]. *)
Theorem confusion_matrix_one_large_cluster :
  ∃ cm,
    functional.confusion_matrix_binary64
      (replicate (Z.to_nat 134217730) 0) (replicate (Z.to_nat 134217730) 0)
    = Some cm ∧
    functional.TP cm = 9007199456067584 ∧ functional.FP cm = 0 ∧
    functional.FN cm = 0 ∧ functional.TN cm = 0 ∧
    functional.combinations 134217730 = 9007199456067585 ∧
    functional.TP cm + functional.FP cm + functional.FN cm + functional.TN cm
    ≠ functional.combinations 134217730.
Proof.
  exists {| functional.TP := 9007199456067584; functional.FP := 0;
            functional.FN := 0; functional.TN := 0 |}.
  split; [|done]. unfold functional.confusion_matrix_binary64.
  assert (Z.of_nat (Z.to_nat 134217730) = 134217730) as HN by by rewrite Z2Nat.id.
  assert (0 < Z.to_nat 134217730)%nat as Hpos by lia.
  revert HN Hpos. generalize (Z.to_nat 134217730). intros n HN Hpos.
  rewrite !length_replicate, decide_True by done.
  rewrite zip_with_replicate.
  rewrite !(unique_counts_replicate _ n) by done. rewrite HN.
  by vm_compute.
Qed.

(* ===================================================================== *)
(** *** deduplicator/metrics/functional.py: the pairwise scores *)
(* ===================================================================== *)
Section pairwise_scores.
Import functional.

(** One labelling never merges what the other separates. *)
Lemma refines_iff (p t : list Z) :
  length p = length t →
  (∀ i j a, (i < j)%nat → p !! i = Some a → p !! j = Some a →
            t !! i = t !! j) ↔
  (∀ x y, same_label p x y → same_label t x y).
Proof.
  intros Hlen. split.
  - intros Hall x y (c & Hx & Hy).
    assert (is_Some (t !! x)) as [c' Hc'].
    { apply lookup_lt_is_Some. rewrite <- Hlen. by apply lookup_lt_Some in Hx. }
    exists c'. split; [done|].
    destruct (decide (x = y)) as [<-|Hne]; [done|].
    destruct (decide (x < y)%nat).
    + rewrite <- (Hall x y c); done.
    + rewrite (Hall y x c); (done || lia).
  - intros Href i j a _ Hi Hj.
    destruct (Href i j) as (c & -> & ->); [by exists a | done].
Qed.

Lemma combinations_double n : n * (n - 1) ≤ 2 * combinations n + 1.
Proof.
  unfold combinations.
  pose proof (Z.mul_succ_div_gt (n * (n - 1)) 2 ltac:(done)). lia.
Qed.

Lemma count_zip_swap {A B} `{!EqDecision A, !EqDecision B}
    (p : list A) : ∀ (t : list B) a b,
  count_of (b, a) (zip t p) = count_of (a, b) (zip p t).
Proof.
  induction p as [|a0 p IH]; intros [|b0 t] a b; try done.
  cbn [zip zip_with].
  destruct (decide ((a0, b0) = (a, b))) as [[= -> ->]|Hne].
  - rewrite !count_of_cons_eq. f_equal. apply IH.
  - rewrite !count_of_cons_ne by congruence. apply IH.
Qed.

Lemma same_pairs_zip_swap {A B} `{!EqDecision A, !EqDecision B}
    (p : list A) : ∀ (t : list B),
  same_pairs (zip t p) = same_pairs (zip p t).
Proof.
  induction p as [|a0 p IH]; intros [|b0 t]; try done.
  cbn [zip zip_with]. rewrite !same_pairs_cons.
  f_equal; [apply count_zip_swap | apply IH].
Qed.

(** The value of [precision] on at most 13421773 labels. *)
Lemma precision_spec (true_labels pred_labels : list Z) :
  length true_labels = length pred_labels →
  100 * combinations (Z.of_nat (length pred_labels)) ≤ 2 ^ 53 →
  ∃ q, precision true_labels pred_labels = Some q ∧
       (0 <= q)%Q ∧ (q <= 100)%Q ∧
       ((q == 100)%Q ↔
        ∀ x y, same_label pred_labels x y → same_label true_labels x y) ∧
       ((q == 0)%Q ↔
        same_pairs (zip pred_labels true_labels) = 0 ∧
        same_pairs pred_labels ≠ 0).
Proof.
  intros Hlen Hbound. unfold precision. rewrite decide_True by done.
  pose proof (combinations_double (Z.of_nat (length pred_labels))) as Hdbl.
  rewrite (float_pair_count Z.le), (float_pair_count numpy.lex_le);
    [| rewrite length_zip; rewrite Hlen, Nat.min_id; lia | lia].
  pose proof (same_pairs_zip_le_l pred_labels true_labels) as Hle.
  pose proof (same_pairs_nonneg (zip pred_labels true_labels)) as H0.
  pose proof (same_pairs_le_combinations pred_labels) as Hmax.
  pose proof (same_pairs_zip_eq_iff pred_labels true_labels (eq_sym Hlen)) as Heq.
  rewrite (refines_iff pred_labels true_labels (eq_sym Hlen)) in Heq.
  destruct (decide (same_pairs pred_labels = 0)) as [Hz|Hnz].
  - rewrite Hz. exists 100%Q. split; [done|]. split; [done|]. split; [done|].
    split; [split; [|done]|split; [done|]].
    + intros _. apply Heq. lia.
    + by intros [_ ?].
  - destruct (Qeq_bool (inject_Z (same_pairs pred_labels)) 0) eqn:Hb.
    { apply Qeq_bool_eq in Hb. unfold Qeq in Hb. simpl in Hb. lia. }
    destruct (percent_round (same_pairs (zip pred_labels true_labels))
                (same_pairs pred_labels))
      as (q & -> & Hq0 & Hq1 & Hq100 & Hqz); [lia..|].
    exists q. split; [done|]. split; [done|]. split; [done|].
    split; [by rewrite Hq100|]. rewrite Hqz. split; [done | by intros [? _]].
Qed.

End pairwise_scores.

(** X10.  On label vectors of the same length [N] with
    [N (N - 1) ≤ 2^53] (up to 94906266 labels), none of the four counts
    that [confusion_matrix] returns is negative. *)
Theorem confusion_matrix_nonneg (true_labels pred_labels : list Z) :
  length true_labels = length pred_labels →
  Z.of_nat (length pred_labels) * (Z.of_nat (length pred_labels) - 1)
  ≤ 2 ^ 53 →
  ∃ cm, functional.confusion_matrix_binary64 true_labels pred_labels
        = Some cm ∧
        0 ≤ functional.TP cm ∧ 0 ≤ functional.FP cm ∧
        0 ≤ functional.FN cm ∧ 0 ≤ functional.TN cm.
Proof.
  intros Hlen Hbound.
  rewrite confusion_matrix_binary64_exact by done.
  unfold functional.confusion_matrix.
  rewrite decide_True by done. eexists. split; [done|].
  cbn [functional.TP functional.FP functional.FN functional.TN].
  rewrite !(sum_combinations_unique_counts Z.le).
  rewrite (sum_combinations_unique_counts numpy.lex_le).
  pose proof (same_pairs_zip_le_l pred_labels true_labels).
  pose proof (same_pairs_zip_le_r pred_labels true_labels).
  pose proof (same_pairs_union_le pred_labels true_labels (eq_sym Hlen)).
  pose proof (same_pairs_nonneg (zip pred_labels true_labels)).
  repeat split; lia.
Qed.

Lemma confusion_matrix_nonneg_witness :
  ∃ cm, functional.confusion_matrix_binary64 [0; 0; 1; 2] [0; 1; 1; 1]
        = Some cm ∧
        0 ≤ functional.TP cm ∧ 0 ≤ functional.FP cm ∧
        0 ≤ functional.FN cm ∧ 0 ≤ functional.TN cm.
Proof.
  apply (confusion_matrix_nonneg [0; 0; 1; 2] [0; 1; 1; 1]); [done|].
  simpl. lia.
Defined.

(** X11.  On label vectors of the same length [N] with
    [100 * C(N, 2) ≤ 2^53] (up to 13421773 labels), [precision] and
    [recall] lie in [0, 100]; [precision] is 100 exactly when the
    prediction never puts together two records that the truth
    separates, and [recall] is 100 exactly when the prediction never
    separates two records that the truth puts together. *)
Theorem precision_recall_bounds (true_labels pred_labels : list Z) :
  length true_labels = length pred_labels →
  100 * functional.combinations (Z.of_nat (length pred_labels)) ≤ 2 ^ 53 →
  ∃ p r, functional.precision true_labels pred_labels = Some p ∧
         functional.recall true_labels pred_labels = Some r ∧
         (0 <= p)%Q ∧ (p <= 100)%Q ∧ (0 <= r)%Q ∧ (r <= 100)%Q ∧
         ((p == 100)%Q ↔
          ∀ x y, same_label pred_labels x y → same_label true_labels x y) ∧
         ((r == 100)%Q ↔
          ∀ x y, same_label true_labels x y → same_label pred_labels x y).
Proof.
  intros Hlen Hbound.
  destruct (precision_spec true_labels pred_labels Hlen Hbound)
    as (p & Hp & Hp0 & Hp1 & Hp2 & _).
  destruct (precision_spec pred_labels true_labels (eq_sym Hlen))
    as (r & Hr & Hr0 & Hr1 & Hr2 & _); [by rewrite Hlen|].
  exists p, r. unfold functional.recall. done.
Qed.

Lemma precision_recall_bounds_witness :
  ∃ p r, functional.precision [0; 0; 1; 2] [0; 1; 1; 1] = Some p ∧
         functional.recall [0; 0; 1; 2] [0; 1; 1; 1] = Some r ∧
         (0 <= p)%Q ∧ (p <= 100)%Q ∧ (0 <= r)%Q ∧ (r <= 100)%Q ∧
         ((p == 100)%Q ↔
          ∀ x y, same_label [0; 1; 1; 1] x y → same_label [0; 0; 1; 2] x y) ∧
         ((r == 100)%Q ↔
          ∀ x y, same_label [0; 0; 1; 2] x y → same_label [0; 1; 1; 1] x y).
Proof.
  apply (precision_recall_bounds [0; 0; 1; 2] [0; 1; 1; 1]); [done|].
  by vm_compute.
Defined.

(** Beyond the bound the product [100 * tp] rounds: on 26843547 records
    in one cluster, in the truth and in the prediction, [precision] is
    [100.00000000000001]. *)
Example precision_above_100 :
  functional.precision
    (replicate (Z.to_nat 26843547) 0) (replicate (Z.to_nat 26843547) 0)
  = Some (7036874417766401 # 70368744177664)%Q.
Proof.
  unfold functional.precision.
  assert (Z.of_nat (Z.to_nat 26843547) = 26843547) as HN by by rewrite Z2Nat.id.
  assert (0 < Z.to_nat 26843547)%nat as Hpos by lia.
  revert HN Hpos. generalize (Z.to_nat 26843547). intros n HN Hpos.
  rewrite !length_replicate, decide_True by done.
  rewrite zip_with_replicate.
  rewrite !(unique_counts_replicate _ n) by done. rewrite HN.
  by vm_compute.
Qed.

(** X12.  On label vectors of the same length [N] with
    [100 * C(N, 2) ≤ 2^53] and with [tol ≥ 0], [f1_score] raises
    [ZeroDivisionError] exactly when [tol] is 0 and the counts of
    [confusion_matrix] are [TP = 0], [FP > 0] and [FN > 0] (the
    prediction and the truth each put records together, never the same
    two); otherwise it returns a score that is not negative.  With a
    positive [tol] it never raises. *)
Theorem f1_score_zero_division (true_labels pred_labels : list Z) (tol : Q) :
  length true_labels = length pred_labels →
  100 * functional.combinations (Z.of_nat (length pred_labels)) ≤ 2 ^ 53 →
  (0 <= tol)%Q →
  ∃ cm,
    functional.confusion_matrix_binary64 true_labels pred_labels = Some cm ∧
    match functional.f1_score true_labels pred_labels tol with
    | None =>
        (tol == 0)%Q ∧ functional.TP cm = 0 ∧
        0 < functional.FP cm ∧ 0 < functional.FN cm
    | Some f =>
        (0 <= f)%Q ∧
        ¬ ((tol == 0)%Q ∧ functional.TP cm = 0 ∧
           0 < functional.FP cm ∧ 0 < functional.FN cm)
    end.
Proof.
  intros Hlen Hbound Htol.
  pose proof (combinations_double (Z.of_nat (length pred_labels))) as Hdbl.
  rewrite confusion_matrix_binary64_exact by lia.
  unfold functional.confusion_matrix. rewrite decide_True by done.
  eexists. split; [done|].
  cbn [functional.TP functional.FP functional.FN functional.TN].
  rewrite !(sum_combinations_unique_counts Z.le).
  rewrite (sum_combinations_unique_counts numpy.lex_le).
  destruct (precision_spec true_labels pred_labels Hlen Hbound)
    as (p & Hp & Hp0 & _ & _ & Hpz).
  destruct (precision_spec pred_labels true_labels (eq_sym Hlen))
    as (r & Hr & Hr0 & _ & _ & Hrz); [by rewrite Hlen|].
  rewrite (same_pairs_zip_swap pred_labels true_labels) in Hrz.
  pose proof (same_pairs_nonneg pred_labels) as HP.
  pose proof (same_pairs_nonneg true_labels) as HT.
  unfold functional.f1_score, functional.recall. rewrite Hp, Hr.
  cbn [mbind option_bind].
  pose proof (f1_denominator p r tol Hp0 Hr0 Htol) as Hden.
  destruct (Qeq_bool (binary64.add (binary64.add p r) tol) 0) eqn:Hb.
  - apply Qeq_bool_eq, Hden in Hb as (Hpz' & Hrz' & Htz).
    apply Hpz in Hpz' as [HTP HP']. apply Hrz in Hrz' as [_ HT'].
    split; [done|]. rewrite HTP. repeat split; lia.
  - apply Qeq_bool_neq in Hb. split.
    + apply f1_nonneg; [done | done | | done].
      unfold binary64.add at 1. apply round_nonneg.
      pose proof (round_nonneg (p + r) ltac:(lra)) as Hs.
      fold (binary64.add p r) in Hs. lra.
    + intros (Htz & HTP & HFP & HFN). apply Hb, Hden.
      split; [apply Hpz; split; [done | lia]|].
      split; [apply Hrz; split; [done | lia] | done].
Qed.

Lemma f1_score_zero_division_witness :
  ∃ cm,
    functional.confusion_matrix_binary64 [0; 0; 1; 1] [0; 1; 0; 1] = Some cm ∧
    match functional.f1_score [0; 0; 1; 1] [0; 1; 0; 1] 0 with
    | None =>
        (0 == 0)%Q ∧ functional.TP cm = 0 ∧
        0 < functional.FP cm ∧ 0 < functional.FN cm
    | Some f =>
        (0 <= f)%Q ∧
        ¬ ((0 == 0)%Q ∧ functional.TP cm = 0 ∧
           0 < functional.FP cm ∧ 0 < functional.FN cm)
    end.
Proof.
  apply (f1_score_zero_division [0; 0; 1; 1] [0; 1; 0; 1] 0);
    [done | by vm_compute | done].
Defined.

Section link_scores.
Import functional.

Lemma size_list_to_set_le (l : list (nat * nat)) :
  (size (list_to_set l : gset (nat * nat)) ≤ length l)%nat.
Proof.
  induction l as [|x l IH]; [done|].
  rewrite list_to_set_cons, size_union_alt, size_singleton. simpl.
  pose proof (subseteq_size ((list_to_set l : gset (nat * nat)) ∖ {[x]})
                (list_to_set l)) as Hsub.
  specialize (Hsub ltac:(apply subseteq_difference_l; done)). lia.
Qed.

Lemma inter_size_0_iff (X Y : gset (nat * nat)) :
  size (X ∩ Y) = 0%nat ↔ ∀ x, x ∈ Y → x ∉ X.
Proof.
  rewrite size_empty_iff. split.
  - intros Hempty x HY HX. apply (not_elem_of_empty (C := gset (nat * nat)) x).
    rewrite <- Hempty. by apply elem_of_intersection.
  - intros Hall x. rewrite elem_of_intersection. split.
    + intros [HX HY]. by destruct (Hall x HY).
    + by intros ?%not_elem_of_empty.
Qed.

Lemma inter_size_eq_iff (X Y : gset (nat * nat)) :
  size (X ∩ Y) = size Y ↔ Y ⊆ X.
Proof.
  split.
  - intros Hsize.
    assert (X ∩ Y = Y) as Heq.
    { apply set_subseteq_size_eq; [apply intersection_subseteq_r | lia]. }
    intros x Hx. rewrite <- Heq in Hx. by apply elem_of_intersection in Hx as [? _].
  - intros Hsub. f_equal. apply leibniz_equiv. intros x.
    rewrite elem_of_intersection. split; [by intros [_ ?]|].
    intros Hx. split; [by apply Hsub | done].
Qed.

Lemma list_to_set_nonempty (l : list (nat * nat)) :
  l ≠ [] → (list_to_set l : gset (nat * nat)) ≠ ∅.
Proof.
  destruct l as [|x l]; [done|]. intros _ Hempty.
  apply (not_elem_of_empty (C := gset (nat * nat)) x).
  rewrite <- Hempty. apply elem_of_list_to_set. by left.
Qed.

End link_scores.

(** X13.  On two non-empty lists of at most [2^53] links and with
    [etol ≥ 0], [precision_recall_f1_from_links] raises
    [ZeroDivisionError] exactly when [etol] is 0 and no predicted link
    is a true link; otherwise it returns a precision and a recall in
    [0, 100] and an F1 score that is not negative; the precision is 100
    exactly when every predicted link is a true link, and the recall is
    100 exactly when every true link is predicted.  Links are compared
    as ordered pairs. *)
Theorem precision_recall_f1_from_links_bounds
    (true_links pred_links : list (nat * nat)) (etol : Q) :
  true_links ≠ [] → pred_links ≠ [] →
  Z.of_nat (length true_links) ≤ 2 ^ 53 →
  Z.of_nat (length pred_links) ≤ 2 ^ 53 →
  (0 <= etol)%Q →
  ∃ res,
    functional.precision_recall_f1_from_links true_links pred_links etol
    = res ∧
    match res with
    | None => (etol == 0)%Q ∧ ∀ lp, lp ∈ pred_links → lp ∉ true_links
    | Some (p, r, f) =>
        (0 <= p)%Q ∧ (p <= 100)%Q ∧ (0 <= r)%Q ∧ (r <= 100)%Q ∧
        (0 <= f)%Q ∧
        ((p == 100)%Q ↔ ∀ lp, lp ∈ pred_links → lp ∈ true_links) ∧
        ((r == 100)%Q ↔ ∀ lp, lp ∈ true_links → lp ∈ pred_links) ∧
        ¬ ((etol == 0)%Q ∧ ∀ lp, lp ∈ pred_links → lp ∉ true_links)
    end.
Proof.
  intros Ht Hp HNt HNp Hetol. eexists. split; [done|].
  unfold functional.precision_recall_f1_from_links.
  pose proof (size_list_to_set_le true_links) as Hszt.
  pose proof (size_list_to_set_le pred_links) as Hszp.
  assert (∀ lp, lp ∈ (list_to_set true_links : gset (nat * nat))
                ↔ lp ∈ true_links) as Hint
    by (intros lp; apply elem_of_list_to_set).
  assert (∀ lp, lp ∈ (list_to_set pred_links : gset (nat * nat))
                ↔ lp ∈ pred_links) as Hinp
    by (intros lp; apply elem_of_list_to_set).
  pose proof (list_to_set_nonempty true_links Ht) as Hst.
  pose proof (list_to_set_nonempty pred_links Hp) as Hsp.
  set (st := list_to_set true_links : gset (nat * nat)) in *.
  set (sp := list_to_set pred_links : gset (nat * nat)) in *.
  rewrite decide_False by (intros [?|?]; done).
  assert (size sp ≠ 0%nat) as Hnp by (by rewrite size_empty_iff, leibniz_equiv_iff).
  assert (size st ≠ 0%nat) as Hnt by (by rewrite size_empty_iff, leibniz_equiv_iff).
  pose proof (subseteq_size (st ∩ sp) sp (intersection_subseteq_r st sp)) as Hip.
  pose proof (subseteq_size (st ∩ sp) st (intersection_subseteq_l st sp)) as Hit.
  destruct (ratio_round (Z.of_nat (size (st ∩ sp))) (Z.of_nat (size sp)))
    as (p & -> & Hp0 & Hp1 & Hp100 & Hpz); [lia..|].
  destruct (ratio_round (Z.of_nat (size (st ∩ sp))) (Z.of_nat (size st)))
    as (r & -> & Hr0 & Hr1 & Hr100 & Hrz); [lia..|].
  assert (size (st ∩ sp) = 0%nat ↔ ∀ lp, lp ∈ pred_links → lp ∉ true_links)
    as Hdisj.
  { rewrite inter_size_0_iff. split; intros Hall lp.
    - rewrite <- Hinp, <- Hint. apply Hall.
    - rewrite Hinp, Hint. apply Hall. }
  pose proof (f1_denominator p r etol Hp0 Hr0 Hetol) as Hden.
  destruct (Qeq_bool (binary64.add (binary64.add p r) etol) 0) eqn:Hb.
  - apply Qeq_bool_eq, Hden in Hb as (Hpz' & _ & Hez).
    split; [done|]. apply Hdisj. apply Hpz in Hpz'. lia.
  - apply Qeq_bool_neq in Hb. repeat (split; [done|]). split.
    { apply f1_nonneg; [done | done | | done].
      unfold binary64.add at 1. apply round_nonneg.
      pose proof (round_nonneg (p + r) ltac:(lra)) as Hs.
      fold (binary64.add p r) in Hs. lra. }
    split; [|split].
    + rewrite Hp100, Nat2Z.inj_iff, inter_size_eq_iff. split.
      * intros Hsub lp Hlp. apply Hint, Hsub, Hinp, Hlp.
      * intros Hall lp Hlp. apply Hint, Hall, Hinp, Hlp.
    + rewrite Hr100, Nat2Z.inj_iff, (comm_L (∩) st sp), inter_size_eq_iff.
      split.
      * intros Hsub lp Hlp. apply Hinp, Hsub, Hint, Hlp.
      * intros Hall lp Hlp. apply Hinp, Hall, Hint, Hlp.
    + intros [Hez Hall]. apply Hb, Hden. apply Hdisj in Hall.
      split; [apply Hpz; lia|]. split; [apply Hrz; lia | done].
Qed.

Lemma precision_recall_f1_from_links_bounds_witness :
  ∃ res,
    functional.precision_recall_f1_from_links
      [(1, 0); (3, 0); (3, 1)]%nat [(1, 0); (3, 1)]%nat (1 # 10000000000)
    = res ∧
    match res with
    | None =>
        ((1 # 10000000000) == 0)%Q ∧
        ∀ lp, lp ∈ [(1, 0); (3, 1)]%nat → lp ∉ [(1, 0); (3, 0); (3, 1)]%nat
    | Some (p, r, f) =>
        (0 <= p)%Q ∧ (p <= 100)%Q ∧ (0 <= r)%Q ∧ (r <= 100)%Q ∧
        (0 <= f)%Q ∧
        ((p == 100)%Q ↔
         ∀ lp, lp ∈ [(1, 0); (3, 1)]%nat → lp ∈ [(1, 0); (3, 0); (3, 1)]%nat) ∧
        ((r == 100)%Q ↔
         ∀ lp, lp ∈ [(1, 0); (3, 0); (3, 1)]%nat → lp ∈ [(1, 0); (3, 1)]%nat) ∧
        ¬ (((1 # 10000000000) == 0)%Q ∧
           ∀ lp, lp ∈ [(1, 0); (3, 1)]%nat →
                 lp ∉ [(1, 0); (3, 0); (3, 1)]%nat)
    end.
Proof.
  apply (precision_recall_f1_from_links_bounds
           [(1, 0); (3, 0); (3, 1)]%nat [(1, 0); (3, 1)]%nat (1 # 10000000000));
    done.
Defined.

(** The two departures from the exact ratios.  The links [(1, 0)] and
    [(0, 1)] share nothing: with [etol = 0] the F1 quotient divides by
    [0.0].  And [f1_score] reaches [100.0] on a perfect prediction when
    [tol] is below the rounding of [200.0]. *)
Example from_links_zero_division :
  functional.precision_recall_f1_from_links [(0, 1)%nat] [(1, 0)%nat] 0 = None.
Proof. by vm_compute. Qed.

Example f1_score_reaches_100 :
  functional.f1_score [0; 0; 1] [0; 0; 1] (1 # 2 ^ 60) = Some 100%Q.
Proof. by vm_compute. Qed.

(* ===================================================================== *)
(** *** deduplicator/utils/iter_utils.py: pairs, batches, unique items *)
(* ===================================================================== *)
Section combinations_facts.
Import iter_utils.
Context {A : Type}.
Implicit Types l : list A.

Lemma elem_of_combinations2 l x y :
  (x, y) ∈ combinations2 l ↔
  ∃ i j, (i < j)%nat ∧ l !! i = Some x ∧ l !! j = Some y.
Proof.
  induction l as [|a l IH]; simpl.
  - rewrite elem_of_nil. split; [done|]. by intros (i & j & _ & ? & _).
  - rewrite elem_of_app, list_elem_of_fmap, IH. split.
    + intros [(z & [= -> ->] & [j Hj]%list_elem_of_lookup_1)
             |(i & j & Hij & Hi & Hj)].
      * exists 0%nat, (S j). split; [lia | done].
      * exists (S i), (S j). split; [lia | done].
    + intros (i & j & Hij & Hi & Hj). destruct j as [|j]; [lia|].
      destruct i as [|i]; simpl in Hi, Hj.
      * injection Hi as ->. left. exists y. split; [done|].
        by apply list_elem_of_lookup_2 in Hj.
      * right. exists i, j. split; [lia | done].
Qed.

Lemma length_combinations2 l :
  Z.of_nat (length (combinations2 l))
  = functional.combinations (Z.of_nat (length l)).
Proof.
  induction l as [|a l IH]; [done|]. cbn [combinations2 length].
  rewrite length_app, length_fmap, Nat2Z.inj_add, IH.
  rewrite Nat2Z.inj_succ, <- Z.add_1_r. by rewrite combinations_succ.
Qed.

Lemma NoDup_combinations2 l : NoDup l → NoDup (combinations2 l).
Proof.
  induction 1 as [|a l Hnotin Hnd IH]; simpl; [constructor|].
  apply NoDup_app. split; [|split; [|done]].
  - apply NoDup_fmap_2; [|done]. by intros y1 y2 [= ->].
  - intros [x y] (z & [= -> ->] & _)%list_elem_of_fmap
           (i & j & _ & Hi & _)%elem_of_combinations2.
    apply Hnotin. by apply list_elem_of_lookup_2 in Hi.
Qed.

Lemma combinations2_fmap {B} (f : A → B) l :
  combinations2 (f <$> l) = prod_map f f <$> combinations2 l.
Proof.
  induction l as [|a l IH]; [done|]. cbn [combinations2 fmap list_fmap].
  rewrite fmap_app, <- !list_fmap_compose. f_equal. apply IH.
Qed.

End combinations_facts.

Lemma all_pairs_for_range_pairs k i j :
  (i, j) ∈ iter_utils.all_pairs_for_range k → (i < j < k)%nat.
Proof.
  unfold iter_utils.all_pairs_for_range. rewrite elem_of_combinations2.
  intros (a & b & Hab & [-> ?]%lookup_seq & [-> ?]%lookup_seq). lia.
Qed.

(** [all_pairs_for_range(k)] yields every pair [(i, j)] with
    [i < j < k] exactly once, and nothing else: [C(k, 2)] pairs, the
    smaller index first. *)
Theorem all_pairs_for_range_spec (k : nat) :
  NoDup (iter_utils.all_pairs_for_range k) ∧
  Z.of_nat (length (iter_utils.all_pairs_for_range k))
    = functional.combinations (Z.of_nat k) ∧
  ∀ i j, (i, j) ∈ iter_utils.all_pairs_for_range k ↔ (i < j < k)%nat.
Proof.
  unfold iter_utils.all_pairs_for_range. split; [|split].
  - apply NoDup_combinations2, NoDup_seq.
  - by rewrite length_combinations2, length_seq.
  - intros i j. rewrite elem_of_combinations2. split.
    + intros (a & b & Hab & [-> ?]%lookup_seq & [-> ?]%lookup_seq). lia.
    + intros [Hij Hj]. exists i, j. split; [done|].
      rewrite !lookup_seq. lia.
Qed.

(** X15.  [batched] with a batch size of at least 1 ends on every
    finite input; the batches it yields, put end to end, are the input;
    no batch is empty or longer than [batch_size], and every batch but
    the last has exactly [batch_size] items. *)
Theorem batched_spec {A} (iterable : list A) (batch_size fuel : nat) :
  (1 ≤ batch_size)%nat → (length iterable < fuel)%nat →
  ∃ bs, iter_utils.batched fuel iterable batch_size = Some bs ∧
        iter_utils.flatten bs = iterable ∧
        Forall (λ b, b ≠ [] ∧ (length b ≤ batch_size)%nat) bs ∧
        ∀ i b, bs !! i = Some b → (S i < length bs)%nat →
               length b = batch_size.
Proof.
  intros Hpos. unfold iter_utils.batched, iter_utils.flatten.
  revert iterable. induction fuel as [|fuel IH]; intros it Hfuel; [lia|].
  cbn [iter_utils.batched_loop].
  destruct (take batch_size it) as [|x batch] eqn:Htake.
  - exists []. split; [done|].
    assert (it = []) as ->.
    { destruct it; [done|]. destruct batch_size; [lia | done]. }
    split; [done|]. split; [constructor|]. intros i b Hb. done.
  - assert (it ≠ []) as Hne by (intros ->; by rewrite take_nil in Htake).
    assert (length (drop batch_size it) < fuel)%nat as Hdrop.
    { rewrite length_drop. destruct it; [done|]. simpl in *. lia. }
    destruct (IH (drop batch_size it) Hdrop) as (bs & -> & Hcat & Hall & Hfull).
    cbn [mbind option_bind]. eexists. split; [done|].
    split; [|split].
    + change (concat ((x :: batch) :: bs)) with ((x :: batch) ++ concat bs).
      rewrite Hcat, <- Htake. apply take_drop.
    + constructor; [|done]. split; [done|].
      rewrite <- Htake, length_take. lia.
    + intros [|i] b Hb Hi; simpl in Hb, Hi.
      * injection Hb as <-. rewrite <- Htake, length_take.
        destruct bs as [|b' bs]; [simpl in Hi; lia|].
        apply Forall_cons in Hall as [[Hb' _] _].
        assert (drop batch_size it ≠ []) as Hd.
        { rewrite <- Hcat. simpl. by destruct b'. }
        destruct (decide (batch_size ≤ length it)%nat); [lia|].
        rewrite drop_ge in Hd by lia. done.
      * apply (Hfull i b Hb). lia.
Qed.

Lemma batched_spec_witness :
  ∃ bs, iter_utils.batched 8 [1; 2; 3; 4; 5; 6; 7] 3 = Some bs ∧
        iter_utils.flatten bs = [1; 2; 3; 4; 5; 6; 7] ∧
        Forall (λ b, b ≠ [] ∧ (length b ≤ 3)%nat) bs ∧
        ∀ i b, bs !! i = Some b → (S i < length bs)%nat → length b = 3%nat.
Proof. apply (batched_spec [1; 2; 3; 4; 5; 6; 7] 3 8); simpl; lia. Defined.

Section unique_everseen_facts.
Import iter_utils.
Context {A K : Type} `{!EqDecision K} (key : A → K).

Lemma unique_everseen_loop_spec (iterable : list A) : ∀ seen,
  let r := unique_everseen_loop key seen iterable in
  r `sublist_of` iterable ∧
  NoDup (key <$> r) ∧
  (∀ x, x ∈ r → key x ∉ seen) ∧
  (∀ x, x ∈ iterable → key x ∈ seen ∨ key x ∈ key <$> r) ∧
  (∀ x, x ∈ r → ∃ i, iterable !! i = Some x ∧
      ∀ j y, (j < i)%nat → iterable !! j = Some y → key y ≠ key x).
Proof.
  induction iterable as [|e rest IH]; intros seen; simpl.
  - split; [done|]. split; [constructor|].
    split; [by intros x Hx%elem_of_nil|].
    split; by intros x Hx%elem_of_nil.
  - destruct (decide (key e ∈ seen)) as [Hin|Hnotin].
    + destruct (IH seen) as (Hsub & Hnd & Hfresh & Hcov & Hfirst).
      split; [by apply sublist_cons|]. split; [done|]. split; [done|].
      split.
      * intros x [->|Hx]%elem_of_cons; [by left | by apply Hcov].
      * intros x Hx. destruct (Hfirst x Hx) as (i & Hi & Hbefore).
        exists (S i). split; [done|].
        intros [|j] y Hj Hy; simpl in Hy.
        -- injection Hy as <-. intros Heq. apply (Hfresh x Hx).
           by rewrite <- Heq.
        -- apply (Hbefore j y); [lia | done].
    + destruct (IH (key e :: seen)) as (Hsub & Hnd & Hfresh & Hcov & Hfirst).
      split; [by apply sublist_skip|]. split; [|split; [|split]].
      * rewrite fmap_cons. constructor; [|done].
        intros (x & Heq & Hx)%list_elem_of_fmap.
        apply (Hfresh x Hx). rewrite Heq. by left.
      * intros x [->|Hx]%elem_of_cons; [done|].
        intros Hs. apply (Hfresh x Hx). by right.
      * intros x [->|Hx]%elem_of_cons.
        -- right. rewrite fmap_cons. by left.
        -- destruct (Hcov x Hx) as [[->|Hs]%elem_of_cons|Hr].
           ++ right. rewrite fmap_cons. by left.
           ++ by left.
           ++ right. rewrite fmap_cons. by right.
      * intros x [->|Hx]%elem_of_cons.
        -- exists 0%nat. split; [done|]. intros j y Hj. lia.
        -- destruct (Hfirst x Hx) as (i & Hi & Hbefore).
           exists (S i). split; [done|].
           intros [|j] y Hj Hy; simpl in Hy.
           ++ injection Hy as <-. intros Heq. apply (Hfresh x Hx).
              rewrite <- Heq. by left.
           ++ apply (Hbefore j y); [lia | done].
Qed.

End unique_everseen_facts.

(** X16.  [unique_everseen] keeps a subsequence of its input whose
    keys are pairwise different and are all the keys of the input; each
    element it keeps is the first of the input with its key. *)
Theorem unique_everseen_spec {A K} `{!EqDecision K} (key : A → K)
    (iterable : list A) :
  let r := iter_utils.unique_everseen key iterable in
  r `sublist_of` iterable ∧
  NoDup (key <$> r) ∧
  (∀ x, x ∈ iterable → key x ∈ key <$> r) ∧
  (∀ x, x ∈ r → ∃ i, iterable !! i = Some x ∧
      ∀ j y, (j < i)%nat → iterable !! j = Some y → key y ≠ key x).
Proof.
  destruct (unique_everseen_loop_spec key iterable [])
    as (Hsub & Hnd & _ & Hcov & Hfirst).
  split; [done|]. split; [done|]. split; [|done].
  intros x Hx. destruct (Hcov x Hx) as [Hs|Hr]; [|done].
  by apply elem_of_nil in Hs.
Qed.

Section sliding_window_facts.
Import iter_utils.
Context {A : Type}.
Implicit Types seq : list A.

Lemma length_islice seq start W :
  length (islice seq start (start + W)) = (W `min` (length seq - start))%nat.
Proof.
  unfold islice. rewrite length_take, length_drop.
  by replace (start + W - start)%nat with W by lia.
Qed.

Lemma lookup_islice seq start W p x :
  (start ≤ p < start + W)%nat → seq !! p = Some x →
  x ∈ islice seq start (start + W).
Proof.
  intros Hp Hx. unfold islice. apply list_elem_of_lookup.
  exists (p - start)%nat. rewrite lookup_take_lt by lia.
  rewrite lookup_drop. by replace (start + (p - start))%nat with p by lia.
Qed.

Lemma elem_of_islice seq start W x :
  x ∈ islice seq start (start + W) →
  ∃ p, (start ≤ p < start + W)%nat ∧ seq !! p = Some x.
Proof.
  unfold islice. intros [i Hi]%list_elem_of_lookup_1.
  assert (i < start + W - start)%nat as Hlt.
  { apply lookup_lt_Some in Hi. rewrite length_take in Hi. lia. }
  rewrite lookup_take_lt, lookup_drop in Hi by done.
  exists (start + i)%nat. split; [lia | done].
Qed.

Lemma sliding_window_loop_total seq W S :
  (1 ≤ W)%nat → (1 ≤ S)%nat →
  ∀ fuel start, (length seq - start < fuel)%nat →
  ∃ ws, sliding_window_loop fuel seq W S start (start + W) = Some ws ∧
        ∀ i w, ws !! i = Some w →
               w = islice seq (start + i * S) (start + i * S + W).
Proof.
  intros HW HS. induction fuel as [|fuel IH]; intros start Hfuel; [lia|].
  cbn [sliding_window_loop].
  destruct (decide (length (islice seq start (start + W)) < W)%nat) as [Hlt|Hge].
  - eexists. split; [done|]. intros [|i] w Hw; [|done].
    injection Hw as <-. by rewrite Nat.add_0_r.
  - rewrite length_islice in Hge.
    replace (start + W + S)%nat with ((start + S) + W)%nat by lia.
    destruct (IH (start + S)%nat) as (ws & -> & Hws); [lia|].
    cbn [mbind option_bind]. eexists. split; [done|].
    intros [|i] w Hw; simpl in Hw.
    + injection Hw as <-. by rewrite Nat.add_0_r.
    + rewrite (Hws i w Hw). f_equal; lia.
Qed.

Lemma sliding_window_loop_covers seq W S :
  (S ≤ W)%nat →
  ∀ fuel start ws,
    sliding_window_loop fuel seq W S start (start + W) = Some ws →
    ∀ p x, (start ≤ p)%nat → seq !! p = Some x → ∃ w, w ∈ ws ∧ x ∈ w.
Proof.
  intros HSW. induction fuel as [|fuel IH]; intros start ws; [done|].
  cbn [sliding_window_loop].
  destruct (decide (length (islice seq start (start + W)) < W)%nat) as [Hlt|Hge].
  - intros [= <-] p x Hp Hx. eexists. split; [by left|].
    rewrite length_islice in Hlt. apply lookup_lt_Some in Hx as Hlen.
    apply (lookup_islice seq start W p); [lia | done].
  - replace (start + W + S)%nat with ((start + S) + W)%nat by lia.
    destruct (sliding_window_loop fuel seq W S (start + S) (start + S + W))
      as [ws'|] eqn:Hrec; [|done].
    cbn [mbind option_bind]. intros [= <-] p x Hp Hx.
    destruct (decide (p < start + W)%nat) as [Hin|Hout].
    + eexists. split; [by left|]. by apply (lookup_islice seq start W p).
    + destruct (IH _ _ Hrec p x) as (w & Hw & Hxw); [lia | done |].
      exists w. split; [by right | done].
Qed.

Lemma sliding_window_loop_no_window seq S :
  ∀ fuel start end_, sliding_window_loop fuel seq 0 S start end_ = None.
Proof.
  induction fuel as [|fuel IH]; intros start end_; [done|].
  cbn [sliding_window_loop]. rewrite decide_False by lia. by rewrite IH.
Qed.

Lemma sliding_window_loop_no_step seq W :
  (W ≤ length seq)%nat →
  ∀ fuel, sliding_window_loop fuel seq W 0 0 W = None.
Proof.
  intros HW. induction fuel as [|fuel IH]; [done|].
  cbn [sliding_window_loop].
  pose proof (length_islice seq 0 W) as Hlen. simpl in Hlen. rewrite Hlen.
  rewrite decide_False by lia. rewrite !Nat.add_0_r. by rewrite IH.
Qed.

End sliding_window_facts.

(** X17.  [sliding_window] with a window size and a step of at least 1
    ends on every finite sequence; window number [i] is
    [seq[i*step_size : i*step_size + window_size]], the last window is
    shorter than [window_size] and all the windows before it are
    full. *)
Theorem sliding_window_windows {A} (seq : list A)
    (window_size step_size fuel : nat) :
  (1 ≤ window_size)%nat → (1 ≤ step_size)%nat → (length seq < fuel)%nat →
  ∃ front last_,
    iter_utils.sliding_window fuel seq window_size step_size
    = Some (front ++ [last_]) ∧
    (∀ i w, (front ++ [last_]) !! i = Some w →
       w = iter_utils.islice seq (i * step_size) (i * step_size + window_size)) ∧
    (length last_ < window_size)%nat ∧
    Forall (λ w, length w = window_size) front.
Proof.
  intros HW HS Hfuel.
  destruct (sliding_window_loop_total seq window_size step_size HW HS fuel 0)
    as (ws & Hrun & Hws); [lia|].
  destruct (sliding_window_last_short fuel seq window_size step_size ws Hrun)
    as (front & w & -> & Hshort & Hfull).
  exists front, w. split; [done|]. split; [|done].
  intros i v Hv. by rewrite (Hws i v Hv).
Qed.

Lemma sliding_window_windows_witness :
  ∃ front last_,
    iter_utils.sliding_window 7 [0; 1; 2; 3; 4; 5] 4 1
    = Some (front ++ [last_]) ∧
    (∀ i w, (front ++ [last_]) !! i = Some w →
       w = iter_utils.islice [0; 1; 2; 3; 4; 5] (i * 1) (i * 1 + 4)) ∧
    (length last_ < 4)%nat ∧
    Forall (λ w, length w = 4%nat) front.
Proof.
  apply (sliding_window_windows [0; 1; 2; 3; 4; 5] 4 1 7); simpl; lia.
Defined.

(** X18.  [sliding_window] never reaches its [break] when
    [window_size] is 0, nor when [step_size] is 0 on a sequence of at
    least [window_size] items: the generator yields windows for ever. *)
Theorem sliding_window_never_ends {A} (seq : list A)
    (window_size step_size : nat) :
  window_size = 0%nat ∨
  (step_size = 0%nat ∧ (window_size ≤ length seq)%nat) →
  ∀ fuel, iter_utils.sliding_window fuel seq window_size step_size = None.
Proof.
  intros [->|[-> HW]] fuel; unfold iter_utils.sliding_window.
  - apply sliding_window_loop_no_window.
  - by apply sliding_window_loop_no_step.
Qed.

Lemma sliding_window_never_ends_witness :
  iter_utils.sliding_window 100 [1; 2; 3] 2 0 = None.
Proof.
  apply (sliding_window_never_ends [1; 2; 3] 2 0). right. simpl. lia.
Defined.

(** X19.  When the step is at least 1 and not larger than the window
    ([1 ≤ step_size ≤ window_size]), [sliding_window] ends on every
    finite sequence and every item of the sequence is in one of the
    windows that it yields. *)
Theorem sliding_window_covers {A} (seq : list A)
    (window_size step_size fuel : nat) :
  (1 ≤ step_size)%nat → (step_size ≤ window_size)%nat →
  (length seq < fuel)%nat →
  ∃ ws, iter_utils.sliding_window fuel seq window_size step_size = Some ws ∧
        Forall (λ x, Exists (λ w, x ∈ w) ws) seq.
Proof.
  intros HS HSW Hfuel.
  assert (1 ≤ window_size)%nat as HW by lia.
  destruct (sliding_window_loop_total seq window_size step_size HW HS fuel 0)
    as (ws & Hrun & _); [lia|].
  exists ws. split; [exact Hrun|].
  apply Forall_forall. intros x [p Hp]%list_elem_of_lookup_1.
  apply Exists_exists.
  apply (sliding_window_loop_covers seq window_size step_size HSW fuel 0 ws
           Hrun p x); [lia | done].
Qed.

Lemma sliding_window_covers_witness :
  ∃ ws, iter_utils.sliding_window 7 [0; 1; 2; 3; 4; 5] 4 2 = Some ws ∧
        Forall (λ x, Exists (λ w, x ∈ w) ws) [0; 1; 2; 3; 4; 5].
Proof.
  apply (sliding_window_covers [0; 1; 2; 3; 4; 5] 4 2 7); simpl; lia.
Defined.

(* ===================================================================== *)
(** *** sorted_neighbourhood_splitter.py: the sub-blocks of a large block *)
(* ===================================================================== *)
Section splitter_more.
Import iter_utils sorted_neighbourhood_splitter.
Context {R B K : Type} (key_lt : K → K → Prop) `{!RelDecision key_lt}.
Variable key : R → K.

Lemma insert_sorted_perm x l : insert_sorted key_lt key x l ≡ₚ x :: l.
Proof.
  induction l as [|y l IH]; simpl; [done|].
  destruct (decide (key_lt (key x) (key y))); [done|].
  rewrite IH. apply Permutation_swap.
Qed.

Lemma sorted_perm block : sorted key_lt key block ≡ₚ block.
Proof.
  unfold sorted.
  assert (∀ acc, foldl (λ acc x, insert_sorted key_lt key x acc) acc block
                 ≡ₚ block ++ acc) as H.
  { induction block as [|x block IH]; intros acc; simpl; [done|].
    rewrite IH, insert_sorted_perm. by rewrite Permutation_middle. }
  by rewrite H, app_nil_r.
Qed.

Lemma splitter_large_block (self : SortedNeighbourhoodBlockSplitter)
    fuel (block_id : B) block :
  (max_block_size self < length block)%nat →
  (1 ≤ window_size self)%nat → (1 ≤ step_size self)%nat →
  (length block < fuel)%nat →
  ∃ ws, __call__ key_lt key self fuel block_id block
        = Some ((λ window, (block_id, window)) <$> ws) ∧
        sliding_window fuel (sorted key_lt key block)
          (window_size self) (step_size self) = Some ws ∧
        ∀ i w, ws !! i = Some w →
          w = islice (sorted key_lt key block) (i * step_size self)
                (i * step_size self + window_size self).
Proof.
  intros Hbig HW HS Hfuel. unfold __call__. rewrite decide_False by lia.
  destruct (sliding_window_loop_total (sorted key_lt key block)
              (window_size self) (step_size self) HW HS fuel 0)
    as (ws & Hrun & Hws).
  { rewrite (Permutation_length (sorted_perm block)). lia. }
  change (0 + window_size self)%nat with (window_size self) in Hrun.
  exists ws. unfold sliding_window. rewrite Hrun. split; [done|].
  split; [done|]. intros i w Hw. by rewrite (Hws i w Hw).
Qed.

End splitter_more.

(** X20.  On a block larger than [max_block_size] (window and step at
    least 1) the splitter yields sub-blocks under the id of the block,
    each of at most [window_size] records, all of them records of the
    block; when [step_size ≤ window_size] every record of the block is
    in one of the sub-blocks. *)
Theorem splitter_sub_blocks {R B K} (key_lt : K → K → Prop)
    `{!RelDecision key_lt} (key : R → K)
    (self : sorted_neighbourhood_splitter.SortedNeighbourhoodBlockSplitter)
    (fuel : nat) (block_id : B) (block : list R) :
  (sorted_neighbourhood_splitter.max_block_size self < length block)%nat →
  (1 ≤ sorted_neighbourhood_splitter.window_size self)%nat →
  (1 ≤ sorted_neighbourhood_splitter.step_size self)%nat →
  (length block < fuel)%nat →
  ∃ subs, sorted_neighbourhood_splitter.__call__ key_lt key self fuel
            block_id block = Some subs ∧
    Forall (λ sub, sub.1 = block_id ∧
              (length sub.2 ≤ sorted_neighbourhood_splitter.window_size self)%nat ∧
              sub.2 ⊆ block) subs ∧
    ((sorted_neighbourhood_splitter.step_size self
      ≤ sorted_neighbourhood_splitter.window_size self)%nat →
     Forall (λ r, Exists (λ sub, r ∈ sub.2) subs) block).
Proof.
  intros Hbig HW HS Hfuel.
  destruct (splitter_large_block key_lt key self fuel block_id block
              Hbig HW HS Hfuel) as (ws & Hcall & Hrun & Hws).
  eexists. split; [done|]. split.
  - apply Forall_fmap, Forall_forall. intros w [i Hi]%list_elem_of_lookup_1.
    simpl. split; [done|]. rewrite (Hws i w Hi). split.
    + rewrite length_islice. lia.
    + intros r (p & _ & Hp)%elem_of_islice.
      rewrite <- (sorted_perm key_lt key block).
      by apply list_elem_of_lookup_2 in Hp.
  - intros HSW. apply Forall_forall. intros r Hr.
    rewrite <- (sorted_perm key_lt key block) in Hr.
    apply list_elem_of_lookup_1 in Hr as [p Hp].
    destruct (sliding_window_loop_covers _ _ _ HSW fuel 0%nat ws Hrun p r)
      as (w & Hw & Hrw); [lia | done |].
    apply Exists_fmap, Exists_exists. by exists w.
Qed.

Lemma splitter_sub_blocks_witness :
  ∃ subs, sorted_neighbourhood_splitter.__call__ lt id
            {| sorted_neighbourhood_splitter.max_block_size := 3;
               sorted_neighbourhood_splitter.window_size := 3;
               sorted_neighbourhood_splitter.step_size := 2 |}
            6 7%Z [4; 2; 5; 1; 3]%nat = Some subs ∧
    Forall (λ sub, sub.1 = 7%Z ∧ (length sub.2 ≤ 3)%nat ∧
                   sub.2 ⊆ [4; 2; 5; 1; 3]%nat) subs ∧
    ((2 ≤ 3)%nat →
     Forall (λ r, Exists (λ sub, r ∈ sub.2) subs) [4; 2; 5; 1; 3]%nat).
Proof.
  apply (splitter_sub_blocks lt id
           {| sorted_neighbourhood_splitter.max_block_size := 3;
              sorted_neighbourhood_splitter.window_size := 3;
              sorted_neighbourhood_splitter.step_size := 2 |}
           6 7%Z [4; 2; 5; 1; 3]%nat); simpl; lia.
Defined.

(** X21.  When the step is larger than the window (as with the
    defaults, [window_size = 3] and [step_size = 15]) the splitter
    loses records: a block of distinct records that is larger than
    [max_block_size] and than [window_size] has a record that is in
    none of the sub-blocks. *)
Theorem splitter_loses_records {R B K} (key_lt : K → K → Prop)
    `{!RelDecision key_lt} (key : R → K)
    (self : sorted_neighbourhood_splitter.SortedNeighbourhoodBlockSplitter)
    (fuel : nat) (block_id : B) (block : list R) :
  (sorted_neighbourhood_splitter.max_block_size self < length block)%nat →
  (1 ≤ sorted_neighbourhood_splitter.window_size self)%nat →
  (sorted_neighbourhood_splitter.window_size self
   < sorted_neighbourhood_splitter.step_size self)%nat →
  (sorted_neighbourhood_splitter.window_size self < length block)%nat →
  NoDup block →
  (length block < fuel)%nat →
  ∃ subs r, sorted_neighbourhood_splitter.__call__ key_lt key self fuel
              block_id block = Some subs ∧
    r ∈ block ∧ Forall (λ sub, r ∉ sub.2) subs.
Proof.
  intros Hbig HW HWS Hlen Hnd Hfuel.
  destruct (splitter_large_block key_lt key self fuel block_id block
              Hbig HW ltac:(lia) Hfuel) as (ws & Hcall & Hrun & Hws).
  set (sb := sorted_neighbourhood_splitter.sorted key_lt key block) in *.
  assert (sb ≡ₚ block) as Hperm by apply sorted_perm.
  destruct (lookup_lt_is_Some_2 sb
              (sorted_neighbourhood_splitter.window_size self)) as [r Hr].
  { rewrite (Permutation_length Hperm). lia. }
  eexists _, r. split; [done|]. split.
  - rewrite <- Hperm. by apply list_elem_of_lookup_2 in Hr.
  - apply Forall_fmap, Forall_forall. intros w [i Hi]%list_elem_of_lookup_1.
    simpl. rewrite (Hws i w Hi). intros (p & Hp & Hpr)%elem_of_islice.
    assert (NoDup sb) as Hnd' by by rewrite Hperm.
    pose proof (NoDup_lookup sb _ _ r Hnd' Hpr Hr) as ->.
    destruct i as [|i]; simpl in Hp; [lia | nia].
Qed.

Lemma splitter_loses_records_witness :
  ∃ subs r, sorted_neighbourhood_splitter.__call__ lt id
              {| sorted_neighbourhood_splitter.max_block_size := 20;
                 sorted_neighbourhood_splitter.window_size := 3;
                 sorted_neighbourhood_splitter.step_size := 15 |}
              22 0%Z (seq 0 21) = Some subs ∧
    r ∈ seq 0 21 ∧ Forall (λ sub, r ∉ sub.2) subs.
Proof.
  apply (splitter_loses_records lt id
           {| sorted_neighbourhood_splitter.max_block_size := 20;
              sorted_neighbourhood_splitter.window_size := 3;
              sorted_neighbourhood_splitter.step_size := 15 |}
           22 0%Z (seq 0 21)); [simpl; lia.. | apply NoDup_seq | simpl; lia].
Defined.

(* ===================================================================== *)
(** *** blocking_rule_base.py: the groups of a column *)
(* ===================================================================== *)
Section make_groups_facts.
Import blocking_rules pandas.
Context {V : Type} `{!EqDecision V}.








End make_groups_facts.



(* ===================================================================== *)
(** *** The conjunction of rules *)
(* ===================================================================== *)
Section unique_inverse_facts.
Import numpy.

Lemma elem_of_run_lengths {A} `{!EqDecision A} (l : list A) x :
  x ∈ (run_lengths l).*1 ↔ x ∈ l.
Proof.
  induction l as [|a l IH]; [done|].
  pose proof (run_lengths_nil_inv l) as Hnil.
  cbn [run_lengths]. destruct (run_lengths l) as [|[y n] r] eqn:HR.
  - rewrite (Hnil eq_refl). done.
  - cbn [fmap list_fmap fst] in IH.
    destruct (decide (a = y)) as [->|Hne]; cbn [fmap list_fmap fst].
    + rewrite (elem_of_cons l), <- IH, !elem_of_cons. tauto.
    + rewrite (elem_of_cons l), <- IH, !elem_of_cons. tauto.
Qed.

(** The codes of [np.unique(..., return_inverse=True)] are equal exactly
    where the rows are. *)
Lemma same_label_unique_inverse (rows : list (list Z)) x y :
  same_label (unique_inverse rows) x y ↔
  ∃ row, rows !! x = Some row ∧ rows !! y = Some row.
Proof.
  unfold same_label, unique_inverse.
  assert (∀ row, row ∈ rows → row ∈ (unique_counts row_le rows).*1) as Hin.
  { intros row Hrow. unfold unique_counts. apply elem_of_run_lengths.
    by rewrite merge_sort_Permutation. }
  split.
  - intros (c & Hx & Hy). rewrite list_lookup_fmap in Hx, Hy.
    destruct (rows !! x) as [rx|] eqn:Hrx; [|done].
    destruct (rows !! y) as [ry|] eqn:Hry; [|done].
    simpl in Hx, Hy. exists rx. split; [done|]. f_equal. symmetry.
    apply (index_of_inj rx ry (unique_counts row_le rows).*1).
    + apply Hin. by apply list_elem_of_lookup_2 in Hrx.
    + simplify_eq. lia.
  - intros (row & Hx & Hy). eexists. rewrite !list_lookup_fmap, Hx, Hy. done.
Qed.

Lemma lookup_transpose (columns : list (list Z)) c i :
  head columns = Some c → (i < length c)%nat →
  transpose columns !! i
  = Some ((λ col : list Z, default 0 (col !! i)) <$> columns).
Proof.
  intros Hhead Hi. destruct columns as [|c' columns]; [done|].
  injection Hhead as ->. unfold transpose.
  by rewrite list_lookup_fmap, lookup_seq_lt.
Qed.

Lemma length_transpose (columns : list (list Z)) c :
  head columns = Some c → length (transpose columns) = length c.
Proof.
  intros Hhead. destruct columns as [|c' columns]; [done|].
  injection Hhead as ->. unfold transpose. by rewrite length_fmap, length_seq.
Qed.

Lemma equal_rows_same_label (columns : list (list Z)) N x y :
  (x < N)%nat → (y < N)%nat → Forall (λ col, length col = N) columns →
  (λ col : list Z, default 0 (col !! x)) <$> columns
  = (λ col : list Z, default 0 (col !! y)) <$> columns →
  Forall (λ col, same_label col x y) columns.
Proof.
  intros HxN HyN Hlen. induction Hlen as [|col cols Hcol Hlen IH]; intros Hx;
    [constructor|].
  rewrite !fmap_cons in Hx. injection Hx as Hhd Htl.
  constructor; [|by apply IH].
  destruct (lookup_lt_is_Some_2 col x) as [vx Hvx]; [lia|].
  destruct (lookup_lt_is_Some_2 col y) as [vy Hvy]; [lia|].
  rewrite Hvx, Hvy in Hhd. simpl in Hhd. exists vx. split; congruence.
Qed.

(** The rows of the transposed array are equal exactly where all the
    columns are. *)
Lemma same_label_groups (columns : list (list Z)) N x y :
  columns ≠ [] → Forall (λ col, length col = N) columns →
  same_label (unique_inverse (transpose columns)) x y ↔
  Forall (λ col, same_label col x y) columns.
Proof.
  intros Hne Hlen. rewrite same_label_unique_inverse.
  destruct columns as [|c columns]; [done|].
  assert (length c = N) as Hc by by apply Forall_cons in Hlen as [? _].
  assert (∀ i, (i < N)%nat → transpose (c :: columns) !! i
            = Some ((λ col : list Z, default 0 (col !! i)) <$> c :: columns))
    as Hrow by (intros i Hi; apply (lookup_transpose _ c); [done | lia]).
  assert (∀ i row, transpose (c :: columns) !! i = Some row → (i < N)%nat)
    as Hdom.
  { intros i row Hi%lookup_lt_Some.
    rewrite (length_transpose _ c) in Hi by done. lia. }
  split.
  - intros (row & Hx & Hy). pose proof (Hdom x row Hx) as HxN.
    pose proof (Hdom y row Hy) as HyN.
    rewrite Hrow in Hx, Hy by done. injection Hx as Hx. injection Hy as Hy.
    rewrite <- Hy in Hx. by apply (equal_rows_same_label _ N).
  - intros Hall.
    assert ((x < N)%nat ∧ (y < N)%nat) as [HxN HyN].
    { apply Forall_cons in Hall as [(v & Hx & Hy) _].
      apply lookup_lt_Some in Hx. apply lookup_lt_Some in Hy. lia. }
    eexists. rewrite !Hrow by done. split; [done|]. f_equal.
    apply list_fmap_ext. intros i col Hcol%list_elem_of_lookup_2.
    rewrite Forall_forall in Hall. destruct (Hall col Hcol) as (v & -> & ->).
    done.
Qed.

End unique_inverse_facts.

Section conjunction_facts.
Import blocking_rules igraph.
Context {V : Type} `{!EqDecision V}.
Implicit Types (r : rule (V := V)) (df : list (gmap string V)).

Lemma length_make_groups df encoder r L :
  well_formed r →
  make_groups (λ r', fit r' df) df encoder r = Some L → length L = length df.
Proof.
  intros Hwf Hr. unfold make_groups in Hr. destruct r as [name| |].
  - by eapply length_make_groups_str.
  - destruct encoder; [done|].
    destruct (fit _ df) as [st|] eqn:Hst; [|done].
    destruct (fit_denotes df _ Hwf st Hst) as (L' & g' & HL' & _ & _ & Hlen & _).
    simpl in Hr. congruence.
  - destruct encoder; [done|].
    destruct (fit _ df) as [st|] eqn:Hst; [|done].
    destruct (fit_denotes df _ Hwf st Hst) as (L' & g' & HL' & _ & _ & Hlen & _).
    simpl in Hr. congruence.
Qed.

Lemma has_edge_intersection gs g a b :
  g ∈ gs → has_edge (intersection_of gs) a b → has_edge g a b.
Proof.
  destruct gs as [|g0 rest]; [by intros ?%elem_of_nil|].
  unfold has_edge at 1, intersection_of. cbn [edges].
  rewrite !list_elem_of_filter, !elem_of_remove_dups. cbn [fst snd].
  intros Hg [[Hall Hin]|[Hall Hin]]; apply elem_of_cons in Hg as [->|Hg].
  - by left.
  - rewrite Forall_forall in Hall. by apply Hall.
  - by right.
  - rewrite Forall_forall in Hall. destruct (Hall g Hg); [by right | by left].
Qed.

(** The graphs of the rules of a graph-level object, with the label
    vectors of the rules. *)
Lemma get_graphs_denote df rules graphs :
  Forall well_formed rules →
  mapM (get_graph (λ r', fit r' df)) rules = Some graphs →
  ∃ Ls, mapM (λ r, labels_of r df) rules = Some Ls ∧
        Forall2 (denotes (length df)) graphs Ls.
Proof.
  intros Hwf HM%mapM_Some_1.
  assert (∃ Ls, Forall2 (λ r L, labels_of r df = Some L) rules Ls ∧
                Forall2 (denotes (length df)) graphs Ls) as (Ls & HLs & Hd).
  { induction HM as [|r g rules graphs Hr _ IH].
    - exists []. by split.
    - apply Forall_cons in Hwf as [Hwfr Hwf].
      destruct (IH Hwf) as (Ls & HLs & Hd).
      destruct (or_graph_of_denotes df graph_level r g Hwfr Hr)
        as (L & HL & HdL).
      exists (L :: Ls). split; by constructor. }
  exists Ls. split; [by apply mapM_Some_2 | done].
Qed.

Lemma fit_and_graph_unfold df rules :
  rules ≠ [] →
  fit (ExactGroupBy graph_level None rules) df
  = graphs ← mapM (get_graph (λ r', fit r' df)) rules;
    Some {| _graph := Some (intersection_of graphs); _groups := None;
            _update_graph := false; _update_groups := true |}.
Proof.
  intros Hne. cbn [fit].
  destruct (mapM _ rules) as [graphs|] eqn:HM; [|done].
  cbn [mbind option_bind].
  by rewrite (intersection_nonempty graphs (mapM_nonempty _ _ _ Hne HM)).
Qed.

End conjunction_facts.

(** X23.  The conjunction at [level="groups"] ([BlockingRuleBase],
    [ExactGroupBy] and [GroupByLogicalAND]): it fails exactly when
    [make_groups] fails on one of its rules, and otherwise two records
    get the same label exactly when every rule gives them the same
    group. *)
Theorem conjunction_groups_meet {V} `{!EqDecision V}
    (rules : list (blocking_rules.rule (V := V)))
    (encoder : option (option V → option V)) (df : list (gmap string V)) :
  rules ≠ [] → Forall blocking_rules.well_formed rules →
  match blocking_rules.labels_of
          (blocking_rules.ExactGroupBy blocking_rules.groups_level encoder
             rules) df,
        mapM (blocking_rules.make_groups (λ r', blocking_rules.fit r' df) df
                encoder) rules
  with
  | Some L, Some Ls =>
      length L = length df ∧
      ∀ x y, same_label L x y ↔ Forall (λ Li, same_label Li x y) Ls
  | None, None => True
  | _, _ => False
  end.
Proof.
  intros Hne Hwf. unfold blocking_rules.labels_of.
  cbn [blocking_rules.fit]. unfold blocking_rules.groups_from_rules.
  destruct (mapM _ rules) as [labels|] eqn:HM; [|done].
  cbn [mbind option_bind blocking_rules.groups blocking_rules._update_groups
       blocking_rules._groups].
  apply mapM_Some_1 in HM.
  assert (Forall (λ col, length col = length df) labels) as Hlen.
  { clear Hne. induction HM as [|r L rs Ls Hr _ IH]; [constructor|].
    apply Forall_cons in Hwf as [Hwfr Hwf].
    constructor; [by eapply length_make_groups | by apply IH]. }
  assert (labels ≠ []) as Hne' by (destruct HM; done).
  split.
  - destruct labels as [|L0 labels]; [done|].
    rewrite length_unique_inverse_transpose.
    by apply Forall_cons in Hlen as [? _].
  - intros x y. by apply same_label_groups with (N := length df).
Qed.

Lemma conjunction_groups_meet_witness :
  match blocking_rules.labels_of
          (blocking_rules.ExactGroupBy blocking_rules.groups_level None
             [blocking_rules.Column "first"; blocking_rules.Column "last"])
          [ {[ "first" := "a"; "last" := "x" ]};
            {[ "first" := "b"; "last" := "x" ]};
            {[ "first" := "a"; "last" := "x" ]} ]%string,
        mapM (blocking_rules.make_groups
                (λ r', blocking_rules.fit r'
                   [ {[ "first" := "a"; "last" := "x" ]};
                     {[ "first" := "b"; "last" := "x" ]};
                     {[ "first" := "a"; "last" := "x" ]} ]%string)
                [ {[ "first" := "a"; "last" := "x" ]};
                  {[ "first" := "b"; "last" := "x" ]};
                  {[ "first" := "a"; "last" := "x" ]} ]%string
                None)
             [blocking_rules.Column "first"; blocking_rules.Column "last"]
  with
  | Some L, Some Ls =>
      length L
      = length [ {[ "first" := "a"; "last" := "x" ]};
                 {[ "first" := "b"; "last" := "x" ]};
                 ({[ "first" := "a"; "last" := "x" ]} : gmap string string)
               ]%string ∧
      ∀ x y, same_label L x y ↔ Forall (λ Li, same_label Li x y) Ls
  | None, None => True
  | _, _ => False
  end.
Proof.
  apply (conjunction_groups_meet
           [blocking_rules.Column "first"; blocking_rules.Column "last"]
           None
           [ {[ "first" := "a"; "last" := "x" ]};
             {[ "first" := "b"; "last" := "x" ]};
             {[ "first" := "a"; "last" := "x" ]} ]%string).
  - done.
  - repeat constructor.
Defined.

(** X24.  The conjunction at [level="graph"] (intersection of the
    graphs of the rules, then connected components): it fails exactly
    when one of its rules fails to fit, and otherwise it never puts
    together two records that one of its rules separates. *)
Theorem conjunction_graph_refines {V} `{!EqDecision V}
    (rules : list (blocking_rules.rule (V := V)))
    (df : list (gmap string V)) :
  rules ≠ [] → Forall blocking_rules.well_formed rules →
  match blocking_rules.labels_of
          (blocking_rules.ExactGroupBy blocking_rules.graph_level None rules)
          df,
        mapM (λ r, blocking_rules.labels_of r df) rules
  with
  | Some L, Some Ls =>
      length L = length df ∧
      ∀ x y, same_label L x y → Forall (λ Li, same_label Li x y) Ls
  | None, None => True
  | _, _ => False
  end.
Proof.
  intros Hne Hwf. unfold blocking_rules.labels_of at 1.
  rewrite fit_and_graph_unfold by done.
  destruct (mapM (blocking_rules.get_graph _) rules) as [graphs|] eqn:HM.
  - destruct (get_graphs_denote df rules graphs Hwf HM) as (Ls & -> & Hd).
    cbn [mbind option_bind blocking_rules.groups blocking_rules._update_groups
         blocking_rules._graph fmap option_fmap option_map].
    assert (graphs ≠ []) as Hne'.
    { apply mapM_Some_1 in HM. destruct HM; done. }
    destruct (intersection_in_range (length df) graphs Hne') as [Hv Hr].
    { eapply Forall2_Forall_l; [exact Hd|]. apply Forall_true.
      intros g L (? & _ & ? & _). done. }
    destruct (membership_denotes (length df) _ Hv Hr) as (_ & Hlen & _ & Hconn).
    split; [done|]. intros x y Hxy%Hconn.
    destruct Hxy as (Hx & Hy & Hpath).
    apply Forall_forall. intros Li HLi.
    apply list_elem_of_lookup_1 in HLi as [i Hi].
    destruct (Forall2_lookup_r _ _ _ _ _ Hd Hi) as (g & Hg & Hden).
    destruct Hden as (Hvg & _ & _ & Hsame). apply Hsame.
    rewrite Hv in Hx, Hy. unfold connected. rewrite Hvg.
    split; [done|]. split; [done|].
    apply (rtsc_mono (igraph.has_edge (igraph.intersection_of graphs))); [|done].
    intros a b. apply has_edge_intersection.
    by apply list_elem_of_lookup_2 in Hg.
  - cbn [mbind option_bind].
    destruct (mapM (λ r, blocking_rules.labels_of r df) rules) as [Ls|] eqn:HL;
      [|done].
    assert (is_Some (mapM (blocking_rules.get_graph
                             (λ r', blocking_rules.fit r' df)) rules)) as [? ?];
      [|congruence].
    apply mapM_is_Some. apply mapM_Some_1 in HL. clear HM Hne.
    induction HL as [|r L rs Ls Hr _ IH]; [constructor|].
    apply Forall_cons in Hwf as [Hwfr Hwf].
    constructor; [|by apply IH]. unfold compose.
    apply (or_graph_of_is_Some df blocking_rules.graph_level r Hwfr).
    unfold blocking_rules.labels_of in Hr.
    destruct (blocking_rules.fit r df); [by eexists | done].
Qed.

Lemma conjunction_graph_refines_witness :
  match blocking_rules.labels_of
          (blocking_rules.ExactGroupBy blocking_rules.graph_level None
             [blocking_rules.ExactGroupBy blocking_rules.groups_level None
                [blocking_rules.Column "first"];
              blocking_rules.ExactGroupBy blocking_rules.groups_level None
                [blocking_rules.Column "last"]])
          [ {[ "first" := "a"; "last" := "x" ]};
            {[ "first" := "b"; "last" := "x" ]};
            {[ "first" := "a"; "last" := "x" ]} ]%string,
        mapM (λ r, blocking_rules.labels_of r
                [ {[ "first" := "a"; "last" := "x" ]};
                  {[ "first" := "b"; "last" := "x" ]};
                  {[ "first" := "a"; "last" := "x" ]} ]%string)
             [blocking_rules.ExactGroupBy blocking_rules.groups_level None
                [blocking_rules.Column "first"];
              blocking_rules.ExactGroupBy blocking_rules.groups_level None
                [blocking_rules.Column "last"]]
  with
  | Some L, Some Ls =>
      length L
      = length [ {[ "first" := "a"; "last" := "x" ]};
                 {[ "first" := "b"; "last" := "x" ]};
                 ({[ "first" := "a"; "last" := "x" ]} : gmap string string)
               ]%string ∧
      ∀ x y, same_label L x y → Forall (λ Li, same_label Li x y) Ls
  | None, None => True
  | _, _ => False
  end.
Proof.
  apply (conjunction_graph_refines
           [blocking_rules.ExactGroupBy blocking_rules.groups_level None
              [blocking_rules.Column "first"];
            blocking_rules.ExactGroupBy blocking_rules.groups_level None
              [blocking_rules.Column "last"]]
           [ {[ "first" := "a"; "last" := "x" ]};
             {[ "first" := "b"; "last" := "x" ]};
             {[ "first" := "a"; "last" := "x" ]} ]%string).
  - done.
  - repeat constructor; done.
Defined.

(** X25.  A bare column name is only accepted by the conjunction at
    [level="groups"]: a disjunction ([GroupByLogicalOR], at either
    level) or a conjunction at [level="graph"] that has a column name
    among its rules fails to fit (it asks the string for its graph). *)
Theorem column_name_needs_groups_level {V} `{!EqDecision V}
    (rules : list (blocking_rules.rule (V := V))) (name : string)
    (lvl : blocking_rules.level) (encoder : option (option V → option V))
    (df : list (gmap string V)) :
  blocking_rules.Column name ∈ rules →
  blocking_rules.fit (blocking_rules.GroupByLogicalOR lvl rules) df = None ∧
  blocking_rules.fit
    (blocking_rules.ExactGroupBy blocking_rules.graph_level encoder rules) df
  = None.
Proof.
  intros Hin.
  assert (∀ f : blocking_rules.rule (V := V) → option igraph.Graph,
            f (blocking_rules.Column name) = None → mapM f rules = None)
    as Hfail.
  { intros f Hf. destruct (mapM f rules) as [gs|] eqn:HM; [|done].
    apply mapM_Some_1 in HM.
    apply list_elem_of_lookup_1 in Hin as [i Hi].
    destruct (Forall2_lookup_l _ _ _ _ _ HM Hi) as (g & _ & Hg). congruence. }
  split.
  - rewrite fit_or_unfold, Hfail; [done | by destruct lvl |].
    intros ->. by apply elem_of_nil in Hin.
  - cbn [blocking_rules.fit]. rewrite Hfail; [done|]. by destruct encoder.
Qed.

Lemma column_name_needs_groups_level_witness :
  blocking_rules.fit
    (blocking_rules.GroupByLogicalOR blocking_rules.groups_level
       [blocking_rules.Column "first"; blocking_rules.Column "last"])
    [ {[ "first" := "a"; "last" := "x" ]};
      ({[ "first" := "b"; "last" := "x" ]} : gmap string string) ]%string
  = None ∧
  blocking_rules.fit
    (blocking_rules.ExactGroupBy blocking_rules.graph_level None
       [blocking_rules.Column "first"; blocking_rules.Column "last"])
    [ {[ "first" := "a"; "last" := "x" ]};
      ({[ "first" := "b"; "last" := "x" ]} : gmap string string) ]%string
  = None.
Proof.
  apply (column_name_needs_groups_level
           [blocking_rules.Column "first"; blocking_rules.Column "last"]
           "first" blocking_rules.groups_level None).
  by left.
Defined.

(* ===================================================================== *)
(** *** deduplicator.py: the candidate pairs of a block *)
(* ===================================================================== *)
Section candidate_facts.
Import deduplicator.
Context {V : Type}.

Lemma iter_over_candidates_fmap (records : list (gmap string V)) links :
  Forall (λ lp, (lp.1 < length records)%nat ∧ (lp.2 < length records)%nat)
         links →
  ∃ out, iter_over_candidates records links = Some out ∧
         Forall2 (λ lp ab, records !! lp.1 = Some ab.1 ∧
                           records !! lp.2 = Some ab.2) links out.
Proof.
  induction 1 as [|[i j] links [Hi Hj] _ (out & Hout & Hall)].
  - by exists [].
  - destruct (lookup_lt_is_Some_2 records i Hi) as [a Ha].
    destruct (lookup_lt_is_Some_2 records j Hj) as [b Hb].
    exists ((a, b) :: out). unfold iter_over_candidates in *.
    cbn [mapM]. simpl in Ha, Hb. rewrite Ha, Hb. cbn [mbind option_bind].
    rewrite Hout. split; [done|]. by constructor.
Qed.

End candidate_facts.

(** X26.  The candidate pairs of a block: [iter_over_candidates] on the
    index pairs [combinations(range(n), 2)] of the [n] records of a
    block never fails, and yields the pairs of records
    [combinations(records, 2)], each unordered pair of positions
    once. *)
Theorem iter_over_candidates_all_pairs {V}
    (records : list (gmap string V)) :
  deduplicator.iter_over_candidates records
    (iter_utils.combinations2 (seq 0 (length records)))
  = Some (iter_utils.combinations2 records) ∧
  Z.of_nat (length (iter_utils.combinations2 records))
  = functional.combinations (Z.of_nat (length records)).
Proof.
  split; [|apply length_combinations2].
  change (iter_utils.combinations2 (seq 0 (length records)))
    with (iter_utils.all_pairs_for_range (length records)).
  destruct (iter_over_candidates_fmap records
              (iter_utils.all_pairs_for_range (length records)))
    as (out & Hout & Hall).
  { apply Forall_forall. intros [i j] Hij.
    apply all_pairs_for_range_pairs in Hij. simpl. lia. }
  rewrite Hout. f_equal.
  apply list_eq. intros k.
  unfold iter_utils.all_pairs_for_range in Hall.
  assert (iter_utils.combinations2 records
          = prod_map (λ i, default ∅ (records !! i))
                     (λ i, default ∅ (records !! i))
              <$> iter_utils.combinations2 (seq 0 (length records))) as ->.
  { rewrite <- combinations2_fmap. f_equal.
    apply list_eq. intros i. rewrite list_lookup_fmap.
    destruct (decide (i < length records)%nat) as [Hi|Hi].
    - rewrite lookup_seq_lt by done. simpl.
      by destruct (lookup_lt_is_Some_2 records i Hi) as [r ->].
    - rewrite lookup_seq_ge by lia. simpl.
      by rewrite lookup_ge_None_2 by lia. }
  rewrite list_lookup_fmap.
  destruct (iter_utils.combinations2 (seq 0 (length records)) !! k)
    as [[i j]|] eqn:Hk.
  - destruct (Forall2_lookup_l _ _ _ _ _ Hall Hk) as ([a b] & -> & Ha & Hb).
    simpl in *. by rewrite Ha, Hb.
  - apply (Forall2_length) in Hall. apply lookup_ge_None_1 in Hk.
    simpl. apply lookup_ge_None_2. lia.
Qed.

(* ===================================================================== *)
(** *** rule_based_blocking.py: the blocks *)
(* ===================================================================== *)
Section iter_blocks_facts.
Import rule_based_blocking.
Context {Row : Type}.

Lemma NoDup_first_seen {A} `{!EqDecision A} (l : list A) : ∀ seen,
  NoDup seen → NoDup (first_seen seen l).
Proof.
  induction l as [|x l IH]; intros seen Hnd; simpl; [done|].
  destruct (decide (x ∈ seen)); [by apply IH|].
  apply IH. apply NoDup_app. split; [done|]. split; [|apply NoDup_singleton].
  intros y Hy ->%list_elem_of_singleton. done.
Qed.

(** The keys of [groupby]: the distinct ids. *)
Lemma groupby_keys (ids : list Z) :
  NoDup (numpy.unique_counts Z.le ids).*1 ∧
  ∀ k, k ∈ (numpy.unique_counts Z.le ids).*1 ↔ k ∈ ids.
Proof.
  unfold numpy.unique_counts.
  destruct (run_lengths_spec Z.le (merge_sort Z.le ids)) as (Hnd & Hin & _).
  { apply StronglySorted_merge_sort; apply _. }
  split; [done|]. intros k. by rewrite Hin, merge_sort_Permutation.
Qed.

Lemma filter_split {A} (P Q : A → Prop) `{!∀ x, Decision (P x)}
    `{!∀ x, Decision (Q x)} (l : list A) :
  (∀ x, P x → Q x → False) →
  filter P l ++ filter Q l ≡ₚ filter (λ x, P x ∨ Q x) l.
Proof.
  intros Hdisj. induction l as [|x l IH]; [done|].
  rewrite !filter_cons.
  destruct (decide (P x)) as [HP|HP], (decide (Q x)) as [HQ|HQ].
  - destruct (Hdisj x HP HQ).
  - rewrite decide_True by by left. simpl. by rewrite IH.
  - rewrite decide_True by by right.
    rewrite <- Permutation_middle. by rewrite IH.
  - rewrite decide_False by tauto. done.
Qed.

(** The groups of distinct keys, put end to end, are the rows that
    carry one of the keys. *)
Lemma groups_concat (zs : list (Z * Row)) (keys : list Z) :
  NoDup keys →
  concat ((λ k, filter (λ p, p.1 = k) zs) <$> keys)
  ≡ₚ filter (λ p, p.1 ∈ keys) zs.
Proof.
  induction 1 as [|k keys Hk Hnd IH]; simpl.
  - induction zs as [|z zs IHz]; [done|].
    rewrite filter_cons, decide_False; [done | apply not_elem_of_nil].
  - rewrite IH, filter_split.
    + apply reflexive_eq, filter_ext_elem. intros p _.
      rewrite elem_of_cons. done.
    + intros p <- Hin. done.
Qed.

Lemma filter_all {A} (P : A → Prop) `{!∀ x, Decision (P x)} (l : list A) :
  (∀ x, x ∈ l → P x) → filter P l = l.
Proof.
  induction l as [|x l IH]; intros Hall; [done|].
  rewrite filter_cons, decide_True by (apply Hall; by left).
  f_equal. apply IH. intros y Hy. apply Hall. by right.
Qed.

Lemma concat_groups (F : Z → list (Z * Row)) (keys : list Z) :
  concat ((λ k, (k, snd <$> F k)) <$> keys).*2 = snd <$> concat (F <$> keys).
Proof.
  induction keys as [|k keys IH]; [done|].
  rewrite !fmap_cons. cbn [concat snd]. by rewrite fmap_app, <- IH.
Qed.

Lemma groupby_spec (ids : list Z) (data : list Row) :
  length ids = length data →
  let groups := groupby ids data in
  NoDup groups.*1 ∧
  (∀ k, k ∈ groups.*1 ↔ k ∈ ids) ∧
  (∀ k rows, (k, rows) ∈ groups → rows = members_of k ids data ∧ rows ≠ []) ∧
  length groups = length (first_seen [] ids) ∧
  concat groups.*2 ≡ₚ data.
Proof.
  intros Hlen. destruct (groupby_keys ids) as [Hnd Hin].
  unfold groupby. cbn zeta.
  set (keys := (numpy.unique_counts Z.le ids).*1) in *.
  assert (((λ k, (k, snd <$> filter (λ p : Z * Row, p.1 = k) (zip ids data)))
             <$> keys).*1 = keys) as Hfst.
  { rewrite <- list_fmap_compose. apply list_fmap_id. }
  rewrite Hfst. split; [done|]. split; [done|]. split; [|split].
  - intros k rows (k' & [= <- ->] & Hk)%list_elem_of_fmap.
    split; [done|]. apply Hin, list_elem_of_lookup_1 in Hk as [i Hi].
    destruct (lookup_lt_is_Some_2 data i) as [r Hr];
      [apply lookup_lt_Some in Hi; lia|].
    intros Hnil. apply fmap_nil_inv in Hnil.
    assert ((k, r) ∈ filter (λ p : Z * Row, p.1 = k) (zip ids data)) as Hmem.
    { apply list_elem_of_filter. split; [done|].
      apply list_elem_of_lookup. exists i. by apply lookup_zip_Some. }
    rewrite Hnil in Hmem. by apply elem_of_nil in Hmem.
  - rewrite length_fmap. apply Permutation_length, NoDup_Permutation;
      [done | by apply NoDup_first_seen, NoDup_nil|].
    intros k. rewrite Hin, elem_of_first_seen, elem_of_nil. tauto.
  - rewrite (concat_groups (λ k, filter (λ p : Z * Row, p.1 = k)
                                   (zip ids data))).
    rewrite groups_concat by done.
    rewrite filter_all.
    + by rewrite snd_zip by lia.
    + intros [k r] Hp. simpl. apply Hin. by apply elem_of_zip_l in Hp.
Qed.

End iter_blocks_facts.

(** X27.  Without a splitter and without filters, [iter_blocks] yields
    one block per distinct blocking id, under that id: the rows that
    carry the id, in the order of the frame.  No block is empty, the
    blocks together hold every row once, and there are [num_blocks] of
    them. *)
Theorem iter_blocks_partition {Row}
    (self : rule_based_blocking.RuleBasedBlocking (Row := Row)) :
  rule_based_blocking.blocking_splitter self = None →
  rule_based_blocking.blocking_filters self = None →
  length (rule_based_blocking.blocking_id self)
  = length (rule_based_blocking._data self) →
  ∃ blocks, rule_based_blocking.iter_blocks self = Some blocks ∧
    NoDup blocks.*1 ∧
    (∀ k, k ∈ blocks.*1 ↔ k ∈ rule_based_blocking.blocking_id self) ∧
    (∀ k rows, (k, rows) ∈ blocks →
       rows = members_of k (rule_based_blocking.blocking_id self)
                (rule_based_blocking._data self) ∧ rows ≠ []) ∧
    length blocks = rule_based_blocking.num_blocks self ∧
    concat blocks.*2 ≡ₚ rule_based_blocking._data self.
Proof.
  intros Hsplit Hfilter Hlen.
  exists (rule_based_blocking.groupby (rule_based_blocking.blocking_id self)
            (rule_based_blocking._data self)).
  split; [|by apply groupby_spec].
  unfold rule_based_blocking.iter_blocks.
  set (groups := rule_based_blocking.groupby _ _).
  assert (mapM (λ '(group_id, group),
                  rule_based_blocking._split_block self group_id group) groups
          = Some ((λ g, [(g.1, rule_based_blocking.DataFrame g.2)])
                    <$> groups)) as ->.
  { apply mapM_Some_2. apply Forall2_fmap_r, Forall_Forall2_diag, Forall_forall.
    intros [k rows] _. unfold rule_based_blocking._split_block.
    by rewrite Hsplit. }
  cbn [mbind option_bind]. f_equal.
  clear Hlen. induction groups as [|[k rows] gs IH]; [done|].
  rewrite fmap_cons. cbn [concat app omap list_omap fst snd].
  unfold rule_based_blocking._filter_block at 1. rewrite Hfilter.
  cbn [rule_based_blocking.rows_of]. f_equal. exact IH.
Qed.

Lemma iter_blocks_partition_witness :
  ∃ blocks,
    rule_based_blocking.iter_blocks
      {| rule_based_blocking._data := [10; 11; 12; 13]%nat;
         rule_based_blocking.blocking_id := [1; 0; 1; 2];
         rule_based_blocking.blocking_filters := None;
         rule_based_blocking.blocking_splitter := None |} = Some blocks ∧
    NoDup blocks.*1 ∧
    (∀ k, k ∈ blocks.*1 ↔ k ∈ [1; 0; 1; 2]) ∧
    (∀ k rows, (k, rows) ∈ blocks →
       rows = members_of k [1; 0; 1; 2] [10; 11; 12; 13]%nat ∧ rows ≠ []) ∧
    length blocks
    = rule_based_blocking.num_blocks
        {| rule_based_blocking._data := [10; 11; 12; 13]%nat;
           rule_based_blocking.blocking_id := [1; 0; 1; 2];
           rule_based_blocking.blocking_filters := None;
           rule_based_blocking.blocking_splitter := None |} ∧
    concat blocks.*2 ≡ₚ [10; 11; 12; 13]%nat.
Proof.
  apply (iter_blocks_partition
           {| rule_based_blocking._data := [10; 11; 12; 13]%nat;
              rule_based_blocking.blocking_id := [1; 0; 1; 2];
              rule_based_blocking.blocking_filters := None;
              rule_based_blocking.blocking_splitter := None |}); done.
Defined.

(** X28.  With a [CardinalityBlockingFilter] among the filters, every
    block that [iter_blocks] yields, split or not, has at least
    [min_block_size] rows and, when a [max_block_size] is set, at most
    that many. *)
Theorem iter_blocks_cardinality {Row}
    (self : rule_based_blocking.RuleBasedBlocking (Row := Row))
    (card : cardinality_filtering.CardinalityBlockingFilter)
    (filters : list (list Row → bool)) (blocks : list (Z * list Row)) :
  rule_based_blocking.blocking_filters self = Some filters →
  cardinality_filtering.__call__ card ∈ filters →
  rule_based_blocking.iter_blocks self = Some blocks →
  Forall (λ b,
      cardinality_filtering.min_block_size card ≤ Z.of_nat (length b.2) ∧
      match cardinality_filtering.max_block_size card with
      | Some m => Z.of_nat (length b.2) ≤ m
      | None => True
      end) blocks.
Proof.
  intros Hfilters Hcard Hrun. unfold rule_based_blocking.iter_blocks in Hrun.
  destruct (mapM _ _) as [subs|]; [|done]. injection Hrun as <-.
  apply Forall_forall.
  intros [k rows] ([k' sub] & _ & Hsub)%list_elem_of_omap.
  destruct (rule_based_blocking._filter_block self
              (rule_based_blocking.rows_of sub)) eqn:Hkeep; [done|].
  assert (rule_based_blocking.rows_of sub = rows) as Hrows.
  { destruct sub; simpl in *; congruence. }
  rewrite Hrows in Hkeep. clear Hsub Hrows.
  unfold rule_based_blocking._filter_block in Hkeep. rewrite Hfilters in Hkeep.
  cbn [snd] in *.
  assert (cardinality_filtering.__call__ card rows = false) as Hc.
  { destruct (cardinality_filtering.__call__ card rows) eqn:Hc; [|done].
    rewrite <- Hkeep. symmetry. apply existsb_exists.
    exists (cardinality_filtering.__call__ card). split; [|done].
    by apply list_elem_of_In. }
  unfold cardinality_filtering.__call__ in Hc.
  apply orb_false_elim in Hc as [Hmax Hmin].
  apply bool_decide_eq_false in Hmin. split; [lia|].
  destruct (cardinality_filtering.max_block_size card) as [m|]; [|done].
  apply bool_decide_eq_false in Hmax. lia.
Qed.

Lemma iter_blocks_cardinality_witness :
  Forall (λ b : Z * list nat,
      2 ≤ Z.of_nat (length b.2) ∧ Z.of_nat (length b.2) ≤ 3)
    [(1, [10; 12]%nat)].
Proof.
  apply (iter_blocks_cardinality
           {| rule_based_blocking._data := [10; 11; 12; 13]%nat;
              rule_based_blocking.blocking_id := [1; 0; 1; 2];
              rule_based_blocking.blocking_filters :=
                Some [cardinality_filtering.__call__
                        {| cardinality_filtering.min_block_size := 2;
                           cardinality_filtering.max_block_size := Some 3 |}];
              rule_based_blocking.blocking_splitter := None |}
           {| cardinality_filtering.min_block_size := 2;
              cardinality_filtering.max_block_size := Some 3 |}
           [cardinality_filtering.__call__
              {| cardinality_filtering.min_block_size := 2;
                 cardinality_filtering.max_block_size := Some 3 |}]
           [(1, [10; 12]%nat)]).
  - done.
  - by left.
  - by vm_compute.
Defined.

(** X14.  With a [SortedNeighbourhoodBlockSplitter] as splitter (window
    and step of at least 1) and no filter, [iter_blocks] yields the
    groups of at most [max_block_size] rows, whole, and nothing of the
    larger groups: the windows that the splitter cuts them into are
    tuples, which [iter_blocks] passes over, so every row of a group
    above [max_block_size] is lost. *)
Theorem iter_blocks_loses_split_blocks {Row K} (key_lt : K → K → Prop)
    `{!RelDecision key_lt} (sorting_key_fn : Row → K)
    (self : rule_based_blocking.RuleBasedBlocking (Row := Row))
    (splitter : sorted_neighbourhood_splitter.SortedNeighbourhoodBlockSplitter)
    (fuel : nat) :
  rule_based_blocking.blocking_splitter self
  = Some (rule_based_blocking.sorted_neighbourhood key_lt sorting_key_fn
            splitter fuel) →
  rule_based_blocking.blocking_filters self = None →
  (1 ≤ sorted_neighbourhood_splitter.window_size splitter)%nat →
  (1 ≤ sorted_neighbourhood_splitter.step_size splitter)%nat →
  (length (rule_based_blocking._data self) < fuel)%nat →
  rule_based_blocking.iter_blocks self
  = Some (filter (λ g, (length g.2
                        ≤ sorted_neighbourhood_splitter.max_block_size
                            splitter)%nat)
            (rule_based_blocking.groupby
               (rule_based_blocking.blocking_id self)
               (rule_based_blocking._data self))).
Proof.
  intros Hsplit Hfilter HW HS Hfuel.
  unfold rule_based_blocking.iter_blocks.
  assert (Forall (λ g : Z * list Row, (length g.2 < fuel)%nat)
            (rule_based_blocking.groupby
               (rule_based_blocking.blocking_id self)
               (rule_based_blocking._data self))) as Hgroups.
  { unfold rule_based_blocking.groupby. apply Forall_fmap, Forall_forall.
    intros k _. unfold compose. cbn [snd]. rewrite length_fmap.
    pose proof (length_filter (λ p : Z * Row, p.1 = k)
                  (zip (rule_based_blocking.blocking_id self)
                       (rule_based_blocking._data self))) as Hf.
    rewrite length_zip in Hf. lia. }
  induction Hgroups as [|[k rows] groups Hrows _ IH]; [done|].
  cbn [snd] in Hrows. cbn [mapM].
  destruct (mapM _ groups) as [subs|]; [|done].
  cbn [mbind option_bind] in IH. injection IH as IH.
  assert (rule_based_blocking._split_block self k rows
          = rule_based_blocking.sorted_neighbourhood key_lt sorting_key_fn
              splitter fuel k rows) as ->.
  { unfold rule_based_blocking._split_block. by rewrite Hsplit. }
  unfold rule_based_blocking.sorted_neighbourhood.
  rewrite filter_cons. cbn [snd].
  destruct (decide (length rows
                    ≤ sorted_neighbourhood_splitter.max_block_size splitter)%nat)
    as [Hsmall|Hbig].
  - unfold sorted_neighbourhood_splitter.__call__.
    rewrite decide_True by done.
    cbn [mbind option_bind mret option_ret fmap list_fmap concat app
         omap list_omap fst snd].
    unfold rule_based_blocking._filter_block at 1. rewrite Hfilter.
    by rewrite IH.
  - destruct (splitter_large_block key_lt sorting_key_fn splitter fuel k rows)
      as (ws & -> & _); [lia | done | done | done |].
    cbn [mbind option_bind mret option_ret concat].
    rewrite omap_app, IH.
    assert (∀ ws' : list (list Row),
              omap (λ '(sub_group_id, sub_group),
                      if rule_based_blocking._filter_block self
                           (rule_based_blocking.rows_of sub_group)
                      then None
                      else match sub_group with
                           | rule_based_blocking.PyList rows0
                           | rule_based_blocking.DataFrame rows0 =>
                               Some (sub_group_id, rows0)
                           | rule_based_blocking.PyTuple _ => None
                           end)
                   ((λ sub : Z * list Row,
                       (sub.1, rule_based_blocking.PyTuple sub.2))
                      <$> ((λ window, (k, window)) <$> ws')) = []) as ->;
      [|done].
    induction ws' as [|w ws' IHw]; [done|].
    cbn [fmap list_fmap omap list_omap fst snd].
    by destruct (rule_based_blocking._filter_block self _).
Qed.

Lemma iter_blocks_loses_split_blocks_witness :
  rule_based_blocking.iter_blocks
    {| rule_based_blocking._data := [10; 11; 12; 13; 14; 15]%nat;
       rule_based_blocking.blocking_id := [1; 0; 1; 1; 0; 1];
       rule_based_blocking.blocking_filters := None;
       rule_based_blocking.blocking_splitter :=
         Some (rule_based_blocking.sorted_neighbourhood lt id
                 {| sorted_neighbourhood_splitter.max_block_size := 3;
                    sorted_neighbourhood_splitter.window_size := 3;
                    sorted_neighbourhood_splitter.step_size := 1 |} 7) |}
  = Some (filter (λ g : Z * list nat, (length g.2 ≤ 3)%nat)
            (rule_based_blocking.groupby [1; 0; 1; 1; 0; 1]
               [10; 11; 12; 13; 14; 15]%nat)).
Proof.
  apply (iter_blocks_loses_split_blocks lt id
           {| rule_based_blocking._data := [10; 11; 12; 13; 14; 15]%nat;
              rule_based_blocking.blocking_id := [1; 0; 1; 1; 0; 1];
              rule_based_blocking.blocking_filters := None;
              rule_based_blocking.blocking_splitter :=
                Some (rule_based_blocking.sorted_neighbourhood lt id
                        {| sorted_neighbourhood_splitter.max_block_size := 3;
                           sorted_neighbourhood_splitter.window_size := 3;
                           sorted_neighbourhood_splitter.step_size := 1 |} 7) |}
           {| sorted_neighbourhood_splitter.max_block_size := 3;
              sorted_neighbourhood_splitter.window_size := 3;
              sorted_neighbourhood_splitter.step_size := 1 |} 7);
    simpl; (done || lia).
Defined.

(** The four rows of block 1 are in no block. *)
Example iter_blocks_loses_block_1 :
  rule_based_blocking.iter_blocks
    {| rule_based_blocking._data := [10; 11; 12; 13; 14; 15]%nat;
       rule_based_blocking.blocking_id := [1; 0; 1; 1; 0; 1];
       rule_based_blocking.blocking_filters := None;
       rule_based_blocking.blocking_splitter :=
         Some (rule_based_blocking.sorted_neighbourhood lt id
                 {| sorted_neighbourhood_splitter.max_block_size := 3;
                    sorted_neighbourhood_splitter.window_size := 3;
                    sorted_neighbourhood_splitter.step_size := 1 |} 7) |}
  = Some [(0, [11; 14]%nat)].
Proof. by vm_compute. Qed.

(* ===================================================================== *)
(** *** deduplicator.py: the clusters of a label vector *)
(* ===================================================================== *)
Section to_iter_facts.
Import deduplicator.
Context {V : Type}.
Implicit Types (d : gmap Z (nat * option (list (gmap string V)))).

(** The dict comprehension: cluster number [k] of the set gets the
    [k]-th fresh id. *)
Lemma fresh_clusters_ids uniq : ∀ d (st : nat),
  NoDup uniq →
  ∃ d', foldl (λ '(d, st) cl,
                 let '(cluster_id, st') := new_id st in
                 (<[cl := (cluster_id, None)]> d, st'))
              (d, st) uniq = (d', (st + length uniq)%nat) ∧
        ∀ k c, uniq !! k = Some c → d' !! c = Some ((st + k)%nat, None).
Proof.
  induction uniq as [|cl uniq IH]; intros d st Hnd.
  - exists d. simpl. rewrite Nat.add_0_r. split; [done|]. by intros k c.
  - apply NoDup_cons in Hnd as [Hcl Hnd]. simpl.
    destruct (IH (<[cl := (st, None)]> d) (S st) Hnd) as (d' & Hfold & Hd').
    exists d'. split.
    + replace (st + S (length uniq))%nat with (S st + length uniq)%nat by lia.
      exact Hfold.
    + intros [|k] c Hk; simpl in Hk.
      * injection Hk as <-. rewrite Nat.add_0_r.
        assert (∀ us d0 (st0 : nat) c0 v,
                  c0 ∉ us → d0 !! c0 = Some v →
                  (foldl (λ '(d, st) cl,
                            let '(cluster_id, st') := new_id st in
                            (<[cl := (cluster_id, None)]> d, st'))
                         (d0, st0) us).1 !! c0 = Some v) as Hkeep.
        { clear. induction us as [|u us IHu]; intros d0 st0 c0 v Hc0 Hv;
            [done|].
          simpl. apply IHu.
          - intros Hin. apply Hc0. by right.
          - rewrite lookup_insert_ne; [done|]. intros ->. apply Hc0. by left. }
        specialize (Hkeep uniq (<[cl := (st, None)]> d) (S st) cl (st, None) Hcl).
        rewrite Hfold in Hkeep. apply Hkeep. by rewrite lookup_insert_eq.
      * rewrite (Hd' k c Hk). do 2 f_equal. lia.
Qed.

(** The loop over [zip(cluster_labels, records)] appends to the cluster
    of each label the records that carry it. *)
Lemma add_mentions_grow zs : ∀ d c i ms0,
  c ≠ -1 → d !! c = Some (i, ms0) →
  foldl (λ d '(label, mention),
           if decide (label ≠ -1) then add_mention label mention d else d)
        d zs !! c
  = Some (i, grow ms0 (snd <$> filter (λ p, p.1 = c) zs)).
Proof.
  induction zs as [|[label mention] zs IH]; intros d c i ms0 Hc Hd.
  - done.
  - cbn [foldl]. rewrite filter_cons. cbn [fst].
    destruct (decide (label ≠ -1)) as [Hl|Hl].
    + destruct (decide (label = c)) as [->|Hne].
      * rewrite (IH _ c i (Some (default [] ms0 ++ [mention]))); [|done|].
        -- f_equal. f_equal. apply grow_snoc.
        -- unfold add_mention. by rewrite lookup_alter_eq, Hd.
      * apply IH; [done|]. unfold add_mention.
        by rewrite lookup_alter_ne.
    + rewrite decide_False by (intros ->; by apply Hl). by apply IH.
Qed.

Lemma members_of_nonempty (L : list Z) (rs : list (gmap string V)) c :
  (length L ≤ length rs)%nat → c ∈ L → members_of c L rs ≠ [].
Proof.
  intros Hlen [i Hi]%list_elem_of_lookup_1.
  destruct (lookup_lt_is_Some_2 rs i) as [r Hr];
    [apply lookup_lt_Some in Hi; lia|].
  unfold members_of. intros Hnil%fmap_nil_inv.
  assert ((c, r) ∈ filter (λ p : Z * gmap string V, p.1 = c) (zip L rs))
    as Hmem.
  { apply list_elem_of_filter. split; [done|].
    apply list_elem_of_lookup. exists i. by apply lookup_zip_Some. }
  rewrite Hnil in Hmem. by apply elem_of_nil in Hmem.
Qed.

End to_iter_facts.

(** X29.  [to_iter] on a label vector not longer than the record list:
    it yields one cluster for each label other than [-1], under the
    fresh ids [st, st + 1, ...] in the order it yields them; the
    cluster of a label is the non-empty list of the records that carry
    the label, in input order.  Records labelled [-1] are in no
    cluster. *)
Theorem to_iter_clusters {V} (cluster_labels : list Z)
    (records : list (gmap string V)) (st : nat) :
  (length cluster_labels ≤ length records)%nat →
  ∃ out, deduplicator.to_iter cluster_labels records st
         = (Some out, (st + length out)%nat) ∧
    out.*1 = seq st (length out) ∧
    length out = size ((list_to_set cluster_labels : gset Z) ∖ {[ -1 ]}) ∧
    (∀ c, c ∈ cluster_labels → c ≠ -1 →
       members_of c cluster_labels records ∈ out.*2) ∧
    Forall (λ o, ∃ c, c ∈ cluster_labels ∧ c ≠ -1 ∧
                      o.2 = members_of c cluster_labels records ∧ o.2 ≠ [])
           out.
Proof.
  intros Hlen. unfold deduplicator.to_iter.
  set (uniq := elements ((list_to_set cluster_labels : gset Z) ∖ {[ -1 ]})).
  assert (∀ c, c ∈ uniq ↔ c ∈ cluster_labels ∧ c ≠ -1) as Huniq.
  { intros c. unfold uniq.
    rewrite elem_of_elements, elem_of_difference, elem_of_list_to_set,
      elem_of_singleton. done. }
  destruct (fresh_clusters_ids (V := V) uniq ∅ st) as (d0 & Hfold & Hd0);
    [apply NoDup_elements|].
  rewrite Hfold.
  set (out := imap (λ k c, ((st + k)%nat,
                            members_of c cluster_labels records)) uniq).
  assert (length out = length uniq) as Hout by apply length_imap.
  assert (∀ k c, uniq !! k = Some c →
            out !! k = Some ((st + k)%nat,
                             members_of c cluster_labels records)) as Hlook.
  { intros k c Hk. unfold out. by rewrite list_lookup_imap, Hk. }
  exists out. split; [|split; [|split; [|split]]].
  - rewrite Hout. f_equal. apply mapM_Some_2.
    apply Forall2_same_length_lookup_2; [done|].
    intros k c o Hk Ho. rewrite (Hlook k c Hk) in Ho. injection Ho as <-.
    assert (c ∈ cluster_labels ∧ c ≠ -1) as [HcL Hc].
    { apply Huniq. by apply list_elem_of_lookup_2 in Hk. }
    rewrite (add_mentions_grow _ _ c (st + k)%nat None Hc (Hd0 k c Hk)).
    cbn [mbind option_bind]. fold (members_of c cluster_labels records).
    pose proof (members_of_nonempty cluster_labels records c Hlen HcL) as Hne.
    by destruct (members_of c cluster_labels records).
  - apply list_eq. intros k. rewrite list_lookup_fmap.
    destruct (uniq !! k) as [c|] eqn:Hk.
    + rewrite (Hlook k c Hk). simpl. symmetry. apply lookup_seq.
      apply lookup_lt_Some in Hk. split; [done | lia].
    + apply lookup_ge_None_1 in Hk.
      rewrite (lookup_ge_None_2 out) by lia. simpl. symmetry.
      apply lookup_seq_ge. lia.
  - by rewrite Hout.
  - intros c HcL Hc.
    assert (c ∈ uniq) as [k Hk]%list_elem_of_lookup_1 by by apply Huniq.
    apply list_elem_of_fmap. eexists. split; [|
      apply list_elem_of_lookup_2 with k; by apply Hlook]. done.
  - apply Forall_forall. intros o [k Ho]%list_elem_of_lookup_1.
    destruct (uniq !! k) as [c|] eqn:Hk.
    + rewrite (Hlook k c Hk) in Ho. injection Ho as <-.
      assert (c ∈ cluster_labels ∧ c ≠ -1) as [HcL Hc].
      { apply Huniq. by apply list_elem_of_lookup_2 in Hk. }
      exists c. repeat (split; [done|]). simpl.
      by apply members_of_nonempty.
    + apply lookup_ge_None_1 in Hk. apply lookup_lt_Some in Ho. lia.
Qed.

Lemma to_iter_clusters_witness :
  ∃ out, deduplicator.to_iter [0; -1; 0; 1]
           [{[ "a" := 1%Z ]}; {[ "a" := 2%Z ]}; {[ "a" := 3%Z ]};
            {[ "a" := 4%Z ]}] 5
         = (Some out, (5 + length out)%nat) ∧
    out.*1 = seq 5 (length out) ∧
    length out = size ((list_to_set [0; -1; 0; 1] : gset Z) ∖ {[ -1 ]}) ∧
    (∀ c, c ∈ [0; -1; 0; 1] → c ≠ -1 →
       members_of c [0; -1; 0; 1]
         [{[ "a" := 1%Z ]}; {[ "a" := 2%Z ]}; {[ "a" := 3%Z ]};
          ({[ "a" := 4%Z ]} : gmap string Z)] ∈ out.*2) ∧
    Forall (λ o, ∃ c, c ∈ [0; -1; 0; 1] ∧ c ≠ -1 ∧
                      o.2 = members_of c [0; -1; 0; 1]
                              [{[ "a" := 1%Z ]}; {[ "a" := 2%Z ]};
                               {[ "a" := 3%Z ]}; {[ "a" := 4%Z ]}] ∧
                      o.2 ≠ [])
           out.
Proof.
  apply (to_iter_clusters [0; -1; 0; 1]
           [{[ "a" := 1%Z ]}; {[ "a" := 2%Z ]}; {[ "a" := 3%Z ]};
            {[ "a" := 4%Z ]}] 5).
  simpl. lia.
Defined.

Section block_process_facts.
Import deduplicator.
Context {V : Type}.

Lemma mapM_fails {A B} (f : A → option B) (l : list A) x :
  x ∈ l → f x = None → mapM f l = None.
Proof.
  intros [i Hi]%list_elem_of_lookup_1 Hx.
  destruct (mapM f l) as [out|] eqn:HM; [|done].
  apply mapM_Some_1 in HM.
  destruct (Forall2_lookup_l _ _ _ _ _ HM Hi) as (y & _ & Hy). congruence.
Qed.

(** In a block of two records or more, every record is in one of the
    candidate pairs. *)
Lemma candidate_pair_of_record (group : list (gmap string V)) r it :
  (2 ≤ length group)%nat → r ∈ group →
  iter_over_candidates group
    (iter_utils.combinations2 (seq 0 (length group))) = Some it →
  ∃ a b, (a, b) ∈ it ∧ (a = r ∨ b = r).
Proof.
  intros Hn [i Hi]%list_elem_of_lookup_1 Hit.
  assert (i < length group)%nat as Hlt by by apply lookup_lt_Some in Hi.
  set (j := if decide (i = 0)%nat then 1%nat else 0%nat).
  assert (j < length group ∧ j ≠ i)%nat as [Hj Hji]
    by (unfold j; destruct (decide (i = 0)%nat); lia).
  assert ((i `min` j, i `max` j)%nat
          ∈ iter_utils.combinations2 (seq 0 (length group))) as Hin.
  { apply elem_of_combinations2. exists (i `min` j)%nat, (i `max` j)%nat.
    split; [lia|]. rewrite !lookup_seq. lia. }
  apply list_elem_of_lookup_1 in Hin as [k Hk].
  apply mapM_Some_1 in Hit.
  destruct (Forall2_lookup_l _ _ _ _ _ Hit Hk) as ([a b] & Hab & Hf).
  cbn beta iota in Hf.
  destruct (group !! (i `min` j)%nat) as [a'|] eqn:Ha; [|done].
  destruct (group !! (i `max` j)%nat) as [b'|] eqn:Hb; [|done].
  simpl in Hf. injection Hf as <- <-.
  exists a', b'. split; [by apply list_elem_of_lookup_2 in Hab|].
  destruct (decide (i < j)%nat).
  - left. rewrite Nat.min_l in Ha by lia. congruence.
  - right. rewrite Nat.max_l in Hb by lia. congruence.
Qed.

End block_process_facts.

(** X30.  A record without one of the compared attributes makes the
    whole block fail: [_block_process] on a block of two records or
    more raises (KeyError) as soon as one record of the block lacks the
    attribute of one comparator, and yields no cluster. *)
Theorem block_process_missing_attribute {V}
    (DBSCAN : Q → Z → list (list Q) → list Z)
    (self : deduplicator.Deduplicator (V := V))
    (records : list (gmap string V)) (similarity_threshold : Q)
    (group_id : Z) (group_records : list (gmap string V)) (st : nat)
    (r : gmap string V) (attribute_name : string) (comparator : V → V → Q) :
  (2 ≤ length group_records)%nat → r ∈ group_records →
  (attribute_name, comparator) ∈ deduplicator.comparators self →
  r !! attribute_name = None →
  deduplicator._block_process DBSCAN self records similarity_threshold
    group_id group_records st = (None, st).
Proof.
  intros Hn Hr Hcmp Hmiss. unfold deduplicator._block_process.
  destruct group_records as [|r0 rest] eqn:Hg; [simpl in Hn; lia|].
  rewrite <- Hg in *. clear Hg.
  destruct (deduplicator.iter_over_candidates group_records _) as [it|] eqn:Hit;
    [|done].
  cbn [mbind option_bind].
  destruct (candidate_pair_of_record group_records r it Hn Hr Hit)
    as (a & b & Hab & Hor).
  unfold deduplicator.compute_pairwise.
  rewrite (mapM_fails _ it (a, b) Hab); [done|].
  cbn beta iota.
  rewrite (mapM_fails _ (deduplicator.comparators self)
             (attribute_name, comparator) Hcmp); [done|].
  cbn beta iota. destruct Hor as [->| ->].
  - by rewrite Hmiss.
  - rewrite Hmiss. by destruct (a !! attribute_name).
Qed.

Lemma block_process_missing_attribute_witness :
  deduplicator._block_process (λ _ _ m, replicate (length m) 0)
    {| deduplicator.comparators := [("name"%string, λ _ _ : Z, 1%Q)];
       deduplicator.aggregation_fn := λ _, 1%Q;
       deduplicator.clusterer :=
         {| dbscan_clusterer.eps := 1 # 2;
            dbscan_clusterer.min_samples := 2 |} |}
    [] (8 # 10) 0 [{[ "name"%string := 1%Z ]}; {[ "city"%string := 2%Z ]}] 0
  = (None, 0%nat).
Proof.
  apply (block_process_missing_attribute (λ _ _ m, replicate (length m) 0)
           {| deduplicator.comparators := [("name"%string, λ _ _ : Z, 1%Q)];
              deduplicator.aggregation_fn := λ _, 1%Q;
              deduplicator.clusterer :=
                {| dbscan_clusterer.eps := 1 # 2;
                   dbscan_clusterer.min_samples := 2 |} |}
           [] (8 # 10) 0
           [{[ "name"%string := 1%Z ]}; {[ "city"%string := 2%Z ]}] 0
           {[ "city"%string := 2%Z ]} "name"%string (λ _ _ : Z, 1%Q)).
  - simpl. lia.
  - apply elem_of_cons. right. by left.
  - by left.
  - done.
Defined.

(* ===================================================================== *)
(** *** Further facts on the metrics and on the iterators *)
(* ===================================================================== *)
Section further_facts.
Import functional iter_utils.

(** [max_possible_comparison(n)] is the integer [C(n, 2)]: the total of
    the four counts of [confusion_matrix] on [n] records. *)
Lemma max_possible_comparison_combinations (n : Z) :
  (max_possible_comparison n == inject_Z (combinations n))%Q.
Proof.
  unfold max_possible_comparison, combinations.
  assert (n * (n - 1) = 2 * ((n * (n - 1)) `div` 2)) as Heq.
  { apply Z_div_exact_full_2; [lia|].
    destruct (Z.Even_or_Odd n) as [[k ->]|[k ->]].
    - replace (2 * k * (2 * k - 1)) with ((k * (2 * k - 1)) * 2) by lia.
      apply Z_mod_mult.
    - replace ((2 * k + 1) * (2 * k + 1 - 1)) with (((2 * k + 1) * k) * 2)
        by lia.
      apply Z_mod_mult. }
  rewrite Heq at 1. rewrite inject_Z_mult. field.
Qed.

(** [pair_completeness], the complement of [recall], lies in [0, 100]
    on at most 13421773 labels. *)
Lemma pair_completeness_bounds (true_labels pred_labels : list Z) :
  length true_labels = length pred_labels →
  100 * combinations (Z.of_nat (length pred_labels)) ≤ 2 ^ 53 →
  ∃ r c, recall true_labels pred_labels = Some r ∧
         pair_completeness true_labels pred_labels = Some c ∧
         c = binary64.sub 100 r ∧ (0 <= c)%Q ∧ (c <= 100)%Q.
Proof.
  intros Hlen Hbound.
  destruct (precision_spec pred_labels true_labels (eq_sym Hlen))
    as (r & Hr & Hr0 & Hr1 & _); [by rewrite Hlen|].
  exists r, (binary64.sub 100 r). unfold pair_completeness, recall.
  rewrite Hr. split; [done|]. split; [done|]. split; [done|].
  unfold binary64.sub. split.
  - apply round_nonneg. lra.
  - apply (round_le_int _ 100); [done|]. change (inject_Z 100) with 100%Q. lra.
Qed.

(** The number of clusters with two records or more is not above the
    number of clusters, which is not above the number of records. *)
Lemma calc_cluster_statistics_le (labels : list Z) :
  ((calc_cluster_statistics labels).1 ≤ (calc_cluster_statistics labels).2
   ≤ length labels)%nat.
Proof.
  unfold calc_cluster_statistics. cbn [fst snd].
  assert (∀ l (c0 : gmap Z nat),
            dom (foldl (λ counter x,
                          <[x := S (default 0%nat (counter !! x))]> counter)
                       c0 l)
            = dom c0 ∪ list_to_set l) as Hdom.
  { induction l as [|x l IH]; intros c0.
    - simpl. apply leibniz_equiv. intros y.
      rewrite elem_of_union, elem_of_empty. tauto.
    - cbn [foldl]. rewrite IH, dom_insert_L. apply leibniz_equiv. intros y.
      rewrite list_to_set_cons, !elem_of_union, elem_of_singleton. tauto. }
  split.
  - etrans; [apply length_filter|].
    change (length (elements (dom (Counter labels))))
      with (size (dom (Counter labels))).
    by rewrite size_dom.
  - rewrite <- size_dom. unfold Counter. rewrite Hdom, dom_empty_L.
    rewrite (left_id_L (∅ : gset Z) (∪)).
    clear. induction labels as [|x l IH]; [done|].
    rewrite list_to_set_cons, size_union_alt, size_singleton. simpl.
    pose proof (subseteq_size ((list_to_set l : gset Z) ∖ {[x]}) (list_to_set l))
      as Hsub.
    specialize (Hsub ltac:(apply subseteq_difference_l; done)). lia.
Qed.

(** [take_unique_everseen] yields a prefix of its input. *)
Lemma take_unique_everseen_prefix {A K} `{!EqDecision K} (key : A → K)
    (iterable : list A) (limit : Z) :
  ∃ n, take_unique_everseen key iterable limit = take n iterable.
Proof.
  unfold take_unique_everseen. generalize (@nil K) as seenset.
  assert (∀ l seen, limit < Z.of_nat (length seen) →
            take_unique_everseen_loop key limit seen l = []) as Hfull.
  { induction l as [|e l IH]; intros seen Hseen; [done|].
    cbn [take_unique_everseen_loop].
    destruct (decide (key e ∈ seen)).
    - rewrite decide_False by lia. by apply IH.
    - rewrite decide_False by (simpl; lia). apply IH. simpl. lia. }
  induction iterable as [|e l IH]; intros seen.
  - by exists 0%nat.
  - cbn [take_unique_everseen_loop].
    set (seen' := if decide (key e ∈ seen) then seen else key e :: seen).
    destruct (decide (Z.of_nat (length seen') ≤ limit)) as [Hle|Hgt].
    + destruct (IH seen') as [n Hn]. exists (S n). simpl. by rewrite Hn.
    + exists 0%nat. rewrite Hfull by lia. done.
Qed.

End further_facts.
